(** * Coset distance-spectrum search over GF(2^m): a shallow embedding

    The development follows the C program that searches, over GF(2^m), the
    single-parity-check codes with the best spectrum of squared Euclidean
    distances (quadrances).  Machine integers are integers of [Z] whose
    wrap-around is written out ([u32] for [unsigned] and [gf_elt], [u64]
    for [size_t] and [unsigned long], [s32] for [int]); C arrays are lists
    read and written by index. *)

From Stdlib Require Import ZArith Lia List Bool Permutation Sorted.
From stdpp Require Import base list.

Local Open Scope Z_scope.

(** ** Machine integers and arrays *)

Definition u32 (z : Z) : Z := z mod 2 ^ 32.
Definition u64 (z : Z) : Z := z mod 2 ^ 64.
Definition s32 (z : Z) : Z := (z + 2 ^ 31) mod 2 ^ 32 - 2 ^ 31.

Definition UINT_MAX : Z := 2 ^ 32 - 1.

(** [a.[i]] reads the cell [i] of the array [a]; the index is the value of an
    unsigned C expression.  A read past the end, which C leaves undefined,
    yields 0 here. *)
Definition get (a : list Z) (i : Z) : Z := default 0 (a !! Z.to_nat i).

(** [set a i v] is the array after [a[i] = v]; a write past the end, which C
    leaves undefined, changes nothing here. *)
Definition set (a : list Z) (i v : Z) : list Z := <[Z.to_nat i := v]> a.

Notation "a .[ i ]" := (get a i) (at level 1, left associativity, format "a .[ i ]").

(** A block of [n] cells that hold 0, as [calloc] returns it.  It also
    stands for the blocks of [malloc], whose cells hold anything, where
    every cell is written before it is read: [cw_begin_clears] and
    [chk_begin_clears] show that the first writes into [x] and [h] leave
    the same array whatever the block held. *)
Definition alloc (n : Z) : list Z := replicate (Z.to_nat n) 0.

(** [for (i = a; i < b; ++i) body]: [for_loop] runs [cnt] iterations from
    [i]; loops left by [break] or [return] are written out one by one. *)
Fixpoint for_loop {St : Type} (cnt : nat) (i : Z) (body : Z -> St -> St) (s : St) : St :=
  match cnt with
  | O => s
  | S c => for_loop c (i + 1) body (body i s)
  end.

Definition for_ {St : Type} (a b : Z) (body : Z -> St -> St) (s : St) : St :=
  for_loop (Z.to_nat (b - a)) a body s.

(** What a loop that may not end, or a write into an array of known size,
    can yield. *)
Inductive outcome (A : Type) : Type :=
  | Done (a : A)
  | OutOfFuel
  | OutOfBounds.
Arguments Done {A} a.
Arguments OutOfFuel {A}.
Arguments OutOfBounds {A}.

Definition obind {A B : Type} (o : outcome A) (k : A -> outcome B) : outcome B :=
  match o with
  | Done a => k a
  | OutOfFuel => OutOfFuel
  | OutOfBounds => OutOfBounds
  end.

Notation "'do' x <- o ; k" := (obind o (fun x => k))
  (at level 10, x pattern, o at level 100, k at level 200).

(** ** The field GF(2^m) *)

Definition primitives : list Z :=
  [0x1; 0x3; 0x7; 0xb; 0x13; 0x25; 0x43; 0x89; 0x11d; 0x221; 0x409].

Definition gf_zero : Z := 0.
Definition gf_one : Z := 1.

Record field : Type := Field {
  gf_size : Z;
  gf_size_minus_1 : Z;
  gf_alpha : Z;
  gf_log : list Z;
  gf_exp : list Z
}.

(** [for (unsigned p = P; p > 0; p >>= 1) gf_size <<= 1;]  An [unsigned] has
    32 bits, so the body runs at most 32 times. *)
Fixpoint gf_init_size (bits : nat) (p size : Z) : Z :=
  match bits with
  | O => size
  | S b => if 0 <? p then gf_init_size b (Z.shiftr p 1) (u64 (Z.shiftl size 1))
           else size
  end.

(** One turn of the loop that fills both tables; the state is [x] and the
    two tables. *)
Definition gf_init_step (P size k : Z) (st : Z * list Z * list Z)
  : Z * list Z * list Z :=
  let '(x, lg, ex) := st in
  let lg := set lg x k in
  let ex := set ex k x in
  let x := u32 (Z.shiftl x 1) in
  let x := if size <=? x then Z.lxor x P else x in
  (x, lg, ex).

(** [gf_init P]: [None] is the exit through [error] on a polynomial that is
    not primitive. *)
Definition gf_init (P : Z) : option field :=
  let size := Z.shiftr (gf_init_size 32 P 1) 1 in
  let sm1 := u64 (size - 1) in
  let lg := set (alloc size) gf_zero (-1) in
  let ex := alloc size in
  let '(x, lg, ex) := for_ 0 sm1 (gf_init_step P size) (gf_one, lg, ex) in
  if x =? gf_one
  then Some (Field size sm1 ex.[1] lg ex)
  else None.

(** [gf_accmul(&acc, hlog, x)]: the new value of [acc].  [hlog] is passed as
    an [int]; the sum [hlog + gf_log[x]] is an [int] too, which wraps on 32
    bits, and is converted to [size_t] by the remainder. *)
Definition gf_accmul (F : field) (acc hlog x : Z) : Z :=
  if x =? gf_zero then acc
  else Z.lxor acc
         (gf_exp F).[u64 (s32 (s32 hlog + (gf_log F).[x]))
                     mod gf_size_minus_1 F].

(** ** Parity vectors *)

(** [for (i = 0; i < n-1; ++i) gf_accmul(&acc, h[i], x[i]);] *)
Definition gf_accmul_all (F : field) (m : Z) (h x : list Z) : Z :=
  for_ 0 m (fun i acc => gf_accmul F acc h.[i] x.[i]) gf_zero.

Definition chk_valid (F : field) (n : Z) (h x : list Z) : bool :=
  gf_accmul_all F (u64 (n - 1)) h x =? x.[u64 (n - 1)].

Definition chk_begin (n : Z) (h : list Z) : list Z :=
  let h := for_ 0 (u64 (n - 1)) (fun i h => set h i (u32 (n - i - 1))) h in
  set h (u64 (n - 1)) 0.

(** [for (i = 0; h[i] >= gf_size_minus_1 - i - 1; ++i) if (i + 3 > n) return
    false;]  [Some i] is the index the loop stops at, [None] the [return
    false].  The test [i + 3 > n] holds at the latest when [i] reaches [n],
    so [fuel] = [n] turns are enough. *)
Fixpoint chk_next_scan (fuel : nat) (F : field) (n : Z) (h : list Z) (i : Z)
  : option Z :=
  match fuel with
  | O => None
  | S f =>
      if u64 (gf_size_minus_1 F - i - 1) <=? h.[i]
      then if n <? u64 (i + 3) then None
           else chk_next_scan f F n h (u64 (i + 1))
      else Some i
  end.

(** [for (...; i; i--) h[i-1] = h[i] + 1;] with [cnt] = [i] turns left. *)
Fixpoint chk_next_reset (cnt : nat) (i : Z) (h : list Z) : list Z :=
  match cnt with
  | O => h
  | S c => chk_next_reset c (i - 1) (set h (i - 1) (u32 (h.[i] + 1)))
  end.

(** [chk_next(n, h)]: [None] is [false] (and [h] is as it was), [Some h'] is
    [true] with the next parity in [h']. *)
Definition chk_next (F : field) (n : Z) (h : list Z) : option (list Z) :=
  match chk_next_scan (Z.to_nat n) F n h 0 with
  | None => None
  | Some i =>
      let h := set h i (u32 (h.[i] + 1)) in
      Some (chk_next_reset (Z.to_nat i) i h)
  end.

(** ** Codewords of a parity *)

Definition cw_begin (n : Z) (h x : list Z) : list Z :=
  for_ 0 n (fun i x => set x i gf_zero) x.

(** [for (i = 0; i < n-1; ++i) if (x[i] == gf_size_minus_1) x[i] = gf_zero;
    else break;] with [cnt] = [n-1-i]; returns [i] and [x]. *)
Fixpoint cw_next_carry (cnt : nat) (F : field) (i : Z) (x : list Z) : Z * list Z :=
  match cnt with
  | O => (i, x)
  | S c =>
      if x.[i] =? gf_size_minus_1 F
      then cw_next_carry c F (i + 1) (set x i gf_zero)
      else (i, x)
  end.

(** [cw_next(n, h, x)]: the returned boolean and the array [x] as the call
    leaves it. *)
Definition cw_next (F : field) (n : Z) (h x : list Z) : bool * list Z :=
  let '(i, x) := cw_next_carry (Z.to_nat (u64 (n - 1))) F 0 x in
  if i =? u64 (n - 1) then (false, x)
  else
    let x := set x i (u32 (x.[i] + 1)) in
    let acc := gf_accmul_all F (u64 (n - 1)) h x in
    (true, set x (u64 (n - 1)) acc).

(** ** Spectra *)

(** [for (i = 2; i < qmax; ++i) if (a[i] == b[i]) continue; else return (b[i]
    > a[i]) ? 1 : -1;] with [cnt] = [qmax - i]. *)
Fixpoint sp_cmp_from (cnt : nat) (i : Z) (a b : list Z) : Z :=
  match cnt with
  | O => 0
  | S c =>
      if a.[i] =? b.[i] then sp_cmp_from c (i + 1) a b
      else if a.[i] <? b.[i] then 1 else -1
  end.

Definition sp_cmp (a b : list Z) (qmax : Z) : Z :=
  sp_cmp_from (Z.to_nat (qmax - 2)) 2 a b.

(** [Scur[quad]++] on an array of [length S] cells of type [unsigned long];
    a write outside the array is [OutOfBounds]. *)
Definition sp_incr (sp : list Z) (quad : Z) : outcome (list Z) :=
  if quad <? Z.of_nat (length sp) then Done (set sp quad (u64 (sp.[quad] + 1)))
  else OutOfBounds.

(** ** Quadrances and neighbourhoods *)

Definition point : Type := (Z * Z)%type.

(** [Q[i * q + j]] for the constellation [C] and the mapping [pi]. *)
Definition quadrance (C : list point) (pi : list Z) (i j : Z) : Z :=
  let a := default (0, 0) (C !! Z.to_nat pi.[i]) in
  let b := default (0, 0) (C !! Z.to_nat pi.[j]) in
  let dx := u32 (a.1 - b.1) in
  let dy := u32 (a.2 - b.2) in
  u32 (dx * dx + dy * dy).

Definition fill_Q (C : list point) (pi : list Z) (q : Z) : list Z :=
  for_ 0 q (fun i Q =>
    for_ 0 q (fun j Q => set Q (i * q + j) (quadrance C pi i j)) Q)
    (alloc (q * q)).

(** [if (Qi[Vi[k]] < Qi[Vi[j]]) { itmp = Vi[j]; Vi[j] = Vi[k]; Vi[k] = itmp; }]
    on the row that starts at [base].  [itmp] holds an [unsigned] value,
    which the store into [Vi[k]] leaves as it is. *)
Definition exchange (Q : list Z) (base j k : Z) (V : list Z) : list Z :=
  if Q.[base + V.[base + k]] <? Q.[base + V.[base + j]]
  then
    let itmp := V.[base + j] in
    let V := set V (base + j) V.[base + k] in
    set V (base + k) itmp
  else V.

(** The body of the loop on [i] that fills [V]: the row [Vi = V + i * q] is
    set to the identity, then sorted by exchanges on the quadrances of the
    row [Qi = Q + i * q]. *)
Definition sort_row (Q : list Z) (q i : Z) (V : list Z) : list Z :=
  let base := i * q in
  let V := for_ 0 q (fun j V => set V (base + j) j) V in
  for_ 0 q (fun j V => for_ (j + 1) q (exchange Q base j) V) V.

Definition fill_V (Q : list Z) (q : Z) : list Z :=
  for_ 0 q (sort_row Q q) (alloc (q * q)).

(** [cqmin]: the least quadrance to a nearest neighbour. *)
Definition find_cqmin (Q V : list Z) (q : Z) : Z :=
  for_ 1 q (fun i cqmin =>
    if Q.[i * q + V.[i * q + 1]] <? cqmin
    then Q.[i * q + V.[i * q + 1]] else cqmin) Q.[1].

(** [qmax - (w > 2 ? w-1 : 1) * cqmin], computed on [size_t]. *)
Definition dcap_bound (qmax w cqmin : Z) : Z :=
  u64 (qmax - u64 ((if 2 <? w then w - 1 else 1) * cqmin)).

(** [for (d = 0; d < q; ++d) if (Q[j*q + V[j*q + d]] > bound) break;] with
    [cnt] = [q - d]; returns [d]. *)
Fixpoint dcap_scan (cnt : nat) (Q V : list Z) (q j d bound : Z) : Z :=
  match cnt with
  | O => d
  | S c =>
      if bound <? Q.[j * q + V.[j * q + d]] then d
      else dcap_scan c Q V q j (d + 1) bound
  end.

Definition fill_dcap (Q V : list Z) (n q qmax cqmin : Z) : list Z :=
  for_ 0 n (fun w dcap =>
    for_ 0 q (fun j dcap =>
      set dcap (w * q + j)
          (dcap_scan (Z.to_nat q) Q V q j 0 (dcap_bound qmax w cqmin))) dcap)
    (alloc (n * q)).

(** ** The traversal of the neighbours of a codeword *)

(** What the loops of the search read and never write. *)
Record env : Type := Env {
  e_F : field;
  e_n : Z;
  e_q : Z;
  e_qmax : Z;
  e_Q : list Z;
  e_V : list Z;
  e_dcap : list Z
}.

(** The increments [da], the focus pointers [df], the directions [dd] and
    the weight [dw]. *)
Record odometer : Type := Odometer {
  da : list Z;
  df : list Z;
  dd : list Z;
  dw : Z
}.

(** The initialisation before [for (;;)].  The three arrays have [n] cells;
    every cell that is read later is written here first. *)
Definition odometer_begin (n : Z) : odometer :=
  let '(a, f, d) :=
    for_ 0 (u64 (n - 1))
      (fun j '(a, f, d) => (set a j 0, set f j j, set d j 1))
      (alloc n, alloc n, alloc n) in
  Odometer a (set f (u64 (n - 1)) (u64 (n - 1))) d 0.

(** The neighbour [y] of [x] at the increments [a] and its quadrance, as the
    head of the body of [for (;;)] computes them.  Every cell of [y] is
    written before it is read, so [y] starts from a fresh block. *)
Definition neighbour (E : env) (h x a : list Z) : list Z * Z :=
  let n1 := u64 (e_n E - 1) in
  let q := e_q E in
  let '(y, quad) :=
    for_ 0 n1
      (fun i '(y, quad) =>
         let y := set y i (e_V E).[u64 (x.[i] * q + a.[i])] in
         let quad := u32 (quad + (e_Q E).[u64 (x.[i] * q + y.[i])]) in
         let y := set y n1 (gf_accmul (e_F E) y.[n1] h.[i] y.[i]) in
         (y, quad))
      (set (alloc (e_n E)) n1 gf_zero, 0) in
  (y, u32 (quad + (e_Q E).[u64 (x.[n1] * q + y.[n1])])).

(** From [size_t j = df[0]] to the end of the body of [for (;;)]: [None] is
    the [break]. *)
Definition odometer_next (E : env) (x : list Z) (o : odometer) : option odometer :=
  let n1 := u64 (e_n E - 1) in
  let q := e_q E in
  let j := (df o).[0] in
  let f := set (df o) 0 0 in
  if j =? n1 then None
  else
    let w := if (da o).[j] =? 0 then u64 (dw o + 1) else dw o in
    let a := set (da o) j (u64 ((da o).[j] + (dd o).[j])) in
    let w := if a.[j] =? 0 then u64 (w - 1) else w in
    if (a.[j] =? 0) || (a.[j] =? u64 (q - 1))
       || ((e_dcap E).[u64 (w * q + x.[j])] <=? u64 (a.[j] + (dd o).[j]))
    then
      let d := set (dd o) j (s32 (- (dd o).[j])) in
      let f := set f j f.[j + 1] in
      let f := set f (j + 1) (j + 1) in
      Some (Odometer a f d w)
    else Some (Odometer a f (dd o) w).

(** [if (quad < qmax) Scur[quad]++;] *)
Definition record (E : env) (Scur : list Z) (quad : Z) : outcome (list Z) :=
  if quad <? e_qmax E then sp_incr Scur quad else Done Scur.

(** The loop [for (;;)] over the neighbours of [x]: the spectrum after it. *)
Fixpoint traverse (fuel : nat) (E : env) (h x : list Z) (o : odometer)
    (Scur : list Z) : outcome (list Z) :=
  match fuel with
  | O => OutOfFuel
  | S f =>
      do Scur <- record E Scur (neighbour E h x (da o)).2;
      match odometer_next E x o with
      | None => Done Scur
      | Some o => traverse f E h x o Scur
      end
  end.

(** ** The loops over the codewords and over the parities *)

(** [do { ... } while (cw_next(n, h, x) && sp_cmp(Sbest, Scur, qmax) <= 0);] *)
Fixpoint codewords (fuel : nat) (E : env) (h x Sbest Scur : list Z)
  : outcome (list Z) :=
  match fuel with
  | O => OutOfFuel
  | S f =>
      do Scur <- traverse fuel E h x (odometer_begin (e_n E)) Scur;
      let '(more, x) := cw_next (e_F E) (e_n E) h x in
      if more && (sp_cmp Sbest Scur (e_qmax E) <=? 0)
      then codewords f E h x Sbest Scur
      else Done Scur
  end.

(** What the search knows of a parity when it leaves it: the parity, its
    spectrum, and whether that spectrum was kept (and printed) as the best. *)
Record report : Type := Report {
  r_h : list Z;
  r_S : list Z;
  r_kept : bool
}.

(** [do { ... } while (chk_next(n, h));]  The array [x] that [cw_begin]
    receives is the one that the coset before left; [cw_begin] clears it
    ([cw_begin_clears]). *)
Fixpoint parities (fuel : nat) (E : env) (h Sbest : list Z) (log : list report)
  : outcome (list report) :=
  match fuel with
  | O => OutOfFuel
  | S f =>
      let Scur := alloc (e_qmax E) in
      let x := cw_begin (e_n E) h (alloc (e_n E)) in
      do Scur <- codewords fuel E h x Sbest Scur;
      let kept := sp_cmp Sbest Scur (e_qmax E) <=? 0 in
      let Sbest := if kept then Scur else Sbest in
      let log := log ++ [Report h Scur kept] in
      match chk_next (e_F E) (e_n E) h with
      | None => Done log
      | Some h => parities f E h Sbest log
      end
  end.

(** [if (++q == (1 << m)) ... ++m ...]: what reading one more point does
    to the count [q] and to [m]. *)
Definition read_step (st : Z * Z) : Z * Z :=
  let '(q, m) := st in
  let q := q + 1 in
  if q =? Z.shiftl 1 m then (q, m + 1) else (q, m).

(** The points are counted as they are read, then [m--]. *)
Definition read_points (C : list point) : Z * Z :=
  let '(q, m) := fold_left (fun st _ => read_step st) C (0, 0) in
  (q, u64 (m - 1)).

Definition make_env (F : field) (n qmax : Z) (C : list point) (pi : list Z) : env :=
  let q := Z.of_nat (length C) in
  let Q := fill_Q C pi q in
  let V := fill_V Q q in
  let cqmin := find_cqmin Q V q in
  Env F n q qmax Q V (fill_dcap Q V n q qmax cqmin).

(** [main] from the constellation [C] and the mapping [pi] once read:
    [None] is an exit through [error]. *)
Definition search (fuel : nat) (n qmax : Z) (C : list point) (pi : list Z)
  : option (outcome (list report)) :=
  let '(q, m) := read_points C in
  if negb (Z.shiftl 1 m =? q) then None
  else if q <=? n then None
  else
    match gf_init primitives.[m] with
    | None => None
    | Some F =>
        if negb (q <=? Z.of_nat (length pi)) then None
        else if negb (forallb (fun v => v <? q) (take (Z.to_nat q) pi)) then None
        else
          let E := make_env F n qmax C pi in
          let Sbest := for_ 0 qmax (fun i S => set S i UINT_MAX) (alloc qmax) in
          Some (parities fuel E (chk_begin n (alloc n)) Sbest [])
    end.

(** ** The brute-force reference of the specification

    The reference the specification compares the traversal with: no cutoff
    table, every coordinate's neighbour rank looped from 0 to [q - 1], every
    combination recorded when its quadrance is below [qmax]. *)

(** All the rank vectors of [k] coordinates, each rank in [0, q). *)
Fixpoint all_ranks (k : nat) (q : Z) : list (list Z) :=
  match k with
  | O => [[]]
  | S k => t ← all_ranks k q; r ← seqZ 0 q; [r :: t]
  end.

Definition brute_force (E : env) (h x Scur : list Z) : outcome (list Z) :=
  foldl (fun acc a => do Scur <- acc; record E Scur (neighbour E h x a).2)
        (Done Scur) (all_ranks (Z.to_nat (e_n E - 1)) (e_q E)).

(** The traversal of the program from its initial state, with fuel for
    [q ^ (n - 1)] neighbours, which a full traversal never exceeds. *)
Definition pruned (E : env) (h x Scur : list Z) : outcome (list Z) :=
  traverse (Z.to_nat (e_q E ^ (e_n E - 1))) E h x (odometer_begin (e_n E)) Scur.

Definition checkerboard : list point :=
  [(0,0); (0,2); (1,1); (1,3); (2,0); (2,2); (3,1); (3,3)].

(** ** Statements about the field *)

(** [gf_tables F m]: the tables of [F] are those of a field of [2 ^ m]
    elements, each the inverse of the other. *)
Definition gf_tables (F : field) (m : Z) : Prop :=
  gf_size F = 2 ^ m /\ gf_size_minus_1 F = 2 ^ m - 1 /\
  (forall k, 0 <= k < 2 ^ m - 1 ->
     1 <= (gf_exp F).[k] < 2 ^ m /\ (gf_log F).[(gf_exp F).[k]] = k) /\
  (forall x, 1 <= x < 2 ^ m ->
     0 <= (gf_log F).[x] < 2 ^ m - 1 /\ (gf_exp F).[(gf_log F).[x]] = x).

Definition gf_tablesb (F : field) (m : Z) : bool :=
  (gf_size F =? 2 ^ m) && (gf_size_minus_1 F =? 2 ^ m - 1)
  && forallb (fun k => (1 <=? (gf_exp F).[k]) && ((gf_exp F).[k] <? 2 ^ m)
                       && ((gf_log F).[(gf_exp F).[k]] =? k))
             (seqZ 0 (2 ^ m - 1))
  && forallb (fun x => (0 <=? (gf_log F).[x]) && ((gf_log F).[x] <? 2 ^ m - 1)
                       && ((gf_exp F).[(gf_log F).[x]] =? x))
             (seqZ 1 (2 ^ m - 1)).

Definition gf_init_okb (m : Z) : bool :=
  match gf_init primitives.[m] with
  | Some F => gf_tablesb F m
  | None => false
  end.

(** ** Statements about the enumerations *)

(** The codewords that [do { ... } while (cw_next(n, h, x));] goes through,
    [x] being the first. *)
Fixpoint coset (fuel : nat) (F : field) (n : Z) (h x : list Z)
  : outcome (list (list Z)) :=
  match fuel with
  | O => OutOfFuel
  | S f =>
      let '(more, x') := cw_next F n h x in
      if more then do l <- coset f F n h x'; Done (x :: l)
      else Done [x]
  end.

(** The codewords produced by [cw_begin] on the block [x0], which is what
    [malloc] returned or what the coset before left there, followed by calls
    of [cw_next] that returned [true]. *)
Inductive cw_produced (F : field) (n : Z) (h x0 : list Z) : list Z -> Prop :=
  | cw_produced_begin : cw_produced F n h x0 (cw_begin n h x0)
  | cw_produced_next x x' :
      cw_produced F n h x0 x -> cw_next F n h x = (true, x') ->
      cw_produced F n h x0 x'.

(** The number that the cells [i], ..., [i + cnt - 1] of [x] write in base
    [q], the cell [i] being the least significant digit. *)
Fixpoint digits_value (q : Z) (x : list Z) (i : Z) (cnt : nat) : Z :=
  match cnt with
  | O => 0
  | S c => x.[i] + q * digits_value q x (i + 1) c
  end.

Definition cw_rank (F : field) (n : Z) (x : list Z) : Z :=
  digits_value (gf_size_minus_1 F + 1) x 0 (Z.to_nat (n - 1)).

Definition cw_digits (F : field) (n : Z) (x : list Z) : Prop :=
  length x = Z.to_nat n /\
  forall k, 0 <= k < n - 1 -> 0 <= x.[k] <= gf_size_minus_1 F.

(** ** The variant of the program that takes a lower bound [qmin]

    Its [chk_valid] sums over the [n] coordinates, its spectra have
    [qmax + 1] cells and its comparison starts at the index 0. *)
Module QminVariant.

Definition s64 (z : Z) : Z := (z + 2 ^ 63) mod 2 ^ 64 - 2 ^ 63.

Definition chk_valid (F : field) (n : Z) (h x : list Z) : bool :=
  gf_accmul_all F n h x =? gf_zero.

(** [for (i = 0; i <= qmax; ++i) if (a[i] == b[i]) continue; else return
    (int)((long)b[i] - (long)a[i]);] with [cnt] = [qmax + 1 - i]. *)
Fixpoint sp_cmp_from (cnt : nat) (i : Z) (a b : list Z) : Z :=
  match cnt with
  | O => 0
  | S c =>
      if a.[i] =? b.[i] then sp_cmp_from c (i + 1) a b
      else s32 (s64 b.[i] - s64 a.[i])
  end.

Definition sp_cmp (a b : list Z) (qmax : Z) : Z :=
  sp_cmp_from (Z.to_nat (qmax + 1)) 0 a b.


(** [if (quad > qmax) continue; ... Scur[quad]++;] *)
Definition record (qmax : Z) (Scur : list Z) (quad : Z) : outcome (list Z) :=
  if qmax <? quad then Done Scur else sp_incr Scur quad.

End QminVariant.

(** The field of four elements, as [gf_init 0x7] builds it. *)
Definition GF4 : field := Field 4 3 2 [-1; 0; 1; 2] [1; 2; 3; 0].

(** The parities that [chk_begin] and the calls of [chk_next], repeated
    until it returns [false], go through, [h] being the first. *)
Fixpoint parity_list (fuel : nat) (F : field) (n : Z) (h : list Z)
  : outcome (list (list Z)) :=
  match fuel with
  | O => OutOfFuel
  | S f =>
      match chk_next F n h with
      | None => Done [h]
      | Some h' => do l <- parity_list f F n h'; Done (h :: l)
      end
  end.

(** The canonical form of the specification: [n] coefficients that never
    increase, the last being 0. *)
Definition canonical (n : Z) (h : list Z) : Prop :=
  length h = Z.to_nat n /\
  (forall i j, 0 <= i <= j -> j < n -> h.[j] <= h.[i]) /\
  h.[n - 1] = 0.

(** What the enumeration keeps: [n] coefficients that decrease strictly
    from at most [q - 2] down to the last, which is 0. *)
Definition descending (F : field) (n : Z) (h : list Z) : Prop :=
  length h = Z.to_nat n /\
  h.[n - 1] = 0 /\
  (forall i, 0 <= i < n - 1 -> h.[i + 1] < h.[i]) /\
  h.[0] <= gf_size_minus_1 F - 1.

Definition chk_rank (F : field) (n : Z) (h : list Z) : Z :=
  digits_value (gf_size_minus_1 F + 1) h 0 (Z.to_nat (n - 1)).

(** The field of eight elements, as [gf_init 0xb] builds it. *)
Definition GF8 : field :=
  Field 8 7 2 [-1; 0; 1; 3; 2; 6; 4; 5] [1; 2; 4; 3; 6; 7; 5; 0].

(** The four corners of the unit square. *)
Definition square : list point := [(0, 0); (1, 0); (0, 1); (1, 1)].

(** The tables of the search of the codes of length 4 below the quadrance
    11, on the eight points of the 4 x 4 grid with an even sum of
    coordinates, mapped by the identity. *)
Definition checkerboard_env : env :=
  make_env GF8 4 11 checkerboard [0; 1; 2; 3; 4; 5; 6; 7].

(** ** Statements about the rows of [V] *)

(** The row [i] of a table of [q] columns. *)
Definition row (V : list Z) (q i : Z) : list Z :=
  map (fun k => V.[i * q + k]) (seqZ 0 q).

(** The [q] cells from [base] on hold [q] different values of [0, q). *)
Definition row_distinct (V : list Z) (base q : Z) : Prop :=
  (forall a, 0 <= a < q -> 0 <= V.[base + a] < q) /\
  (forall a b, 0 <= a < q -> 0 <= b < q -> V.[base + a] = V.[base + b] -> a = b).

(** Each of the first [j] cells of the row holds a value whose quadrance is
    at most that of the value of any later cell. *)
Definition row_sorted (Q V : list Z) (base q j : Z) : Prop :=
  forall a b, 0 <= a < j -> a <= b < q ->
              Q.[base + V.[base + a]] <= Q.[base + V.[base + b]].

(** [V] is [V0] outside the [q] cells from [base] on. *)
Definition row_frame (V0 V : list Z) (base q : Z) : Prop :=
  length V = length V0 /\
  forall idx, 0 <= idx -> idx < base \/ base + q <= idx -> V.[idx] = V0.[idx].

(** ** Statements about the traversal *)

(** The coordinate [i] waits for a coordinate above it to move: a focus
    pointer at or before [i] points beyond [i]. *)
Definition passive (f : list Z) (i : Z) : bool :=
  existsb (fun s => i <? f.[s]) (seqZ 0 (i + 1)).

(** The most steps that the coordinate [i] can still take in its sweep. *)
Definition remaining (q : Z) (o : odometer) (i : Z) : Z :=
  if passive (df o) i then 0
  else if (dd o).[i] =? 1 then q - 1 - (da o).[i] else (da o).[i].

(** A bound on the number of neighbours still to come: the number that the
    [remaining] steps of the coordinates write in base [q]. *)
Definition odometer_left (n q : Z) (o : odometer) : Z :=
  digits_value q (map (remaining q o) (seqZ 0 (n - 1))) 0 (Z.to_nat (n - 1)).

(** What the traversal keeps true of its state: every increment is a rank of
    [0, q), it leaves 0 upwards and [q - 1] downwards, and every focus
    pointer points at or after its cell, over cells that point at
    themselves. *)
Definition odometer_inv (n q : Z) (o : odometer) : Prop :=
  (length (da o) = Z.to_nat n /\ length (df o) = Z.to_nat n /\
   length (dd o) = Z.to_nat n) /\
  (forall i, 0 <= i < n - 1 ->
     0 <= (da o).[i] <= q - 1 /\
     ((dd o).[i] = 1 \/ (dd o).[i] = -1) /\
     ((da o).[i] = 0 -> (dd o).[i] = 1) /\
     ((da o).[i] = q - 1 -> (dd o).[i] = -1)) /\
  (forall i, 0 <= i <= n - 1 ->
     i <= (df o).[i] <= n - 1 /\
     forall t, i < t <= (df o).[i] -> (df o).[t] = t).

(** The focus pointers after the coordinate [j] has been turned back:
    [df[0] = 0; df[j] = df[j+1]; df[j+1] = j+1]. *)
Definition turned (f : list Z) (j : Z) : list Z :=
  set (set (set f 0 0) j (set f 0 0).[j + 1]) (j + 1) (j + 1).

(** ** Statements about the loop over the parities *)

(** What the loop over the parities keeps true of [h]: a strictly
    decreasing parity, or, at the length 1, one coefficient below [q - 1]. *)
Definition chk_state (F : field) (n : Z) (h : list Z) : Prop :=
  (n = 1 /\ length h = 1%nat /\ 0 <= h.[0] <= gf_size_minus_1 F - 1) \/
  (2 <= n /\ descending F n h).

(** A bound on the number of parities still to come after [h]. *)
Definition chk_left (F : field) (n : Z) (h : list Z) : Z :=
  if n =? 1 then gf_size_minus_1 F - 1 - h.[0]
  else (gf_size_minus_1 F + 1) ^ (n - 1) - 1 - chk_rank F n h.

(** ** Further statements about the traversal *)

(** The number of the cells [i], ..., [i + cnt - 1] of [a] that are not 0. *)
Fixpoint weight (a : list Z) (i : Z) (cnt : nat) : Z :=
  match cnt with
  | O => 0
  | S c => (if a.[i] =? 0 then 0 else 1) + weight a (i + 1) c
  end.

(** The states that the loop [for (;;)] goes through for the codeword [x]. *)
Inductive visited (E : env) (x : list Z) : odometer -> Prop :=
  | visited_begin : visited E x (odometer_begin (e_n E))
  | visited_next o o' :
      visited E x o -> odometer_next E x o = Some o' -> visited E x o'.

(** ** Statements about the product and the sum of the field *)

(** [x <<= 1; if (x >= gf_size) x ^= P;]: the product by the primitive
    element, as the loop of [gf_init] computes it. *)
Definition gf_shift (P size x : Z) : Z :=
  let x := u32 (Z.shiftl x 1) in
  if size <=? x then Z.lxor x P else x.

(** The table [gf_exp] of the field of [2 ^ m] elements follows [gf_shift]
    all around its cycle. *)
Definition gf_shiftb (m : Z) : bool :=
  match gf_init primitives.[m] with
  | Some F =>
      forallb (fun k => (gf_exp F).[(k + 1) mod (2 ^ m - 1)]
                        =? gf_shift primitives.[m] (2 ^ m) (gf_exp F).[k])
              (seqZ 0 (2 ^ m - 1))
  | None => false
  end.

(** The sum of two vectors, coordinate by coordinate. *)
Definition cw_add (x y : list Z) : list Z := zip_with Z.lxor x y.

(** ** The increments of the variant with [qmin]

    That variant goes through the neighbours of a codeword with a plain
    odometer on the increments [d], the coordinate [i] running below its own
    bound [dmax[i]]. *)


(** [for (i = 0; i < n-1; ++i) if (d[i] >= dmax[i]-1) d[i] = 0; else break;]
    with [cnt] = [n-1-i]; returns [i] and [d]. *)
Fixpoint delta_next_carry (cnt : nat) (dmax : list Z) (i : Z) (d : list Z)
  : Z * list Z :=
  match cnt with
  | O => (i, d)
  | S c =>
      if u64 (dmax.[i] - 1) <=? d.[i]
      then delta_next_carry c dmax (i + 1) (set d i 0)
      else (i, d)
  end.

(** [delta_next(n, dmax, d)]: the returned boolean and the array [d] as the
    call leaves it. *)
Definition delta_next (n : Z) (dmax d : list Z) : bool * list Z :=
  let '(i, d) := delta_next_carry (Z.to_nat (u64 (n - 1))) dmax 0 d in
  if i =? u64 (n - 1) then (false, d)
  else (true, set d i (u64 (d.[i] + 1))).

(** [for (unsigned i = 1; i <= qmax; ++i) if (S[i] > 0) return i; return 0;]
    The counter [i], an [unsigned], wraps at [UINT_MAX]: with [qmax] equal
    to [UINT_MAX], the default of the program, the test [i <= qmax] never
    fails and the loop is left by [return i] only.  [fuel] bounds the number
    of tests. *)
Fixpoint sp_qmin_from (fuel : nat) (i : Z) (sp : list Z) (qmax : Z) : outcome Z :=
  match fuel with
  | O => OutOfFuel
  | S f =>
      if i <=? qmax
      then if 0 <? sp.[i] then Done i
           else sp_qmin_from f (u32 (i + 1)) sp qmax
      else Done 0
  end.

Definition sp_qmin (fuel : nat) (sp : list Z) (qmax : Z) : outcome Z :=
  sp_qmin_from fuel 1 sp qmax.


(** The number that the cells [i], ..., [i + cnt - 1] of [d] write when the
    cell [k] counts in base [dmax[k]], and the number of such numbers. *)
Fixpoint mixed_value (dmax d : list Z) (i : Z) (cnt : nat) : Z :=
  match cnt with
  | O => 0
  | S c => d.[i] + dmax.[i] * mixed_value dmax d (i + 1) c
  end.

Fixpoint mixed_size (dmax : list Z) (i : Z) (cnt : nat) : Z :=
  match cnt with
  | O => 1
  | S c => dmax.[i] * mixed_size dmax (i + 1) c
  end.

(** [d] holds [n] cells, the last is 0 and each of the others is below its
    bound. *)
Definition delta_digits (n : Z) (dmax d : list Z) : Prop :=
  length d = Z.to_nat n /\ d.[n - 1] = 0 /\
  forall k, 0 <= k < n - 1 -> 0 <= d.[k] < dmax.[k].

(** The loop of the variant with [qmin] that fills [Q]; it keeps in [cqmin],
    which starts at [qmax], the least quadrance that is positive. *)
Definition fill_Q_cqmin (C : list point) (pi : list Z) (q qmax : Z) : list Z * Z :=
  for_ 0 q (fun i st =>
    for_ 0 q (fun j '(Q, cqmin) =>
      let v := quadrance C pi i j in
      (set Q (i * q + j) v, if (0 <? v) && (v <? cqmin) then v else cqmin)) st)
    (alloc (q * q), qmax).

(** [dmax[i] = q; for (j = 0; j < q; ++j) if (Q[x[i]][V[x[i]][j]] > qmax -
    cqmin) { dmax[i] = j; break; }]: the first rank of the row of [x[i]]
    beyond the bound, which is computed on [unsigned]. *)
Definition fill_dmax (Q V : list Z) (n q qmax cqmin : Z) (x : list Z) : list Z :=
  for_ 0 n (fun i dmax =>
    set dmax i (dcap_scan (Z.to_nat q) Q V q x.[i] 0 (u32 (qmax - cqmin))))
    (alloc n).

(** ** The program that counts the pairs of vectors ([spectra.c])

    There [cw_next] goes through all the vectors of [n] elements, not only
    the codewords of a parity. *)
Module Spectra.

Definition cw_begin (n : Z) (x : list Z) : list Z :=
  for_ 0 n (fun i x => set x i 0) x.

Definition cw_next (F : field) (n : Z) (x : list Z) : bool * list Z :=
  let '(i, x) := cw_next_carry (Z.to_nat n) F 0 x in
  if i =? n then (false, x) else (true, set x i (u32 (x.[i] + 1))).

End Spectra.

(** ** The parities of the sieve ([crible.c])

    That program reads its parities from a file; [readparity] puts each of
    them in the canonical form. *)

(** [for (i = 0; i < n; ++i) if (1 != fscanf(f, "%u", h + i)) return 0;] with
    [cnt] = [n - i]: [input] holds the values that [fscanf] has still to
    give, and reading past the last one fails. *)
Fixpoint readparity_scan (cnt : nat) (i : Z) (input h : list Z)
  : option (list Z * list Z) :=
  match cnt with
  | O => Some (input, h)
  | S c =>
      match input with
      | [] => None
      | v :: input => readparity_scan c (i + 1) input (set h i v)
      end
  end.

(** [if (h[i] < h[j]) { tmp = h[i]; h[i] = h[j]; h[j] = tmp; }] *)
Definition readparity_exchange (i j : Z) (h : list Z) : list Z :=
  if h.[i] <? h.[j]
  then
    let tmp := h.[i] in
    let h := set h i h.[j] in
    set h j tmp
  else h.

(** [readparity(f, n, h)]: [None] is the return of 0, [Some] gives what is
    left of the input and the array [h]. *)
Definition readparity (input : list Z) (n : Z) (h : list Z)
  : option (list Z * list Z) :=
  match readparity_scan (Z.to_nat n) 0 input h with
  | None => None
  | Some (input, h) =>
      let h := for_ 0 n (fun i h => for_ (i + 1) n (readparity_exchange i) h) h in
      let h := for_ 0 n (fun i h => set h i (u32 (h.[i] - h.[n - 1]))) h in
      Some (input, h)
  end.

(** What the sort of [readparity] keeps true of [h], a rearrangement of
    [h0], when the cell [i] is being settled. *)
Definition sort_inv (n : Z) (h0 : list Z) (i : Z) (h : list Z) : Prop :=
  h ≡ₚ h0 /\
  forall a b, 0 <= a < i -> a <= b < n -> h.[b] <= h.[a].

(** ** The permutations of the sieve ([crible.c]) *)

(** [for (j = n-2; j >= 0; --j) if (p[j] < p[j+1]) break;] with [cnt] =
    [j + 1]; returns [j], which is -1 when the loop runs to its end. *)
Fixpoint permnext_pivot (cnt : nat) (j : Z) (p : list Z) : Z :=
  match cnt with
  | O => j
  | S c => if p.[j] <? p.[j + 1] then j else permnext_pivot c (j - 1) p
  end.

(** [for (k = n-1; k > j; --k) if (p[k] > p[j]) break;] with [cnt] =
    [k - j]; returns [k]. *)
Fixpoint permnext_above (cnt : nat) (j k : Z) (p : list Z) : Z :=
  match cnt with
  | O => k
  | S c => if p.[j] <? p.[k] then k else permnext_above c j (k - 1) p
  end.

(** [tmp = p[j]; p[j] = p[k]; p[k] = tmp;] *)
Definition permnext_swap (j k : Z) (p : list Z) : list Z :=
  let tmp := p.[j] in
  let p := set p j p.[k] in
  set p k tmp.

(** [for (...; j < k; j++, k--) { tmp = p[j]; p[j] = p[k]; p[k] = tmp; }],
    which takes fewer than [cnt] turns. *)
Fixpoint permnext_reverse (cnt : nat) (j k : Z) (p : list Z) : list Z :=
  match cnt with
  | O => p
  | S c =>
      if j <? k then permnext_reverse c (j + 1) (k - 1) (permnext_swap j k p)
      else p
  end.

(** [permnext(n, p)]: [None] is the return of 0, [Some p'] the return of 1
    with the array as the call leaves it. *)
Definition permnext (n : Z) (p : list Z) : option (list Z) :=
  let j := permnext_pivot (Z.to_nat (n - 1)) (n - 2) p in
  if j <? 0 then None
  else
    let k := permnext_above (Z.to_nat (n - 1 - j)) j (n - 1) p in
    let p := permnext_swap j k p in
    Some (permnext_reverse (Z.to_nat n) (j + 1) (n - 1) p).

(** The lexicographic order of the arrays of [n] cells. *)
Definition lex_lt (n : Z) (a b : list Z) : Prop :=
  exists i, 0 <= i < n /\ (forall k, 0 <= k < i -> a.[k] = b.[k]) /\ a.[i] < b.[i].

(** ** The partitions of the sieve ([crible.c]) *)

(** [for (k = n-1; k >= 0 && p[k] <= 1; --k) rem += p[k];] with [cnt] =
    [k + 1]; returns [k] and [rem]. *)
Fixpoint partnext_scan (cnt : nat) (k rem : Z) (p : list Z) : Z * Z :=
  match cnt with
  | O => (k, rem)
  | S c =>
      if p.[k] <=? 1 then partnext_scan c (k - 1) (s32 (rem + p.[k])) p
      else (k, rem)
  end.

(** [for (; rem > p[k]; k++) { p[k+1] = p[k]; rem -= p[k]; }]: [OutOfFuel]
    when the loop has not ended within [cnt] tests, [OutOfBounds] when the
    store [p[k+1]] falls past the cells of [p]. *)
Fixpoint partnext_fill (cnt : nat) (k rem : Z) (p : list Z)
  : outcome (Z * Z * list Z) :=
  match cnt with
  | O => OutOfFuel
  | S c =>
      if p.[k] <? rem
      then
        if Z.of_nat (length p) <=? k + 1 then OutOfBounds
        else partnext_fill c (k + 1) (s32 (rem - p.[k])) (set p (k + 1) p.[k])
      else Done (k, rem, p)
  end.

(** [partnext(n, p)]: the returned boolean and the array as the call leaves
    it.  Each turn of the second loop takes at least 1 from [rem], so [rem]
    tests are enough.  The store [p[++k] = rem] is [OutOfBounds] when it
    falls past the cells of [p]. *)
Definition partnext (n : Z) (p : list Z) : outcome (bool * list Z) :=
  let '(k, rem) := partnext_scan (Z.to_nat n) (n - 1) 0 p in
  if k <? 0 then Done (false, p)
  else
    let p := set p k (s32 (p.[k] - 1)) in
    let rem := s32 (rem + 1) in
    match partnext_fill (Z.to_nat rem) k rem p with
    | OutOfFuel => OutOfFuel
    | OutOfBounds => OutOfBounds
    | Done (k, rem, p) =>
        let k := s32 (k + 1) in
        if Z.of_nat (length p) <=? k then OutOfBounds
        else Done (s32 (k + 1) <? n, set p k rem)
    end.

(** The sum of the cells [i], ..., [i + cnt - 1]. *)
Fixpoint cells_sum (p : list Z) (i : Z) (cnt : nat) : Z :=
  match cnt with
  | O => 0
  | S c => p.[i] + cells_sum p (i + 1) c
  end.

(** ** The spectrum of a parity over its whole coset

    The loop over the codewords without its early exit, to which the loop
    of the program is compared. *)
Fixpoint sweep (fuel : nat) (E : env) (h x Scur : list Z) : outcome (list Z) :=
  match fuel with
  | O => OutOfFuel
  | S f =>
      do Scur <- traverse fuel E h x (odometer_begin (e_n E)) Scur;
      let '(more, x) := cw_next (e_F E) (e_n E) h x in
      if more then sweep f E h x Scur else Done Scur
  end.

(** The spectrum that the search holds as the best after the parities of
    [log]: the last one kept, or the one it started with. *)
Definition best_of (Sbest : list Z) (log : list report) : list Z :=
  foldl (fun b r => if r_kept r then r_S r else b) Sbest log.

(** The cells of [S] are counts of at most [B]. *)
Definition cells_below (B : Z) (sp : list Z) : Prop :=
  forall k, 0 <= sp.[k] <= B.



(** ** The quadrance of a neighbour *)

(** The sum of the quadrances of the first [m] coordinates of [x] and [y]. *)
Definition quadrance_sum (E : env) (x y : list Z) (m : Z) : Z :=
  for_ 0 m (fun i s => s + (e_Q E).[u64 (x.[i] * e_q E + y.[i])]) 0.

(** ** The generator of combinations

    The third program prints the subsets of [k] elements of [0, n), each as
    an increasing array [a] of [k] cells of type [unsigned]. *)

(** [for (size_t i=0; i < k; ++i) a[i] = i;] *)
Definition comb_begin (k : Z) : list Z :=
  for_ 0 k (fun i a => set a i (u32 i)) (alloc k).

(** [for (i = 0; i < k-1; ++i) if (a[i] + 1 != a[i+1]) break;] with [cnt] =
    [k - 1 - i]; returns [i]. *)
Fixpoint comb_scan (cnt : nat) (k : Z) (a : list Z) (i : Z) : Z :=
  match cnt with
  | O => i
  | S c =>
      if i <? k - 1
      then if u32 (a.[i] + 1) =? a.[i + 1] then comb_scan c k a (i + 1) else i
      else i
  end.

(** [for (i--; i>=0; --i) a[i] = i;] with [cnt] = [i + 1] after [i--]. *)
Fixpoint comb_reset (cnt : nat) (i : Z) (a : list Z) : list Z :=
  match cnt with
  | O => a
  | S c => if 0 <=? i then comb_reset c (i - 1) (set a i (u32 i)) else a
  end.

(** The body of [for(;;)] after the line is printed: [None] is the [break]. *)
Definition comb_next (k n : Z) (a : list Z) : option (list Z) :=
  let i := comb_scan (Z.to_nat (k - 1)) k a 0 in
  if (i =? k - 1) && (a.[i] =? u32 (n - 1)) then None
  else
    let a := set a i (u32 (a.[i] + 1)) in
    Some (comb_reset (Z.to_nat i) (i - 1) a).

(** The lines that [for(;;)] prints from the array [a] on. *)
Fixpoint comb_lines (fuel : nat) (k n : Z) (a : list Z)
    : outcome (list (list Z)) :=
  match fuel with
  | O => OutOfFuel
  | S f =>
      match comb_next k n a with
      | None => Done [a]
      | Some a' => do l <- comb_lines f k n a'; Done (a :: l)
      end
  end.

(** The binomial coefficients, by the rule of Pascal. *)
Fixpoint binom (n k : nat) : Z :=
  match n, k with
  | _, O => 1
  | O, S _ => 0
  | S n', S k' => binom n' k' + binom n' k
  end.

(** An increasing array of [k] elements of [0, n). *)
Definition comb_valid (k n : Z) (a : list Z) : Prop :=
  length a = Z.to_nat k /\ 0 <= a.[0] /\ a.[k - 1] < n /\
  forall i, 0 <= i < k - 1 -> a.[i] < a.[i + 1].

(** The place of the cells [i], ..., [i + cnt - 1] of a combination in the
    order of the generator: the sum of the binomials of [a[t]] over
    [t + 1]. *)
Fixpoint colex (a : list Z) (i : Z) (cnt : nat) : Z :=
  match cnt with
  | O => 0
  | S c => binom (Z.to_nat a.[i]) (Z.to_nat (i + 1)) + colex a (i + 1) c
  end.

(** ** Statements about the order of the traversal

    The loop [for (;;)] goes through the increments in a reflected order:
    the coordinate [i] sweeps the ranks below a number [m i] up and down,
    [q] when nothing is cut. *)

(** The rank of the coordinate [i] in its sweep: 0 when the sweep starts,
    [m i - 1] when it is over. *)
Definition sweep_pos (m : Z -> Z) (o : odometer) (i : Z) : Z :=
  if passive (df o) i then m i - 1
  else if (dd o).[i] =? 1 then (da o).[i] else m i - 1 - (da o).[i].

(** The number that the digits [g i], ..., [g (i + cnt - 1)] write, the
    digit [k] counting below [m k] and the first being the least
    significant. *)
Fixpoint gray_value (m g : Z -> Z) (i : Z) (cnt : nat) : Z :=
  match cnt with
  | O => 0
  | S c => g i + m i * gray_value m g (i + 1) c
  end.

(** The number of the vectors of [cnt] digits from the coordinate [i] on. *)
Fixpoint radix_size (m : Z -> Z) (i : Z) (cnt : nat) : Z :=
  match cnt with
  | O => 1
  | S c => m i * radix_size m (i + 1) c
  end.

(** The number of the neighbours gone through before the state [o]. *)
Definition visit_rank (n : Z) (m : Z -> Z) (o : odometer) : Z :=
  gray_value m (sweep_pos m o) 0 (Z.to_nat (n - 1)).

(** The sweep of the coordinate [i] goes up. *)
Definition upward (o : odometer) (i : Z) : bool :=
  if passive (df o) i then (dd o).[i] =? -1 else (dd o).[i] =? 1.

(** What the traversal keeps true when the coordinate [i] sweeps the ranks
    below [m i]: an increment is below its number of ranks and leaves the
    last of them downwards, a coordinate that waits is at an end of its
    sweep, and a sweep goes up exactly when the sweeps of the coordinates
    above have made an even number of steps. *)
Definition gray_inv (n : Z) (m : Z -> Z) (o : odometer) : Prop :=
  (forall i, 0 <= i < n - 1 ->
     0 <= (da o).[i] <= m i - 1 /\
     ((da o).[i] = m i - 1 -> (dd o).[i] = -1)) /\
  (forall i, 0 <= i < n - 1 -> passive (df o) i = true ->
     (da o).[i] = 0 \/ (da o).[i] = m i - 1) /\
  (forall i, 0 <= i < n - 1 ->
     upward o i
     = Z.even (gray_value m (sweep_pos m o) (i + 1) (Z.to_nat (n - 1 - (i + 1))))).

(** The place of the increments [a] in the reflected order: the digit of a
    coordinate is read upwards or downwards after the parity of the digits
    above it. *)
Fixpoint gray_rank (m : Z -> Z) (a : list Z) (i : Z) (cnt : nat) : Z :=
  match cnt with
  | O => 0
  | S c =>
      let hi := gray_rank m a (i + 1) c in
      (if Z.even hi then a.[i] else m i - 1 - a.[i]) + m i * hi
  end.

(** The increments of the neighbours that the loop [for (;;)] goes through
    from the state [o], in order. *)
Fixpoint visits (fuel : nat) (E : env) (x : list Z) (o : odometer)
    : list (list Z) :=
  match fuel with
  | O => []
  | S f =>
      take (Z.to_nat (e_n E - 1)) (da o) ::
      match odometer_next E x o with
      | None => []
      | Some o' => visits f E x o'
      end
  end.

(** One turn of the reference loop: the neighbour at the increments [a] is
    recorded in the spectrum so far. *)
Definition count_neighbour (E : env) (h x : list Z)
    (acc : outcome (list Z)) (a : list Z) : outcome (list Z) :=
  do Scur <- acc; record E Scur (neighbour E h x a).2.

(** The number of the ranks that the traversal gives to the coordinate [j]
    of the codeword [x], when the rows of the cutoff table are the same at
    all the weights: the ranks before the cutoff, and two at least, since a
    coordinate leaves the rank 0 before it looks at the table. *)
Definition radix (E : env) (x : list Z) (j : Z) : Z :=
  Z.max 2 (Z.min (e_q E) (e_dcap E).[x.[j]]).

(** * Proofs *)

(** ** Arrays and loops *)

Lemma get_set_eq (a : list Z) (i v : Z) :
  0 <= i < Z.of_nat (length a) -> (set a i v).[i] = v.
Proof.
  intros H. unfold get, set. rewrite list_lookup_insert_eq by lia. reflexivity.
Qed.

Lemma get_set_ne (a : list Z) (i j v : Z) :
  0 <= i -> 0 <= j -> i <> j -> (set a i v).[j] = a.[j].
Proof.
  intros Hi Hj H. unfold get, set. rewrite list_lookup_insert_ne by lia.
  reflexivity.
Qed.

Lemma length_set (a : list Z) (i v : Z) : length (set a i v) = length a.
Proof. apply length_insert. Qed.

Lemma length_alloc (n : Z) : length (alloc n) = Z.to_nat n.
Proof. apply length_replicate. Qed.

Lemma get_alloc (n i : Z) : (alloc n).[i] = 0.
Proof.
  unfold get, alloc.
  destruct (replicate (Z.to_nat n) 0 !! Z.to_nat i) eqn:E; [|reflexivity].
  apply lookup_replicate in E. simpl. tauto.
Qed.

Lemma array_ext (a b : list Z) :
  length a = length b ->
  (forall k, 0 <= k < Z.of_nat (length a) -> a.[k] = b.[k]) -> a = b.
Proof.
  intros Hl H. apply list_eq. intros i.
  destruct (decide (i < length a)%nat) as [Hi|Hi].
  - specialize (H (Z.of_nat i) ltac:(lia)). unfold get in H.
    rewrite Nat2Z.id in H.
    destruct (lookup_lt_is_Some_2 a i Hi) as [va Ea].
    destruct (lookup_lt_is_Some_2 b i ltac:(lia)) as [vb Eb].
    rewrite Ea, Eb in *. simpl in H. congruence.
  - rewrite !lookup_ge_None_2 by lia. reflexivity.
Qed.

Lemma for_loop_ind {St : Type} (I : Z -> St -> Prop) (body : Z -> St -> St) :
  forall (cnt : nat) (a : Z) (s : St),
    I a s ->
    (forall i s, a <= i < a + Z.of_nat cnt -> I i s -> I (i + 1) (body i s)) ->
    I (a + Z.of_nat cnt) (for_loop cnt a body s).
Proof.
  induction cnt as [|c IH]; intros a s H0 Hstep; simpl.
  - replace (a + Z.of_nat 0) with a by lia. exact H0.
  - replace (a + Z.of_nat (S c)) with ((a + 1) + Z.of_nat c) by lia.
    apply IH.
    + apply Hstep; [lia | exact H0].
    + intros i s' Hi. apply Hstep. lia.
Qed.

Lemma for_ind {St : Type} (I : Z -> St -> Prop) (body : Z -> St -> St)
    (a b : Z) (s : St) :
  a <= b -> I a s ->
  (forall i s, a <= i < b -> I i s -> I (i + 1) (body i s)) ->
  I b (for_ a b body s).
Proof.
  intros Hab H0 Hstep. unfold for_.
  replace b with (a + Z.of_nat (Z.to_nat (b - a))) at 1 by lia.
  apply for_loop_ind; [exact H0 |].
  intros i s' Hi. apply Hstep. lia.
Qed.

Lemma for_empty {St : Type} (body : Z -> St -> St) (a b : Z) (s : St) :
  b <= a -> for_ a b body s = s.
Proof.
  intros H. unfold for_. replace (Z.to_nat (b - a)) with O by lia. reflexivity.
Qed.

Lemma forallb_seqZ (p : Z -> bool) (a len : Z) :
  forallb p (seqZ a len) = true -> forall x, a <= x < a + len -> p x = true.
Proof.
  intros H x Hx. rewrite forallb_forall in H. apply H.
  apply list_elem_of_In. apply elem_of_seqZ. lia.
Qed.

(** ** The tables of the field *)

Lemma gf_tablesb_sound (F : field) (m : Z) :
  gf_tablesb F m = true -> gf_tables F m.
Proof.
  unfold gf_tablesb, gf_tables. intros H.
  repeat (apply andb_prop in H; destruct H as [H ?]).
  repeat split; try lia.
  - pose proof (forallb_seqZ _ _ _ H1 k ltac:(lia)) as Hk.
    simpl in Hk. lia.
  - pose proof (forallb_seqZ _ _ _ H1 k ltac:(lia)) as Hk.
    simpl in Hk. lia.
  - pose proof (forallb_seqZ _ _ _ H1 k ltac:(lia)) as Hk.
    simpl in Hk. lia.
  - pose proof (forallb_seqZ _ _ _ H0 x ltac:(lia)) as Hk.
    simpl in Hk. lia.
  - pose proof (forallb_seqZ _ _ _ H0 x ltac:(lia)) as Hk.
    simpl in Hk. lia.
  - pose proof (forallb_seqZ _ _ _ H0 x ltac:(lia)) as Hk.
    simpl in Hk. lia.
Qed.

Lemma gf_init_okb_sound (m : Z) :
  gf_init_okb m = true ->
  exists F, gf_init primitives.[m] = Some F /\ gf_tables F m.
Proof.
  unfold gf_init_okb. destruct (gf_init primitives.[m]) as [F|]; [|discriminate].
  intros H. exists F. split; [reflexivity | apply gf_tablesb_sound, H].
Qed.

Lemma gf_init_table (m : Z) :
  1 <= m <= 10 -> exists F, gf_init primitives.[m] = Some F /\ gf_tables F m.
Proof.
  intros Hm. apply gf_init_okb_sound.
  assert (m = 1 \/ m = 2 \/ m = 3 \/ m = 4 \/ m = 5 \/ m = 6 \/ m = 7 \/
          m = 8 \/ m = 9 \/ m = 10) as Hcase by lia.
  repeat (destruct Hcase as [-> | Hcase]; [vm_compute; reflexivity |]).
  subst m. vm_compute. reflexivity.
Qed.

Lemma get_lookup (a : list Z) (i : Z) (v : Z) :
  0 <= i -> a.[i] = v -> v <> 0 -> a !! Z.to_nat i = Some v.
Proof.
  unfold get. intros Hi H Hv. destruct (a !! Z.to_nat i); simpl in H; congruence.
Qed.

Lemma lookup_get (a : list Z) (i : nat) (v : Z) :
  a !! i = Some v -> a.[Z.of_nat i] = v.
Proof. unfold get. rewrite Nat2Z.id. intros ->. reflexivity. Qed.

Lemma gf_tables_perm (F : field) (m : Z) :
  0 <= m -> gf_tables F m ->
  Permutation (take (Z.to_nat (2 ^ m - 1)) (gf_exp F)) (seqZ 1 (2 ^ m - 1)).
Proof.
  intros Hm (Hs & Hs1 & Hexp & Hlog).
  assert (0 < 2 ^ m) as Hq by (apply Z.pow_pos_nonneg; lia).
  assert (Hlk : forall k : nat, (k < Z.to_nat (2 ^ m - 1))%nat ->
            take (Z.to_nat (2 ^ m - 1)) (gf_exp F) !! k
            = Some (gf_exp F).[Z.of_nat k]).
  { intros k Hk. rewrite lookup_take_lt by exact Hk.
    destruct (Hexp (Z.of_nat k) ltac:(lia)) as [Hr _].
    rewrite <- (Nat2Z.id k) at 1. apply get_lookup; [lia | reflexivity | lia]. }
  assert (Hlen : length (take (Z.to_nat (2 ^ m - 1)) (gf_exp F))
                 = Z.to_nat (2 ^ m - 1)).
  { rewrite length_take. apply Nat.min_l.
    destruct (Z.to_nat (2 ^ m - 1)) as [|k] eqn:Ek; [lia|].
    pose proof (Hlk k ltac:(lia)) as Hk. rewrite lookup_take_lt in Hk by lia.
    apply lookup_lt_Some in Hk. lia. }
  apply NoDup_Permutation_bis.
  - apply NoDup_ListNoDup, NoDup_alt. intros i j x Hi Hj.
    assert (i < Z.to_nat (2 ^ m - 1))%nat as Hi'
      by (apply lookup_lt_Some in Hi; lia).
    assert (j < Z.to_nat (2 ^ m - 1))%nat as Hj'
      by (apply lookup_lt_Some in Hj; lia).
    rewrite Hlk in Hi by exact Hi'. rewrite Hlk in Hj by exact Hj'.
    destruct (Hexp (Z.of_nat i) ltac:(lia)) as [_ Hli].
    destruct (Hexp (Z.of_nat j) ltac:(lia)) as [_ Hlj].
    assert ((gf_exp F).[Z.of_nat i] = (gf_exp F).[Z.of_nat j]) as E by congruence.
    rewrite E in Hli. lia.
  - rewrite Hlen, length_seqZ. lia.
  - intros x Hx. apply list_elem_of_In in Hx.
    apply list_elem_of_lookup in Hx. destruct Hx as [k Hk].
    assert (k < Z.to_nat (2 ^ m - 1))%nat as Hk'
      by (apply lookup_lt_Some in Hk; lia).
    rewrite Hlk in Hk by exact Hk'. injection Hk as <-.
    apply list_elem_of_In, elem_of_seqZ.
    destruct (Hexp (Z.of_nat k) ltac:(lia)) as [Hr _]. lia.
Qed.

(** C6: for every primitive polynomial of the table, of degree [m] from 1 to
    10, [gf_init] succeeds, the first [q - 1] cells of [gf_exp] are a
    permutation of the nonzero elements [1 .. q - 1], and the two tables are
    inverse of each other: [gf_exp[gf_log[x]] = x] for [1 <= x < q] and
    [gf_log[gf_exp[k]] = k] for [0 <= k < q - 1]. *)
Theorem gf_init_permutation_inverse (m : Z) :
  1 <= m <= 10 ->
  exists F,
    gf_init primitives.[m] = Some F /\ gf_size F = 2 ^ m /\
    Permutation (take (Z.to_nat (gf_size F - 1)) (gf_exp F))
                (seqZ 1 (gf_size F - 1)) /\
    (forall x, 1 <= x < gf_size F -> (gf_exp F).[(gf_log F).[x]] = x) /\
    (forall k, 0 <= k < gf_size F - 1 -> (gf_log F).[(gf_exp F).[k]] = k).
Proof.
  intros Hm. destruct (gf_init_table m Hm) as (F & Hinit & Ht).
  exists F. pose proof Ht as (Hs & Hs1 & Hexp & Hlog).
  rewrite Hs. repeat split.
  - exact Hinit.
  - apply (gf_tables_perm F m); [lia | exact Ht].
  - intros x Hx. apply Hlog, Hx.
  - intros k Hk. apply Hexp, Hk.
Qed.

Lemma gf_init_permutation_inverse_witness :
  exists F,
    gf_init primitives.[2] = Some F /\ gf_size F = 2 ^ 2 /\
    Permutation (take (Z.to_nat (gf_size F - 1)) (gf_exp F))
                (seqZ 1 (gf_size F - 1)) /\
    (forall x, 1 <= x < gf_size F -> (gf_exp F).[(gf_log F).[x]] = x) /\
    (forall k, 0 <= k < gf_size F - 1 -> (gf_log F).[(gf_exp F).[k]] = k).
Proof. apply (gf_init_permutation_inverse 2). lia. Defined.

(** ** The comparison of spectra *)

Lemma sp_cmp_from_refl (cnt : nat) (i : Z) (a : list Z) :
  sp_cmp_from cnt i a a = 0.
Proof.
  revert i. induction cnt as [|c IH]; intros i; simpl; [reflexivity|].
  rewrite Z.eqb_refl. apply IH.
Qed.

Lemma sp_cmp_from_opp (cnt : nat) (i : Z) (a b : list Z) :
  sp_cmp_from cnt i b a = - sp_cmp_from cnt i a b.
Proof.
  revert i. induction cnt as [|c IH]; intros i; simpl; [reflexivity|].
  destruct (Z.eqb_spec a.[i] b.[i]) as [E|E].
  - rewrite E, Z.eqb_refl. apply IH.
  - destruct (Z.eqb_spec b.[i] a.[i]) as [E'|E']; [congruence|].
    destruct (Z.ltb_spec a.[i] b.[i]), (Z.ltb_spec b.[i] a.[i]); lia.
Qed.


Lemma sp_cmp_from_trans (cnt : nat) (i : Z) (a b c : list Z) (r : Z) :
  r <> 0 ->
  sp_cmp_from cnt i a b = r -> sp_cmp_from cnt i b c = r ->
  sp_cmp_from cnt i a c = r.
Proof.
  intros Hr. revert i. induction cnt as [|n IH]; intros i; simpl; [lia|].
  destruct (Z.eqb_spec a.[i] b.[i]) as [E1|E1];
    destruct (Z.eqb_spec b.[i] c.[i]) as [E2|E2];
    destruct (Z.eqb_spec a.[i] c.[i]) as [E3|E3]; try lia.
  - apply IH.
  - rewrite E1. tauto.
  - rewrite <- E2. tauto.
  - destruct (Z.ltb_spec a.[i] b.[i]), (Z.ltb_spec b.[i] c.[i]); lia.
  - destruct (Z.ltb_spec a.[i] b.[i]), (Z.ltb_spec b.[i] c.[i]),
      (Z.ltb_spec a.[i] c.[i]); lia.
Qed.

(** The comparison of spectra of the program with the cutoff table, which
    returns 1, 0 or -1, is a consistent order: a spectrum compares equal to
    itself; swapping the two spectra negates the result (if [a] is better
    than [b], then [b] is worse than [a]); and the comparison is transitive,
    on any three spectra, so in particular on three that differ in one index
    only. *)
Lemma sp_cmp_consistent (a b c : list Z) (qmax : Z) :
  sp_cmp a a qmax = 0 /\
  sp_cmp b a qmax = - sp_cmp a b qmax /\
  (forall r, r <> 0 -> sp_cmp a b qmax = r -> sp_cmp b c qmax = r ->
             sp_cmp a c qmax = r).
Proof.
  unfold sp_cmp. split; [apply sp_cmp_from_refl|].
  split; [apply sp_cmp_from_opp|].
  intros r. apply sp_cmp_from_trans.
Qed.

Lemma sp_cmp_consistent_witness :
  sp_cmp [0; 0; 1; 5] [0; 0; 1; 5] 4 = 0 /\
  sp_cmp [9; 9; 2; 5] [0; 0; 1; 5] 4 = - sp_cmp [0; 0; 1; 5] [9; 9; 2; 5] 4 /\
  sp_cmp [0; 0; 1; 5] [7; 7; 3; 5] 4 = 1.
Proof.
  destruct (sp_cmp_consistent [0; 0; 1; 5] [9; 9; 2; 5] [7; 7; 3; 5] 4)
    as (H1 & H2 & H3).
  split; [exact H1|]. split; [exact H2|].
  apply (H3 1); [lia | reflexivity | reflexivity].
Defined.


(** ** The enumeration of a coset *)

Lemma u64_small (z : Z) : 0 <= z < 2 ^ 64 -> u64 z = z.
Proof. intros H. unfold u64. apply Z.mod_small, H. Qed.

Lemma u32_small (z : Z) : 0 <= z < 2 ^ 32 -> u32 z = z.
Proof. intros H. unfold u32. apply Z.mod_small, H. Qed.

Lemma digits_value_frame (q : Z) (x y : list Z) (cnt : nat) :
  forall i, (forall k, i <= k < i + Z.of_nat cnt -> x.[k] = y.[k]) ->
            digits_value q x i cnt = digits_value q y i cnt.
Proof.
  induction cnt as [|c IH]; intros i H; simpl; [reflexivity|].
  rewrite (H i) by lia. f_equal. f_equal. apply IH.
  intros k Hk. apply H. lia.
Qed.

Lemma digits_value_bound (q : Z) (x : list Z) (cnt : nat) :
  1 <= q ->
  forall i, (forall k, i <= k < i + Z.of_nat cnt -> 0 <= x.[k] <= q - 1) ->
            0 <= digits_value q x i cnt <= q ^ Z.of_nat cnt - 1.
Proof.
  intros Hq. induction cnt as [|c IH]; intros i H.
  - simpl. lia.
  - cbn [digits_value]. rewrite Nat2Z.inj_succ, Z.pow_succ_r by lia.
    pose proof (H i ltac:(lia)) as Hi.
    pose proof (IH (i + 1) ltac:(intros k Hk; apply H; lia)) as Hc.
    nia.
Qed.

Lemma cw_next_carry_spec (F : field) (cnt : nat) :
  let q1 := gf_size_minus_1 F in
  1 <= q1 ->
  forall i x,
    0 <= i -> i + Z.of_nat cnt <= Z.of_nat (length x) ->
    (forall k, i <= k < i + Z.of_nat cnt -> 0 <= x.[k] <= q1) ->
    forall i' x', cw_next_carry cnt F i x = (i', x') ->
      length x' = length x /\ i <= i' <= i + Z.of_nat cnt /\
      (forall k, 0 <= k -> k < i \/ i' <= k -> x'.[k] = x.[k]) /\
      (i' = i + Z.of_nat cnt ->
         digits_value (q1 + 1) x i cnt = (q1 + 1) ^ Z.of_nat cnt - 1) /\
      (i' < i + Z.of_nat cnt ->
         x.[i'] < q1 /\
         forall v, digits_value (q1 + 1) (set (set x' i' (x.[i'] + 1)) (i + Z.of_nat cnt) v) i cnt
                   = digits_value (q1 + 1) x i cnt + 1).
Proof.
  intros q1 Hq1. induction cnt as [|c IH]; intros i x Hi Hlen Hd i' x' E.
  - simpl in E. injection E as <- <-.
    split; [reflexivity|]. split; [lia|]. split; [reflexivity|].
    split; [reflexivity | lia].
  - cbn [cw_next_carry] in E. fold q1 in E.
    destruct (Z.eqb_spec x.[i] q1) as [Eq|Ne].
    + assert (Hlen' : i + 1 + Z.of_nat c <= Z.of_nat (length (set x i gf_zero)))
        by (rewrite length_set; lia).
      assert (Hd' : forall k, i + 1 <= k < i + 1 + Z.of_nat c ->
                              0 <= (set x i gf_zero).[k] <= q1).
      { intros k Hk. rewrite get_set_ne by lia. apply Hd. lia. }
      destruct (IH (i + 1) (set x i gf_zero) ltac:(lia) Hlen' Hd' i' x' E)
        as (L & R & Fr & Full & Part).
      rewrite length_set in L.
      assert (Hfr : digits_value (q1 + 1) (set x i gf_zero) (i + 1) c
                    = digits_value (q1 + 1) x (i + 1) c).
      { apply digits_value_frame. intros k Hk. apply get_set_ne; lia. }
      split; [exact L|]. split; [lia|]. split; [|split].
      * intros k Hk0 Hk. rewrite Fr by lia. apply get_set_ne; lia.
      * intros Hi'. cbn [digits_value].
        rewrite Nat2Z.inj_succ, Z.pow_succ_r by lia.
        rewrite <- Hfr, Full by lia. lia.
      * intros Hi'. destruct (Part ltac:(lia)) as [Hlt Hv].
        rewrite get_set_ne in Hlt by lia. split; [exact Hlt|].
        intros v. rewrite get_set_ne in Hv by lia.
        cbn [digits_value].
        replace (i + Z.of_nat (S c)) with (i + 1 + Z.of_nat c) by lia.
        rewrite Hv, Hfr.
        rewrite !get_set_ne by lia. rewrite Fr by lia.
        rewrite get_set_eq by lia. unfold gf_zero. lia.
    + injection E as <- <-.
      split; [reflexivity|]. split; [lia|]. split; [reflexivity|].
      split; [lia|]. intros _.
      pose proof (Hd i ltac:(lia)). split; [lia|].
      intros v. cbn [digits_value].
      rewrite get_set_ne by lia. rewrite get_set_eq by lia.
      rewrite <- Z.add_assoc, (Z.add_comm 1), Z.add_assoc. f_equal. f_equal. f_equal.
      apply digits_value_frame. intros k Hk.
      rewrite !get_set_ne by lia. reflexivity.
Qed.

Lemma get_set (a : list Z) (i j v : Z) :
  0 <= i -> 0 <= j ->
  (set a i v).[j] = if (i =? j) && (j <? Z.of_nat (length a)) then v else a.[j].
Proof.
  intros Hi Hj. destruct (Z.eqb_spec i j) as [->|Ne]; simpl.
  - destruct (Z.ltb_spec j (Z.of_nat (length a))) as [Hl|Hl].
    + apply get_set_eq. lia.
    + unfold set. rewrite list_insert_ge by lia. reflexivity.
  - apply get_set_ne; assumption.
Qed.

Lemma for_loop_ext {St : Type} (f g : Z -> St -> St) (cnt : nat) :
  forall a s,
    (forall i s, a <= i < a + Z.of_nat cnt -> f i s = g i s) ->
    for_loop cnt a f s = for_loop cnt a g s.
Proof.
  induction cnt as [|c IH]; intros a s H; simpl; [reflexivity|].
  rewrite (H a) by lia. apply IH. intros i s' Hi. apply H. lia.
Qed.

Lemma for_loop_snoc {St : Type} (f : Z -> St -> St) (cnt : nat) :
  forall a s,
    for_loop (S cnt) a f s = f (a + Z.of_nat cnt) (for_loop cnt a f s).
Proof.
  induction cnt as [|c IH]; intros a s.
  - simpl. replace (a + Z.of_nat 0) with a by lia. reflexivity.
  - change (for_loop (S (S c)) a f s) with (for_loop (S c) (a + 1) f (f a s)).
    rewrite IH. simpl. f_equal. lia.
Qed.

Lemma for_snoc {St : Type} (f : Z -> St -> St) (b : Z) (s : St) :
  0 <= b -> for_ 0 (b + 1) f s = f b (for_ 0 b f s).
Proof.
  intros Hb. unfold for_.
  replace (Z.to_nat (b + 1 - 0)) with (S (Z.to_nat (b - 0))) by lia.
  rewrite for_loop_snoc. f_equal. lia.
Qed.

Lemma gf_accmul_all_frame (F : field) (m : Z) (h x y : list Z) :
  (forall k, 0 <= k < m -> x.[k] = y.[k]) ->
  gf_accmul_all F m h x = gf_accmul_all F m h y.
Proof.
  intros H. unfold gf_accmul_all, for_. apply for_loop_ext.
  intros i s Hi. rewrite H by lia. reflexivity.
Qed.

Lemma cw_next_carry_length (F : field) (cnt : nat) :
  forall i x, length (cw_next_carry cnt F i x).2 = length x.
Proof.
  induction cnt as [|c IH]; intros i x; simpl; [reflexivity|].
  destruct (x.[i] =? gf_size_minus_1 F); [|reflexivity].
  rewrite IH. apply length_set.
Qed.

Lemma cw_next_carry_index (F : field) (cnt : nat) :
  forall i x, i <= (cw_next_carry cnt F i x).1 <= i + Z.of_nat cnt.
Proof.
  induction cnt as [|c IH]; intros i x; simpl; [lia|].
  destruct (x.[i] =? gf_size_minus_1 F); simpl; [|lia].
  specialize (IH (i + 1) (set x i gf_zero)). lia.
Qed.

Lemma cw_begin_zero (n : Z) (h : list Z) :
  0 <= n ->
  length (cw_begin n h (alloc n)) = Z.to_nat n /\
  forall k, (cw_begin n h (alloc n)).[k] = 0.
Proof.
  intros Hn. unfold cw_begin.
  apply (for_ind (fun _ x => length x = Z.to_nat n /\ forall k, x.[k] = 0)).
  - exact Hn.
  - split; [apply length_alloc | apply get_alloc].
  - intros i x Hi [Hl Hz]. split; [rewrite length_set; exact Hl|].
    intros k. unfold get, set.
    destruct (decide (Z.to_nat i = Z.to_nat k)) as [E|E].
    + rewrite <- E, list_lookup_insert_eq by lia. reflexivity.
    + rewrite list_lookup_insert_ne by exact E. apply Hz.
Qed.

(** [cw_begin] clears the [n] cells of the block it is given, whatever they
    hold: the block is the one of [calloc] afterwards. *)
Lemma cw_begin_clears (n : Z) (h x0 : list Z) :
  0 <= n -> length x0 = Z.to_nat n -> cw_begin n h x0 = alloc n.
Proof.
  intros Hn Hl.
  assert (length (cw_begin n h x0) = Z.to_nat n /\
          forall k, 0 <= k < n -> (cw_begin n h x0).[k] = 0) as [L Z0].
  { unfold cw_begin.
    apply (for_ind (fun i x => length x = Z.to_nat n /\
                               forall k, 0 <= k < i -> x.[k] = 0)).
    - exact Hn.
    - split; [exact Hl | intros k Hk; lia].
    - intros i x Hi [Lx Zx]. split; [rewrite length_set; exact Lx|].
      intros k Hk. destruct (Z.eq_dec k i) as [->|N].
      + apply get_set_eq. lia.
      + rewrite get_set_ne by lia. apply Zx. lia. }
  apply array_ext; [rewrite L, length_alloc; reflexivity|].
  intros k Hk. rewrite get_alloc. apply Z0. lia.
Qed.

Lemma gf_accmul_all_zero (F : field) (m : Z) (h x : list Z) :
  0 <= m -> (forall k, x.[k] = 0) -> gf_accmul_all F m h x = 0.
Proof.
  intros Hm Hz. unfold gf_accmul_all.
  apply (for_ind (fun _ acc => acc = 0)); [exact Hm | reflexivity |].
  intros i acc _ ->. unfold gf_accmul. rewrite Hz. reflexivity.
Qed.

(** What a call of [cw_next] that returns [true] leaves in [x]. *)
Lemma cw_next_true (F : field) (n : Z) (h x x' : list Z) :
  1 <= n < 2 ^ 64 -> length x = Z.to_nat n ->
  cw_next F n h x = (true, x') ->
  length x' = Z.to_nat n /\
  x'.[n - 1] = gf_accmul_all F (n - 1) h x'.
Proof.
  intros Hn Hl E. unfold cw_next in E.
  rewrite u64_small in E by lia.
  pose proof (cw_next_carry_length F (Z.to_nat (n - 1)) 0 x) as Hcl.
  pose proof (cw_next_carry_index F (Z.to_nat (n - 1)) 0 x) as Hci.
  destruct (cw_next_carry (Z.to_nat (n - 1)) F 0 x) as [i x1]. simpl in Hcl, Hci.
  destruct (Z.eqb_spec i (n - 1)) as [Ei|Ni]; [discriminate|].
  injection E as <-.
  split; [rewrite !length_set; lia|].
  rewrite get_set_eq by (rewrite length_set; lia).
  apply gf_accmul_all_frame. intros k Hk. symmetry. apply get_set_ne; lia.
Qed.

Lemma cw_produced_length (F : field) (n : Z) (h x0 x : list Z) :
  1 <= n < 2 ^ 64 -> length x0 = Z.to_nat n ->
  cw_produced F n h x0 x -> length x = Z.to_nat n.
Proof.
  intros Hn H0 H. induction H as [|x x' _ IH E].
  - rewrite cw_begin_clears by (lia || exact H0). apply length_alloc.
  - apply (cw_next_true F n h x x' Hn IH E).
Qed.

Lemma cw_produced_chk_valid (F : field) (n : Z) (h x0 x : list Z) :
  1 <= n < 2 ^ 64 -> length x0 = Z.to_nat n ->
  cw_produced F n h x0 x -> chk_valid F n h x = true.
Proof.
  intros Hn H0 H. unfold chk_valid. rewrite u64_small by lia.
  apply Z.eqb_eq. destruct H as [|x x' Hx E].
  - rewrite cw_begin_clears by (lia || exact H0).
    rewrite get_alloc. apply gf_accmul_all_zero; [lia | apply get_alloc].
  - pose proof (cw_produced_length F n h x0 x Hn H0 Hx) as Hl.
    destruct (cw_next_true F n h x x' Hn Hl E) as [_ Hv]. symmetry. exact Hv.
Qed.

Lemma lxor_bound (m a b : Z) :
  0 <= m -> 0 <= a < 2 ^ m -> 0 <= b < 2 ^ m -> 0 <= Z.lxor a b < 2 ^ m.
Proof.
  intros Hm Ha Hb.
  assert (0 <= Z.lxor a b) as Hnn by (apply Z.lxor_nonneg; lia).
  split; [exact Hnn|].
  destruct (Z.eq_dec a 0) as [->|Na]; [rewrite Z.lxor_0_l; lia|].
  destruct (Z.eq_dec b 0) as [->|Nb]; [rewrite Z.lxor_0_r; lia|].
  destruct (Z.eq_dec (Z.lxor a b) 0) as [->|Nx]; [lia|].
  apply Z.log2_lt_pow2; [lia|].
  pose proof (Z.log2_lxor a b ltac:(lia) ltac:(lia)) as Hl.
  assert (Z.log2 a < m) by (apply Z.log2_lt_pow2; lia).
  assert (Z.log2 b < m) by (apply Z.log2_lt_pow2; lia).
  lia.
Qed.

Lemma gf_accmul_range (F : field) (m acc hlog x : Z) :
  gf_tables F m -> 1 <= m ->
  0 <= acc < 2 ^ m -> 0 <= gf_accmul F acc hlog x < 2 ^ m.
Proof.
  intros (Hs & Hs1 & Hexp & Hlog) Hm Ha. unfold gf_accmul.
  destruct (x =? gf_zero); [exact Ha|].
  assert (2 <= 2 ^ m) by (change 2 with (2 ^ 1) at 1; apply Z.pow_le_mono_r; lia).
  apply lxor_bound; [lia | exact Ha |].
  rewrite Hs1.
  pose proof (Z.mod_pos_bound (u64 (s32 (s32 hlog + (gf_log F).[x])))
                (2 ^ m - 1) ltac:(lia)) as Hi.
  destruct (Hexp _ Hi) as [Hr _]. lia.
Qed.

Lemma gf_accmul_all_range (F : field) (m k : Z) (h x : list Z) :
  gf_tables F m -> 1 <= m -> 0 <= k ->
  0 <= gf_accmul_all F k h x < 2 ^ m.
Proof.
  intros Ht Hm Hk. unfold gf_accmul_all.
  apply (for_ind (fun _ acc => 0 <= acc < 2 ^ m)); [exact Hk | |].
  - unfold gf_zero. split; [lia | apply Z.pow_pos_nonneg; lia].
  - intros i acc _ Ha. apply (gf_accmul_range F m); assumption.
Qed.

(** An exponent below [2 ^ m - 1] goes through the [int] and the [size_t]
    unchanged, up to the remainder: at [m = 32] the two wraps add
    [2 ^ 64 - 2 ^ 32], a multiple of [2 ^ 32 - 1]. *)
Lemma u64_s32_mod (m z : Z) :
  1 <= m <= 32 -> 0 <= z < 2 ^ m - 1 -> u64 (s32 z) mod (2 ^ m - 1) = z.
Proof.
  intros Hm Hz.
  assert (2 ^ m <= 2 ^ 32) by (apply Z.pow_le_mono_r; lia).
  destruct (Z_lt_le_dec z (2 ^ 31)) as [L|G].
  - unfold s32, u64. rewrite (Z.mod_small (z + 2 ^ 31)) by lia.
    replace (z + 2 ^ 31 - 2 ^ 31) with z by lia.
    rewrite (Z.mod_small z (2 ^ 64)) by lia. apply Z.mod_small. lia.
  - assert (m = 32) as ->.
    { destruct (Z.eq_dec m 32) as [E|N]; [exact E|].
      assert (2 ^ m <= 2 ^ 31) by (apply Z.pow_le_mono_r; lia). lia. }
    unfold s32, u64.
    replace ((z + 2 ^ 31) mod 2 ^ 32) with (z - 2 ^ 31)
      by (apply Z.mod_unique with 1; lia).
    replace ((z - 2 ^ 31 - 2 ^ 31) mod 2 ^ 64) with (z + 2 ^ 32 * (2 ^ 32 - 1))
      by (apply Z.mod_unique with (-1); lia).
    rewrite Z.mod_add by lia. apply Z.mod_small. lia.
Qed.

Lemma gf_accmul_self (F : field) (m a : Z) :
  gf_tables F m -> 1 <= m <= 32 -> 0 <= a < 2 ^ m -> gf_accmul F a 0 a = 0.
Proof.
  intros (Hs & Hs1 & Hexp & Hlog) Hm Ha. unfold gf_accmul, gf_zero.
  destruct (Z.eqb_spec a 0) as [E|N]; [exact E|].
  destruct (Hlog a ltac:(lia)) as [Hr He].
  change (s32 0) with 0. rewrite Z.add_0_l.
  rewrite Hs1, (u64_s32_mod m) by lia.
  rewrite He. apply Z.lxor_nilpotent.
Qed.

(** C2: for a parity [h] whose last coefficient has the exponent 0, every
    codeword [x] produced by [cw_begin], called on a block [x0] of [n] cells
    that hold anything (the block of [malloc], or the last codeword of the
    coset before), and by the calls of [cw_next] that returned [true]
    satisfies the parity: [chk_valid(n, h, x)] is true, and so is the check
    of the sum of the [n] terms, which is zero over the field. *)
Theorem cw_produced_satisfies_parity (F : field) (m n : Z) (h x0 x : list Z) :
  gf_tables F m -> 1 <= m <= 32 -> 1 <= n < 2 ^ 64 ->
  h.[n - 1] = 0 ->
  length x0 = Z.to_nat n ->
  cw_produced F n h x0 x ->
  chk_valid F n h x = true /\ QminVariant.chk_valid F n h x = true.
Proof.
  intros Ht Hm Hn Hh H0 Hx.
  pose proof (cw_produced_chk_valid F n h x0 x Hn H0 Hx) as Hv.
  split; [exact Hv|].
  unfold chk_valid in Hv. rewrite u64_small in Hv by lia.
  apply Z.eqb_eq in Hv.
  unfold QminVariant.chk_valid. apply Z.eqb_eq.
  unfold gf_accmul_all in *.
  replace n with (n - 1 + 1) at 1 by lia. rewrite for_snoc by lia.
  rewrite Hv, Hh. apply (gf_accmul_self F m); [exact Ht | exact Hm |].
  rewrite <- Hv. apply (gf_accmul_all_range F m); [exact Ht | lia | lia].
Qed.

Lemma gf_init_GF4 : gf_init 0x7 = Some GF4.
Proof. reflexivity. Qed.

Lemma cw_produced_satisfies_parity_witness :
  chk_valid GF4 3 [2; 1; 0] [1; 0; 3] = true /\
  QminVariant.chk_valid GF4 3 [2; 1; 0] [1; 0; 3] = true.
Proof.
  apply (cw_produced_satisfies_parity GF4 2 3 [2; 1; 0] [0; 0; 3] [1; 0; 3]).
  - apply gf_tablesb_sound. reflexivity.
  - lia.
  - lia.
  - reflexivity.
  - reflexivity.
  - apply (cw_produced_next GF4 3 [2; 1; 0] [0; 0; 3]
             (cw_begin 3 [2; 1; 0] [0; 0; 3])).
    + apply cw_produced_begin.
    + reflexivity.
Defined.

Lemma cw_next_carry_digits (F : field) (lo hi : Z) (cnt : nat) :
  0 <= lo -> 0 <= gf_size_minus_1 F ->
  forall i x, 0 <= i ->
    (forall k, lo <= k < hi -> 0 <= x.[k] <= gf_size_minus_1 F) ->
    forall k, lo <= k < hi ->
      0 <= (cw_next_carry cnt F i x).2.[k] <= gf_size_minus_1 F.
Proof.
  intros Hlo Hq. induction cnt as [|c IH]; intros i x Hi Hd k Hk; simpl.
  - apply Hd, Hk.
  - destruct (x.[i] =? gf_size_minus_1 F); [|apply Hd, Hk].
    apply IH; [lia | | exact Hk].
    intros k' Hk'. rewrite get_set by lia.
    destruct ((i =? k') && (k' <? Z.of_nat (length x))).
    + unfold gf_zero. lia.
    + apply Hd, Hk'.
Qed.

Lemma cw_next_rank (F : field) (n : Z) (h x : list Z) :
  1 <= gf_size_minus_1 F < 2 ^ 32 -> 1 <= n < 2 ^ 64 ->
  cw_digits F n x ->
  match cw_next F n h x with
  | (true, x') => cw_digits F n x' /\ cw_rank F n x' = cw_rank F n x + 1
  | (false, _) => cw_rank F n x = (gf_size_minus_1 F + 1) ^ (n - 1) - 1
  end.
Proof.
  intros Hq Hn [Hl Hd]. unfold cw_next, cw_rank.
  rewrite u64_small by lia.
  pose proof (cw_next_carry_spec F (Z.to_nat (n - 1)) ltac:(lia) 0 x
                ltac:(lia) ltac:(lia)
                ltac:(intros k Hk; apply Hd; lia)) as Hspec.
  pose proof (cw_next_carry_digits F 0 (n - 1) (Z.to_nat (n - 1))
                ltac:(lia) ltac:(lia) 0 x ltac:(lia) Hd) as Hdig.
  destruct (cw_next_carry (Z.to_nat (n - 1)) F 0 x) as [i x1].
  destruct (Hspec i x1 eq_refl) as (L & R & Fr & Full & Part).
  simpl in Hdig. rewrite Z2Nat.id in * by lia.
  destruct (Z.eqb_spec i (n - 1)) as [Ei|Ni].
  - apply Full. lia.
  - destruct (Part ltac:(lia)) as [Hlt Hv].
    rewrite (Fr i) by lia.
    pose proof (Hd i ltac:(lia)) as Hxi.
    rewrite u32_small by lia.
    split; [split|].
    + rewrite !length_set. lia.
    + intros k Hk. rewrite get_set_ne by lia. rewrite get_set by lia.
      destruct ((i =? k) && (k <? Z.of_nat (length x1))); [lia|].
      apply Hdig. lia.
    + apply (Hv _).
Qed.

Lemma digits_value_zero (q : Z) (x : list Z) :
  (forall k, x.[k] = 0) -> forall cnt i, digits_value q x i cnt = 0.
Proof.
  intros Hz. induction cnt as [|c IH]; intros i; simpl; [reflexivity|].
  rewrite Hz, IH. lia.
Qed.

Lemma cw_begin_digits (F : field) (n : Z) (h : list Z) :
  0 <= gf_size_minus_1 F -> 0 <= n ->
  cw_digits F n (cw_begin n h (alloc n)) /\
  cw_rank F n (cw_begin n h (alloc n)) = 0.
Proof.
  intros Hq Hn. destruct (cw_begin_zero n h Hn) as [Hl Hz].
  split; [split; [exact Hl|]|].
  - intros k _. rewrite Hz. lia.
  - unfold cw_rank. apply digits_value_zero, Hz.
Qed.

Lemma cw_rank_bound (F : field) (n : Z) (x : list Z) :
  0 <= gf_size_minus_1 F -> 1 <= n -> cw_digits F n x ->
  0 <= cw_rank F n x <= (gf_size_minus_1 F + 1) ^ (n - 1) - 1.
Proof.
  intros Hq Hn [_ Hd]. unfold cw_rank.
  pose proof (digits_value_bound (gf_size_minus_1 F + 1) x (Z.to_nat (n - 1))
                ltac:(lia) 0) as H.
  rewrite Z2Nat.id in H by lia. apply H.
  intros k Hk. specialize (Hd k ltac:(lia)). lia.
Qed.

Lemma coset_ranks (F : field) (n : Z) (h : list Z) :
  1 <= gf_size_minus_1 F < 2 ^ 32 -> 1 <= n < 2 ^ 64 ->
  forall fuel x,
    cw_digits F n x ->
    (gf_size_minus_1 F + 1) ^ (n - 1) - cw_rank F n x <= Z.of_nat fuel ->
    exists l, coset fuel F n h x = Done l /\
      map (cw_rank F n) l
      = seqZ (cw_rank F n x) ((gf_size_minus_1 F + 1) ^ (n - 1) - cw_rank F n x).
Proof.
  intros Hq Hn. induction fuel as [|f IH]; intros x Hx Hf.
  - pose proof (cw_rank_bound F n x ltac:(lia) ltac:(lia) Hx). lia.
  - pose proof (cw_rank_bound F n x ltac:(lia) ltac:(lia) Hx) as Hb.
    pose proof (cw_next_rank F n h x Hq Hn Hx) as Hnext.
    cbn [coset]. destruct (cw_next F n h x) as [[|] x'].
    + destruct Hnext as [Hx' Hr].
      destruct (IH x' Hx' ltac:(lia)) as (l & El & Ml).
      exists (x :: l). rewrite El. split; [reflexivity|].
      cbn [map]. rewrite Ml, Hr.
      rewrite (seqZ_cons (cw_rank F n x)) by lia.
      f_equal. f_equal; lia.
    + exists [x]. split; [reflexivity|].
      replace ((gf_size_minus_1 F + 1) ^ (n - 1) - cw_rank F n x) with 1 by lia.
      rewrite seqZ_cons by lia. reflexivity.
Qed.

Lemma coset_fuel (F : field) (n : Z) (h : list Z) :
  forall f k x l l',
    coset f F n h x = Done l -> coset k F n h x = Done l' -> l = l'.
Proof.
  induction f as [|f IH]; intros k x l l' El El'; [discriminate|].
  destruct k as [|k]; [discriminate|].
  cbn [coset] in El, El'. destruct (cw_next F n h x) as [[|] x'].
  - destruct (coset k F n h x') as [lk| |] eqn:Ek; try discriminate.
    destruct (coset f F n h x') as [lf| |] eqn:Ef; try discriminate.
    simpl in El, El'. injection El as <-. injection El' as <-.
    f_equal. apply (IH k x'); assumption.
  - congruence.
Qed.

Lemma coset_produced (F : field) (n : Z) (h x0 : list Z) :
  forall fuel x l, cw_produced F n h x0 x -> coset fuel F n h x = Done l ->
                   forall y, y ∈ l -> cw_produced F n h x0 y.
Proof.
  induction fuel as [|f IH]; intros x l Hx El y Hy; [discriminate|].
  cbn [coset] in El. destruct (cw_next F n h x) as [[|] x'] eqn:En.
  - destruct (coset f F n h x') as [l'| |] eqn:El'; try discriminate.
    simpl in El. injection El as <-.
    apply elem_of_cons in Hy. destruct Hy as [->|Hy]; [exact Hx|].
    apply (IH x' l'); [|exact El'|exact Hy].
    apply (cw_produced_next F n h x0 x x' Hx En).
  - injection El as <-. apply list_elem_of_singleton in Hy. subst y. exact Hx.
Qed.

Lemma cw_next_length (F : field) (n : Z) (h x : list Z) :
  length (cw_next F n h x).2 = length x.
Proof.
  unfold cw_next.
  pose proof (cw_next_carry_length F (Z.to_nat (u64 (n - 1))) 0 x) as Hl.
  destruct (cw_next_carry (Z.to_nat (u64 (n - 1))) F 0 x) as [i x1].
  simpl in Hl. destruct (i =? u64 (n - 1)); simpl; [exact Hl|].
  rewrite !length_set. exact Hl.
Qed.

(** The enumeration from the cleared block. *)
Lemma coset_enumeration (F : field) (n : Z) (h : list Z) :
  gf_size_minus_1 F = gf_size F - 1 -> 2 <= gf_size F <= 2 ^ 32 ->
  1 <= n < 2 ^ 64 ->
  exists l,
    (forall fuel, gf_size F ^ (n - 1) <= Z.of_nat fuel ->
                  coset fuel F n h (cw_begin n h (alloc n)) = Done l) /\
    Z.of_nat (length l) = gf_size F ^ (n - 1) /\
    NoDup l.
Proof.
  intros Hq1 Hq Hn.
  destruct (cw_begin_digits F n h ltac:(lia) ltac:(lia)) as [Hd Hr].
  assert (0 < gf_size F ^ (n - 1)) as Hpos by (apply Z.pow_pos_nonneg; lia).
  destruct (coset_ranks F n h ltac:(lia) Hn
              (Z.to_nat (gf_size F ^ (n - 1))) _ Hd) as (l & El & Ml).
  { rewrite Hq1, Hr. replace (gf_size F - 1 + 1) with (gf_size F) by lia. lia. }
  rewrite Hq1, Hr in Ml. replace (gf_size F - 1 + 1) with (gf_size F) in Ml by lia.
  rewrite Z.sub_0_r in Ml.
  exists l. split; [|split].
  - intros fuel Hf.
    destruct (coset_ranks F n h ltac:(lia) Hn fuel _ Hd) as (l' & El' & Ml').
    { rewrite Hq1, Hr. replace (gf_size F - 1 + 1) with (gf_size F) by lia. lia. }
    rewrite El'. f_equal. apply (coset_fuel F n h _ _ _ _ _ El' El).
  - rewrite <- (length_map (cw_rank F n)), Ml, length_seqZ. lia.
  - apply (NoDup_fmap_1 (cw_rank F n)).
    change (NoDup (map (cw_rank F n) l)). rewrite Ml. apply NoDup_seqZ.
Qed.

(** C3: for a parity [h] of length [n] over a field of [q] elements, the
    codewords that [cw_begin], called on a block [x0] of [n] cells that hold
    anything (the block of [malloc], or the last codeword of the coset
    before), and the calls of [cw_next], repeated until it returns [false],
    go through are [q ^ (n - 1)], all different; and the array that the
    enumeration leaves, the last codeword with its first [n - 1] cells
    cleared, starts the same enumeration again. *)
Theorem coset_size (F : field) (n : Z) (h x0 : list Z) :
  gf_size_minus_1 F = gf_size F - 1 -> 2 <= gf_size F <= 2 ^ 32 ->
  1 <= n < 2 ^ 64 ->
  length x0 = Z.to_nat n ->
  exists l,
    (forall fuel, gf_size F ^ (n - 1) <= Z.of_nat fuel ->
                  coset fuel F n h (cw_begin n h x0) = Done l) /\
    Z.of_nat (length l) = gf_size F ^ (n - 1) /\
    NoDup l /\
    (forall x1 y, last l = Some x1 -> cw_next F n h x1 = (false, y) ->
       forall fuel, gf_size F ^ (n - 1) <= Z.of_nat fuel ->
                    coset fuel F n h (cw_begin n h y) = Done l).
Proof.
  intros Hq1 Hq Hn H0.
  destruct (coset_enumeration F n h Hq1 Hq Hn) as (l & Hl & Hlen & Hnd).
  rewrite (cw_begin_clears n h (alloc n)) in Hl by (lia || apply length_alloc).
  exists l. rewrite cw_begin_clears by (lia || exact H0).
  split; [exact Hl|]. split; [exact Hlen|]. split; [exact Hnd|].
  intros x1 y Hlast Hnext fuel Hf.
  rewrite cw_begin_clears; [apply Hl, Hf | lia |].
  pose proof (cw_next_length F n h x1) as Ly. rewrite Hnext in Ly. simpl in Ly.
  rewrite Ly. apply last_Some in Hlast. destruct Hlast as [l' ->].
  apply (cw_produced_length F n h (alloc n) x1 Hn (length_alloc n)).
  apply (coset_produced F n h (alloc n) (Z.to_nat (gf_size F ^ (n - 1)))
           (cw_begin n h (alloc n)) (l' ++ [x1])).
  - apply cw_produced_begin.
  - rewrite cw_begin_clears by (lia || apply length_alloc). apply Hl. lia.
  - apply elem_of_app. right. apply list_elem_of_singleton. reflexivity.
Qed.

Lemma coset_size_witness :
  exists l,
    (forall fuel, gf_size GF4 ^ (3 - 1) <= Z.of_nat fuel ->
                  coset fuel GF4 3 [2; 1; 0] (cw_begin 3 [2; 1; 0] [0; 0; 3])
                  = Done l) /\
    Z.of_nat (length l) = gf_size GF4 ^ (3 - 1) /\
    NoDup l /\
    (forall x1 y, last l = Some x1 -> cw_next GF4 3 [2; 1; 0] x1 = (false, y) ->
       forall fuel, gf_size GF4 ^ (3 - 1) <= Z.of_nat fuel ->
                    coset fuel GF4 3 [2; 1; 0] (cw_begin 3 [2; 1; 0] y) = Done l).
Proof.
  apply (coset_size GF4 3 [2; 1; 0] [0; 0; 3]).
  - reflexivity.
  - simpl. lia.
  - lia.
  - reflexivity.
Defined.

(** ** The enumeration of the parities *)

Lemma descending_bound (F : field) (n : Z) (h : list Z) :
  descending F n h ->
  forall k, 0 <= k <= n - 1 -> h.[k] <= gf_size_minus_1 F - 1 - k.
Proof.
  intros (_ & _ & Hd & H0) k Hk.
  assert (forall c : nat, Z.of_nat c <= n - 1 ->
            h.[Z.of_nat c] <= gf_size_minus_1 F - 1 - Z.of_nat c) as Hc.
  { induction c as [|c IH]; intros Hc.
    - change (Z.of_nat 0) with 0. lia.
    - specialize (IH ltac:(lia)). specialize (Hd (Z.of_nat c) ltac:(lia)).
      replace (Z.of_nat (S c)) with (Z.of_nat c + 1) by lia. lia. }
  specialize (Hc (Z.to_nat k)). rewrite Z2Nat.id in Hc by lia. apply Hc. lia.
Qed.

Lemma descending_nonneg (F : field) (n : Z) (h : list Z) :
  descending F n h -> forall k, 0 <= k <= n - 1 -> n - 1 - k <= h.[k].
Proof.
  intros (_ & Hl & Hd & _) k Hk.
  assert (forall c : nat, Z.of_nat c <= n - 1 ->
            Z.of_nat c <= h.[n - 1 - Z.of_nat c]) as Hc.
  { induction c as [|c IH]; intros Hc.
    - change (Z.of_nat 0) with 0. rewrite Z.sub_0_r, Hl. lia.
    - specialize (IH ltac:(lia)).
      specialize (Hd (n - 1 - Z.of_nat (S c)) ltac:(lia)).
      replace (n - 1 - Z.of_nat (S c) + 1) with (n - 1 - Z.of_nat c) in Hd by lia.
      lia. }
  specialize (Hc (Z.to_nat (n - 1 - k))). rewrite Z2Nat.id in Hc by lia.
  replace (n - 1 - (n - 1 - k)) with k in Hc by lia. apply Hc. lia.
Qed.

Lemma descending_canonical (F : field) (n : Z) (h : list Z) :
  1 <= n -> descending F n h -> canonical n h.
Proof.
  intros Hn Hd. pose proof Hd as (Hl & Hz & Hs & H0).
  split; [exact Hl|]. split; [|exact Hz].
  intros i j Hij Hj.
  assert (forall c : nat, i + Z.of_nat c < n -> h.[i + Z.of_nat c] <= h.[i]) as Hc.
  { induction c as [|c IH]; intros Hc.
    - change (Z.of_nat 0) with 0. rewrite Z.add_0_r. lia.
    - specialize (IH ltac:(lia)). specialize (Hs (i + Z.of_nat c) ltac:(lia)).
      replace (i + Z.of_nat (S c)) with (i + Z.of_nat c + 1) by lia. lia. }
  specialize (Hc (Z.to_nat (j - i))).
  replace (i + Z.of_nat (Z.to_nat (j - i))) with j in Hc by lia. apply Hc. lia.
Qed.

Lemma chk_next_scan_spec (F : field) (n : Z) (h : list Z) :
  let q1 := gf_size_minus_1 F in
  2 <= n -> n <= q1 -> q1 < 2 ^ 32 ->
  (forall k, 0 <= k <= n - 1 -> h.[k] <= q1 - 1 - k) ->
  forall fuel i,
    0 <= i <= n - 2 -> n - i <= Z.of_nat fuel ->
    (forall k, 0 <= k < i -> h.[k] = q1 - 1 - k) ->
    match chk_next_scan fuel F n h i with
    | None => forall k, 0 <= k <= n - 2 -> h.[k] = q1 - 1 - k
    | Some j => i <= j <= n - 2 /\ h.[j] < q1 - 1 - j /\
                forall k, 0 <= k < j -> h.[k] = q1 - 1 - k
    end.
Proof.
  intros q1 Hn Hq Hq32 Hb. induction fuel as [|f IH]; intros i Hi Hf Hp; [lia|].
  cbn [chk_next_scan]. fold q1.
  rewrite u64_small by lia.
  destruct (Z.leb_spec (q1 - i - 1) h.[i]) as [Hc|Hc].
  - pose proof (Hb i ltac:(lia)) as Hbi.
    rewrite u64_small by lia.
    destruct (Z.ltb_spec n (i + 3)) as [Hl|Hl].
    + intros k Hk. destruct (Z.eq_dec k i) as [->|Nk]; [lia | apply Hp; lia].
    + rewrite u64_small by lia.
      specialize (IH (i + 1) ltac:(lia) ltac:(lia)).
      destruct (chk_next_scan f F n h (i + 1)) as [j|].
      * destruct IH as (Hj & Hlt & Hpre).
        { intros k Hk. destruct (Z.eq_dec k i) as [->|Nk]; [lia | apply Hp; lia]. }
        split; [lia|]. split; assumption.
      * apply IH. intros k Hk.
        destruct (Z.eq_dec k i) as [->|Nk]; [lia | apply Hp; lia].
  - split; [lia|]. split; [lia | exact Hp].
Qed.

Lemma chk_next_reset_spec (cnt : nat) :
  forall i h,
    i = Z.of_nat cnt -> i < Z.of_nat (length h) ->
    0 <= h.[i] -> h.[i] + i < 2 ^ 32 ->
    length (chk_next_reset cnt i h) = length h /\
    (forall k, i <= k -> (chk_next_reset cnt i h).[k] = h.[k]) /\
    (forall k, 0 <= k < i -> (chk_next_reset cnt i h).[k] = h.[i] + (i - k)).
Proof.
  induction cnt as [|c IH]; intros i h Hi Hl H0 Hb.
  - simpl. split; [reflexivity|]. split; [reflexivity | lia].
  - cbn [chk_next_reset]. rewrite u32_small by lia.
    assert ((set h (i - 1) (h.[i] + 1)).[i - 1] = h.[i] + 1) as Hg
      by (apply get_set_eq; lia).
    destruct (IH (i - 1) (set h (i - 1) (h.[i] + 1))) as (L & Hi' & Lo).
    + lia.
    + rewrite length_set. lia.
    + rewrite Hg. lia.
    + rewrite Hg. lia.
    + rewrite length_set in L. split; [exact L|]. split.
      * intros k Hk. rewrite Hi' by lia. apply get_set_ne; lia.
      * intros k Hk. destruct (Z.eq_dec k (i - 1)) as [->|Nk].
        -- rewrite Hi' by lia. rewrite Hg. lia.
        -- rewrite Lo by lia. rewrite Hg. lia.
Qed.

(** What [chk_next] does to a parity of the enumeration. *)
Lemma chk_next_spec (F : field) (n : Z) (h : list Z) :
  let q1 := gf_size_minus_1 F in
  2 <= n -> n <= q1 -> q1 < 2 ^ 32 ->
  descending F n h ->
  match chk_next F n h with
  | None => forall k, 0 <= k <= n - 2 -> h.[k] = q1 - 1 - k
  | Some h' =>
      exists j, 0 <= j <= n - 2 /\ h.[j] < q1 - 1 - j /\
        (forall k, 0 <= k < j -> h.[k] = q1 - 1 - k) /\
        length h' = length h /\
        (forall k, j < k -> h'.[k] = h.[k]) /\
        (forall k, 0 <= k <= j -> h'.[k] = h.[j] + 1 + (j - k))
  end.
Proof.
  intros q1 Hn Hq Hq32 Hd. unfold chk_next.
  pose proof (descending_bound F n h Hd) as Hb. fold q1 in Hb.
  pose proof (descending_nonneg F n h Hd) as Hnn.
  pose proof (chk_next_scan_spec F n h Hn Hq Hq32 Hb (Z.to_nat n) 0
                ltac:(lia) ltac:(lia) ltac:(intros; lia)) as Hs.
  destruct (chk_next_scan (Z.to_nat n) F n h 0) as [j|]; [|exact Hs].
  destruct Hs as (Hj & Hlt & Hpre). destruct Hd as (Hl & _).
  pose proof (Hnn j ltac:(lia)) as Hjn.
  rewrite u32_small by lia.
  assert ((set h j (h.[j] + 1)).[j] = h.[j] + 1) as Hg by (apply get_set_eq; lia).
  destruct (chk_next_reset_spec (Z.to_nat j) j (set h j (h.[j] + 1)))
    as (L & Hi & Lo).
  - lia.
  - rewrite length_set. lia.
  - rewrite Hg. lia.
  - rewrite Hg. lia.
  - rewrite length_set in L. rewrite Hg in Lo.
    exists j. split; [lia|]. split; [exact Hlt|]. split; [exact Hpre|].
    split; [exact L|]. split.
    + intros k Hk. rewrite Hi by lia. apply get_set_ne; lia.
    + intros k Hk. destruct (Z.eq_dec k j) as [->|Nk].
      * rewrite Hi by lia. rewrite Hg. lia.
      * rewrite Lo by lia. lia.
Qed.

Lemma digits_value_lt (B : Z) (x y : list Z) (cnt : nat) :
  1 <= B ->
  forall a j,
    a <= j < a + Z.of_nat cnt ->
    (forall k, a <= k < a + Z.of_nat cnt ->
       0 <= x.[k] <= B - 1 /\ 0 <= y.[k] <= B - 1) ->
    x.[j] < y.[j] ->
    (forall k, j < k < a + Z.of_nat cnt -> x.[k] = y.[k]) ->
    digits_value B x a cnt < digits_value B y a cnt.
Proof.
  intros HB. induction cnt as [|c IH]; intros a j Hj Hr Hlt Heq; [lia|].
  cbn [digits_value].
  destruct (Z.eq_dec j a) as [->|Nj].
  - rewrite (digits_value_frame B x y c (a + 1)); [lia|].
    intros k Hk. apply Heq. lia.
  - pose proof (IH (a + 1) j ltac:(lia)
                  ltac:(intros k Hk; apply Hr; lia) Hlt
                  ltac:(intros k Hk; apply Heq; lia)) as Hv.
    pose proof (Hr a ltac:(lia)). nia.
Qed.

Lemma descending_digits (F : field) (n : Z) (h : list Z) :
  descending F n h ->
  forall k, 0 <= k < 0 + Z.of_nat (Z.to_nat (n - 1)) ->
            0 <= h.[k] <= gf_size_minus_1 F + 1 - 1.
Proof.
  intros Hd k Hk.
  pose proof (descending_bound F n h Hd k ltac:(lia)).
  pose proof (descending_nonneg F n h Hd k ltac:(lia)). lia.
Qed.

Lemma chk_next_descending (F : field) (n : Z) (h h' : list Z) :
  2 <= n -> n <= gf_size_minus_1 F -> gf_size_minus_1 F < 2 ^ 32 ->
  descending F n h -> chk_next F n h = Some h' ->
  descending F n h' /\ chk_rank F n h < chk_rank F n h'.
Proof.
  intros Hn Hq Hq32 Hd E.
  pose proof (chk_next_spec F n h Hn Hq Hq32 Hd) as Hs. rewrite E in Hs.
  destruct Hs as (j & Hj & Hlt & Hpre & L & Hi & Lo).
  pose proof Hd as (Hl & Hz & Hst & H0).
  pose proof (descending_nonneg F n h Hd) as Hnn.
  assert (descending F n h') as Hd'.
  { split; [lia|]. split; [rewrite Hi by lia; exact Hz|]. split.
    - intros i Hi0.
      destruct (Z.lt_trichotomy i j) as [Hij | [-> | Hij]].
      + rewrite !Lo by lia. lia.
      + rewrite Hi by lia. rewrite Lo by lia.
        specialize (Hst j ltac:(lia)). lia.
      + rewrite !Hi by lia. apply Hst. lia.
    - rewrite Lo by lia. lia. }
  split; [exact Hd'|].
  unfold chk_rank.
  apply (digits_value_lt (gf_size_minus_1 F + 1) h h' _ ltac:(lia) 0 j).
  - lia.
  - intros k Hk. split; [apply (descending_digits F n h Hd k Hk)
                        | apply (descending_digits F n h' Hd' k Hk)].
  - rewrite Lo by lia. lia.
  - intros k Hk. symmetry. apply Hi. lia.
Qed.

Lemma chk_begin_spec (n : Z) :
  1 <= n < 2 ^ 32 ->
  length (chk_begin n (alloc n)) = Z.to_nat n /\
  (forall k, 0 <= k < n - 1 -> (chk_begin n (alloc n)).[k] = n - 1 - k) /\
  (chk_begin n (alloc n)).[n - 1] = 0.
Proof.
  intros Hn. unfold chk_begin. rewrite u64_small by lia.
  pose proof (for_ind
    (fun i h => length h = Z.to_nat n /\ forall k, 0 <= k < i -> h.[k] = n - 1 - k)
    (fun i h => set h i (u32 (n - i - 1))) 0 (n - 1) (alloc n) ltac:(lia)) as H.
  destruct H as [L Hk].
  - split; [apply length_alloc | intros; lia].
  - intros i h Hi [L Hk]. split; [rewrite length_set; exact L|].
    intros k Hk'. rewrite u32_small by lia. rewrite get_set by lia.
    destruct (Z.eqb_spec i k) as [->|Ne]; simpl.
    + destruct (Z.ltb_spec k (Z.of_nat (length h))); lia.
    + apply Hk. lia.
  - split; [rewrite length_set; exact L|]. split.
    + intros k Hk'. rewrite get_set_ne by lia. apply Hk. lia.
    + apply get_set_eq. lia.
Qed.

Lemma chk_begin_descending (F : field) (n : Z) :
  2 <= n -> n <= gf_size_minus_1 F -> gf_size_minus_1 F < 2 ^ 32 ->
  descending F n (chk_begin n (alloc n)).
Proof.
  intros Hn Hq Hq32. destruct (chk_begin_spec n ltac:(lia)) as (L & Hk & Hz).
  split; [exact L|]. split; [exact Hz|]. split.
  - intros i Hi. destruct (Z.eq_dec (i + 1) (n - 1)) as [E|E].
    + rewrite E, Hz. rewrite Hk by lia. lia.
    + rewrite !Hk by lia. lia.
  - rewrite Hk by lia. lia.
Qed.

Lemma chk_rank_bound (F : field) (n : Z) (h : list Z) :
  1 <= n -> 0 <= gf_size_minus_1 F -> descending F n h ->
  0 <= chk_rank F n h <= (gf_size_minus_1 F + 1) ^ (n - 1) - 1.
Proof.
  intros Hn Hq Hd. unfold chk_rank.
  pose proof (digits_value_bound (gf_size_minus_1 F + 1) h (Z.to_nat (n - 1))
                ltac:(lia) 0 (descending_digits F n h Hd)) as H.
  rewrite Z2Nat.id in H by lia. exact H.
Qed.

Lemma parity_list_spec (F : field) (n : Z) :
  2 <= n -> n <= gf_size_minus_1 F -> gf_size_minus_1 F < 2 ^ 32 ->
  forall fuel h,
    descending F n h ->
    (gf_size_minus_1 F + 1) ^ (n - 1) - chk_rank F n h <= Z.of_nat fuel ->
    exists l, parity_list fuel F n h = Done l /\
      Forall (descending F n) l /\
      Forall (fun h' => chk_rank F n h <= chk_rank F n h') l /\
      NoDup l.
Proof.
  intros Hn Hq Hq32. induction fuel as [|f IH]; intros h Hd Hf.
  - pose proof (chk_rank_bound F n h ltac:(lia) ltac:(lia) Hd). lia.
  - pose proof (chk_rank_bound F n h ltac:(lia) ltac:(lia) Hd) as Hb.
    cbn [parity_list]. destruct (chk_next F n h) as [h'|] eqn:E.
    + destruct (chk_next_descending F n h h' Hn Hq Hq32 Hd E) as [Hd' Hr].
      destruct (IH h' Hd' ltac:(lia)) as (l & El & Fd & Fr & Nd).
      exists (h :: l). rewrite El. split; [reflexivity|].
      split; [constructor; assumption|]. split.
      * constructor; [lia|]. eapply Forall_impl; [exact Fr|].
        intros a Ha. simpl in Ha. lia.
      * apply NoDup_cons. split; [|exact Nd].
        intros Hin. rewrite Forall_forall in Fr. specialize (Fr h Hin). lia.
    + exists [h]. split; [reflexivity|].
      split; [constructor; [exact Hd | constructor]|].
      split; [constructor; [lia | constructor]|].
      apply NoDup_singleton.
Qed.

Lemma parity_list_fuel (F : field) (n : Z) :
  forall f k h l l',
    parity_list f F n h = Done l -> parity_list k F n h = Done l' -> l = l'.
Proof.
  induction f as [|f IH]; intros k h l l' El El'; [discriminate|].
  destruct k as [|k]; [discriminate|].
  cbn [parity_list] in El, El'. destruct (chk_next F n h) as [h'|].
  - destruct (parity_list k F n h') as [lk| |] eqn:Ek; try discriminate.
    destruct (parity_list f F n h') as [lf| |] eqn:Ef; try discriminate.
    simpl in El, El'. injection El as <-. injection El' as <-.
    f_equal. apply (IH k h'); assumption.
  - congruence.
Qed.

(** For every length [n >= 2] the parities of the enumeration are in
    canonical form, and none comes twice. *)
Lemma parity_list_canonical (F : field) (n : Z) :
  gf_size_minus_1 F = gf_size F - 1 -> gf_size F <= 2 ^ 32 ->
  2 <= n < gf_size F ->
  exists l,
    (forall fuel, gf_size F ^ (n - 1) <= Z.of_nat fuel ->
                  parity_list fuel F n (chk_begin n (alloc n)) = Done l) /\
    Forall (canonical n) l /\ Forall (descending F n) l /\ NoDup l.
Proof.
  intros Hq1 Hq Hn.
  pose proof (chk_begin_descending F n ltac:(lia) ltac:(lia) ltac:(lia)) as Hd.
  pose proof (chk_rank_bound F n _ ltac:(lia) ltac:(lia) Hd) as Hb.
  replace (gf_size_minus_1 F + 1) with (gf_size F) in Hb by lia.
  destruct (parity_list_spec F n ltac:(lia) ltac:(lia) ltac:(lia)
              (Z.to_nat (gf_size F ^ (n - 1))) _ Hd) as (l & El & Fd & _ & Nd).
  { replace (gf_size_minus_1 F + 1) with (gf_size F) by lia. lia. }
  exists l. split; [|split; [|split]].
  - intros fuel Hf.
    destruct (parity_list_spec F n ltac:(lia) ltac:(lia) ltac:(lia)
                fuel _ Hd) as (l' & El' & _).
    { replace (gf_size_minus_1 F + 1) with (gf_size F) by lia. lia. }
    rewrite El'. f_equal. apply (parity_list_fuel F n _ _ _ _ _ El' El).
  - eapply Forall_impl; [exact Fd|]. intros h Hh.
    apply (descending_canonical F n h); [lia | exact Hh].
  - exact Fd.
  - exact Nd.
Qed.

(** *** The enumeration misses no strictly decreasing parity *)

Lemma digits_trichotomy (x y : list Z) (cnt : nat) :
  forall a,
    (forall k, a <= k < a + Z.of_nat cnt -> x.[k] = y.[k]) \/
    (exists p, a <= p < a + Z.of_nat cnt /\ x.[p] < y.[p] /\
               forall k, p < k < a + Z.of_nat cnt -> x.[k] = y.[k]) \/
    (exists p, a <= p < a + Z.of_nat cnt /\ y.[p] < x.[p] /\
               forall k, p < k < a + Z.of_nat cnt -> x.[k] = y.[k]).
Proof.
  induction cnt as [|c IH]; intros a; [left; intros; lia|].
  destruct (IH (a + 1)) as [He | [(p & Hp & Hlt & He) | (p & Hp & Hlt & He)]].
  - destruct (Z.lt_trichotomy x.[a] y.[a]) as [Hl | [Hq | Hg]].
    + right. left. exists a. split; [lia|]. split; [exact Hl|].
      intros k Hk. apply He. lia.
    + left. intros k Hk. destruct (Z.eq_dec k a) as [->|N]; [exact Hq|].
      apply He. lia.
    + right. right. exists a. split; [lia|]. split; [exact Hg|].
      intros k Hk. apply He. lia.
  - right. left. exists p. split; [lia|]. split; [exact Hlt|].
    intros k Hk. apply He. lia.
  - right. right. exists p. split; [lia|]. split; [exact Hlt|].
    intros k Hk. apply He. lia.
Qed.

Lemma digits_value_le (B : Z) (x y : list Z) (cnt : nat) :
  0 <= B ->
  forall a, (forall k, a <= k < a + Z.of_nat cnt -> x.[k] <= y.[k]) ->
            digits_value B x a cnt <= digits_value B y a cnt.
Proof.
  intros HB. induction cnt as [|c IH]; intros a H; simpl; [lia|].
  pose proof (H a ltac:(lia)).
  pose proof (IH (a + 1) ltac:(intros k Hk; apply H; lia)). nia.
Qed.

Lemma descending_gap (F : field) (n : Z) (t : list Z) :
  descending F n t ->
  forall i j, 0 <= i <= j -> j <= n - 1 -> t.[j] + (j - i) <= t.[i].
Proof.
  intros (_ & _ & Hs & _) i j Hij Hj.
  assert (forall c : nat, 0 <= j - Z.of_nat c ->
            t.[j] + Z.of_nat c <= t.[j - Z.of_nat c]) as Hc.
  { induction c as [|c IH]; intros Hc.
    - change (Z.of_nat 0) with 0. rewrite Z.sub_0_r. lia.
    - specialize (IH ltac:(lia)).
      specialize (Hs (j - Z.of_nat (S c)) ltac:(lia)).
      replace (j - Z.of_nat (S c) + 1) with (j - Z.of_nat c) in Hs by lia. lia. }
  specialize (Hc (Z.to_nat (j - i))). rewrite Z2Nat.id in Hc by lia.
  replace (j - (j - i)) with i in Hc by lia. apply Hc. lia.
Qed.

Lemma descending_rank_inj (F : field) (n : Z) (h t : list Z) :
  1 <= n -> 0 <= gf_size_minus_1 F ->
  descending F n h -> descending F n t ->
  chk_rank F n h = chk_rank F n t -> h = t.
Proof.
  intros Hn Hq Hh Ht E. unfold chk_rank in E.
  pose proof (descending_digits F n h Hh) as Dh.
  pose proof (descending_digits F n t Ht) as Dt.
  destruct (digits_trichotomy h t (Z.to_nat (n - 1)) 0)
    as [He | [(p & Hp & Hlt & He) | (p & Hp & Hlt & He)]].
  - destruct Hh as (Lh & Zh & _), Ht as (Lt & Zt & _).
    apply array_ext; [lia|]. intros k Hk.
    destruct (Z.eq_dec k (n - 1)) as [->|N]; [lia | apply He; lia].
  - pose proof (digits_value_lt (gf_size_minus_1 F + 1) h t _ ltac:(lia) 0 p Hp
                  ltac:(intros k Hk; split; [apply Dh | apply Dt]; exact Hk)
                  Hlt He). lia.
  - pose proof (digits_value_lt (gf_size_minus_1 F + 1) t h _ ltac:(lia) 0 p Hp
                  ltac:(intros k Hk; split; [apply Dt | apply Dh]; exact Hk)
                  Hlt ltac:(intros k Hk; symmetry; apply He; exact Hk)). lia.
Qed.

(** [chk_next] goes to the next strictly decreasing parity, in the order
    that compares the coefficients from the last to the first. *)
Lemma chk_next_successor (F : field) (n : Z) (h t : list Z) :
  2 <= n -> n <= gf_size_minus_1 F -> gf_size_minus_1 F < 2 ^ 32 ->
  descending F n h -> descending F n t ->
  chk_rank F n h < chk_rank F n t ->
  exists h', chk_next F n h = Some h' /\ chk_rank F n h' <= chk_rank F n t.
Proof.
  intros Hn Hq Hq32 Hh Ht Hr.
  pose proof (descending_digits F n h Hh) as Dh.
  pose proof (descending_digits F n t Ht) as Dt.
  pose proof (descending_bound F n t Ht) as Bt.
  assert (exists p, 0 <= p < n - 1 /\ h.[p] < t.[p] /\
                    forall k, p < k < n - 1 -> h.[k] = t.[k]) as (p & Hp & Hlt & He).
  { unfold chk_rank in Hr.
    destruct (digits_trichotomy h t (Z.to_nat (n - 1)) 0)
      as [He | [(p & Hp & Hlt & He) | (p & Hp & Hlt & He)]].
    - rewrite (digits_value_frame _ h t _ 0 He) in Hr. lia.
    - exists p. split; [lia|]. split; [exact Hlt|].
      intros k Hk. apply He. lia.
    - pose proof (digits_value_lt (gf_size_minus_1 F + 1) t h _ ltac:(lia) 0 p Hp
                    ltac:(intros k Hk; split; [apply Dt | apply Dh]; exact Hk)
                    Hlt ltac:(intros k Hk; symmetry; apply He; exact Hk)). lia. }
  pose proof (chk_next_spec F n h Hn Hq Hq32 Hh) as Hs.
  destruct (chk_next F n h) as [h'|] eqn:E.
  - exists h'. split; [reflexivity|].
    destruct (chk_next_descending F n h h' Hn Hq Hq32 Hh E) as [Hh' _].
    pose proof (descending_digits F n h' Hh') as Dh'.
    destruct Hs as (j & Hj & Hjlt & Hpre & L & Hi & Lo).
    assert (j <= p) as Hjp.
    { destruct (Z.le_gt_cases j p) as [?|Hg]; [assumption|].
      specialize (Hpre p ltac:(lia)). specialize (Bt p ltac:(lia)). lia. }
    unfold chk_rank.
    destruct (Z.eq_dec p j) as [->|Npj].
    + destruct (Z.eq_dec t.[j] (h.[j] + 1)) as [Et|Nt].
      * apply digits_value_le; [lia|]. intros k Hk.
        destruct (Z.lt_trichotomy k j) as [Hkj | [-> | Hkj]].
        -- rewrite Lo by lia.
           pose proof (descending_gap F n t Ht k j ltac:(lia) ltac:(lia)). lia.
        -- rewrite Lo by lia. lia.
        -- rewrite Hi by lia. rewrite He by lia. lia.
      * apply Z.lt_le_incl.
        apply (digits_value_lt (gf_size_minus_1 F + 1) h' t _ ltac:(lia) 0 j).
        -- lia.
        -- intros k Hk. split; [apply Dh' | apply Dt]; exact Hk.
        -- rewrite Lo by lia. lia.
        -- intros k Hk. rewrite Hi by lia. apply He. lia.
    + apply Z.lt_le_incl.
      apply (digits_value_lt (gf_size_minus_1 F + 1) h' t _ ltac:(lia) 0 p).
      * lia.
      * intros k Hk. split; [apply Dh' | apply Dt]; exact Hk.
      * rewrite Hi by lia. exact Hlt.
      * intros k Hk. rewrite Hi by lia. apply He. lia.
  - specialize (Hs p ltac:(lia)). specialize (Bt p ltac:(lia)). lia.
Qed.

Lemma parity_list_complete (F : field) (n : Z) :
  2 <= n -> n <= gf_size_minus_1 F -> gf_size_minus_1 F < 2 ^ 32 ->
  forall fuel h l,
    descending F n h -> parity_list fuel F n h = Done l ->
    forall t, descending F n t -> chk_rank F n h <= chk_rank F n t -> t ∈ l.
Proof.
  intros Hn Hq Hq32. induction fuel as [|f IH]; intros h l Hh El t Ht Hr;
    [discriminate|].
  cbn [parity_list] in El.
  destruct (Z.eq_dec (chk_rank F n h) (chk_rank F n t)) as [Er|Nr].
  - apply (descending_rank_inj F n h t ltac:(lia) ltac:(lia) Hh Ht) in Er.
    subst t. destruct (chk_next F n h) as [h'|].
    + destruct (parity_list f F n h') as [l'| |]; try discriminate.
      injection El as <-. apply list_elem_of_here.
    + injection El as <-. apply list_elem_of_here.
  - destruct (chk_next_successor F n h t Hn Hq Hq32 Hh Ht ltac:(lia))
      as (h' & E & Hr').
    rewrite E in El.
    destruct (parity_list f F n h') as [l'| |] eqn:El'; try discriminate.
    injection El as <-. apply list_elem_of_further.
    destruct (chk_next_descending F n h h' Hn Hq Hq32 Hh E) as [Hh' _].
    apply (IH h' l' Hh' El' t Ht Hr').
Qed.

Lemma chk_begin_least (F : field) (n : Z) (t : list Z) :
  2 <= n -> n <= gf_size_minus_1 F -> gf_size_minus_1 F < 2 ^ 32 ->
  descending F n t ->
  chk_rank F n (chk_begin n (alloc n)) <= chk_rank F n t.
Proof.
  intros Hn Hq Hq32 Ht. unfold chk_rank.
  destruct (chk_begin_spec n ltac:(lia)) as (_ & Hk & _).
  apply digits_value_le; [lia|]. intros k Hk'.
  rewrite Hk by lia. apply (descending_nonneg F n t Ht). lia.
Qed.

(** C4 at the length 1: [chk_next] increments the only coefficient, which is
    also the last, so the second parity of the enumeration, [1], does not end
    with the exponent 0.  ([parity_list_canonical] is the claim for every
    length from 2 on.) *)
Theorem chk_next_length_one :
  chk_begin 1 (alloc 1) = [0] /\
  chk_next GF4 1 [0] = Some [1] /\
  parity_list 3 GF4 1 (chk_begin 1 (alloc 1)) = Done [[0]; [1]; [2]] /\
  ~ canonical 1 [1].
Proof.
  split; [reflexivity|]. split; [reflexivity|]. split; [reflexivity|].
  intros (_ & _ & H). vm_compute in H. discriminate H.
Qed.

(** C5 as stated fails: over GF(4) at the length 3 the cosets of the
    parities that are enumerated do not have four codewords each.  A coset
    has 16 codewords, for the parity (2, 1, 0) that is enumerated as for
    (1, 1, 0) and (2, 2, 0). *)
Lemma three_parities_four_codewords_refuted :
  ~ (exists l,
       parity_list 16 GF4 3 (chk_begin 3 (alloc 3)) = Done l /\
       Forall (fun h => exists c,
                 coset 16 GF4 3 h (cw_begin 3 h (alloc 3)) = Done c /\
                 length c = 4%nat) l) /\
  Forall (fun h => exists c,
            coset 16 GF4 3 h (cw_begin 3 h (alloc 3)) = Done c /\
            length c = 16%nat) [[1; 1; 0]; [2; 1; 0]; [2; 2; 0]].
Proof.
  split.
  - intros (l & E & H). vm_compute in E. injection E as <-.
    apply Forall_cons in H. destruct H as [(c & Ec & Lc) _].
    vm_compute in Ec. injection Ec as <-. discriminate Lc.
  - repeat (apply Forall_cons; split;
            [eexists; split; [vm_compute; reflexivity | reflexivity]|]).
    apply Forall_nil. exact I.
Qed.

(** What the enumeration goes through: over GF(4) at the length 3 one
    parity, (2, 1, 0), whose coset has 16 codewords, and the search on the
    square reports this one parity; for every field and every length
    [n >= 2], once each vector of [n] strictly decreasing exponents that
    starts at [q - 2] at most and ends with 0, and nothing else.  The
    parities with equal coefficients, (1, 1, 0) and (2, 2, 0) over GF(4),
    which the comment before [chk_valid] counts (the multisets) and which
    [readparity] of the sieve keeps, are not among them. *)
Lemma parity_enumeration_descending :
  (forall fuel, parity_list (S fuel) GF4 3 (chk_begin 3 (alloc 3)) = Done [[2; 1; 0]]) /\
  (exists c, coset 16 GF4 3 [2; 1; 0] (cw_begin 3 [2; 1; 0] (alloc 3)) = Done c /\
             length c = 16%nat) /\
  (exists r, search 40 3 8 square [0; 1; 2; 3] = Some (Done [r]) /\
             r_h r = [2; 1; 0]) /\
  (forall F n,
     gf_size_minus_1 F = gf_size F - 1 -> gf_size F <= 2 ^ 32 ->
     2 <= n < gf_size F ->
     exists l,
       (forall fuel, gf_size F ^ (n - 1) <= Z.of_nat fuel ->
                     parity_list fuel F n (chk_begin n (alloc n)) = Done l) /\
       NoDup l /\
       forall h, h ∈ l <-> descending F n h).
Proof.
  split; [intros fuel; reflexivity|].
  split; [eexists; split; [vm_compute; reflexivity | reflexivity]|].
  split; [eexists; split; [vm_compute; reflexivity | reflexivity]|].
  intros F n Hq1 Hq Hn.
  destruct (parity_list_canonical F n Hq1 Hq Hn) as (l & El & _ & Fd & Nd).
  exists l. split; [exact El|]. split; [exact Nd|].
  intros h. split.
  - intros Hin. rewrite Forall_forall in Fd. apply Fd, Hin.
  - intros Hh.
    pose proof (chk_begin_descending F n ltac:(lia) ltac:(lia) ltac:(lia)) as Hb.
    apply (parity_list_complete F n ltac:(lia) ltac:(lia) ltac:(lia)
             (Z.to_nat (gf_size F ^ (n - 1))) (chk_begin n (alloc n)) l Hb).
    + apply El. lia.
    + exact Hh.
    + apply chk_begin_least; [lia | lia | lia | exact Hh].
Qed.

Lemma parity_enumeration_descending_witness :
  exists l,
    (forall fuel, gf_size GF8 ^ (3 - 1) <= Z.of_nat fuel ->
                  parity_list fuel GF8 3 (chk_begin 3 (alloc 3)) = Done l) /\
    NoDup l /\
    forall h, h ∈ l <-> descending GF8 3 h.
Proof.
  destruct parity_enumeration_descending as (_ & _ & _ & H).
  apply (H GF8 3); [reflexivity | simpl; lia | simpl; lia].
Defined.

(** ** The traversal against the brute-force reference *)

Lemma gf_init_GF8 : gf_init 0xb = Some GF8.
Proof. reflexivity. Qed.

(** C1 at the length 4: on the eight points of the 4 x 4 grid with an even
    sum of coordinates, below the quadrance 11, for the first parity
    (3, 2, 1, 0) and the codeword 0, the traversal records six neighbours at
    the quadrance 10 where the brute-force reference records seven.  The
    neighbour of ranks (4, 0, 1), at the quadrance 8 + 0 + 2 + 0 = 10, is
    never reached. *)
Theorem pruned_differs_from_brute_force :
  pruned checkerboard_env [3; 2; 1; 0] [0; 0; 0; 0] (alloc 11)
  = Done [1; 0; 0; 0; 0; 0; 7; 0; 5; 0; 6] /\
  brute_force checkerboard_env [3; 2; 1; 0] [0; 0; 0; 0] (alloc 11)
  = Done [1; 0; 0; 0; 0; 0; 7; 0; 5; 0; 7] /\
  neighbour checkerboard_env [3; 2; 1; 0] [0; 0; 0; 0] [4; 0; 1; 0]
  = ([5; 0; 2; 0], 10).
Proof.
  split; [vm_compute; reflexivity|]. split; vm_compute; reflexivity.
Qed.

(** ** The sort of the rows of [V] *)

Section SortRow.

Variables (Q : list Z) (base q : Z).
Hypotheses (Hbase : 0 <= base) (Hq : 0 <= q).

Lemma exchange_length (j k : Z) (V : list Z) :
  length (exchange Q base j k V) = length V.
Proof.
  unfold exchange. destruct (_ <? _); [|reflexivity].
  rewrite !length_set. reflexivity.
Qed.

Lemma exchange_frame (j k : Z) (V : list Z) (idx : Z) :
  0 <= j < q -> 0 <= k < q -> 0 <= idx -> idx < base \/ base + q <= idx ->
  (exchange Q base j k V).[idx] = V.[idx].
Proof.
  intros Hj Hk Hi Ho. unfold exchange. destruct (_ <? _); [|reflexivity].
  rewrite !get_set_ne by lia. reflexivity.
Qed.

Lemma exchange_get (j k : Z) (V : list Z) (b : Z) :
  0 <= j -> j < k -> k < q -> base + q <= Z.of_nat (length V) -> 0 <= b < q ->
  (exchange Q base j k V).[base + b]
  = if Q.[base + V.[base + k]] <? Q.[base + V.[base + j]]
    then if b =? j then V.[base + k]
         else if b =? k then V.[base + j] else V.[base + b]
    else V.[base + b].
Proof.
  intros Hj Hjk Hk Hl Hb. unfold exchange.
  destruct (_ <? _); [|reflexivity].
  destruct (Z.eqb_spec b k) as [->|Nk].
  - rewrite get_set_eq by (rewrite length_set; lia).
    destruct (Z.eqb_spec k j); [lia | reflexivity].
  - rewrite get_set_ne by lia.
    destruct (Z.eqb_spec b j) as [->|Nj].
    + apply get_set_eq. lia.
    + apply get_set_ne; lia.
Qed.

(** The loop on [k] brings to the cell [j] a value of least quadrance among
    the cells from [j] on. *)
Lemma exchange_loop (j : Z) (V0 : list Z) :
  0 <= j < q -> base + q <= Z.of_nat (length V0) ->
  row_distinct V0 base q -> row_sorted Q V0 base q j ->
  let V := for_ (j + 1) q (exchange Q base j) V0 in
  row_frame V0 V base q /\ row_distinct V base q /\
  row_sorted Q V base q (j + 1) /\
  (forall a, 0 <= a < j -> V.[base + a] = V0.[base + a]).
Proof.
  intros Hj Hl Hd Hs.
  pose proof (for_ind
    (fun k V => row_frame V0 V base q /\ row_distinct V base q /\
                row_sorted Q V base q j /\
                (forall b, j < b < k -> Q.[base + V.[base + j]] <= Q.[base + V.[base + b]]) /\
                (forall a, 0 <= a < j -> V.[base + a] = V0.[base + a]))
    (exchange Q base j) (j + 1) q V0 ltac:(lia)) as H.
  destruct H as (Fr & Di & So & Mi & Pr).
  - split; [split; [reflexivity | intros; reflexivity]|].
    split; [exact Hd|]. split; [exact Hs|]. split; [intros; lia | intros; reflexivity].
  - intros k V Hk ([Lf Ff] & [Rg Ij] & So & Mi & Pr).
    assert (base + q <= Z.of_nat (length V)) as HlV by lia.
    assert (forall b, 0 <= b < q ->
              (exchange Q base j k V).[base + b]
              = if Q.[base + V.[base + k]] <? Q.[base + V.[base + j]]
                then if b =? j then V.[base + k]
                     else if b =? k then V.[base + j] else V.[base + b]
                else V.[base + b]) as Hg
      by (intros b Hb; apply exchange_get; lia).
    split; [split|].
    + rewrite exchange_length. exact Lf.
    + intros idx Hi Ho. rewrite exchange_frame by lia. apply Ff; assumption.
    + destruct (Z.ltb_spec Q.[base + V.[base + k]] Q.[base + V.[base + j]])
        as [Hlt|Hge].
      * split; [split|split; [|split]].
        -- intros a Ha. rewrite Hg by lia.
           destruct (Z.eqb_spec a j); [apply Rg; lia|].
           destruct (Z.eqb_spec a k); apply Rg; lia.
        -- intros a b Ha Hb. rewrite !Hg by lia.
           destruct (Z.eqb_spec a j), (Z.eqb_spec b j),
             (Z.eqb_spec a k), (Z.eqb_spec b k); intros E; try lia;
             apply Ij in E; lia.
        -- intros a b Ha Hb. rewrite !Hg by lia.
           destruct (Z.eqb_spec a j); [lia|]. destruct (Z.eqb_spec a k); [lia|].
           destruct (Z.eqb_spec b j); [apply So; lia|].
           destruct (Z.eqb_spec b k); apply So; lia.
        -- intros b Hb. rewrite !Hg by lia. rewrite Z.eqb_refl.
           destruct (Z.eqb_spec b j); [lia|].
           destruct (Z.eqb_spec b k); [lia|].
           specialize (Mi b ltac:(lia)). lia.
        -- intros a Ha. rewrite Hg by lia.
           destruct (Z.eqb_spec a j); [lia|]. destruct (Z.eqb_spec a k); [lia|].
           apply Pr, Ha.
      * assert (forall b, 0 <= b < q ->
                  (exchange Q base j k V).[base + b] = V.[base + b]) as Hg'.
        { intros b Hb. rewrite Hg by lia.
          destruct (Z.ltb_spec Q.[base + V.[base + k]] Q.[base + V.[base + j]]);
            [lia | reflexivity]. }
        split; [split|split; [|split]].
        -- intros a Ha. rewrite Hg' by lia. apply Rg, Ha.
        -- intros a b Ha Hb. rewrite !Hg' by lia. apply Ij; assumption.
        -- intros a b Ha Hb. rewrite !Hg' by lia. apply So; assumption.
        -- intros b Hb. rewrite !Hg' by lia.
           destruct (Z.eq_dec b k) as [->|N]; [lia | apply Mi; lia].
        -- intros a Ha. rewrite Hg' by lia. apply Pr, Ha.
  - split; [exact Fr|]. split; [exact Di|]. split; [|exact Pr].
    intros a b Ha Hb. destruct (Z.eq_dec a j) as [->|Na]; [|apply So; lia].
    destruct (Z.eq_dec b j) as [->|Nb]; [lia | apply Mi; lia].
Qed.

End SortRow.

Lemma row_frame_trans (V0 V1 V2 : list Z) (base q : Z) :
  row_frame V0 V1 base q -> row_frame V1 V2 base q -> row_frame V0 V2 base q.
Proof.
  intros [L1 F1] [L2 F2]. split; [congruence|].
  intros idx Hi Ho. rewrite F2, F1 by assumption. reflexivity.
Qed.

Lemma for_first {St : Type} (f : Z -> St -> St) (a b : Z) (s : St) :
  a < b -> for_ a b f s = for_ (a + 1) b f (f a s).
Proof.
  intros H. unfold for_.
  replace (Z.to_nat (b - a)) with (S (Z.to_nat (b - (a + 1)))) by lia.
  reflexivity.
Qed.

Section SortPasses.

Variables (Q : list Z) (base q : Z).
Hypotheses (Hbase : 0 <= base) (Hq : 0 <= q).

(** The passes from [j0] on sort the row and leave the cells before [j0]. *)
Lemma sort_passes (j0 : Z) (V1 : list Z) :
  0 <= j0 <= q -> base + q <= Z.of_nat (length V1) ->
  row_distinct V1 base q -> row_sorted Q V1 base q j0 ->
  let V := for_ j0 q (fun j V => for_ (j + 1) q (exchange Q base j) V) V1 in
  row_frame V1 V base q /\ row_distinct V base q /\ row_sorted Q V base q q /\
  (forall a, 0 <= a < j0 -> V.[base + a] = V1.[base + a]).
Proof.
  intros Hj0 Hl Hd Hs.
  apply (for_ind
    (fun j V => row_frame V1 V base q /\ row_distinct V base q /\
                row_sorted Q V base q j /\
                (forall a, 0 <= a < j0 -> V.[base + a] = V1.[base + a]))).
  - lia.
  - split; [split; [reflexivity | intros; reflexivity]|].
    split; [exact Hd|]. split; [exact Hs | intros; reflexivity].
  - intros j V Hj (Fr & Di & So & Pr).
    destruct (exchange_loop Q base q Hbase j V ltac:(lia)
                ltac:(destruct Fr; lia) Di So) as (Fr' & Di' & So' & Pr').
    split; [apply (row_frame_trans V1 V); assumption|].
    split; [exact Di'|]. split; [exact So'|].
    intros a Ha. rewrite Pr' by lia. apply Pr, Ha.
Qed.

(** The identity written into the row before the sort. *)
Lemma identity_row (V0 : list Z) :
  base + q <= Z.of_nat (length V0) ->
  let V := for_ 0 q (fun j V => set V (base + j) j) V0 in
  row_frame V0 V base q /\ forall a, 0 <= a < q -> V.[base + a] = a.
Proof.
  intros Hl.
  pose proof (for_ind
    (fun j V => row_frame V0 V base q /\ forall a, 0 <= a < j -> V.[base + a] = a)
    (fun j V => set V (base + j) j) 0 q V0 Hq) as H.
  apply H.
  - split; [split; [reflexivity | intros; reflexivity] | intros; lia].
  - intros j V Hj ([L Fr] & Id). split; [split|].
    + rewrite length_set. exact L.
    + intros idx Hi Ho. rewrite get_set_ne by lia. apply Fr; assumption.
    + intros a Ha. destruct (Z.eq_dec a j) as [->|N].
      * apply get_set_eq. lia.
      * rewrite get_set_ne by lia. apply Id. lia.
Qed.

(** The first pass brings to the first cell the least of the values whose
    quadrance is the least of the row. *)
Lemma first_pass (V1 : list Z) (m : Z) :
  base + q <= Z.of_nat (length V1) ->
  (forall a, 0 <= a < q -> V1.[base + a] = a) ->
  0 <= m < q ->
  (forall v, 0 <= v < m -> Q.[base + m] < Q.[base + v]) ->
  (forall v, 0 <= v < q -> Q.[base + m] <= Q.[base + v]) ->
  (for_ 1 q (exchange Q base 0) V1).[base + 0] = m.
Proof.
  intros Hl Hid Hm Hstrict Hleast.
  pose proof (for_ind
    (fun k V => length V = length V1 /\
                (forall b, k <= b < q -> V.[base + b] = b) /\
                0 <= V.[base + 0] < k /\
                (forall v, 0 <= v < k -> Q.[base + V.[base + 0]] <= Q.[base + v]) /\
                (forall v, 0 <= v < V.[base + 0] ->
                           Q.[base + V.[base + 0]] < Q.[base + v]))
    (exchange Q base 0) 1 q V1 ltac:(lia)) as H.
  destruct H as (_ & _ & Hc & Hle & Hlt).
  - split; [reflexivity|]. split; [intros b Hb; apply Hid; lia|].
    rewrite Hid by lia. split; [lia|]. split.
    + intros v Hv. replace v with 0 by lia. lia.
    + intros; lia.
  - intros k V Hk (L & Id & Hc & Hle & Hlt).
    assert (forall b, 0 <= b < q ->
              (exchange Q base 0 k V).[base + b]
              = if Q.[base + V.[base + k]] <? Q.[base + V.[base + 0]]
                then if b =? 0 then V.[base + k]
                     else if b =? k then V.[base + 0] else V.[base + b]
                else V.[base + b]) as Hg
      by (intros b Hb; apply exchange_get with (q := q); lia).
    split; [rewrite exchange_length; exact L|].
    rewrite (Hg 0) by lia. rewrite (Id k) in * by lia.
    split.
    + intros b Hb. rewrite Hg by lia.
      destruct (_ <? _); [|apply Id; lia].
      destruct (Z.eqb_spec b 0); [lia|]. destruct (Z.eqb_spec b k); [lia|].
      apply Id. lia.
    + destruct (Z.ltb_spec Q.[base + k] Q.[base + V.[base + 0]]) as [Hs|Hs];
        cbn [Z.eqb].
      * split; [lia|]. split.
        -- intros v Hv. destruct (Z.eq_dec v k) as [->|N]; [lia|].
           specialize (Hle v ltac:(lia)). lia.
        -- intros v Hv. specialize (Hle v ltac:(lia)). lia.
      * split; [lia|]. split; [|exact Hlt].
        intros v Hv. destruct (Z.eq_dec v k) as [->|N]; [lia|].
        apply Hle. lia.
  - set (c := (for_ 1 q (exchange Q base 0) V1).[base + 0]) in *.
    destruct (Z.lt_trichotomy c m) as [Hcm | [E | Hcm]]; [|exact E|].
    + specialize (Hstrict c ltac:(lia)). specialize (Hle m ltac:(lia)). lia.
    + specialize (Hlt m ltac:(lia)). specialize (Hleast c ltac:(lia)). lia.
Qed.

End SortPasses.

Lemma sort_row_spec (Q : list Z) (q i : Z) (V0 : list Z) :
  0 <= i -> 0 <= q -> i * q + q <= Z.of_nat (length V0) ->
  row_frame V0 (sort_row Q q i V0) (i * q) q /\
  row_distinct (sort_row Q q i V0) (i * q) q /\
  row_sorted Q (sort_row Q q i V0) (i * q) q q.
Proof.
  intros Hi Hq Hl. unfold sort_row.
  destruct (identity_row (i * q) q ltac:(nia) Hq V0 Hl) as (Fr1 & Id).
  set (V1 := for_ 0 q (fun j V => set V (i * q + j) j) V0) in *.
  assert (row_distinct V1 (i * q) q) as Hd.
  { split.
    - intros a Ha. rewrite Id by lia. lia.
    - intros a b Ha Hb. rewrite !Id by lia. lia. }
  destruct (sort_passes Q (i * q) q ltac:(nia) 0 V1 ltac:(lia)
              ltac:(destruct Fr1; lia) Hd ltac:(intros a b Ha; lia))
    as (Fr & Di & So & _).
  split; [apply (row_frame_trans V0 V1); assumption|].
  split; assumption.
Qed.

Lemma sort_row_first (Q : list Z) (q i : Z) (V0 : list Z) (m : Z) :
  0 <= i -> i * q + q <= Z.of_nat (length V0) ->
  0 <= m < q ->
  (forall v, 0 <= v < m -> Q.[i * q + m] < Q.[i * q + v]) ->
  (forall v, 0 <= v < q -> Q.[i * q + m] <= Q.[i * q + v]) ->
  (sort_row Q q i V0).[i * q] = m.
Proof.
  intros Hi Hl Hm Hstrict Hleast. unfold sort_row.
  destruct (identity_row (i * q) q ltac:(nia) ltac:(lia) V0 Hl) as (Fr1 & Id).
  set (V1 := for_ 0 q (fun j V => set V (i * q + j) j) V0) in *.
  assert (row_distinct V1 (i * q) q) as Hd.
  { split.
    - intros a Ha. rewrite Id by lia. lia.
    - intros a b Ha Hb. rewrite !Id by lia. lia. }
  assert (i * q + q <= Z.of_nat (length V1)) as Hl1 by (destruct Fr1; lia).
  rewrite for_first by lia. change (0 + 1) with 1.
  destruct (exchange_loop Q (i * q) q ltac:(nia) 0 V1 ltac:(lia) Hl1 Hd
              ltac:(intros a b Ha; lia)) as (Fr2 & Di2 & So2 & _).
  change (0 + 1) with 1 in *.
  pose proof (first_pass Q (i * q) q ltac:(nia) V1 m Hl1 Id Hm Hstrict Hleast)
    as Hf.
  set (V2 := for_ 1 q (exchange Q (i * q) 0) V1) in *.
  destruct (sort_passes Q (i * q) q ltac:(nia) 1 V2 ltac:(lia)
              ltac:(destruct Fr2; lia) Di2 So2) as (_ & _ & _ & Pr).
  specialize (Pr 0 ltac:(lia)). rewrite Z.add_0_r in Pr, Hf.
  rewrite Pr. exact Hf.
Qed.

(** Each row of [V] is what [sort_row] left in it. *)
Lemma fill_V_row (Q : list Z) (q i : Z) :
  0 <= i < q ->
  exists V0, Z.of_nat (length V0) = q * q /\
    forall k, 0 <= k < q ->
      (fill_V Q q).[i * q + k] = (sort_row Q q i V0).[i * q + k].
Proof.
  intros Hi. unfold fill_V.
  pose proof (for_ind
    (fun j V => Z.of_nat (length V) = q * q /\
                forall i, 0 <= i < j ->
                  exists V0, Z.of_nat (length V0) = q * q /\
                    forall k, 0 <= k < q ->
                      V.[i * q + k] = (sort_row Q q i V0).[i * q + k])
    (sort_row Q q) 0 q (alloc (q * q)) ltac:(lia)) as H.
  destruct H as [_ H].
  - split; [rewrite length_alloc; nia | intros; lia].
  - intros j V Hj [L IH].
    destruct (sort_row_spec Q q j V ltac:(lia) ltac:(lia) ltac:(nia))
      as ([L' Fr] & _).
    split; [lia|]. intros i' Hi'.
    destruct (Z.eq_dec i' j) as [->|N].
    + exists V. split; [exact L | reflexivity].
    + destruct (IH i' ltac:(lia)) as (V0 & L0 & E).
      exists V0. split; [exact L0|]. intros k Hk.
      rewrite Fr by nia. apply E, Hk.
  - apply H, Hi.
Qed.

Lemma row_distinct_permutation (V : list Z) (q i : Z) :
  row_distinct V (i * q) q -> Permutation (row V q i) (seqZ 0 q).
Proof.
  intros [Rg Ij]. unfold row. apply NoDup_Permutation_bis.
  - apply NoDup_ListNoDup.
    apply (NoDup_fmap_2_strong (fun k => V.[i * q + k])); [|apply NoDup_seqZ].
    intros a b Ha Hb. apply elem_of_seqZ in Ha, Hb. apply Ij; lia.
  - rewrite length_map. lia.
  - intros v Hv. apply in_map_iff in Hv. destruct Hv as (k & <- & Hk).
    apply list_elem_of_In, elem_of_seqZ in Hk.
    apply list_elem_of_In, elem_of_seqZ. specialize (Rg k ltac:(lia)). lia.
Qed.

(** The rows of [V] for any table [Q]: permutations of [0, q), sorted by the
    quadrances of the row of [Q]. *)
Lemma fill_V_rows (Q : list Z) (q i : Z) :
  0 <= i < q ->
  Permutation (row (fill_V Q q) q i) (seqZ 0 q) /\
  forall j k, 0 <= j <= k -> k < q ->
    Q.[i * q + (fill_V Q q).[i * q + j]] <= Q.[i * q + (fill_V Q q).[i * q + k]].
Proof.
  intros Hi. destruct (fill_V_row Q q i Hi) as (V0 & L0 & E).
  destruct (sort_row_spec Q q i V0 ltac:(lia) ltac:(lia) ltac:(nia))
    as (_ & [Rg Ij] & So).
  split.
  - apply row_distinct_permutation. split.
    + intros a Ha. rewrite E by lia. apply Rg, Ha.
    + intros a b Ha Hb. rewrite !E by lia. apply Ij; assumption.
  - intros j k Hj Hk. rewrite !E by lia.
    destruct (Z.eq_dec j k) as [->|N]; [lia|]. apply So; lia.
Qed.

Lemma fill_Q_get (C : list point) (pi : list Z) (q i j : Z) :
  0 <= i < q -> 0 <= j < q ->
  (fill_Q C pi q).[i * q + j] = quadrance C pi i j.
Proof.
  intros Hi Hj. unfold fill_Q.
  pose proof (for_ind
    (fun i Q => Z.of_nat (length Q) = q * q /\
                forall i' j', 0 <= i' < i -> 0 <= j' < q ->
                              Q.[i' * q + j'] = quadrance C pi i' j')
    (fun i Q => for_ 0 q (fun j Q => set Q (i * q + j) (quadrance C pi i j)) Q)
    0 q (alloc (q * q)) ltac:(lia)) as H.
  destruct H as [_ H].
  - split; [rewrite length_alloc; nia | intros; lia].
  - intros a Q Ha [L IH].
    pose proof (for_ind
      (fun b Q' => Z.of_nat (length Q') = q * q /\
                   (forall i' j', 0 <= i' < a -> 0 <= j' < q ->
                                  Q'.[i' * q + j'] = quadrance C pi i' j') /\
                   forall j', 0 <= j' < b -> Q'.[a * q + j'] = quadrance C pi a j')
      (fun j Q => set Q (a * q + j) (quadrance C pi a j)) 0 q Q ltac:(lia))
      as H'.
    destruct H' as (L' & Lo & Cur).
    + split; [exact L|]. split; [exact IH | intros; lia].
    + intros b Q' Hb (L' & Lo & Cur). split; [rewrite length_set; exact L'|].
      split.
      * intros i' j' Hi' Hj'. rewrite get_set_ne by nia. apply Lo; assumption.
      * intros j' Hj'. destruct (Z.eq_dec j' b) as [->|N].
        -- apply get_set_eq. nia.
        -- rewrite get_set_ne by nia. apply Cur. lia.
    + split; [exact L'|]. intros i' j' Hi' Hj'.
      destruct (Z.eq_dec i' a) as [->|N]; [apply Cur | apply Lo]; lia.
  - apply H; assumption.
Qed.

Lemma quadrance_self (C : list point) (pi : list Z) (i : Z) :
  quadrance C pi i i = 0.
Proof. unfold quadrance. rewrite !Z.sub_diag. reflexivity. Qed.

Lemma quadrance_nonneg (C : list point) (pi : list Z) (i j : Z) :
  0 <= quadrance C pi i j.
Proof. unfold quadrance, u32. apply Z.mod_pos_bound. lia. Qed.

(** C8 as stated fails: on the unit square with the mapping (0, 0, 1, 2),
    whose values are all in range, the elements 0 and 1 are mapped to the
    same point and the row of 1 starts with 0. *)
Lemma first_neighbour_not_self :
  ~ (forall i, 0 <= i < 4 ->
       (fill_V (fill_Q square [0; 0; 1; 2] 4) 4).[i * 4] = i).
Proof.
  intros H. specialize (H 1 ltac:(lia)). vm_compute in H. discriminate H.
Qed.

(** The same with four different points and the identity: the squared
    distance of (0, 0) and (65536, 0) wraps to 0 on 32 bits. *)
Lemma first_neighbour_not_self_wrapped :
  (fill_V (fill_Q [(0, 0); (65536, 0); (0, 1); (1, 1)] [0; 1; 2; 3] 4) 4).[1 * 4]
  = 0.
Proof. vm_compute. reflexivity. Qed.

(** C8, amended: after the ranking, for every table of quadrances [Q] built
    from a constellation and a mapping, the row [i] of [V] is a permutation
    of [0, q) sorted by ascending quadrance from [i]; its first entry is the
    least element at the quadrance 0 from [i], hence [i] itself as soon as
    no element before [i] is at the quadrance 0 from [i] (so whenever the
    mapped points are different and no squared distance wraps to 0). *)
Theorem fill_V_sorted_permutation (C : list point) (pi : list Z) (q i : Z) :
  0 <= i < q ->
  let Q := fill_Q C pi q in
  let V := fill_V Q q in
  Permutation (row V q i) (seqZ 0 q) /\
  (forall j k, 0 <= j <= k -> k < q ->
     Q.[i * q + V.[i * q + j]] <= Q.[i * q + V.[i * q + k]]) /\
  (forall m, 0 <= m < q -> Q.[i * q + m] = 0 ->
     (forall j, 0 <= j < m -> Q.[i * q + j] <> 0) -> V.[i * q] = m) /\
  ((forall j, 0 <= j < i -> Q.[i * q + j] <> 0) -> V.[i * q] = i).
Proof.
  intros Hi Q V.
  destruct (fill_V_rows Q q i Hi) as [Hp Hs].
  split; [exact Hp|]. split; [exact Hs|].
  assert (forall m, 0 <= m < q -> Q.[i * q + m] = 0 ->
            (forall j, 0 <= j < m -> Q.[i * q + j] <> 0) -> V.[i * q] = m)
    as Hfirst.
  { intros m Hm Hz Hnz. destruct (fill_V_row Q q i Hi) as (V0 & L0 & E).
    specialize (E 0 ltac:(lia)). rewrite Z.add_0_r in E. unfold V. rewrite E.
    apply sort_row_first; [lia | nia | lia | |].
    - intros v Hv. rewrite Hz. specialize (Hnz v ltac:(lia)).
      unfold Q in *. rewrite (fill_Q_get C pi q i v) in * by lia.
      pose proof (quadrance_nonneg C pi i v). lia.
    - intros v Hv. rewrite Hz. unfold Q. rewrite fill_Q_get by lia.
      apply quadrance_nonneg. }
  split; [exact Hfirst|].
  intros Hnz. apply Hfirst; [lia | | exact Hnz].
  unfold Q. rewrite fill_Q_get by lia. apply quadrance_self.
Qed.

Lemma fill_V_sorted_permutation_witness :
  let Q := fill_Q square [0; 1; 2; 3] 4 in
  let V := fill_V Q 4 in
  Permutation (row V 4 3) (seqZ 0 4) /\
  (forall j k, 0 <= j <= k -> k < 4 ->
     Q.[3 * 4 + V.[3 * 4 + j]] <= Q.[3 * 4 + V.[3 * 4 + k]]) /\
  V.[3 * 4] = 3.
Proof.
  destruct (fill_V_sorted_permutation square [0; 1; 2; 3] 4 3 ltac:(lia))
    as (Hp & Hs & _ & Hf).
  split; [exact Hp|]. split; [exact Hs|].
  apply Hf. intros j Hj.
  assert (j = 0 \/ j = 1 \/ j = 2) as [-> | [-> | ->]] by lia;
    vm_compute; discriminate.
Defined.

(** ** The traversal ends *)

Lemma get_set_in (a : list Z) (i j v : Z) :
  0 <= i < Z.of_nat (length a) -> 0 <= j ->
  (set a i v).[j] = if i =? j then v else a.[j].
Proof.
  intros Hi Hj. rewrite get_set by lia.
  destruct (Z.eqb_spec i j) as [->|N]; [|reflexivity].
  destruct (Z.ltb_spec j (Z.of_nat (length a))); [reflexivity | lia].
Qed.

Lemma get_map_seqZ (f : Z -> Z) (len k : Z) :
  0 <= k < len -> (map f (seqZ 0 len)).[k] = f k.
Proof.
  intros Hk. unfold get.
  change (map f (seqZ 0 len)) with (f <$> seqZ 0 len).
  rewrite list_lookup_fmap, lookup_seqZ_lt by lia. simpl. f_equal. lia.
Qed.

Lemma passive_spec (f : list Z) (i : Z) :
  passive f i = true <-> exists s, 0 <= s <= i /\ i < f.[s].
Proof.
  unfold passive. rewrite existsb_exists. split.
  - intros (s & Hs & Hlt). apply list_elem_of_In, elem_of_seqZ in Hs.
    exists s. split; [lia|]. apply Z.ltb_lt, Hlt.
  - intros (s & Hs & Hlt). exists s. split.
    + apply list_elem_of_In, elem_of_seqZ. lia.
    + apply Z.ltb_lt, Hlt.
Qed.

Lemma passive_ext (f g : list Z) (i : Z) :
  ((exists s, 0 <= s <= i /\ i < f.[s]) <-> (exists s, 0 <= s <= i /\ i < g.[s])) ->
  passive f i = passive g i.
Proof.
  intros H. destruct (passive f i) eqn:Ef, (passive g i) eqn:Eg; try reflexivity.
  - apply passive_spec, H, passive_spec in Ef. congruence.
  - apply passive_spec, H, passive_spec in Eg. congruence.
Qed.

Lemma odometer_begin_spec (n : Z) :
  1 <= n < 2 ^ 64 ->
  let o := odometer_begin n in
  (length (da o) = Z.to_nat n /\ length (df o) = Z.to_nat n /\
   length (dd o) = Z.to_nat n) /\
  (forall i, 0 <= i < n - 1 -> (da o).[i] = 0 /\ (dd o).[i] = 1) /\
  (forall i, 0 <= i <= n - 1 -> (df o).[i] = i).
Proof.
  intros Hn. unfold odometer_begin. rewrite u64_small by lia.
  pose proof (for_ind
    (fun j (st : list Z * list Z * list Z) =>
       let '(a, f, d) := st in
       (length a = Z.to_nat n /\ length f = Z.to_nat n /\ length d = Z.to_nat n) /\
       forall i, 0 <= i < j -> a.[i] = 0 /\ f.[i] = i /\ d.[i] = 1)
    (fun j '(a, f, d) => (set a j 0, set f j j, set d j 1))
    0 (n - 1) (alloc n, alloc n, alloc n) ltac:(lia)) as H.
  destruct (for_ 0 (n - 1) _ _) as [[a f] d].
  destruct H as ((La & Lf & Ld) & Hi).
  - split; [rewrite !length_alloc; auto | intros; lia].
  - intros j [[a' f'] d'] Hj ((La & Lf & Ld) & Hi).
    split; [rewrite !length_set; auto|].
    intros i Hi'. rewrite !get_set_in by lia.
    destruct (Z.eqb_spec j i) as [->|N]; [auto | apply Hi; lia].
  - simpl. split; [rewrite length_set; auto|]. split.
    + intros i Hi'. destruct (Hi i Hi') as (? & ? & ?). auto.
    + intros i Hi'. rewrite get_set_in by lia.
      destruct (Z.eqb_spec (n - 1) i) as [->|N]; [reflexivity|].
      apply Hi. lia.
Qed.

Lemma odometer_begin_inv (n q : Z) :
  1 <= n < 2 ^ 64 -> 2 <= q -> odometer_inv n q (odometer_begin n).
Proof.
  intros Hn Hq. destruct (odometer_begin_spec n Hn) as (L & Ha & Hf).
  split; [exact L|]. split.
  - intros i Hi. destruct (Ha i Hi) as [-> ->]. lia.
  - intros i Hi. rewrite Hf by lia. split; [lia|]. intros t Ht. lia.
Qed.

Ltac get_set_tac :=
  repeat (rewrite get_set_in by (rewrite ?length_set; lia));
  repeat match goal with
         | |- context [Z.eqb ?a ?b] => destruct (Z.eqb_spec a b)
         end;
  try lia.

Section Focus.

Variables (n : Z) (f : list Z) (j : Z).
Hypotheses (Hn : 1 <= n) (Hlen : length f = Z.to_nat n).
Hypothesis Hfocus :
  forall i, 0 <= i <= n - 1 ->
    i <= f.[i] <= n - 1 /\ forall t, i < t <= f.[i] -> f.[t] = t.
Hypotheses (Hj : j = f.[0]) (Hjn : j < n - 1).

Lemma focus_below : 0 <= j /\ forall t, 0 < t <= j -> f.[t] = t.
Proof.
  destruct (Hfocus 0 ltac:(lia)) as [H0 Ht]. rewrite <- Hj in *.
  split; [lia | exact Ht].
Qed.

Lemma passive_here : passive f j = false.
Proof.
  destruct focus_below as [H0 Ht].
  destruct (passive f j) eqn:E; [|reflexivity].
  apply passive_spec in E. destruct E as (s & Hs & Hlt).
  destruct (Z.eq_dec s 0) as [->|N]; [lia|].
  rewrite Ht in Hlt by lia. lia.
Qed.

Lemma passive_clear (k : Z) : j <= k -> passive (set f 0 0) k = passive f k.
Proof.
  intros Hk. destruct focus_below as [H0 Ht].
  apply passive_ext. split; intros (s & Hs & Hlt); exists s; split; try lia.
  - revert Hlt. get_set_tac.
  - destruct (Z.eq_dec s 0) as [->|N]; [rewrite <- Hj in Hlt; lia|].
    rewrite get_set_ne by lia. exact Hlt.
Qed.

Lemma turned_get (k : Z) :
  0 <= k ->
  (turned f j).[k] = if k =? j + 1 then j + 1
               else if k =? j then f.[j + 1]
               else if k =? 0 then 0 else f.[k].
Proof.
  intros Hk. destruct focus_below as [H0 Ht]. unfold turned. get_set_tac.
Qed.

Lemma passive_turned_here : passive (turned f j) j = true.
Proof.
  destruct focus_below as [H0 Ht].
  apply passive_spec. exists j. split; [lia|].
  rewrite turned_get by lia.
  destruct (Hfocus (j + 1) ltac:(lia)) as [Hg _]. get_set_tac.
Qed.

Lemma passive_turned_above (k : Z) :
  j < k -> passive (turned f j) k = passive f k.
Proof.
  intros Hk. destruct focus_below as [H0 Ht].
  apply passive_ext. split; intros (s & Hs & Hlt).
  - rewrite turned_get in Hlt by lia. revert Hlt. get_set_tac.
    + intros Hlt. exists (j + 1). split; [lia | exact Hlt].
    + intros Hlt. exists s. split; [lia | exact Hlt].
  - destruct (Z.eq_dec s 0) as [->|N0]; [lia|].
    destruct (Z.le_gt_cases s j) as [Hsj|Hsj]; [rewrite Ht in Hlt by lia; lia|].
    destruct (Z.eq_dec s (j + 1)) as [->|N1].
    + exists j. split; [lia|]. rewrite turned_get by lia. get_set_tac.
    + exists s. split; [lia|]. rewrite turned_get by lia. get_set_tac.
Qed.

Lemma focus_clear :
  forall i, 0 <= i <= n - 1 ->
    i <= (set f 0 0).[i] <= n - 1 /\
    forall t, i < t <= (set f 0 0).[i] -> (set f 0 0).[t] = t.
Proof.
  intros i Hi. destruct (Hfocus i Hi) as [Hr Ht].
  destruct (Z.eq_dec i 0) as [->|N].
  - rewrite get_set_eq by lia. split; [lia | intros; lia].
  - rewrite (get_set_ne f 0 i) by lia. split; [exact Hr|].
    intros t Ht'. rewrite get_set_ne by lia. apply Ht, Ht'.
Qed.

Lemma focus_turned :
  forall i, 0 <= i <= n - 1 ->
    i <= (turned f j).[i] <= n - 1 /\
    forall t, i < t <= (turned f j).[i] -> (turned f j).[t] = t.
Proof.
  intros i Hi. destruct focus_below as [H0 Ht].
  destruct (Hfocus i Hi) as [Hr Hs].
  destruct (Hfocus (j + 1) ltac:(lia)) as [Hg Hgs].
  rewrite (turned_get i) by lia.
  destruct (Z.eqb_spec i (j + 1)) as [->|N1]; [split; [lia | intros; lia]|].
  destruct (Z.eqb_spec i j) as [->|Nj].
  - split; [lia|]. intros t Ht'. rewrite turned_get by lia.
    destruct (Z.eqb_spec t (j + 1)); [lia|].
    destruct (Z.eqb_spec t j); [lia|]. destruct (Z.eqb_spec t 0); [lia|].
    apply Hgs. lia.
  - destruct (Z.eqb_spec i 0) as [->|N0]; [split; [lia | intros; lia]|].
    split; [exact Hr|]. intros t Ht'. rewrite turned_get by lia.
    destruct (Z.eqb_spec t (j + 1)); [lia|].
    destruct (Z.eqb_spec t j) as [->|Ntj].
    + destruct (Z.le_gt_cases i j) as [Hij|Hij]; [|lia].
      rewrite Ht in Ht' by lia. lia.
    + destruct (Z.eqb_spec t 0); [lia|]. apply Hs, Ht'.
Qed.

End Focus.

Lemma remaining_range (n q : Z) (o : odometer) (k : Z) :
  2 <= q -> odometer_inv n q o -> 0 <= k < n - 1 ->
  0 <= remaining q o k <= q - 1.
Proof.
  intros Hq (_ & Hd & _) Hk. unfold remaining.
  destruct (Hd k Hk) as (Hr & _).
  destruct (passive _ _); [lia|]. destruct (_ =? 1); lia.
Qed.

Lemma s32_opp (d : Z) : d = 1 \/ d = -1 -> s32 (- d) = - d.
Proof. intros [-> | ->]; reflexivity. Qed.

(** A step of the traversal keeps the invariant and brings the end nearer. *)
Lemma odometer_next_spec (E : env) (x : list Z) (o : odometer) :
  1 <= e_n E < 2 ^ 64 -> 2 <= e_q E < 2 ^ 64 ->
  odometer_inv (e_n E) (e_q E) o ->
  match odometer_next E x o with
  | None => True
  | Some o' =>
      odometer_inv (e_n E) (e_q E) o' /\
      odometer_left (e_n E) (e_q E) o' < odometer_left (e_n E) (e_q E) o
  end.
Proof.
  intros Hn Hq Hinv. pose proof Hinv as ((La & Lf & Ld) & Hd & Hf).
  unfold odometer_next.
  rewrite !(u64_small (e_n E - 1)) by lia. rewrite (u64_small (e_q E - 1)) by lia.
  set (n := e_n E) in *. set (q := e_q E) in *.
  set (j := (df o).[0]).
  destruct (Z.eqb_spec j (n - 1)) as [Ej|Nj]; [exact I|].
  destruct (Hf 0 ltac:(lia)) as [Hj0 _]. fold j in Hj0.
  assert (0 <= j < n - 1) as Hj by lia.
  destruct (Hd j Hj) as (Ha & Hdir & Hlo & Hhi).
  assert (0 <= (da o).[j] + (dd o).[j] <= q - 1) as Hv by lia.
  rewrite (u64_small ((da o).[j] + (dd o).[j])) by lia.
  rewrite !(get_set_eq (da o) j) by lia.
  set (v := (da o).[j] + (dd o).[j]) in *.
  cbv zeta.
  match goal with
  | |- context [if ?b then _ else _] => destruct b eqn:Erev
  end.
  - (* the coordinate is turned back *)
    change (set (set (set (df o) 0 0) j (set (df o) 0 0).[j + 1]) (j + 1) (j + 1))
      with (turned (df o) j).
    rewrite (s32_opp _ Hdir).
    assert (odometer_inv n q
              (Odometer (set (da o) j v) (turned (df o) j)
                        (set (dd o) j (- (dd o).[j]))
                        (if v =? 0
                         then u64 ((if (da o).[j] =? 0 then u64 (dw o + 1) else dw o) - 1)
                         else if (da o).[j] =? 0 then u64 (dw o + 1) else dw o)))
      as Hinv'.
    { split; [|split]; cbn [da df dd].
      - unfold turned. rewrite !length_set. auto.
      - intros i Hi. destruct (Hd i Hi) as (Hai & Hdi & Hloi & Hhii).
        rewrite !get_set_in by lia.
        destruct (Z.eqb_spec j i) as [<-|N]; [|auto]. lia.
      - apply (focus_turned n (df o) j); try assumption; try lia; reflexivity. }
    split; [exact Hinv'|].
    unfold odometer_left.
    apply (digits_value_lt q _ _ _ ltac:(lia) 0 j); [lia | | |].
    + intros k Hk. rewrite !get_map_seqZ by lia.
      split; apply (remaining_range n); try assumption; lia.
    + rewrite !get_map_seqZ by lia. unfold remaining. cbn [da df dd].
      rewrite (passive_turned_here n (df o) j) by (try assumption; try lia; reflexivity).
      rewrite (passive_here n (df o) j) by (try assumption; try lia; reflexivity).
      destruct (Z.eqb_spec (dd o).[j] 1); lia.
    + intros k Hk. rewrite !get_map_seqZ by lia. unfold remaining. cbn [da df dd].
      rewrite (passive_turned_above n (df o) j)
        by (try assumption; try lia; reflexivity).
      rewrite !get_set_ne by lia. reflexivity.
  - (* the coordinate goes on *)
    apply orb_false_elim in Erev. destruct Erev as [Erev _].
    apply orb_false_elim in Erev. destruct Erev as [E0 E1].
    apply Z.eqb_neq in E0, E1.
    assert (odometer_inv n q
              (Odometer (set (da o) j v) (set (df o) 0 0) (dd o)
                        (if v =? 0
                         then u64 ((if (da o).[j] =? 0 then u64 (dw o + 1) else dw o) - 1)
                         else if (da o).[j] =? 0 then u64 (dw o + 1) else dw o)))
      as Hinv'.
    { split; [|split]; cbn [da df dd].
      - rewrite !length_set. auto.
      - intros i Hi. destruct (Hd i Hi) as (Hai & Hdi & Hloi & Hhii).
        rewrite !get_set_in by lia.
        destruct (Z.eqb_spec j i) as [<-|N]; [|auto]. lia.
      - apply (focus_clear n (df o) j); try assumption; try lia; reflexivity. }
    split; [exact Hinv'|].
    unfold odometer_left.
    apply (digits_value_lt q _ _ _ ltac:(lia) 0 j); [lia | | |].
    + intros k Hk. rewrite !get_map_seqZ by lia.
      split; apply (remaining_range n); try assumption; lia.
    + rewrite !get_map_seqZ by lia. unfold remaining. cbn [da df dd].
      rewrite (passive_clear n (df o) j) by (try assumption; try lia; reflexivity).
      rewrite (passive_here n (df o) j) by (try assumption; try lia; reflexivity).
      rewrite get_set_eq by lia.
      destruct (Z.eqb_spec (dd o).[j] 1); lia.
    + intros k Hk. rewrite !get_map_seqZ by lia. unfold remaining. cbn [da df dd].
      rewrite (passive_clear n (df o) j) by (try assumption; try lia; reflexivity).
      rewrite !get_set_ne by lia. reflexivity.
Qed.

Lemma odometer_left_bound (n q : Z) (o : odometer) :
  1 <= n -> 2 <= q -> odometer_inv n q o ->
  0 <= odometer_left n q o <= q ^ (n - 1) - 1.
Proof.
  intros Hn Hq Hinv. unfold odometer_left.
  pose proof (digits_value_bound q (map (remaining q o) (seqZ 0 (n - 1)))
                (Z.to_nat (n - 1)) ltac:(lia) 0) as H.
  rewrite Z2Nat.id in H by lia. apply H.
  intros k Hk. rewrite get_map_seqZ by lia.
  apply (remaining_range n); [lia | exact Hinv | lia].
Qed.

Lemma neighbour_quad_nonneg (E : env) (h x a : list Z) :
  0 <= (neighbour E h x a).2.
Proof.
  unfold neighbour. destruct (for_ _ _ _ _) as [y quad]. simpl.
  unfold u32. apply Z.mod_pos_bound. lia.
Qed.

(** The guard of [record] keeps every write inside the spectrum. *)
Lemma record_done (E : env) (Scur : list Z) (quad : Z) :
  length Scur = Z.to_nat (e_qmax E) -> 0 <= quad ->
  exists S', record E Scur quad = Done S' /\ length S' = length Scur /\
             (e_qmax E <= quad -> S' = Scur).
Proof.
  intros Hl Hq. unfold record, sp_incr.
  destruct (Z.ltb_spec quad (e_qmax E)) as [Hlt|Hge].
  - destruct (Z.ltb_spec quad (Z.of_nat (length Scur))) as [Hin|Hout]; [|lia].
    eexists. split; [reflexivity|]. split; [apply length_set | lia].
  - exists Scur. auto.
Qed.

Lemma traverse_terminates (E : env) (h x : list Z) :
  1 <= e_n E < 2 ^ 64 -> 2 <= e_q E < 2 ^ 64 ->
  forall fuel o Scur,
    odometer_inv (e_n E) (e_q E) o ->
    odometer_left (e_n E) (e_q E) o < Z.of_nat fuel ->
    length Scur = Z.to_nat (e_qmax E) ->
    exists S', traverse fuel E h x o Scur = Done S' /\ length S' = length Scur.
Proof.
  intros Hn Hq. induction fuel as [|f IH]; intros o Scur Hinv Hf Hl.
  - pose proof (odometer_left_bound (e_n E) (e_q E) o ltac:(lia) ltac:(lia) Hinv). lia.
  - cbn [traverse].
    destruct (record_done E Scur _ Hl (neighbour_quad_nonneg E h x (da o)))
      as (S1 & -> & L1 & _).
    cbn [obind].
    pose proof (odometer_next_spec E x o Hn Hq Hinv) as Hs.
    destruct (odometer_next E x o) as [o'|].
    + destruct Hs as [Hinv' Hlt].
      destruct (IH o' S1 Hinv' ltac:(lia) ltac:(lia)) as (S' & -> & L').
      exists S'. split; [reflexivity | lia].
    + exists S1. split; [reflexivity | exact L1].
Qed.



Lemma codewords_terminates (E : env) (h Sbest : list Z) :
  1 <= gf_size_minus_1 (e_F E) < 2 ^ 32 ->
  1 <= e_n E < 2 ^ 64 -> 2 <= e_q E < 2 ^ 64 ->
  forall fuel x Scur,
    cw_digits (e_F E) (e_n E) x ->
    length Scur = Z.to_nat (e_qmax E) ->
    (gf_size_minus_1 (e_F E) + 1) ^ (e_n E - 1) - cw_rank (e_F E) (e_n E) x
      + e_q E ^ (e_n E - 1) <= Z.of_nat fuel ->
    exists S', codewords fuel E h x Sbest Scur = Done S' /\
               length S' = length Scur.
Proof.
  intros Hq1 Hn Hq. induction fuel as [|f IH]; intros x Scur Hx Hl Hf.
  - pose proof (cw_rank_bound (e_F E) (e_n E) x ltac:(lia) ltac:(lia) Hx).
    assert (0 < e_q E ^ (e_n E - 1)) by (apply Z.pow_pos_nonneg; lia). lia.
  - pose proof (cw_rank_bound (e_F E) (e_n E) x ltac:(lia) ltac:(lia) Hx) as Hb.
    assert (0 < e_q E ^ (e_n E - 1)) as Hp by (apply Z.pow_pos_nonneg; lia).
    cbn [codewords].
    pose proof (odometer_begin_inv (e_n E) (e_q E) Hn ltac:(lia)) as Hinv.
    pose proof (odometer_left_bound (e_n E) (e_q E) _ ltac:(lia) ltac:(lia) Hinv) as Hlb.
    destruct (traverse_terminates E h x Hn Hq (S f) _ Scur Hinv ltac:(lia) Hl)
      as (S1 & -> & L1).
    cbn [obind].
    pose proof (cw_next_rank (e_F E) (e_n E) h x Hq1 Hn Hx) as Hnext.
    destruct (cw_next (e_F E) (e_n E) h x) as [[|] x'].
    + destruct Hnext as [Hx' Hr].
      destruct (true && _).
      * destruct (IH x' S1 Hx' ltac:(lia) ltac:(lia)) as (S' & -> & L').
        exists S'. split; [reflexivity | lia].
      * exists S1. split; [reflexivity | exact L1].
    + exists S1. split; [reflexivity | exact L1].
Qed.

(** ** The search ends *)

Lemma chk_next_left (F : field) (n : Z) (h : list Z) :
  1 <= n <= gf_size_minus_1 F -> gf_size_minus_1 F < 2 ^ 32 ->
  chk_state F n h ->
  0 <= chk_left F n h /\
  match chk_next F n h with
  | Some h' => chk_state F n h' /\ chk_left F n h' < chk_left F n h
  | None => True
  end.
Proof.
  intros Hn Hq [(-> & Hl & Hr) | (Hn2 & Hd)].
  - unfold chk_left, chk_next. cbn [Z.eqb Pos.eqb]. split; [lia|].
    change (Z.to_nat 1) with 1%nat. cbn [chk_next_scan].
    rewrite u64_small by lia.
    destruct (Z.leb_spec (gf_size_minus_1 F - 0 - 1) h.[0]) as [Hc|Hc].
    + change (1 <? u64 (0 + 3)) with true. cbn iota. exact I.
    + change (Z.to_nat 0) with 0%nat. cbn [chk_next_reset].
      rewrite u32_small by lia. rewrite get_set_eq by lia.
      split; [|lia]. left. split; [reflexivity|].
      split; [rewrite length_set; exact Hl | rewrite get_set_eq by lia; lia].
  - pose proof (chk_rank_bound F n h ltac:(lia) ltac:(lia) Hd) as Hb.
    unfold chk_left. destruct (Z.eqb_spec n 1) as [->|_]; [lia|].
    split; [lia|].
    destruct (chk_next F n h) as [h'|] eqn:E; [|exact I].
    destruct (chk_next_descending F n h h' Hn2 ltac:(lia) Hq Hd E) as [Hd' Hlt].
    split; [right; split; assumption | lia].
Qed.

Lemma chk_begin_state (F : field) (n : Z) :
  1 <= n <= gf_size_minus_1 F -> gf_size_minus_1 F < 2 ^ 32 ->
  chk_state F n (chk_begin n (alloc n)).
Proof.
  intros Hn Hq. destruct (Z.eq_dec n 1) as [->|N].
  - left. split; [reflexivity|]. change (chk_begin 1 (alloc 1)) with [0].
    split; [reflexivity|]. change ([0].[0]) with 0. lia.
  - right. split; [lia|]. apply chk_begin_descending; lia.
Qed.


Lemma parities_terminates (E : env) :
  1 <= e_n E <= gf_size_minus_1 (e_F E) -> gf_size_minus_1 (e_F E) < 2 ^ 32 ->
  2 <= e_q E < 2 ^ 64 ->
  forall fuel h Sbest log,
    chk_state (e_F E) (e_n E) h ->
    chk_left (e_F E) (e_n E) h + 1
      + (gf_size_minus_1 (e_F E) + 1) ^ (e_n E - 1) + e_q E ^ (e_n E - 1)
      <= Z.of_nat fuel ->
    exists log', parities fuel E h Sbest log = Done log'.
Proof.
  intros Hn Hq1 Hq. induction fuel as [|f IH]; intros h Sbest log Hh Hf.
  - destruct (chk_next_left (e_F E) (e_n E) h Hn Hq1 Hh) as [H0 _].
    assert (0 < (gf_size_minus_1 (e_F E) + 1) ^ (e_n E - 1))
      by (apply Z.pow_pos_nonneg; lia).
    assert (0 < e_q E ^ (e_n E - 1)) by (apply Z.pow_pos_nonneg; lia). lia.
  - destruct (chk_next_left (e_F E) (e_n E) h Hn Hq1 Hh) as [H0 Hnext].
    cbn [parities].
    destruct (cw_begin_digits (e_F E) (e_n E) h ltac:(lia) ltac:(lia)) as [Hd Hr].
    destruct (codewords_terminates E h Sbest ltac:(lia) ltac:(lia) Hq (S f)
                (cw_begin (e_n E) h (alloc (e_n E))) (alloc (e_qmax E)) Hd
                (length_alloc _) ltac:(lia)) as (S1 & -> & _).
    cbn [obind].
    destruct (chk_next (e_F E) (e_n E) h) as [h'|].
    + destruct Hnext as [Hh' Hlt]. apply IH; [exact Hh' | lia].
    + eexists. reflexivity.
Qed.

Lemma fold_left_iter {A B : Type} (g : A -> A) (l : list B) :
  forall a, fold_left (fun st _ => g st) l a = Nat.iter (length l) g a.
Proof.
  induction l as [|b l IH]; intros a; [reflexivity|].
  cbn [fold_left length]. rewrite IH. symmetry. apply Nat.iter_succ_r.
Qed.




(** ** The comparison of the variant with [qmin] *)

Lemma s32_small (z : Z) : - 2 ^ 31 <= z < 2 ^ 31 -> s32 z = z.
Proof. intros H. unfold s32. rewrite Z.mod_small by lia. lia. Qed.

Lemma s64_small (z : Z) : - 2 ^ 63 <= z < 2 ^ 63 -> QminVariant.s64 z = z.
Proof. intros H. unfold QminVariant.s64. rewrite Z.mod_small by lia. lia. Qed.

Lemma qmin_sp_cmp_from_difference (cnt : nat) (a b : list Z) :
  forall i,
    (forall k, i <= k < i + Z.of_nat cnt ->
       0 <= a.[k] < 2 ^ 31 /\ 0 <= b.[k] < 2 ^ 31) ->
    QminVariant.sp_cmp_from cnt i a b = 0 /\
      (forall k, i <= k < i + Z.of_nat cnt -> a.[k] = b.[k]) \/
    exists p, i <= p < i + Z.of_nat cnt /\ a.[p] <> b.[p] /\
      (forall k, i <= k < p -> a.[k] = b.[k]) /\
      QminVariant.sp_cmp_from cnt i a b = b.[p] - a.[p].
Proof.
  induction cnt as [|c IH]; intros i H; cbn [QminVariant.sp_cmp_from].
  - left. split; [reflexivity | intros; lia].
  - destruct (Z.eqb_spec a.[i] b.[i]) as [E|N].
    + destruct (IH (i + 1) ltac:(intros k Hk; apply H; lia))
        as [[E0 Ha] | (p & Hp & Np & Hb & Ep)].
      * left. split; [exact E0|]. intros k Hk.
        destruct (Z.eq_dec k i) as [->|Nk]; [exact E | apply Ha; lia].
      * right. exists p. split; [lia|]. split; [exact Np|].
        split; [|exact Ep]. intros k Hk.
        destruct (Z.eq_dec k i) as [->|Nk]; [exact E | apply Hb; lia].
    + right. exists i. split; [lia|]. split; [exact N|].
      split; [intros; lia|]. destruct (H i ltac:(lia)) as [Ha Hb].
      rewrite !s64_small by lia. apply s32_small. lia.
Qed.

(** The comparison of the variant with [qmin] returns the difference of the
    counts at the first index where they differ, cut to an [int]; it obeys
    the same laws as long as the counts are below [2 ^ 31]. *)
Lemma qmin_sp_cmp_consistent (a b c : list Z) (qmax : Z) :
  (forall k, 0 <= k <= qmax ->
     0 <= a.[k] < 2 ^ 31 /\ 0 <= b.[k] < 2 ^ 31 /\ 0 <= c.[k] < 2 ^ 31) ->
  QminVariant.sp_cmp a a qmax = 0 /\
  QminVariant.sp_cmp b a qmax = - QminVariant.sp_cmp a b qmax /\
  (0 < QminVariant.sp_cmp a b qmax -> 0 < QminVariant.sp_cmp b c qmax ->
   0 < QminVariant.sp_cmp a c qmax).
Proof.
  intros H. unfold QminVariant.sp_cmp.
  set (cnt := Z.to_nat (qmax + 1)).
  assert (forall u v,
            (forall k, 0 <= k <= qmax -> 0 <= u.[k] < 2 ^ 31 /\ 0 <= v.[k] < 2 ^ 31) ->
            forall k, 0 <= k < 0 + Z.of_nat cnt ->
                      0 <= u.[k] < 2 ^ 31 /\ 0 <= v.[k] < 2 ^ 31) as Hr
    by (intros u v Huv k Hk; apply Huv; lia).
  pose proof (qmin_sp_cmp_from_difference cnt a a 0
                (Hr a a ltac:(intros k Hk; destruct (H k Hk) as (? & ? & ?); auto)))
    as Haa.
  pose proof (qmin_sp_cmp_from_difference cnt a b 0
                (Hr a b ltac:(intros k Hk; destruct (H k Hk) as (? & ? & ?); auto)))
    as Hab.
  pose proof (qmin_sp_cmp_from_difference cnt b a 0
                (Hr b a ltac:(intros k Hk; destruct (H k Hk) as (? & ? & ?); auto)))
    as Hba.
  pose proof (qmin_sp_cmp_from_difference cnt b c 0
                (Hr b c ltac:(intros k Hk; destruct (H k Hk) as (? & ? & ?); auto)))
    as Hbc.
  pose proof (qmin_sp_cmp_from_difference cnt a c 0
                (Hr a c ltac:(intros k Hk; destruct (H k Hk) as (? & ? & ?); auto)))
    as Hac.
  split; [|split].
  - destruct Haa as [[E _] | (p & _ & Np & _)]; [exact E | congruence].
  - destruct Hab as [[Eab Ha] | (p & Hp & Np & Hb & Ep)],
             Hba as [[Eba Ha'] | (p' & Hp' & Np' & Hb' & Ep')].
    + lia.
    + specialize (Ha p' Hp'). congruence.
    + specialize (Ha' p Hp). congruence.
    + destruct (Z.lt_trichotomy p p') as [Hl | [-> | Hl]].
      * specialize (Hb' p ltac:(lia)). congruence.
      * lia.
      * specialize (Hb p' ltac:(lia)). congruence.
  - intros Pab Pbc.
    destruct Hab as [[Eab _] | (p & Hp & Np & Hb & Ep)]; [lia|].
    destruct Hbc as [[Ebc _] | (r & Hr' & Nr & Hbr & Er)]; [lia|].
    destruct Hac as [[Eac Ha] | (t & Ht & Nt & Hbt & Et)].
    + destruct (Z.lt_trichotomy p r) as [Hl | [-> | Hl]].
      * specialize (Ha p Hp). specialize (Hbr p ltac:(lia)). congruence.
      * specialize (Ha r Hp). lia.
      * specialize (Ha r Hr'). specialize (Hb r ltac:(lia)). congruence.
    + rewrite Et. rewrite Ep in Pab. rewrite Er in Pbc.
      destruct (Z.lt_trichotomy p r) as [Hl | [-> | Hl]].
      * destruct (Z.lt_trichotomy t p) as [Htp | [-> | Htp]].
        -- specialize (Hb t ltac:(lia)). specialize (Hbr t ltac:(lia)). congruence.
        -- specialize (Hbr p ltac:(lia)). lia.
        -- specialize (Hbt p ltac:(lia)). specialize (Hbr p ltac:(lia)). congruence.
      * destruct (Z.lt_trichotomy t r) as [Htr | [-> | Htr]].
        -- specialize (Hb t ltac:(lia)). specialize (Hbr t ltac:(lia)). congruence.
        -- lia.
        -- specialize (Hbt r ltac:(lia)). lia.
      * destruct (Z.lt_trichotomy t r) as [Htr | [-> | Htr]].
        -- specialize (Hb t ltac:(lia)). specialize (Hbr t ltac:(lia)). congruence.
        -- specialize (Hb r ltac:(lia)). lia.
        -- specialize (Hbt r ltac:(lia)). specialize (Hb r ltac:(lia)). congruence.
Qed.

(** C9 on the variant with [qmin], whose comparison returns the difference of
    two [unsigned long] counts cut to an [int]: the laws fail once a
    difference does not fit.  A count of [2 ^ 31] compares the same way
    against 0 on both sides, so that swapping the spectra does not negate
    the result; a count of [2 ^ 32] compares equal to 0; and on three
    spectra of one cell, which differ in that index only, the comparison
    says that the first is below the second and the second below the third,
    yet that the first is above the third.  The comparison of the other
    variant, which returns 1 or -1 from the test [b[i] > a[i]], obeys the
    three laws on the same spectra. *)
Theorem qmin_sp_cmp_truncates :
  QminVariant.sp_cmp [0] [2 ^ 31] 0 = - 2 ^ 31 /\
  QminVariant.sp_cmp [2 ^ 31] [0] 0 = - 2 ^ 31 /\
  QminVariant.sp_cmp [0] [2 ^ 32] 0 = 0 /\
  (0 < QminVariant.sp_cmp [0] [3 * 2 ^ 29] 0 /\
   0 < QminVariant.sp_cmp [3 * 2 ^ 29] [3 * 2 ^ 30] 0 /\
   QminVariant.sp_cmp [0] [3 * 2 ^ 30] 0 < 0) /\
  (sp_cmp [0; 0; 0] [0; 0; 2 ^ 31] 3 = 1 /\
   sp_cmp [0; 0; 2 ^ 31] [0; 0; 0] 3 = -1 /\
   sp_cmp [0; 0; 0] [0; 0; 2 ^ 32] 3 = 1 /\
   sp_cmp [0; 0; 0] [0; 0; 3 * 2 ^ 30] 3 = 1).
Proof. vm_compute. repeat split; congruence. Qed.

(** ** The first neighbour of a codeword is the codeword *)

Lemma gf_accmul_all_succ (F : field) (i : Z) (h x : list Z) :
  0 <= i ->
  gf_accmul_all F (i + 1) h x = gf_accmul F (gf_accmul_all F i h x) h.[i] x.[i].
Proof.
  intros Hi. unfold gf_accmul_all. rewrite for_snoc by exact Hi. reflexivity.
Qed.


(** The fuel that [pruned] gives to the traversal is always enough. *)
Lemma pruned_terminates (E : env) (h x Scur : list Z) :
  1 <= e_n E < 2 ^ 64 -> 2 <= e_q E < 2 ^ 64 ->
  length Scur = Z.to_nat (e_qmax E) ->
  exists S', pruned E h x Scur = Done S' /\ length S' = length Scur.
Proof.
  intros Hn Hq Hl. unfold pruned.
  pose proof (odometer_begin_inv (e_n E) (e_q E) Hn ltac:(lia)) as Hinv.
  pose proof (odometer_left_bound (e_n E) (e_q E) _ ltac:(lia) ltac:(lia) Hinv)
    as Hb.
  apply traverse_terminates; [exact Hn | exact Hq | exact Hinv | | exact Hl].
  assert (0 < e_q E ^ (e_n E - 1)) by (apply Z.pow_pos_nonneg; lia). lia.
Qed.

(** ** The bounds given to the scanning loops are never reached *)

Lemma gf_init_size_fuel (bits : nat) :
  forall p size k,
    0 <= p < 2 ^ Z.of_nat bits ->
    gf_init_size (bits + k) p size = gf_init_size bits p size.
Proof.
  induction bits as [|b IH]; intros p size k Hp.
  - change (2 ^ Z.of_nat 0) with 1 in Hp. assert (p = 0) as -> by lia.
    destruct k; reflexivity.
  - cbn [Nat.add gf_init_size]. destruct (0 <? p); [|reflexivity].
    apply IH. rewrite Z.shiftr_div_pow2 by lia.
    rewrite Nat2Z.inj_succ, Z.pow_succ_r in Hp by lia.
    change (2 ^ 1) with 2. split; [apply Z.div_pos; lia|].
    apply Z.div_lt_upper_bound; lia.
Qed.

Lemma chk_next_scan_fuel (F : field) (n : Z) (h : list Z) :
  1 <= n < 2 ^ 64 - 3 ->
  forall fuel1 fuel2 i,
    0 <= i -> i = 0 \/ i <= n - 2 ->
    n - i <= Z.of_nat fuel1 -> n - i <= Z.of_nat fuel2 ->
    chk_next_scan fuel1 F n h i = chk_next_scan fuel2 F n h i.
Proof.
  intros Hn. induction fuel1 as [|f1 IH]; intros fuel2 i Hi Hr H1 H2; [lia|].
  destruct fuel2 as [|f2]; [lia|]. cbn [chk_next_scan].
  destruct (_ <=? h.[i]); [|reflexivity].
  rewrite (u64_small (i + 3)) by lia. rewrite (u64_small (i + 1)) by lia.
  destruct (Z.ltb_spec n (i + 3)); [reflexivity|].
  apply IH; lia.
Qed.

(** ** The product of the field *)

Lemma gf_accmul_acc (F : field) (acc hlog x : Z) :
  gf_accmul F acc hlog x = Z.lxor acc (gf_accmul F 0 hlog x).
Proof.
  unfold gf_accmul. destruct (x =? gf_zero).
  - rewrite Z.lxor_0_r. reflexivity.
  - rewrite Z.lxor_0_l. reflexivity.
Qed.

Lemma gf_accmul_exp (F : field) (m hlog x : Z) :
  gf_tables F m -> 1 <= m <= 30 -> 0 <= hlog < 2 ^ 30 -> 1 <= x < 2 ^ m ->
  gf_accmul F 0 hlog x = (gf_exp F).[(hlog + (gf_log F).[x]) mod (2 ^ m - 1)].
Proof.
  intros (Hs & Hs1 & He & Hl) Hm Hh Hx.
  assert (2 ^ m <= 2 ^ 30) by (apply Z.pow_le_mono_r; lia).
  assert (2 <= 2 ^ m) by (change 2 with (2 ^ 1) at 1; apply Z.pow_le_mono_r; lia).
  destruct (Hl x Hx) as [Hlx _].
  unfold gf_accmul, gf_zero. destruct (Z.eqb_spec x 0) as [->|_]; [lia|].
  rewrite Z.lxor_0_l, Hs1, (s32_small hlog), s32_small by lia.
  rewrite u64_small by lia. reflexivity.
Qed.

(** X1: over the tables of a field of [2 ^ m] elements, [gf_accmul] adds to
    [acc] the product of [x] by the power [hlog] of the primitive element:
    nothing when [x] is 0, otherwise the element, never 0, whose logarithm is
    the sum of [hlog] and of the logarithm of [x] modulo [2 ^ m - 1]; and the
    product by two powers in turn is the product by the sum of the
    exponents. *)
Theorem gf_accmul_product (F : field) (m acc hlog x : Z) :
  gf_tables F m -> 1 <= m <= 30 -> 0 <= hlog < 2 ^ 30 -> 0 <= x < 2 ^ m ->
  gf_accmul F acc hlog x = Z.lxor acc (gf_accmul F 0 hlog x) /\
  (x = 0 -> gf_accmul F acc hlog x = acc) /\
  (x <> 0 ->
   1 <= gf_accmul F 0 hlog x < 2 ^ m /\
   (gf_log F).[gf_accmul F 0 hlog x] = (hlog + (gf_log F).[x]) mod (2 ^ m - 1) /\
   forall hlog', 0 <= hlog' < 2 ^ 30 - hlog ->
     gf_accmul F 0 hlog' (gf_accmul F 0 hlog x) = gf_accmul F 0 (hlog' + hlog) x).
Proof.
  intros T Hm Hh Hx. split; [apply gf_accmul_acc|]. split.
  - intros ->. reflexivity.
  - intros Nx.
    assert (2 ^ m <= 2 ^ 30) by (apply Z.pow_le_mono_r; lia).
    assert (2 <= 2 ^ m) by (change 2 with (2 ^ 1) at 1; apply Z.pow_le_mono_r; lia).
    pose proof T as (Hs & Hs1 & He & Hl).
    destruct (Hl x ltac:(lia)) as [Hlx _].
    rewrite (gf_accmul_exp F m) by (try assumption; lia).
    pose proof (Z.mod_pos_bound (hlog + (gf_log F).[x]) (2 ^ m - 1) ltac:(lia)) as Hk.
    destruct (He _ Hk) as [Hr Hlog]. split; [exact Hr|]. split; [exact Hlog|].
    intros h' Hh'. rewrite !(gf_accmul_exp F m) by (try assumption; lia).
    rewrite Hlog. f_equal.
    rewrite Z.add_mod_idemp_r by lia. f_equal. lia.
Qed.

Lemma gf_accmul_product_witness :
  gf_accmul GF4 1 1 3 = Z.lxor 1 (gf_accmul GF4 0 1 3) /\
  (3 = 0 -> gf_accmul GF4 1 1 3 = 1) /\
  (3 <> 0 ->
   1 <= gf_accmul GF4 0 1 3 < 2 ^ 2 /\
   (gf_log GF4).[gf_accmul GF4 0 1 3] = (1 + (gf_log GF4).[3]) mod (2 ^ 2 - 1) /\
   forall hlog', 0 <= hlog' < 2 ^ 30 - 1 ->
     gf_accmul GF4 0 hlog' (gf_accmul GF4 0 1 3) = gf_accmul GF4 0 (hlog' + 1) 3).
Proof.
  apply (gf_accmul_product GF4 2 1 1 3).
  - apply gf_tablesb_sound. vm_compute. reflexivity.
  - lia.
  - lia.
  - lia.
Defined.

(** ** The table of the quadrances *)

Lemma u32_squares (z w : Z) :
  u32 (u32 z * u32 z + u32 w * u32 w) = u32 (z * z + w * w).
Proof.
  unfold u32.
  rewrite Z.add_mod by lia.
  rewrite <- !Z.mul_mod by lia.
  rewrite <- Z.add_mod by lia. reflexivity.
Qed.

(** What [Q] holds: a symmetric table of quadrances of 32 bits. *)
Lemma fill_Q_table (C : list point) (pi : list Z) (q i j : Z) :
  0 <= i < q -> 0 <= j < q ->
  (fill_Q C pi q).[i * q + j] = (fill_Q C pi q).[j * q + i] /\
  (fill_Q C pi q).[i * q + i] = 0 /\
  0 <= (fill_Q C pi q).[i * q + j] < 2 ^ 32 /\
  forall a b,
    C !! Z.to_nat pi.[i] = Some a -> C !! Z.to_nat pi.[j] = Some b ->
    (a.1 - b.1) ^ 2 + (a.2 - b.2) ^ 2 < 2 ^ 32 ->
    (fill_Q C pi q).[i * q + j] = (a.1 - b.1) ^ 2 + (a.2 - b.2) ^ 2.
Proof.
  intros Hi Hj. rewrite !fill_Q_get by assumption.
  split; [|split; [|split]].
  - unfold quadrance. cbv zeta. rewrite !u32_squares. f_equal. ring.
  - apply quadrance_self.
  - unfold quadrance, u32. apply Z.mod_pos_bound. lia.
  - intros a b Ea Eb Hd. unfold quadrance. rewrite Ea, Eb. cbv [from_option id].
    cbv zeta. rewrite u32_squares. unfold u32.
    rewrite Z.mod_small; [ring|].
    split; [nia | ]. replace ((a.1 - b.1) * (a.1 - b.1) + (a.2 - b.2) * (a.2 - b.2))
      with ((a.1 - b.1) ^ 2 + (a.2 - b.2) ^ 2) by ring. exact Hd.
Qed.

(** X2: the table [Q] is symmetric, null on its diagonal, holds values of 32
    bits, and holds the squared distance of the two mapped points whenever
    that distance fits in 32 bits. *)
Theorem fill_Q_symmetric (C : list point) (pi : list Z) (q i j : Z) :
  0 <= i < q -> 0 <= j < q ->
  (fill_Q C pi q).[i * q + j] = (fill_Q C pi q).[j * q + i] /\
  (fill_Q C pi q).[i * q + i] = 0 /\
  0 <= (fill_Q C pi q).[i * q + j] < 2 ^ 32 /\
  forall a b,
    C !! Z.to_nat pi.[i] = Some a -> C !! Z.to_nat pi.[j] = Some b ->
    (a.1 - b.1) ^ 2 + (a.2 - b.2) ^ 2 < 2 ^ 32 ->
    (fill_Q C pi q).[i * q + j] = (a.1 - b.1) ^ 2 + (a.2 - b.2) ^ 2.
Proof. exact (fill_Q_table C pi q i j). Qed.

Lemma fill_Q_symmetric_witness :
  (fill_Q square [0; 1; 2; 3] 4).[1 * 4 + 2] = (fill_Q square [0; 1; 2; 3] 4).[2 * 4 + 1] /\
  (fill_Q square [0; 1; 2; 3] 4).[1 * 4 + 1] = 0 /\
  0 <= (fill_Q square [0; 1; 2; 3] 4).[1 * 4 + 2] < 2 ^ 32 /\
  forall a b,
    square !! Z.to_nat [0; 1; 2; 3].[1] = Some a ->
    square !! Z.to_nat [0; 1; 2; 3].[2] = Some b ->
    (a.1 - b.1) ^ 2 + (a.2 - b.2) ^ 2 < 2 ^ 32 ->
    (fill_Q square [0; 1; 2; 3] 4).[1 * 4 + 2] = (a.1 - b.1) ^ 2 + (a.2 - b.2) ^ 2.
Proof. apply (fill_Q_symmetric square [0; 1; 2; 3] 4 1 2); lia. Defined.

(** ** The comparison of spectra is lexicographic *)

Lemma sp_cmp_from_first (a b : list Z) (cnt : nat) :
  forall i,
    (sp_cmp_from cnt i a b = 0 /\
     forall k, i <= k < i + Z.of_nat cnt -> a.[k] = b.[k]) \/
    (exists p, i <= p < i + Z.of_nat cnt /\
       (forall k, i <= k < p -> a.[k] = b.[k]) /\ a.[p] <> b.[p] /\
       sp_cmp_from cnt i a b = if a.[p] <? b.[p] then 1 else -1).
Proof.
  induction cnt as [|c IH]; intros i.
  - left. split; [reflexivity | intros; lia].
  - cbn [sp_cmp_from]. destruct (Z.eqb_spec a.[i] b.[i]) as [E|N].
    + destruct (IH (i + 1)) as [[R A]|(p & Hp & A & N & R)].
      * left. split; [exact R|]. intros k Hk.
        destruct (Z.eq_dec k i) as [->|]; [exact E | apply A; lia].
      * right. exists p. split; [lia|]. split; [|split; assumption].
        intros k Hk. destruct (Z.eq_dec k i) as [->|]; [exact E | apply A; lia].
    + right. exists i. split; [lia|]. split; [intros; lia|]. split; [exact N|].
      reflexivity.
Qed.

(** X3: [sp_cmp] is the lexicographic comparison of the cells 2 to
    [qmax - 1]: 0 exactly when the two spectra agree there, 1 exactly when
    the first cell that differs is smaller in [a], -1 exactly when it is
    smaller in [b]. *)
Theorem sp_cmp_lexicographic (a b : list Z) (qmax : Z) :
  (sp_cmp a b qmax = 0 <-> forall i, 2 <= i < qmax -> a.[i] = b.[i]) /\
  (sp_cmp a b qmax = 1 <->
   exists i, 2 <= i < qmax /\ a.[i] < b.[i] /\ forall k, 2 <= k < i -> a.[k] = b.[k]) /\
  (sp_cmp a b qmax = -1 <->
   exists i, 2 <= i < qmax /\ b.[i] < a.[i] /\ forall k, 2 <= k < i -> a.[k] = b.[k]).
Proof.
  unfold sp_cmp.
  destruct (sp_cmp_from_first a b (Z.to_nat (qmax - 2)) 2)
    as [[R A]|(p & Hp & A & N & R)]; rewrite R.
  - split; [|split].
    + split; [intros _ i Hi; apply A; lia | reflexivity].
    + split; [discriminate|]. intros (i & Hi & L & _).
      specialize (A i ltac:(lia)). lia.
    + split; [discriminate|]. intros (i & Hi & L & _).
      specialize (A i ltac:(lia)). lia.
  - assert (forall i, 2 <= i < qmax -> a.[i] <> b.[i] ->
              (forall k, 2 <= k < i -> a.[k] = b.[k]) -> i = p) as U.
    { intros i Hi Ni Ai. destruct (Z.lt_trichotomy i p) as [L|[E|G]].
      - specialize (A i ltac:(lia)). contradiction.
      - exact E.
      - specialize (Ai p ltac:(lia)). contradiction. }
    split; [|split].
    + split.
      * destruct (a.[p] <? b.[p]); discriminate.
      * intros H. specialize (H p ltac:(lia)). contradiction.
    + split.
      * destruct (Z.ltb_spec a.[p] b.[p]) as [L|G]; [|discriminate].
        intros _. exists p. split; [lia|]. split; [exact L|].
        intros k Hk. apply A. lia.
      * intros (i & Hi & L & Ai). rewrite (U i) in L by (assumption || lia).
        destruct (Z.ltb_spec a.[p] b.[p]); [reflexivity | lia].
    + split.
      * destruct (Z.ltb_spec a.[p] b.[p]) as [L|G]; [discriminate|].
        intros _. exists p. split; [lia|]. split; [lia|].
        intros k Hk. apply A. lia.
      * intros (i & Hi & L & Ai). rewrite (U i) in L by (assumption || lia).
        destruct (Z.ltb_spec a.[p] b.[p]); [lia | reflexivity].
Qed.

(** ** The least quadrance [cqmin] *)

Lemma find_cqmin_spec (Q V : list Z) (q : Z) :
  1 <= q ->
  let c := find_cqmin Q V q in
  c <= Q.[1] /\
  (forall i, 1 <= i < q -> c <= Q.[i * q + V.[i * q + 1]]) /\
  (c = Q.[1] \/ exists i, 1 <= i < q /\ c = Q.[i * q + V.[i * q + 1]]).
Proof.
  intros Hq. cbv zeta. unfold find_cqmin.
  apply (for_ind
    (fun b c => c <= Q.[1] /\
                (forall i, 1 <= i < b -> c <= Q.[i * q + V.[i * q + 1]]) /\
                (c = Q.[1] \/ exists i, 1 <= i < b /\ c = Q.[i * q + V.[i * q + 1]]))).
  - exact Hq.
  - split; [lia|]. split; [intros; lia | left; reflexivity].
  - intros i c Hi (H1 & H2 & H3).
    destruct (Z.ltb_spec Q.[i * q + V.[i * q + 1]] c) as [L|G].
    + split; [lia|]. split.
      * intros k Hk. destruct (Z.eq_dec k i) as [->|]; [lia|].
        specialize (H2 k ltac:(lia)). lia.
      * right. exists i. split; [lia | reflexivity].
    + split; [exact H1|]. split.
      * intros k Hk. destruct (Z.eq_dec k i) as [->|]; [lia|]. apply H2. lia.
      * destruct H3 as [E|(k & Hk & E)]; [left; exact E|].
        right. exists k. split; [lia | exact E].
Qed.

Lemma fill_V_distinct (Q : list Z) (q i : Z) :
  0 <= i < q -> row_distinct (fill_V Q q) (i * q) q.
Proof.
  intros Hi. destruct (fill_V_row Q q i Hi) as (V0 & L0 & E).
  destruct (sort_row_spec Q q i V0 ltac:(lia) ltac:(lia) ltac:(nia))
    as (_ & [Rg Ij] & _).
  split.
  - intros a Ha. rewrite E by lia. apply Rg, Ha.
  - intros a b Ha Hb. rewrite !E by lia. apply Ij; assumption.
Qed.

(** A row of [q] different values of [0, q) holds every value of [0, q). *)
Lemma row_distinct_onto (V : list Z) (q i v : Z) :
  row_distinct V (i * q) q -> 0 <= v < q ->
  exists r, 0 <= r < q /\ V.[i * q + r] = v.
Proof.
  intros Hd Hv. pose proof (row_distinct_permutation V q i Hd) as P.
  assert (v ∈ row V q i) as Hin.
  { rewrite P. apply elem_of_seqZ. lia. }
  unfold row in Hin. apply list_elem_of_fmap in Hin.
  destruct Hin as (r & E & Hr). apply elem_of_seqZ in Hr.
  exists r. split; [lia | symmetry; exact E].
Qed.

(** The second entry of a sorted row is at most any entry off the
    diagonal. *)
Lemma second_neighbour_least (C : list point) (pi : list Z) (q i j : Z) :
  2 <= q -> 0 <= i < q -> 0 <= j < q -> i <> j ->
  let Q := fill_Q C pi q in
  Q.[i * q + (fill_V Q q).[i * q + 1]] <= Q.[i * q + j].
Proof.
  intros Hq Hi Hj N Q.
  pose proof (fill_V_distinct Q q i Hi) as Hd.
  destruct (fill_V_rows Q q i Hi) as [_ So].
  destruct (row_distinct_onto _ q i j Hd Hj) as (r & Hr & Er).
  destruct (Z.eq_dec r 0) as [->|Nr].
  - destruct (row_distinct_onto _ q i i Hd Hi) as (r' & Hr' & Er').
    assert (r' <> 0) as Nr' by (intros ->; congruence).
    pose proof (So 1 r' ltac:(lia) ltac:(lia)) as H1. rewrite Er' in H1.
    assert (Q.[i * q + i] = 0) as Z0.
    { unfold Q. rewrite fill_Q_get by lia. apply quadrance_self. }
    assert (0 <= Q.[i * q + j]) as P.
    { unfold Q. rewrite fill_Q_get by lia. apply quadrance_nonneg. }
    lia.
  - pose proof (So 1 r ltac:(lia) ltac:(lia)) as H1. rewrite Er in H1. exact H1.
Qed.

(** What [cqmin] is: the least quadrance between two different elements. *)
Lemma find_cqmin_min (C : list point) (pi : list Z) (q : Z) :
  2 <= q ->
  let Q := fill_Q C pi q in
  let c := find_cqmin Q (fill_V Q q) q in
  (forall i j, 0 <= i < q -> 0 <= j < q -> i <> j -> c <= Q.[i * q + j]) /\
  (exists i j, 0 <= i < q /\ 0 <= j < q /\ i <> j /\ c = Q.[i * q + j]).
Proof.
  intros Hq Q c.
  destruct (find_cqmin_spec Q (fill_V Q q) q ltac:(lia)) as (H1 & H2 & H3).
  fold c in H1, H2, H3. split.
  - intros i j Hi Hj N. destruct (Z.eq_dec i 0) as [->|Ni].
    + specialize (H2 j ltac:(lia)).
      pose proof (second_neighbour_least C pi q j 0 Hq Hj ltac:(lia) ltac:(lia)) as S.
      cbv zeta in S. fold Q in S.
      destruct (fill_Q_table C pi q j 0 Hj ltac:(lia)) as (Sy & _).
      fold Q in Sy. lia.
    + specialize (H2 i ltac:(lia)).
      pose proof (second_neighbour_least C pi q i j Hq Hi Hj N) as S.
      cbv zeta in S. fold Q in S. lia.
  - destruct H3 as [E|(i & Hi & E)].
    + exists 0, 1. split; [lia|]. split; [lia|]. split; [lia|].
      rewrite E. f_equal.
    + pose proof (fill_V_distinct Q q i ltac:(lia)) as [Rg Ij].
      destruct (Z.eq_dec (fill_V Q q).[i * q + 1] i) as [Ei|Ni].
      * pose proof (Rg 0 ltac:(lia)) as R0. rewrite Z.add_0_r in R0.
        exists i, (fill_V Q q).[i * q]. split; [lia|]. split; [lia|]. split.
        -- intros Hc. rewrite <- Ei in Hc at 1.
           replace (i * q) with (i * q + 0) in Hc at 2 by lia.
           apply Ij in Hc; lia.
        -- destruct (fill_V_rows Q q i ltac:(lia)) as [_ So].
           specialize (So 0 1 ltac:(lia) ltac:(lia)).
           rewrite Z.add_0_r, Ei in So. rewrite Ei in E.
           unfold Q in E, So. rewrite (fill_Q_get C pi q i i) in E, So by lia.
           rewrite quadrance_self in E, So. fold Q in So.
           assert (0 <= Q.[i * q + (fill_V Q q).[i * q]]) as P.
           { unfold Q at 1. rewrite fill_Q_get by lia. apply quadrance_nonneg. }
           lia.
      * exists i, (fill_V Q q).[i * q + 1]. specialize (Rg 1 ltac:(lia)).
        split; [lia|]. split; [lia|]. split; [congruence | exact E].
Qed.

(** X4: [cqmin] is the least quadrance between two different elements of the
    field: no entry of [Q] off the diagonal is below it, and one is equal to
    it. *)
Theorem find_cqmin_least (C : list point) (pi : list Z) (q : Z) :
  2 <= q ->
  let Q := fill_Q C pi q in
  let c := find_cqmin Q (fill_V Q q) q in
  (forall i j, 0 <= i < q -> 0 <= j < q -> i <> j -> c <= Q.[i * q + j]) /\
  (exists i j, 0 <= i < q /\ 0 <= j < q /\ i <> j /\ c = Q.[i * q + j]).
Proof. exact (find_cqmin_min C pi q). Qed.

Lemma find_cqmin_least_witness :
  let Q := fill_Q checkerboard [0; 1; 2; 3; 4; 5; 6; 7] 8 in
  let c := find_cqmin Q (fill_V Q 8) 8 in
  (forall i j, 0 <= i < 8 -> 0 <= j < 8 -> i <> j -> c <= Q.[i * 8 + j]) /\
  (exists i j, 0 <= i < 8 /\ 0 <= j < 8 /\ i <> j /\ c = Q.[i * 8 + j]).
Proof. apply (find_cqmin_least checkerboard [0; 1; 2; 3; 4; 5; 6; 7] 8). lia. Defined.

(** ** The cutoff table [dcap] *)

(** A table of [n] rows of [q] cells filled cell by cell. *)
Lemma fill_table_get (f : Z -> Z -> Z) (n q i j : Z) :
  0 <= i < n -> 0 <= j < q ->
  (for_ 0 n (fun i T => for_ 0 q (fun j T => set T (i * q + j) (f i j)) T)
        (alloc (n * q))).[i * q + j] = f i j.
Proof.
  intros Hi Hj.
  pose proof (for_ind
    (fun i T => Z.of_nat (length T) = n * q /\
                forall i' j', 0 <= i' < i -> 0 <= j' < q -> T.[i' * q + j'] = f i' j')
    (fun i T => for_ 0 q (fun j T => set T (i * q + j) (f i j)) T)
    0 n (alloc (n * q)) ltac:(lia)) as H.
  destruct H as [_ H].
  - split; [rewrite length_alloc; nia | intros; lia].
  - intros a T Ha [L IH].
    pose proof (for_ind
      (fun b T' => Z.of_nat (length T') = n * q /\
                   (forall i' j', 0 <= i' < a -> 0 <= j' < q ->
                                  T'.[i' * q + j'] = f i' j') /\
                   forall j', 0 <= j' < b -> T'.[a * q + j'] = f a j')
      (fun j T => set T (a * q + j) (f a j)) 0 q T ltac:(lia))
      as H'.
    destruct H' as (L' & Lo & Cur).
    + split; [exact L|]. split; [exact IH | intros; lia].
    + intros b T' Hb (L' & Lo & Cur). split; [rewrite length_set; exact L'|].
      split.
      * intros i' j' Hi' Hj'. rewrite get_set_ne by nia. apply Lo; assumption.
      * intros j' Hj'. destruct (Z.eq_dec j' b) as [->|N].
        -- apply get_set_eq. nia.
        -- rewrite get_set_ne by nia. apply Cur. lia.
    + split; [exact L'|]. intros i' j' Hi' Hj'.
      destruct (Z.eq_dec i' a) as [->|N]; [apply Cur | apply Lo]; lia.
  - apply H; assumption.
Qed.

Lemma dcap_scan_spec (Q V : list Z) (q j bound : Z) (cnt : nat) :
  forall d,
    let r := dcap_scan cnt Q V q j d bound in
    d <= r <= d + Z.of_nat cnt /\
    (forall k, d <= k < r -> Q.[j * q + V.[j * q + k]] <= bound) /\
    (r < d + Z.of_nat cnt -> bound < Q.[j * q + V.[j * q + r]]).
Proof.
  induction cnt as [|c IH]; intros d; cbv zeta.
  - cbn [dcap_scan]. split; [lia|]. split; intros; lia.
  - cbn [dcap_scan]. destruct (Z.ltb_spec bound Q.[j * q + V.[j * q + d]]) as [L|G].
    + split; [lia|]. split; [intros; lia | intros; exact L].
    + destruct (IH (d + 1)) as (R & P & N). cbv zeta in R, P, N.
      split; [lia|]. split.
      * intros k Hk. destruct (Z.eq_dec k d) as [->|]; [exact G | apply P; lia].
      * intros Hr. apply N. lia.
Qed.

(** What a cell of [dcap] holds. *)
Lemma fill_dcap_cell (Q : list Z) (n q qmax cqmin w j : Z) :
  0 <= w < n -> 0 <= j < q ->
  let V := fill_V Q q in
  let d := (fill_dcap Q V n q qmax cqmin).[w * q + j] in
  0 <= d <= q /\
  forall r, 0 <= r < q ->
    (r < d <-> Q.[j * q + V.[j * q + r]] <= dcap_bound qmax w cqmin).
Proof.
  intros Hw Hj V d. unfold d, fill_dcap.
  rewrite (fill_table_get
             (fun w j => dcap_scan (Z.to_nat q) Q V q j 0 (dcap_bound qmax w cqmin)))
    by assumption.
  destruct (dcap_scan_spec Q V q j (dcap_bound qmax w cqmin) (Z.to_nat q) 0)
    as (R & P & N). cbv zeta in R, P, N.
  rewrite Z2Nat.id in R, N by lia. split; [lia|].
  intros r Hr. split.
  - intros L. apply P. lia.
  - intros L.
    destruct (Z.lt_ge_cases r (dcap_scan (Z.to_nat q) Q V q j 0 (dcap_bound qmax w cqmin)))
      as [|G]; [assumption|].
    specialize (N ltac:(lia)).
    destruct (fill_V_rows Q q j Hj) as [_ So].
    specialize (So _ r ltac:(split; [apply R | exact G]) ltac:(lia)).
    fold V in So. lia.
Qed.

(** X5: the cell of [dcap] for the weight [w] and the element [j] is the
    number of the ranks of the row of [j] whose quadrance is within the
    bound of [w]: with the sorted rows of [V], a rank is below the cell
    exactly when its quadrance is at most the bound. *)
Theorem fill_dcap_cutoff (Q : list Z) (n q qmax cqmin w j : Z) :
  0 <= w < n -> 0 <= j < q ->
  let V := fill_V Q q in
  let d := (fill_dcap Q V n q qmax cqmin).[w * q + j] in
  0 <= d <= q /\
  forall r, 0 <= r < q ->
    (r < d <-> Q.[j * q + V.[j * q + r]] <= dcap_bound qmax w cqmin).
Proof. exact (fill_dcap_cell Q n q qmax cqmin w j). Qed.

Lemma fill_dcap_cutoff_witness :
  let Q := fill_Q checkerboard [0; 1; 2; 3; 4; 5; 6; 7] 8 in
  let V := fill_V Q 8 in
  let d := (fill_dcap Q V 4 8 11 2).[3 * 8 + 0] in
  0 <= d <= 8 /\
  forall r, 0 <= r < 8 ->
    (r < d <-> Q.[0 * 8 + V.[0 * 8 + r]] <= dcap_bound 11 3 2).
Proof.
  apply (fill_dcap_cutoff (fill_Q checkerboard [0; 1; 2; 3; 4; 5; 6; 7] 8) 4 8 11 2 3 0);
    lia.
Defined.

Lemma fill_Q_range (C : list point) (pi : list Z) (q k : Z) :
  0 <= (fill_Q C pi q).[k] < 2 ^ 32.
Proof.
  unfold fill_Q.
  assert (forall (f : Z -> Z -> Z),
            (forall i j, 0 <= f i j < 2 ^ 32) ->
            forall cnt (Q : list Z) a i,
              (forall k, 0 <= Q.[k] < 2 ^ 32) ->
              forall k,
                0 <= (for_loop cnt a (fun j Q => set Q (i * q + j) (f i j)) Q).[k]
                < 2 ^ 32) as Hin.
  { intros f Hf.
    induction cnt as [|c IH]; intros Q a i H k'; cbn [for_loop]; [apply H|].
    apply IH. intros k''. unfold get, set.
    destruct (decide (Z.to_nat (i * q + a) = Z.to_nat k'')) as [E|N].
    - rewrite E. destruct (decide (Z.to_nat k'' < length Q)%nat) as [L|G].
      + rewrite list_lookup_insert_eq by exact L. apply Hf.
      + rewrite lookup_ge_None_2 by (rewrite length_insert; lia). simpl. lia.
    - rewrite list_lookup_insert_ne by exact N. apply H. }
  assert (forall cnt a (Q : list Z),
            (forall k, 0 <= Q.[k] < 2 ^ 32) ->
            forall k,
              0 <= (for_loop cnt a
                      (fun i Q => for_ 0 q
                         (fun j Q => set Q (i * q + j) (quadrance C pi i j)) Q) Q).[k]
              < 2 ^ 32) as Hout.
  { induction cnt as [|c IH]; intros a Q HQ k'; cbn [for_loop]; [apply HQ|].
    apply IH. intros k''. unfold for_.
    apply (Hin (quadrance C pi)); [|exact HQ].
    intros i j. split; [apply quadrance_nonneg|].
    unfold quadrance, u32. apply Z.mod_pos_bound. lia. }
  apply Hout. intros k'. rewrite get_alloc. lia.
Qed.

(** X6: when [qmax] is below the multiple of [cqmin] taken from it, the
    subtraction, done on [size_t], wraps around; the bound is then above
    every quadrance and the cell of [dcap] is [q]: no rank is cut. *)
Theorem fill_dcap_wraps (C : list point) (pi V : list Z) (n q qmax cqmin w j : Z) :
  0 <= w < n -> n <= 2 ^ 31 -> 0 <= j < q ->
  0 <= qmax < 2 ^ 32 -> 0 <= cqmin < 2 ^ 32 ->
  qmax < (if 2 <? w then w - 1 else 1) * cqmin ->
  2 ^ 63 <= dcap_bound qmax w cqmin /\
  (fill_dcap (fill_Q C pi q) V n q qmax cqmin).[w * q + j] = q.
Proof.
  intros Hw Hn Hj Hqmax Hc Hlt.
  assert (2 ^ 63 <= dcap_bound qmax w cqmin) as Hb.
  { unfold dcap_bound.
    set (k := if 2 <? w then w - 1 else 1) in *.
    assert (1 <= k < 2 ^ 31) by (unfold k; destruct (2 <? w) eqn:E; lia).
    assert (0 <= k * cqmin < 2 ^ 63) by nia.
    rewrite (u64_small (k * cqmin)) by lia.
    unfold u64.
    replace (qmax - k * cqmin) with (2 ^ 64 + qmax - k * cqmin + (-1) * 2 ^ 64) by ring.
    rewrite Z.mod_add by lia. rewrite Z.mod_small by lia. lia. }
  split; [exact Hb|]. unfold fill_dcap.
  rewrite (fill_table_get
             (fun w j => dcap_scan (Z.to_nat q) (fill_Q C pi q) V q j 0
                           (dcap_bound qmax w cqmin)))
    by assumption.
  destruct (dcap_scan_spec (fill_Q C pi q) V q j (dcap_bound qmax w cqmin) (Z.to_nat q) 0)
    as (R & P & N). cbv zeta in R, P, N.
  rewrite Z2Nat.id in R, N by lia.
  destruct (Z.eq_dec (dcap_scan (Z.to_nat q) (fill_Q C pi q) V q j 0
                        (dcap_bound qmax w cqmin)) q)
    as [E|Ne]; [exact E|].
  specialize (N ltac:(lia)).
  pose proof (fill_Q_range C pi q
                (j * q + V.[j * q + dcap_scan (Z.to_nat q) (fill_Q C pi q) V q j 0
                                      (dcap_bound qmax w cqmin)])).
  lia.
Qed.

Lemma fill_dcap_wraps_witness :
  2 ^ 63 <= dcap_bound 1 0 2 /\
  (fill_dcap (fill_Q checkerboard [0; 1; 2; 3; 4; 5; 6; 7] 8)
             (fill_V (fill_Q checkerboard [0; 1; 2; 3; 4; 5; 6; 7] 8) 8)
             4 8 1 2).[0 * 8 + 5] = 8.
Proof.
  apply (fill_dcap_wraps checkerboard [0; 1; 2; 3; 4; 5; 6; 7]
           (fill_V (fill_Q checkerboard [0; 1; 2; 3; 4; 5; 6; 7] 8) 8) 4 8 1 2 0 5).
  - lia.
  - lia.
  - lia.
  - lia.
  - lia.
  - simpl. lia.
Defined.

(** ** The weight and the steps of the traversal *)

Lemma weight_bound (a : list Z) (cnt : nat) :
  forall i, 0 <= weight a i cnt <= Z.of_nat cnt.
Proof.
  induction cnt as [|c IH]; intros i; cbn [weight]; [lia|].
  specialize (IH (i + 1)). destruct (a.[i] =? 0); lia.
Qed.

Lemma weight_frame (a b : list Z) (cnt : nat) :
  forall i, (forall k, i <= k < i + Z.of_nat cnt -> a.[k] = b.[k]) ->
            weight a i cnt = weight b i cnt.
Proof.
  induction cnt as [|c IH]; intros i H; cbn [weight]; [reflexivity|].
  rewrite (H i) by lia. rewrite (IH (i + 1)); [reflexivity|].
  intros k Hk. apply H. lia.
Qed.

Lemma weight_zero (a : list Z) (cnt : nat) :
  forall i, (forall k, i <= k < i + Z.of_nat cnt -> a.[k] = 0) ->
            weight a i cnt = 0.
Proof.
  induction cnt as [|c IH]; intros i H; cbn [weight]; [reflexivity|].
  rewrite (H i) by lia. rewrite (IH (i + 1)); [reflexivity|].
  intros k Hk. apply H. lia.
Qed.

Lemma weight_set (a : list Z) (j v : Z) (cnt : nat) :
  forall i, 0 <= i -> i <= j < i + Z.of_nat cnt -> j < Z.of_nat (length a) ->
    weight (set a j v) i cnt
    = weight a i cnt - (if a.[j] =? 0 then 0 else 1) + (if v =? 0 then 0 else 1).
Proof.
  induction cnt as [|c IH]; intros i Hi Hj Hl; [lia|].
  cbn [weight]. destruct (Z.eq_dec i j) as [->|N].
  - rewrite get_set_eq by lia.
    rewrite (weight_frame (set a j v) a c (j + 1)); [lia|].
    intros k Hk. apply get_set_ne; lia.
  - rewrite get_set_ne by lia. rewrite IH by lia. lia.
Qed.

Lemma visited_inv (E : env) (x : list Z) (o : odometer) :
  1 <= e_n E < 2 ^ 64 -> 2 <= e_q E < 2 ^ 64 ->
  visited E x o -> odometer_inv (e_n E) (e_q E) o.
Proof.
  intros Hn Hq V. induction V as [|o o' V IH Hs].
  - apply odometer_begin_inv; lia.
  - pose proof (odometer_next_spec E x o Hn Hq IH) as H. rewrite Hs in H. apply H.
Qed.

(** What a step does to the increments and to the weight. *)
Lemma odometer_next_step (E : env) (x : list Z) (o o' : odometer) :
  1 <= e_n E < 2 ^ 64 -> 2 <= e_q E < 2 ^ 64 ->
  odometer_inv (e_n E) (e_q E) o ->
  0 <= dw o < 2 ^ 64 - 1 ->
  odometer_next E x o = Some o' ->
  let j := (df o).[0] in
  0 <= j < e_n E - 1 /\
  da o' = set (da o) j ((da o).[j] + (dd o).[j]) /\
  ((dd o).[j] = 1 \/ (dd o).[j] = -1) /\
  0 <= (da o).[j] + (dd o).[j] <= e_q E - 1 /\
  dw o' = (if (da o).[j] + (dd o).[j] =? 0
           then u64 ((if (da o).[j] =? 0 then dw o + 1 else dw o) - 1)
           else if (da o).[j] =? 0 then dw o + 1 else dw o).
Proof.
  intros Hn Hq Hinv Hw. pose proof Hinv as ((La & Lf & Ld) & Hd & Hf).
  unfold odometer_next.
  rewrite !(u64_small (e_n E - 1)) by lia. rewrite (u64_small (e_q E - 1)) by lia.
  set (n := e_n E) in *. set (q := e_q E) in *.
  set (j := (df o).[0]). cbv zeta.
  destruct (Z.eqb_spec j (n - 1)) as [Ej|Nj]; [discriminate|].
  destruct (Hf 0 ltac:(lia)) as [Hj0 _]. fold j in Hj0.
  assert (0 <= j < n - 1) as Hj by lia.
  destruct (Hd j Hj) as (Ha & Hdir & Hlo & Hhi).
  assert (0 <= (da o).[j] + (dd o).[j] <= q - 1) as Hv by lia.
  rewrite (u64_small ((da o).[j] + (dd o).[j])) by lia.
  rewrite !(get_set_eq (da o) j) by lia.
  rewrite (u64_small (dw o + 1)) by lia.
  match goal with
  | |- context [if ?b then Some _ else Some _] => destruct b
  end; intros H; injection H as <-; cbn [da dw];
    (split; [exact Hj|]; split; [reflexivity|]; split; [exact Hdir|];
     split; [exact Hv|]; reflexivity).
Qed.

(** The weight all along the traversal. *)
Lemma visited_weight (E : env) (x : list Z) (o : odometer) :
  1 <= e_n E < 2 ^ 63 -> 2 <= e_q E < 2 ^ 64 ->
  visited E x o ->
  dw o = weight (da o) 0 (Z.to_nat (e_n E - 1)) /\
  0 <= dw o <= e_n E - 1 /\
  forall v, 0 <= v < e_q E -> 0 <= dw o * e_q E + v < e_n E * e_q E.
Proof.
  intros Hn Hq V.
  assert (dw o = weight (da o) 0 (Z.to_nat (e_n E - 1))) as Hw.
  { induction V as [|o o' V IH Hs].
    - destruct (odometer_begin_spec (e_n E) ltac:(lia)) as (_ & Ha & _).
      rewrite weight_zero.
      + unfold odometer_begin. destruct (for_ _ _ _ _) as [[a f] d]. reflexivity.
      + intros k Hk. apply Ha. lia.
    - pose proof (visited_inv E x o ltac:(lia) Hq V) as Hinv.
      pose proof (weight_bound (da o) (Z.to_nat (e_n E - 1)) 0) as Hb.
      destruct (odometer_next_step E x o o' ltac:(lia) Hq Hinv ltac:(lia) Hs)
        as (Hj & -> & Hdir & Hv & ->).
      destruct Hinv as ((La & _ & _) & Hd & _).
      rewrite weight_set by lia. rewrite <- IH.
      destruct (Hd _ Hj) as (Ha & _ & Hlo & Hhi).
      destruct (Z.eqb_spec (da o).[(df o).[0]] 0) as [E0|N0].
      + rewrite E0 in *. specialize (Hlo eq_refl). rewrite Hlo. simpl. lia.
      + destruct (Z.eqb_spec ((da o).[(df o).[0]] + (dd o).[(df o).[0]]) 0) as [E1|N1].
        * assert (1 <= dw o).
          { rewrite IH.
            pose proof (weight_set (da o) (df o).[0] 0 (Z.to_nat (e_n E - 1)) 0
                          ltac:(lia) ltac:(lia) ltac:(lia)) as Hs0.
            pose proof (weight_bound (set (da o) (df o).[0] 0)
                          (Z.to_nat (e_n E - 1)) 0) as Hb0.
            destruct (Z.eqb_spec (da o).[(df o).[0]] 0); [contradiction|].
            simpl in Hs0. lia. }
          rewrite u64_small by lia. lia.
        * lia. }
  pose proof (weight_bound (da o) (Z.to_nat (e_n E - 1)) 0) as Hb.
  split; [exact Hw|]. split; [lia|]. intros v Hv. nia.
Qed.

(** X7: all along the traversal [dw] is the number of the increments that are
    not 0; it is at most [n - 1], so that the cell of [dcap] that a step
    reads is one of its [n * q] cells. *)
Theorem odometer_weight (E : env) (x : list Z) (o : odometer) :
  1 <= e_n E < 2 ^ 63 -> 2 <= e_q E < 2 ^ 64 ->
  visited E x o ->
  dw o = weight (da o) 0 (Z.to_nat (e_n E - 1)) /\
  0 <= dw o <= e_n E - 1 /\
  forall v, 0 <= v < e_q E -> 0 <= dw o * e_q E + v < e_n E * e_q E.
Proof. exact (visited_weight E x o). Qed.

Lemma odometer_weight_witness :
  dw (odometer_begin (e_n checkerboard_env))
  = weight (da (odometer_begin (e_n checkerboard_env))) 0
           (Z.to_nat (e_n checkerboard_env - 1)) /\
  0 <= dw (odometer_begin (e_n checkerboard_env)) <= e_n checkerboard_env - 1 /\
  forall v, 0 <= v < e_q checkerboard_env ->
    0 <= dw (odometer_begin (e_n checkerboard_env)) * e_q checkerboard_env + v
    < e_n checkerboard_env * e_q checkerboard_env.
Proof.
  apply (odometer_weight checkerboard_env [0; 0; 0; 0]).
  - simpl. lia.
  - simpl. lia.
  - apply visited_begin.
Defined.

(** X8: a step of the traversal moves one increment, the one that the first
    focus pointer names, by one rank up or down inside [0, q), and leaves
    the others as they are. *)
Theorem odometer_next_gray (E : env) (x : list Z) (o o' : odometer) :
  1 <= e_n E < 2 ^ 63 -> 2 <= e_q E < 2 ^ 64 ->
  visited E x o -> odometer_next E x o = Some o' ->
  exists j, 0 <= j < e_n E - 1 /\
    ((da o').[j] = (da o).[j] + 1 \/ (da o').[j] = (da o).[j] - 1) /\
    0 <= (da o').[j] <= e_q E - 1 /\
    forall k, 0 <= k -> k <> j -> (da o').[k] = (da o).[k].
Proof.
  intros Hn Hq V Hs.
  pose proof (visited_inv E x o ltac:(lia) Hq V) as Hinv.
  destruct (visited_weight E x o Hn Hq V) as (_ & Hw & _).
  destruct (odometer_next_step E x o o' ltac:(lia) Hq Hinv ltac:(lia) Hs)
    as (Hj & -> & Hdir & Hv & _).
  destruct Hinv as ((La & _ & _) & _ & _).
  exists (df o).[0]. split; [exact Hj|].
  rewrite get_set_eq by lia. split; [lia|]. split; [exact Hv|].
  intros k Hk N. apply get_set_ne; lia.
Qed.

Lemma odometer_next_gray_witness :
  exists j, 0 <= j < e_n checkerboard_env - 1 /\
    ((da (Odometer [1; 0; 0; 0] [0; 1; 2; 3] [1; 1; 1; 0] 1)).[j]
     = (da (odometer_begin (e_n checkerboard_env))).[j] + 1 \/
     (da (Odometer [1; 0; 0; 0] [0; 1; 2; 3] [1; 1; 1; 0] 1)).[j]
     = (da (odometer_begin (e_n checkerboard_env))).[j] - 1) /\
    0 <= (da (Odometer [1; 0; 0; 0] [0; 1; 2; 3] [1; 1; 1; 0] 1)).[j]
      <= e_q checkerboard_env - 1 /\
    forall k, 0 <= k -> k <> j ->
      (da (Odometer [1; 0; 0; 0] [0; 1; 2; 3] [1; 1; 1; 0] 1)).[k]
      = (da (odometer_begin (e_n checkerboard_env))).[k].
Proof.
  apply (odometer_next_gray checkerboard_env [0; 0; 0; 0]).
  - simpl. lia.
  - simpl. lia.
  - apply visited_begin.
  - vm_compute. reflexivity.
Defined.

(** ** The end of the traversal *)

Lemma traverse_fuel (E : env) (h x : list Z) :
  forall f f' o Scur S',
    traverse f E h x o Scur = Done S' -> (f <= f')%nat ->
    traverse f' E h x o Scur = Done S'.
Proof.
  induction f as [|f IH]; intros f' o Scur S' H Hf; [discriminate|].
  destruct f' as [|f']; [lia|]. cbn [traverse] in *.
  destruct (record E Scur _) as [S1| |]; cbn [obind] in *; try discriminate.
  destruct (odometer_next E x o) as [o'|]; [|exact H].
  apply (IH f'); [exact H | lia].
Qed.

(** X9: whatever the cutoff table holds, the loop over the neighbours of a
    codeword ends after at most [q ^ (n - 1)] neighbours, with a spectrum
    of as many cells as before. *)
Theorem traverse_ends (E : env) (h x Scur : list Z) :
  1 <= e_n E < 2 ^ 64 -> 2 <= e_q E < 2 ^ 64 ->
  length Scur = Z.to_nat (e_qmax E) ->
  exists S', length S' = length Scur /\
    forall fuel, e_q E ^ (e_n E - 1) <= Z.of_nat fuel ->
      traverse fuel E h x (odometer_begin (e_n E)) Scur = Done S'.
Proof.
  intros Hn Hq Hl.
  pose proof (odometer_begin_inv (e_n E) (e_q E) Hn ltac:(lia)) as Hinv.
  pose proof (odometer_left_bound (e_n E) (e_q E) _ ltac:(lia) ltac:(lia) Hinv) as Hb.
  assert (0 < e_q E ^ (e_n E - 1)) as Hpos by (apply Z.pow_pos_nonneg; lia).
  destruct (traverse_terminates E h x Hn Hq (Z.to_nat (e_q E ^ (e_n E - 1)))
              _ Scur Hinv ltac:(lia) Hl) as (S' & HS & L).
  exists S'. split; [exact L|]. intros fuel Hf.
  apply (traverse_fuel E h x _ fuel _ _ _ HS). lia.
Qed.

Lemma traverse_ends_witness :
  exists S', length S' = length (alloc 11) /\
    forall fuel, e_q checkerboard_env ^ (e_n checkerboard_env - 1) <= Z.of_nat fuel ->
      traverse fuel checkerboard_env [3; 2; 1; 0] [0; 0; 0; 0]
               (odometer_begin (e_n checkerboard_env)) (alloc 11) = Done S'.
Proof.
  apply (traverse_ends checkerboard_env [3; 2; 1; 0] [0; 0; 0; 0] (alloc 11)).
  - simpl. lia.
  - simpl. lia.
  - reflexivity.
Defined.

(** ** Every solution of the parity equation is enumerated *)

Lemma digits_value_inj (B : Z) (x y : list Z) (cnt : nat) (a : Z) :
  1 <= B ->
  (forall k, a <= k < a + Z.of_nat cnt -> 0 <= x.[k] <= B - 1 /\ 0 <= y.[k] <= B - 1) ->
  digits_value B x a cnt = digits_value B y a cnt ->
  forall k, a <= k < a + Z.of_nat cnt -> x.[k] = y.[k].
Proof.
  intros HB Hd E.
  destruct (digits_trichotomy x y cnt a) as [H|[(p & Hp & L & A)|(p & Hp & L & A)]].
  - exact H.
  - pose proof (digits_value_lt B x y cnt HB a p Hp Hd L A). lia.
  - pose proof (digits_value_lt B y x cnt HB a p Hp
                  ltac:(intros k Hk; specialize (Hd k Hk); lia) L
                  ltac:(intros k Hk; symmetry; apply A; exact Hk)). lia.
Qed.

(** X10: a vector of [n] elements of the field that satisfies [chk_valid] is
    one of the codewords that [cw_begin], called on a block [x0] of [n]
    cells that hold anything, and [cw_next] produce: the enumeration misses
    no solution of the parity equation, whatever the array held before. *)
Theorem chk_valid_produced (F : field) (n : Z) (h x0 x : list Z) :
  gf_size_minus_1 F = gf_size F - 1 -> 2 <= gf_size F <= 2 ^ 32 ->
  1 <= n < 2 ^ 64 ->
  length x0 = Z.to_nat n ->
  length x = Z.to_nat n ->
  (forall k, 0 <= k < n - 1 -> 0 <= x.[k] < gf_size F) ->
  chk_valid F n h x = true ->
  cw_produced F n h x0 x.
Proof.
  intros Hq1 Hq Hn L0 Lx Dx Vx.
  assert (cw_produced F n h (alloc n) x) as P;
    [|clear - P L0 Hn; induction P as [|a a' _ IH Ea];
      [rewrite (cw_begin_clears n h (alloc n)) by (lia || apply length_alloc);
       rewrite <- (cw_begin_clears n h x0) by (lia || exact L0);
       apply cw_produced_begin
      |exact (cw_produced_next F n h x0 a a' IH Ea)]].
  assert (cw_digits F n x) as Hx.
  { split; [exact Lx|]. intros k Hk. specialize (Dx k Hk). lia. }
  destruct (cw_begin_digits F n h ltac:(lia) ltac:(lia)) as [Hd Hr].
  pose proof (cw_rank_bound F n x ltac:(lia) ltac:(lia) Hx) as Rx.
  assert (0 < gf_size F ^ (n - 1)) as Hpos by (apply Z.pow_pos_nonneg; lia).
  destruct (coset_ranks F n h ltac:(lia) Hn
              (Z.to_nat (gf_size F ^ (n - 1))) _ Hd) as (l & El & Ml).
  { rewrite Hq1, Hr. replace (gf_size F - 1 + 1) with (gf_size F) by lia. lia. }
  rewrite Hr, Z.sub_0_r in Ml.
  assert (cw_rank F n x ∈ map (cw_rank F n) l) as Hin.
  { rewrite Ml. apply elem_of_seqZ. lia. }
  apply list_elem_of_fmap in Hin. destruct Hin as (y & Ey & Hy).
  pose proof (coset_produced F n h (alloc n) _ _ l
                (cw_produced_begin F n h (alloc n)) El y Hy) as Py.
  pose proof (cw_produced_length F n h (alloc n) y Hn (length_alloc n) Py) as Ly.
  pose proof (cw_produced_chk_valid F n h (alloc n) y Hn (length_alloc n) Py)
    as Vy.
  assert (forall k, 0 <= k < n - 1 -> 0 <= y.[k] <= gf_size_minus_1 F) as Dy.
  { clear - Py Hq1 Hq Hn Hd.
    assert (cw_digits F n y) as [_ H]; [|exact H].
    induction Py as [|a a' Pa IH Ea]; [exact Hd|].
    pose proof (cw_next_rank F n h a ltac:(lia) Hn IH) as Hnx.
    rewrite Ea in Hnx. apply Hnx. }
  assert (forall k, 0 <= k < n - 1 -> x.[k] = y.[k]) as Eq.
  { intros k Hk.
    apply (digits_value_inj (gf_size_minus_1 F + 1) x y (Z.to_nat (n - 1)) 0);
      [lia | | exact Ey | lia].
    intros i Hi. specialize (Dx i ltac:(lia)). specialize (Dy i ltac:(lia)). lia. }
  replace x with y; [exact Py|].
  apply array_ext; [congruence|]. intros k Hk.
  destruct (Z.eq_dec k (n - 1)) as [->|N]; [|symmetry; apply Eq; lia].
  unfold chk_valid in Vx, Vy. rewrite u64_small in Vx, Vy by lia.
  apply Z.eqb_eq in Vx, Vy. rewrite <- Vx, <- Vy.
  apply gf_accmul_all_frame. intros i Hi. symmetry. apply Eq, Hi.
Qed.

Lemma chk_valid_produced_witness :
  cw_produced GF4 3 [2; 1; 0] [0; 0; 3] [1; 2; 0].
Proof.
  apply (chk_valid_produced GF4 3 [2; 1; 0] [0; 0; 3] [1; 2; 0]).
  - reflexivity.
  - simpl. lia.
  - lia.
  - reflexivity.
  - reflexivity.
  - intros k Hk. assert (k = 0 \/ k = 1) as [-> | ->] by lia;
      (cbv; split; [discriminate | reflexivity]).
  - vm_compute. reflexivity.
Defined.

(** ** The code of a parity is linear *)

Lemma gf_shiftb_all (m : Z) : 1 <= m <= 10 -> gf_shiftb m = true.
Proof.
  intros Hm.
  assert (m = 1 \/ m = 2 \/ m = 3 \/ m = 4 \/ m = 5 \/ m = 6 \/ m = 7 \/
          m = 8 \/ m = 9 \/ m = 10) as Hcase by lia.
  repeat (destruct Hcase as [-> | Hcase]; [vm_compute; reflexivity |]).
  subst m. vm_compute. reflexivity.
Qed.

Lemma top_bit (m x : Z) :
  1 <= m -> 0 <= x < 2 ^ m -> (2 ^ m <=? 2 * x) = Z.testbit x (m - 1).
Proof.
  intros Hm Hx. rewrite Z.testbit_eqb by lia.
  assert (2 ^ m = 2 * 2 ^ (m - 1)) as E.
  { rewrite <- Z.pow_succ_r by lia. f_equal. lia. }
  assert (0 < 2 ^ (m - 1)) as Hp by (apply Z.pow_pos_nonneg; lia).
  destruct (Z.leb_spec (2 ^ m) (2 * x)) as [L|G].
  - assert (x / 2 ^ (m - 1) = 1) as ->; [|reflexivity].
    symmetry. apply (Z.div_unique x (2 ^ (m - 1)) 1 (x - 2 ^ (m - 1))); lia.
  - rewrite Z.div_small by lia. reflexivity.
Qed.

Lemma gf_shift_small (P m x : Z) :
  1 <= m <= 31 -> 0 <= x < 2 ^ m ->
  gf_shift P (2 ^ m) x = if Z.testbit x (m - 1) then Z.lxor (2 * x) P else 2 * x.
Proof.
  intros Hm Hx. unfold gf_shift. cbv zeta.
  assert (2 ^ m <= 2 ^ 31) by (apply Z.pow_le_mono_r; lia).
  rewrite Z.shiftl_mul_pow2 by lia. change (2 ^ 1) with 2.
  rewrite u32_small by lia. replace (x * 2) with (2 * x) by lia.
  rewrite top_bit by lia. reflexivity.
Qed.

Lemma gf_shift_additive (P m x y : Z) :
  1 <= m <= 31 -> 0 <= x < 2 ^ m -> 0 <= y < 2 ^ m ->
  gf_shift P (2 ^ m) (Z.lxor x y)
  = Z.lxor (gf_shift P (2 ^ m) x) (gf_shift P (2 ^ m) y).
Proof.
  intros Hm Hx Hy.
  pose proof (lxor_bound m x y ltac:(lia) Hx Hy) as Hxy.
  rewrite !gf_shift_small by assumption.
  rewrite Z.lxor_spec.
  replace (2 * Z.lxor x y) with (Z.lxor (2 * x) (2 * y)).
  2:{ rewrite <- !(Z.mul_comm _ 2).
      change 2 with (2 ^ 1). rewrite <- !Z.shiftl_mul_pow2 by lia.
      symmetry. apply Z.shiftl_lxor. }
  apply Z.bits_inj'. intros k Hk.
  destruct (Z.testbit x (m - 1)), (Z.testbit y (m - 1)); cbn [xorb];
    rewrite !Z.lxor_spec;
    destruct (Z.testbit (2 * x) k), (Z.testbit (2 * y) k), (Z.testbit P k);
    reflexivity.
Qed.

Lemma get_cw_add (x y : list Z) (i : Z) :
  length x = length y -> (cw_add x y).[i] = Z.lxor x.[i] y.[i].
Proof.
  intros L. unfold cw_add, get. rewrite lookup_zip_with.
  destruct (x !! Z.to_nat i) as [u|] eqn:Eu; destruct (y !! Z.to_nat i) as [v|] eqn:Ev;
    try reflexivity.
  - apply lookup_lt_Some in Eu. apply lookup_ge_None in Ev. lia.
  - apply lookup_lt_Some in Ev. apply lookup_ge_None in Eu. lia.
Qed.

Section Linear.

Variables (m : Z) (F : field).
Hypothesis Hm : 1 <= m <= 10.
Hypothesis Hinit : gf_init primitives.[m] = Some F.

Let P := primitives.[m].

Lemma gf_init_tables : gf_tables F m.
Proof.
  destruct (gf_init_table m Hm) as (F' & E & T).
  rewrite Hinit in E. injection E as <-. exact T.
Qed.

Lemma gf_exp_shift (k : Z) :
  0 <= k < 2 ^ m - 1 ->
  (gf_exp F).[(k + 1) mod (2 ^ m - 1)] = gf_shift P (2 ^ m) (gf_exp F).[k].
Proof.
  intros Hk. pose proof (gf_shiftb_all m Hm) as H.
  unfold gf_shiftb in H. rewrite Hinit in H.
  apply Z.eqb_eq. apply (forallb_seqZ _ _ _ H k). lia.
Qed.

Lemma pow_m_bounds : 2 <= 2 ^ m <= 2 ^ 10.
Proof.
  split; [change 2 with (2 ^ 1) at 1|]; apply Z.pow_le_mono_r; lia.
Qed.

Lemma gf_shift_zero : gf_shift P (2 ^ m) 0 = 0.
Proof.
  pose proof pow_m_bounds. unfold gf_shift. cbv zeta.
  change (u32 (Z.shiftl 0 1)) with 0.
  destruct (Z.leb_spec (2 ^ m) 0); [lia | reflexivity].
Qed.

(** The product by the power [h] of the primitive element is [h] shifts. *)
Lemma gf_accmul_shift (h : nat) (x : Z) :
  Z.of_nat h < 2 ^ 30 -> 0 <= x < 2 ^ m ->
  gf_accmul F 0 (Z.of_nat h) x = Nat.iter h (gf_shift P (2 ^ m)) x.
Proof.
  intros Hh Hx. pose proof pow_m_bounds as Hq.
  pose proof gf_init_tables as T. pose proof T as (Hs & Hs1 & He & Hl).
  destruct (Z.eq_dec x 0) as [->|Nx].
  - clear Hh. transitivity 0; [reflexivity|].
    induction h as [|h IH]; [reflexivity|].
    simpl. rewrite <- IH. symmetry. apply gf_shift_zero.
  - induction h as [|h IH].
    + rewrite (gf_accmul_exp F m) by (try assumption; lia).
      destruct (Hl x ltac:(lia)) as [Hlx Ex].
      rewrite Z.add_0_l, Z.mod_small by lia. exact Ex.
    + rewrite !Nat.iter_succ. rewrite <- IH by lia.
      rewrite !(gf_accmul_exp F m) by (try assumption; lia).
      rewrite <- gf_exp_shift by (apply Z.mod_pos_bound; lia).
      f_equal. rewrite Z.add_mod_idemp_l by lia. f_equal. lia.
Qed.

Lemma gf_accmul_additive (h a b x y : Z) :
  0 <= h < 2 ^ 30 -> 0 <= x < 2 ^ m -> 0 <= y < 2 ^ m ->
  gf_accmul F (Z.lxor a b) h (Z.lxor x y)
  = Z.lxor (gf_accmul F a h x) (gf_accmul F b h y).
Proof.
  intros Hh Hx Hy. pose proof pow_m_bounds as Hq.
  pose proof gf_init_tables as T.
  assert (forall k : nat, Z.of_nat k < 2 ^ 30 ->
            forall u v, 0 <= u < 2 ^ m -> 0 <= v < 2 ^ m ->
              Nat.iter k (gf_shift P (2 ^ m)) (Z.lxor u v)
              = Z.lxor (Nat.iter k (gf_shift P (2 ^ m)) u)
                       (Nat.iter k (gf_shift P (2 ^ m)) v)) as Hit.
  { induction k as [|k IH]; intros Hk u v Hu Hv; [reflexivity|].
    rewrite !Nat.iter_succ. rewrite IH by (assumption || lia).
    apply gf_shift_additive; [lia | |];
      rewrite <- gf_accmul_shift by (assumption || lia);
      apply (gf_accmul_range F m); (assumption || lia). }
  rewrite (gf_accmul_acc F (Z.lxor a b)), (gf_accmul_acc F a), (gf_accmul_acc F b).
  pose proof (lxor_bound m x y ltac:(lia) Hx Hy) as Hxy.
  rewrite <- (Z2Nat.id h) by lia.
  rewrite !gf_accmul_shift by (rewrite ?Z2Nat.id by lia; assumption || lia).
  rewrite Hit by (rewrite ?Z2Nat.id by lia; assumption || lia).
  apply Z.bits_inj'. intros k Hk. rewrite !Z.lxor_spec.
  destruct (Z.testbit a k), (Z.testbit b k),
    (Z.testbit (Nat.iter (Z.to_nat h) (gf_shift P (2 ^ m)) x) k),
    (Z.testbit (Nat.iter (Z.to_nat h) (gf_shift P (2 ^ m)) y) k); reflexivity.
Qed.

Lemma gf_accmul_all_additive (h x y : list Z) (n : Z) :
  0 <= n -> length x = length y ->
  (forall i, 0 <= i < n -> 0 <= h.[i] < 2 ^ 30) ->
  (forall i, 0 <= i < n -> 0 <= x.[i] < 2 ^ m /\ 0 <= y.[i] < 2 ^ m) ->
  gf_accmul_all F n h (cw_add x y)
  = Z.lxor (gf_accmul_all F n h x) (gf_accmul_all F n h y).
Proof.
  intros Hn L Hh Hxy.
  assert (forall k : nat, Z.of_nat k <= n ->
            gf_accmul_all F (Z.of_nat k) h (cw_add x y)
            = Z.lxor (gf_accmul_all F (Z.of_nat k) h x)
                     (gf_accmul_all F (Z.of_nat k) h y)) as H.
  { induction k as [|k IH]; intros Hk.
    - reflexivity.
    - rewrite Nat2Z.inj_succ. unfold Z.succ.
      rewrite !gf_accmul_all_succ by lia. rewrite IH by lia.
      rewrite get_cw_add by exact L.
      apply gf_accmul_additive; [apply Hh; lia | apply Hxy; lia | apply Hxy; lia]. }
  specialize (H (Z.to_nat n)). rewrite Z2Nat.id in H by lia. apply H. lia.
Qed.

End Linear.

(** X11: over each of the ten fields that [gf_init] builds, the vectors that
    satisfy a parity form a linear code: the sum, coordinate by coordinate,
    of two vectors that satisfy [chk_valid] satisfies it. *)
Theorem chk_valid_linear (m n : Z) (F : field) (h x y : list Z) :
  1 <= m <= 10 -> gf_init primitives.[m] = Some F ->
  1 <= n < 2 ^ 64 -> length x = length y ->
  (forall i, 0 <= i < n - 1 -> 0 <= h.[i] < 2 ^ 30) ->
  (forall i, 0 <= i < n - 1 -> 0 <= x.[i] < 2 ^ m /\ 0 <= y.[i] < 2 ^ m) ->
  chk_valid F n h x = true -> chk_valid F n h y = true ->
  chk_valid F n h (cw_add x y) = true.
Proof.
  intros Hm Hinit Hn L Hh Hxy Vx Vy. unfold chk_valid in *.
  rewrite u64_small in * by lia. apply Z.eqb_eq in Vx, Vy. apply Z.eqb_eq.
  rewrite (gf_accmul_all_additive m F Hm Hinit) by (assumption || lia).
  rewrite get_cw_add by exact L. congruence.
Qed.

Lemma chk_valid_linear_witness :
  chk_valid GF4 3 [2; 1; 0] (cw_add [1; 2; 0] [1; 0; 3]) = true.
Proof.
  apply (chk_valid_linear 2 3 GF4 [2; 1; 0] [1; 2; 0] [1; 0; 3]).
  - lia.
  - vm_compute. reflexivity.
  - lia.
  - reflexivity.
  - intros i Hi. assert (i = 0 \/ i = 1) as [-> | ->] by lia;
      (cbv; split; [discriminate | reflexivity]).
  - intros i Hi. assert (i = 0 \/ i = 1) as [-> | ->] by lia;
      (cbv; repeat split; (discriminate || reflexivity)).
  - vm_compute. reflexivity.
  - vm_compute. reflexivity.
Defined.

(** ** What [main] accepts *)

Lemma read_step_iter (k : nat) :
  exists m, Nat.iter (S k) read_step (0, 0) = (Z.of_nat (S k), m) /\
            1 <= m /\ 2 ^ (m - 1) <= Z.of_nat (S k) < 2 ^ m.
Proof.
  induction k as [|k (m & E & Hm & Hk)].
  - exists 1. split; [reflexivity|]. simpl. lia.
  - rewrite Nat.iter_succ, E. unfold read_step.
    rewrite Z.shiftl_1_l.
    assert (2 ^ m = 2 * 2 ^ (m - 1)) as Ep.
    { rewrite <- Z.pow_succ_r by lia. f_equal. lia. }
    destruct (Z.eqb_spec (Z.of_nat (S k) + 1) (2 ^ m)) as [Eq|Ne].
    + exists (m + 1). split; [f_equal; lia|]. split; [lia|].
      replace (m + 1 - 1) with m by lia.
      replace (m + 1) with (Z.succ m) by lia. rewrite Z.pow_succ_r by lia. lia.
    + exists m. split; [f_equal; lia|]. split; [lia|]. lia.
Qed.

(** The count of the points and the logarithm of the count, rounded down. *)
Lemma read_points_count (C : list point) :
  1 <= Z.of_nat (length C) < 2 ^ 63 ->
  exists m, read_points C = (Z.of_nat (length C), m) /\
            0 <= m /\ 2 ^ m <= Z.of_nat (length C) < 2 ^ (m + 1).
Proof.
  intros Hl. unfold read_points. rewrite fold_left_iter.
  destruct (length C) as [|k] eqn:El; [lia|].
  destruct (read_step_iter k) as (m & E & Hm & Hk).
  rewrite E. exists (m - 1). rewrite u64_small.
  - split; [reflexivity|]. split; [lia|].
    replace (m - 1 + 1) with m by lia. exact Hk.
  - split; [lia|].
    assert (m - 1 < 63); [|lia].
    apply (Z.pow_lt_mono_r_iff 2); lia.
Qed.

Lemma pow2_inj (a b : Z) : 0 <= a -> 0 <= b -> 2 ^ a = 2 ^ b -> a = b.
Proof.
  intros Ha Hb E. destruct (Z.lt_trichotomy a b) as [L|[?|L]]; [|assumption|].
  - pose proof (Z.pow_lt_mono_r 2 a b ltac:(lia) ltac:(lia) L). lia.
  - pose proof (Z.pow_lt_mono_r 2 b a ltac:(lia) ltac:(lia) L). lia.
Qed.

Lemma gf_init_some (m : Z) : 0 <= m <= 10 -> exists F, gf_init primitives.[m] = Some F.
Proof.
  intros Hm. destruct (Z.eq_dec m 0) as [->|N].
  - eexists. vm_compute. reflexivity.
  - destruct (gf_init_table m ltac:(lia)) as (F & E & _). exists F. exact E.
Qed.

(** X12: [main] goes on to the search exactly when the constellation has
    [2 ^ m] points, the code length is below that number, and the mapping
    gives that many values, each below that number; on anything else it
    leaves through [error]. *)
Theorem search_accepts (fuel : nat) (n qmax : Z) (C : list point) (pi : list Z) :
  1 <= Z.of_nat (length C) < 2048 ->
  (search fuel n qmax C pi <> None <->
   (exists m, 0 <= m <= 10 /\ Z.of_nat (length C) = 2 ^ m) /\
   n < Z.of_nat (length C) /\
   Z.of_nat (length C) <= Z.of_nat (length pi) /\
   Forall (fun v => v < Z.of_nat (length C)) (take (length C) pi)).
Proof.
  intros Hl.
  destruct (read_points_count C ltac:(lia)) as (m & E & Hm & Hq).
  assert (m <= 10) as Hm10.
  { assert (m < 11); [|lia]. apply (Z.pow_lt_mono_r_iff 2); lia. }
  unfold search. rewrite E, Z.shiftl_1_l. set (q := Z.of_nat (length C)) in *.
  destruct (Z.eqb_spec (2 ^ m) q) as [Eq|Nq]; cbn [negb].
  - destruct (Z.leb_spec q n) as [Ln|Gn].
    + split; [intros H; contradiction|]. intros (_ & H & _). lia.
    + destruct (gf_init_some m ltac:(lia)) as (F & ->).
      destruct (Z.leb_spec q (Z.of_nat (length pi))) as [Lp|Gp]; cbn [negb].
      * destruct (forallb (fun v => v <? q) (take (Z.to_nat q) pi)) eqn:Ef; cbn [negb].
        -- split; [|discriminate]. intros _.
           split; [exists m; split; [lia | congruence]|].
           split; [lia|]. split; [lia|].
           rewrite forallb_forall in Ef. apply Forall_forall. intros v Hv.
           apply Z.ltb_lt, Ef. apply list_elem_of_In.
           unfold q. rewrite Nat2Z.id. exact Hv.
        -- split; [intros H; contradiction|]. intros (_ & _ & _ & Hf).
           exfalso. apply not_true_iff_false in Ef. apply Ef.
           apply forallb_forall. intros v Hv. apply Z.ltb_lt.
           rewrite Forall_forall in Hf. apply Hf.
           apply list_elem_of_In in Hv. unfold q in Hv. rewrite Nat2Z.id in Hv.
           exact Hv.
      * split; [intros H; contradiction|]. intros (_ & _ & H & _). lia.
  - split; [intros H; contradiction|]. intros ((m' & Hm' & Em') & _).
    exfalso. apply Nq. rewrite Em' in Hq.
    assert (2 ^ (m' + 1) = 2 * 2 ^ m') as E1
      by (replace (m' + 1) with (Z.succ m') by lia; apply Z.pow_succ_r; lia).
    assert (0 < 2 ^ m') by (apply Z.pow_pos_nonneg; lia).
    assert (m < m' + 1) by (apply (Z.pow_lt_mono_r_iff 2); lia).
    assert (m' < m + 1) by (apply (Z.pow_lt_mono_r_iff 2); lia).
    rewrite Em'. f_equal. lia.
Qed.

Lemma search_accepts_witness :
  search 0 3 8 square [0; 1; 2; 3] <> None <->
  (exists m, 0 <= m <= 10 /\ Z.of_nat (length square) = 2 ^ m) /\
  3 < Z.of_nat (length square) /\
  Z.of_nat (length square) <= Z.of_nat (length [0; 1; 2; 3]) /\
  Forall (fun v => v < Z.of_nat (length square)) (take (length square) [0; 1; 2; 3]).
Proof. apply (search_accepts 0 3 8 square [0; 1; 2; 3]). simpl. lia. Defined.

(** ** The increments of the variant with [qmin] *)

Lemma mixed_value_frame (dmax d e : list Z) (cnt : nat) :
  forall i, (forall k, i <= k < i + Z.of_nat cnt -> d.[k] = e.[k]) ->
            mixed_value dmax d i cnt = mixed_value dmax e i cnt.
Proof.
  induction cnt as [|c IH]; intros i H; cbn [mixed_value]; [reflexivity|].
  rewrite (H i) by lia. rewrite (IH (i + 1)); [reflexivity|].
  intros k Hk. apply H. lia.
Qed.




Lemma delta_next_carry_spec (dmax : list Z) (cnt : nat) :
  forall i d,
    0 <= i -> i + Z.of_nat cnt <= Z.of_nat (length d) ->
    (forall k, i <= k < i + Z.of_nat cnt ->
               1 <= dmax.[k] < 2 ^ 64 /\ 0 <= d.[k] < dmax.[k]) ->
    forall i' d', delta_next_carry cnt dmax i d = (i', d') ->
      length d' = length d /\ i <= i' <= i + Z.of_nat cnt /\
      (forall k, 0 <= k -> k < i \/ i' <= k -> d'.[k] = d.[k]) /\
      (forall k, i <= k < i' -> d'.[k] = 0) /\
      (i' = i + Z.of_nat cnt ->
         mixed_value dmax d i cnt = mixed_size dmax i cnt - 1) /\
      (i' < i + Z.of_nat cnt ->
         d.[i'] < dmax.[i'] - 1 /\
         mixed_value dmax (set d' i' (d.[i'] + 1)) i cnt
         = mixed_value dmax d i cnt + 1).
Proof.
  induction cnt as [|c IH]; intros i d Hi Hlen Hd i' d' E.
  - simpl in E. injection E as <- <-.
    split; [reflexivity|]. split; [lia|]. split; [reflexivity|].
    split; [intros; lia|]. split; [reflexivity | lia].
  - cbn [delta_next_carry] in E.
    pose proof (Hd i ltac:(lia)) as [Hm Hdi].
    rewrite u64_small in E by lia.
    destruct (Z.leb_spec (dmax.[i] - 1) d.[i]) as [Eq|Ne].
    + assert (Hlen' : i + 1 + Z.of_nat c <= Z.of_nat (length (set d i 0)))
        by (rewrite length_set; lia).
      assert (Hd' : forall k, i + 1 <= k < i + 1 + Z.of_nat c ->
                1 <= dmax.[k] < 2 ^ 64 /\ 0 <= (set d i 0).[k] < dmax.[k]).
      { intros k Hk. rewrite get_set_ne by lia. apply Hd. lia. }
      destruct (IH (i + 1) (set d i 0) ltac:(lia) Hlen' Hd' i' d' E)
        as (L & R & Fr & Ze & Full & Part).
      rewrite length_set in L.
      assert (Hfr : mixed_value dmax (set d i 0) (i + 1) c
                    = mixed_value dmax d (i + 1) c).
      { apply mixed_value_frame. intros k Hk. apply get_set_ne; lia. }
      split; [exact L|]. split; [lia|]. split; [|split; [|split]].
      * intros k Hk0 Hk. rewrite Fr by lia. apply get_set_ne; lia.
      * intros k Hk. destruct (Z.eq_dec k i) as [->|N]; [|apply Ze; lia].
        rewrite Fr by lia. apply get_set_eq. lia.
      * intros Hi'. cbn [mixed_value mixed_size].
        rewrite <- Hfr, Full by lia. nia.
      * intros Hi'. destruct (Part ltac:(lia)) as [Hlt Hv].
        rewrite get_set_ne in Hlt by lia. split; [exact Hlt|].
        rewrite get_set_ne in Hv by lia.
        cbn [mixed_value]. rewrite Hv, Hfr.
        rewrite get_set_ne by lia. rewrite Fr by lia.
        rewrite get_set_eq by lia. nia.
    + injection E as <- <-.
      split; [reflexivity|]. split; [lia|]. split; [reflexivity|].
      split; [intros; lia|]. split; [lia|]. intros _. split; [lia|].
      cbn [mixed_value]. rewrite get_set_eq by lia.
      rewrite (mixed_value_frame dmax (set d i (d.[i] + 1)) d c (i + 1)); [lia|].
      intros k Hk. apply get_set_ne; lia.
Qed.

(** What [delta_next] does to the number of [d]. *)
Lemma delta_next_spec (n : Z) (dmax d : list Z) :
  1 <= n < 2 ^ 64 ->
  (forall k, 0 <= k < n - 1 -> 1 <= dmax.[k] < 2 ^ 64) ->
  delta_digits n dmax d ->
  match delta_next n dmax d with
  | (true, d') =>
      delta_digits n dmax d' /\
      mixed_value dmax d' 0 (Z.to_nat (n - 1))
      = mixed_value dmax d 0 (Z.to_nat (n - 1)) + 1
  | (false, d') =>
      mixed_value dmax d 0 (Z.to_nat (n - 1))
      = mixed_size dmax 0 (Z.to_nat (n - 1)) - 1 /\
      length d' = length d /\ forall k, 0 <= k <= n - 1 -> d'.[k] = 0
  end.
Proof.
  intros Hn Hm (Hl & Hz & Hd). unfold delta_next. rewrite u64_small by lia.
  pose proof (delta_next_carry_spec dmax (Z.to_nat (n - 1)) 0 d ltac:(lia) ltac:(lia)
                ltac:(intros k Hk; split; [apply Hm | apply Hd]; lia)) as Hspec.
  destruct (delta_next_carry (Z.to_nat (n - 1)) dmax 0 d) as [i d1].
  destruct (Hspec i d1 eq_refl) as (L & R & Fr & Ze & Full & Part).
  rewrite Z2Nat.id in * by lia.
  destruct (Z.eqb_spec i (n - 1)) as [Ei|Ni].
  - split; [apply Full; lia|]. split; [exact L|]. intros k Hk.
    destruct (Z.eq_dec k (n - 1)) as [->|N]; [|apply Ze; lia].
    rewrite Fr by lia. exact Hz.
  - destruct (Part ltac:(lia)) as [Hlt Hv].
    rewrite (Fr i) by lia.
    pose proof (Hd i ltac:(lia)) as Hdi. pose proof (Hm i ltac:(lia)) as Hmi.
    rewrite u64_small by lia. split; [|exact Hv].
    split; [rewrite length_set; lia|]. split.
    + rewrite get_set_ne by lia. rewrite Fr by lia. exact Hz.
    + intros k Hk. rewrite get_set_in by lia.
      destruct (Z.eqb_spec i k) as [<-|N]; [lia|].
      destruct (Z.lt_ge_cases k i) as [Lk|Gk].
      * rewrite Ze by lia. specialize (Hm k Hk). lia.
      * rewrite Fr by lia. apply Hd, Hk.
Qed.

(** X13: in the variant with [qmin], [delta_next] is the successor of the
    mixed-radix numbering of the increments, the coordinate [k] counting
    below [dmax[k]]: when it returns [true] the number of [d] has grown by
    one and [d] is still below its bounds; it returns [false] at the last
    number, with the increments back to 0. *)
Theorem delta_next_successor (n : Z) (dmax d : list Z) :
  1 <= n < 2 ^ 64 ->
  (forall k, 0 <= k < n - 1 -> 1 <= dmax.[k] < 2 ^ 64) ->
  delta_digits n dmax d ->
  match delta_next n dmax d with
  | (true, d') =>
      delta_digits n dmax d' /\
      mixed_value dmax d' 0 (Z.to_nat (n - 1))
      = mixed_value dmax d 0 (Z.to_nat (n - 1)) + 1
  | (false, d') =>
      mixed_value dmax d 0 (Z.to_nat (n - 1))
      = mixed_size dmax 0 (Z.to_nat (n - 1)) - 1 /\
      length d' = length d /\ forall k, 0 <= k <= n - 1 -> d'.[k] = 0
  end.
Proof. exact (delta_next_spec n dmax d). Qed.

Lemma delta_next_successor_witness :
  match delta_next 3 [2; 3; 0] [1; 0; 0] with
  | (true, d') =>
      delta_digits 3 [2; 3; 0] d' /\
      mixed_value [2; 3; 0] d' 0 (Z.to_nat (3 - 1))
      = mixed_value [2; 3; 0] [1; 0; 0] 0 (Z.to_nat (3 - 1)) + 1
  | (false, d') =>
      mixed_value [2; 3; 0] [1; 0; 0] 0 (Z.to_nat (3 - 1))
      = mixed_size [2; 3; 0] 0 (Z.to_nat (3 - 1)) - 1 /\
      length d' = length [1; 0; 0] /\ forall k, 0 <= k <= 3 - 1 -> d'.[k] = 0
  end.
Proof.
  apply (delta_next_successor 3 [2; 3; 0] [1; 0; 0]).
  - lia.
  - intros k Hk. assert (k = 0 \/ k = 1) as [-> | ->] by lia;
      (cbv; split; [discriminate | reflexivity]).
  - split; [reflexivity|]. split; [reflexivity|].
    intros k Hk. assert (k = 0 \/ k = 1) as [-> | ->] by lia;
      (cbv; split; [discriminate | reflexivity]).
Defined.







Lemma sp_qmin_from_spec (sp : list Z) (qmax : Z) :
  0 <= qmax < UINT_MAX -> (forall k, 0 <= sp.[k]) ->
  forall (cnt : nat) (i : Z),
    1 <= i -> i + Z.of_nat cnt = qmax + 1 ->
    exists r,
      (forall fuel, (cnt < fuel)%nat -> sp_qmin_from fuel i sp qmax = Done r) /\
      ((r = 0 /\ forall k, i <= k <= qmax -> sp.[k] = 0) \/
       (i <= r <= qmax /\ 0 < sp.[r] /\ forall k, i <= k < r -> sp.[k] = 0)).
Proof.
  unfold UINT_MAX. intros Hq Hs. induction cnt as [|c IH]; intros i Hi Hc.
  - exists 0. split.
    + intros [|f] Hf; [lia|]. cbn [sp_qmin_from].
      destruct (Z.leb_spec i qmax); [lia | reflexivity].
    + left. split; [reflexivity | intros; lia].
  - destruct (Z.ltb_spec 0 sp.[i]) as [P|N].
    + exists i. split.
      * intros [|f] Hf; [lia|]. cbn [sp_qmin_from].
        destruct (Z.leb_spec i qmax); [|lia].
        destruct (Z.ltb_spec 0 sp.[i]); [reflexivity | lia].
      * right. split; [lia|]. split; [exact P | intros; lia].
    + destruct (IH (i + 1) ltac:(lia) ltac:(lia)) as (r & Hr & Pr).
      exists r. split.
      * intros [|f] Hf; [lia|]. cbn [sp_qmin_from].
        destruct (Z.leb_spec i qmax); [|lia].
        destruct (Z.ltb_spec 0 sp.[i]); [lia|].
        rewrite u32_small by lia. apply Hr. lia.
      * specialize (Hs i).
        destruct Pr as [[E A]|(R & P & A)].
        -- left. split; [exact E|]. intros k Hk.
           destruct (Z.eq_dec k i) as [->|]; [lia | apply A; lia].
        -- right. split; [lia|]. split; [exact P|]. intros k Hk.
           destruct (Z.eq_dec k i) as [->|]; [lia | apply A; lia].
Qed.

Lemma sp_qmin_from_wraps (sp : list Z) :
  (forall k, sp.[k] <= 0) ->
  forall (fuel : nat) (i : Z),
    0 <= i <= UINT_MAX -> sp_qmin_from fuel i sp UINT_MAX = OutOfFuel.
Proof.
  intros Hs. induction fuel as [|f IH]; intros i Hi; [reflexivity|].
  cbn [sp_qmin_from]. destruct (Z.leb_spec i UINT_MAX); [|lia].
  specialize (Hs i). destruct (Z.ltb_spec 0 sp.[i]); [lia|].
  apply IH. unfold UINT_MAX, u32.
  pose proof (Z.mod_pos_bound (i + 1) (2 ^ 32) ltac:(lia)). lia.
Qed.

(** X15: for [qmax] below [UINT_MAX], [sp_qmin] returns, within [qmax + 1]
    tests, the first quadrance from 1 to [qmax] whose count is positive, and
    0 when there is none.  With [qmax] equal to [UINT_MAX], the default of
    the program, the counter wraps instead of passing [qmax]: on counts
    that are all zero the loop does not end. *)
Theorem sp_qmin_first :
  (forall (sp : list Z) (qmax : Z),
     0 <= qmax < UINT_MAX ->
     (forall k, 0 <= sp.[k]) ->
     exists r,
       (forall fuel, qmax < Z.of_nat fuel -> sp_qmin fuel sp qmax = Done r) /\
       ((r = 0 /\ forall i, 1 <= i <= qmax -> sp.[i] = 0) \/
        (1 <= r <= qmax /\ 0 < sp.[r] /\ forall i, 1 <= i < r -> sp.[i] = 0))) /\
  (forall (sp : list Z) (fuel : nat),
     (forall k, sp.[k] <= 0) -> sp_qmin fuel sp UINT_MAX = OutOfFuel).
Proof.
  split.
  - intros sp qmax Hq Hs.
    destruct (sp_qmin_from_spec sp qmax Hq Hs (Z.to_nat qmax) 1
                ltac:(lia) ltac:(lia)) as (r & Hr & Pr).
    exists r. split; [|exact Pr].
    intros fuel Hf. apply Hr. lia.
  - intros sp fuel Hs. apply (sp_qmin_from_wraps sp Hs fuel 1).
    unfold UINT_MAX. lia.
Qed.

Lemma sp_qmin_first_witness :
  exists r,
    (forall fuel, 4 < Z.of_nat fuel -> sp_qmin fuel [5; 0; 0; 2; 1] 4 = Done r) /\
    ((r = 0 /\ forall i, 1 <= i <= 4 -> [5; 0; 0; 2; 1].[i] = 0) \/
     (1 <= r <= 4 /\ 0 < [5; 0; 0; 2; 1].[r] /\
      forall i, 1 <= i < r -> [5; 0; 0; 2; 1].[i] = 0)).
Proof.
  destruct sp_qmin_first as [H _].
  apply (H [5; 0; 0; 2; 1] 4).
  - unfold UINT_MAX. lia.
  - intros k. unfold get.
    destruct (Z.to_nat k) as [|[|[|[|[|?]]]]]; simpl; lia.
Defined.

(** ** The bounds of the increments in the variant with [qmin] *)

Lemma for_fst {A B : Type} (f : Z -> A * B -> A * B) (g : Z -> A -> A) (cnt : nat) :
  (forall i st, (f i st).1 = g i st.1) ->
  forall a st, (for_loop cnt a f st).1 = for_loop cnt a g st.1.
Proof.
  intros H. induction cnt as [|c IH]; intros a st; [reflexivity|].
  cbn [for_loop]. rewrite IH, H. reflexivity.
Qed.

Lemma fill_Q_cqmin_table (C : list point) (pi : list Z) (q qmax : Z) :
  (fill_Q_cqmin C pi q qmax).1 = fill_Q C pi q.
Proof.
  unfold fill_Q_cqmin, fill_Q, for_.
  rewrite (for_fst _ (fun i Q =>
             for_loop (Z.to_nat (q - 0)) 0
               (fun j Q => set Q (i * q + j) (quadrance C pi i j)) Q)).
  - reflexivity.
  - intros i st.
    rewrite (for_fst _ (fun j Q => set Q (i * q + j) (quadrance C pi i j))).
    + reflexivity.
    + intros j [Q c]. reflexivity.
Qed.

Lemma fill_Q_cqmin_least (C : list point) (pi : list Z) (q qmax : Z) :
  0 <= q ->
  let c := (fill_Q_cqmin C pi q qmax).2 in
  c <= qmax /\
  (forall i j, 0 <= i < q -> 0 <= j < q ->
     0 < quadrance C pi i j -> c <= quadrance C pi i j) /\
  (c = qmax \/ 0 < c).
Proof.
  intros Hq. cbv zeta. unfold fill_Q_cqmin.
  apply (for_ind
    (fun b (st : list Z * Z) =>
       st.2 <= qmax /\
       (forall i j, 0 <= i < b -> 0 <= j < q ->
          0 < quadrance C pi i j -> st.2 <= quadrance C pi i j) /\
       (st.2 = qmax \/ 0 < st.2))); [exact Hq | |].
  - simpl. split; [lia|]. split; [intros; lia | left; reflexivity].
  - intros a st Ha (H1 & H2 & H3).
    match goal with
    | |- context [for_ 0 q ?f st] =>
        pose proof (for_ind
          (fun b (st : list Z * Z) =>
             st.2 <= qmax /\
             (forall i j, 0 <= i < a -> 0 <= j < q ->
                0 < quadrance C pi i j -> st.2 <= quadrance C pi i j) /\
             (forall j, 0 <= j < b ->
                0 < quadrance C pi a j -> st.2 <= quadrance C pi a j) /\
             (st.2 = qmax \/ 0 < st.2))
          f 0 q st Hq) as Hin
    end.
    destruct Hin as (K1 & K2 & K3 & K4);
      [ | intros b [Q c] Hb (K1 & K2 & K3 & K4) | ].
    + split; [exact H1|]. split; [exact H2|]. split; [intros; lia | exact H3].
    + cbn [snd] in *.
      destruct (Z.ltb_spec 0 (quadrance C pi a b)) as [P|N]; cbn [andb].
      * destruct (Z.ltb_spec (quadrance C pi a b) c) as [L|G].
        -- split; [lia|]. split.
           ++ intros i j Hi Hj Hp. specialize (K2 i j Hi Hj Hp). lia.
           ++ split; [|right; exact P]. intros j Hj Hp.
              destruct (Z.eq_dec j b) as [->|]; [lia|].
              specialize (K3 j ltac:(lia) Hp). lia.
        -- split; [exact K1|]. split; [exact K2|]. split; [|exact K4].
           intros j Hj Hp. destruct (Z.eq_dec j b) as [->|]; [lia|].
           apply K3; [lia | exact Hp].
      * split; [exact K1|]. split; [exact K2|]. split; [|exact K4].
        intros j Hj Hp. destruct (Z.eq_dec j b) as [->|]; [lia|].
        apply K3; [lia | exact Hp].
    + split; [exact K1|]. split; [|exact K4].
      intros i j Hi Hj Hp. destruct (Z.eq_dec i a) as [->|].
      * apply K3; assumption.
      * apply K2; [lia | assumption | assumption].
Qed.

Lemma fill_dmax_get (Q V : list Z) (n q qmax cqmin : Z) (x : list Z) (i : Z) :
  0 <= i < n ->
  (fill_dmax Q V n q qmax cqmin x).[i]
  = dcap_scan (Z.to_nat q) Q V q x.[i] 0 (u32 (qmax - cqmin)).
Proof.
  intros Hi. unfold fill_dmax.
  pose proof (for_ind
    (fun b d => length d = Z.to_nat n /\
                forall k, 0 <= k < b ->
                  d.[k] = dcap_scan (Z.to_nat q) Q V q x.[k] 0 (u32 (qmax - cqmin)))
    (fun i dmax =>
       set dmax i (dcap_scan (Z.to_nat q) Q V q x.[i] 0 (u32 (qmax - cqmin))))
    0 n (alloc n) ltac:(lia)) as H.
  destruct H as [_ H].
  - split; [apply length_alloc | intros; lia].
  - intros b d Hb [L IH]. split; [rewrite length_set; exact L|].
    intros k Hk. rewrite get_set_in by lia.
    destruct (Z.eqb_spec b k) as [->|N]; [reflexivity | apply IH; lia].
  - apply H, Hi.
Qed.

(** X16: in the variant with [qmin], [cqmin] is at most [qmax] and at most
    every positive quadrance, so that the bound [qmax - cqmin] of the
    increments does not wrap around; and every bound [dmax[i]] is between 1
    and [q]: the rank 0 of a row, at quadrance 0, is never cut. *)
Theorem fill_dmax_range (C : list point) (pi : list Z) (n q qmax : Z) (x : list Z) (i : Z) :
  1 <= q -> 0 <= qmax < 2 ^ 32 -> 0 <= i < n -> 0 <= x.[i] < q ->
  let Q := (fill_Q_cqmin C pi q qmax).1 in
  let cqmin := (fill_Q_cqmin C pi q qmax).2 in
  let dmax := fill_dmax Q (fill_V Q q) n q qmax cqmin x in
  0 <= cqmin <= qmax /\
  (forall a b, 0 <= a < q -> 0 <= b < q -> 0 < Q.[a * q + b] -> cqmin <= Q.[a * q + b]) /\
  1 <= dmax.[i] <= q.
Proof.
  intros Hq Hqmax Hi Hx Q cqmin dmax.
  destruct (fill_Q_cqmin_least C pi q qmax ltac:(lia)) as (H1 & H2 & H3).
  fold cqmin in H1, H2, H3.
  assert (Q = fill_Q C pi q) as EQ by apply fill_Q_cqmin_table.
  split; [lia|]. split.
  - intros a b Ha Hb. rewrite EQ, fill_Q_get by assumption. apply H2; assumption.
  - unfold dmax. rewrite fill_dmax_get by exact Hi.
    destruct (dcap_scan_spec Q (fill_V Q q) q x.[i] (u32 (qmax - cqmin)) (Z.to_nat q) 0)
      as (R & P & N). cbv zeta in R, P, N. rewrite Z2Nat.id in R, N by lia.
    split; [|lia].
    destruct (Z.eq_dec (dcap_scan (Z.to_nat q) Q (fill_V Q q) q x.[i] 0
                          (u32 (qmax - cqmin))) 0) as [E|]; [|lia].
    exfalso. rewrite E in N. specialize (N ltac:(lia)).
    rewrite u32_small in N by lia.
    destruct (fill_V_rows Q q x.[i] Hx) as [_ So].
    destruct (row_distinct_onto _ q x.[i] x.[i] (fill_V_distinct Q q _ Hx) Hx)
      as (r & Hr & Er).
    specialize (So 0 r ltac:(lia) ltac:(lia)). rewrite Er in So.
    assert (Q.[x.[i] * q + x.[i]] = 0) as Z0
      by (rewrite EQ, fill_Q_get by lia; apply quadrance_self).
    lia.
Qed.

Lemma fill_dmax_range_witness :
  let Q := (fill_Q_cqmin square [0; 1; 2; 3] 4 8).1 in
  let cqmin := (fill_Q_cqmin square [0; 1; 2; 3] 4 8).2 in
  let dmax := fill_dmax Q (fill_V Q 4) 3 4 8 cqmin [1; 2; 0] in
  0 <= cqmin <= 8 /\
  (forall a b, 0 <= a < 4 -> 0 <= b < 4 -> 0 < Q.[a * 4 + b] -> cqmin <= Q.[a * 4 + b]) /\
  1 <= dmax.[1] <= 4.
Proof.
  apply (fill_dmax_range square [0; 1; 2; 3] 3 4 8 [1; 2; 0] 1).
  - lia.
  - lia.
  - lia.
  - cbv. split; [discriminate | reflexivity].
Defined.

(** ** The vectors of [spectra.c] *)

Lemma cw_next_carry_zero (F : field) (cnt : nat) :
  forall i x, 0 <= i -> i + Z.of_nat cnt <= Z.of_nat (length x) ->
    forall k, i <= k < (cw_next_carry cnt F i x).1 ->
              (cw_next_carry cnt F i x).2.[k] = 0.
Proof.
  induction cnt as [|c IH]; intros i x Hi Hl k Hk; cbn [cw_next_carry] in *.
  - simpl in Hk. lia.
  - destruct (x.[i] =? gf_size_minus_1 F); [|simpl in Hk; lia].
    destruct (Z.eq_dec k i) as [->|N].
    + pose proof (cw_next_carry_spec F c) as Hs. cbv zeta in Hs.
      assert (forall i0 x0, 0 <= i0 -> forall j, 0 <= j < i0 ->
                (cw_next_carry c F i0 x0).2.[j] = x0.[j]) as Fr.
      { clear. induction c as [|c IH]; intros i0 x0 Hi0 j Hj; cbn [cw_next_carry].
        - reflexivity.
        - destruct (x0.[i0] =? gf_size_minus_1 F); [|reflexivity].
          rewrite IH by lia. apply get_set_ne; lia. }
      rewrite Fr by lia. apply get_set_eq. lia.
    + apply IH; [lia | rewrite length_set; lia | lia].
Qed.

(** X17: in [spectra.c], [cw_next] is the successor of the numbering in
    base [q] of all the vectors of [n] elements: when it returns [true] the
    number of [x] has grown by one; it returns [false] at the last of the
    [q ^ n] vectors, leaving [x] null. *)
Theorem spectra_cw_next_successor (F : field) (n : Z) (x : list Z) :
  1 <= gf_size_minus_1 F < 2 ^ 32 -> 0 <= n ->
  length x = Z.to_nat n ->
  (forall k, 0 <= k < n -> 0 <= x.[k] <= gf_size_minus_1 F) ->
  match Spectra.cw_next F n x with
  | (true, x') =>
      length x' = Z.to_nat n /\
      (forall k, 0 <= k < n -> 0 <= x'.[k] <= gf_size_minus_1 F) /\
      digits_value (gf_size_minus_1 F + 1) x' 0 (Z.to_nat n)
      = digits_value (gf_size_minus_1 F + 1) x 0 (Z.to_nat n) + 1
  | (false, x') =>
      digits_value (gf_size_minus_1 F + 1) x 0 (Z.to_nat n)
      = (gf_size_minus_1 F + 1) ^ n - 1 /\
      x' = Spectra.cw_begin n x
  end.
Proof.
  intros Hq Hn Hl Hd. unfold Spectra.cw_next.
  pose proof (cw_next_carry_spec F (Z.to_nat n) ltac:(lia) 0 x
                ltac:(lia) ltac:(lia)
                ltac:(intros k Hk; apply Hd; lia)) as Hspec.
  pose proof (cw_next_carry_digits F 0 n (Z.to_nat n)
                ltac:(lia) ltac:(lia) 0 x ltac:(lia) Hd) as Hdig.
  pose proof (cw_next_carry_zero F (Z.to_nat n) 0 x ltac:(lia) ltac:(lia)) as Hz.
  destruct (cw_next_carry (Z.to_nat n) F 0 x) as [i x1].
  destruct (Hspec i x1 eq_refl) as (L & R & Fr & Full & Part).
  simpl in Hdig, Hz. rewrite Z2Nat.id in * by lia.
  destruct (Z.eqb_spec i n) as [Ei|Ni].
  - split; [apply Full; lia|].
    apply array_ext.
    + rewrite L. unfold Spectra.cw_begin.
      apply (for_ind (fun _ y => length x = length y)); [lia | reflexivity|].
      intros k y Hk E. rewrite length_set. exact E.
    + intros k Hk. rewrite Hz by lia.
      unfold Spectra.cw_begin. symmetry.
      pose proof (for_ind (fun b y => length y = length x /\
                                      forall j, 0 <= j < b -> y.[j] = 0)
                    (fun i x => set x i 0) 0 n x ltac:(lia)) as H.
      destruct H as [_ H].
      * split; [reflexivity | intros; lia].
      * intros b y Hb [Ly Hy]. split; [rewrite length_set; exact Ly|].
        intros j Hj. rewrite get_set_in by lia.
        destruct (Z.eqb_spec b j); [reflexivity | apply Hy; lia].
      * apply H. lia.
  - destruct (Part ltac:(lia)) as [Hlt Hv].
    rewrite (Fr i) by lia.
    pose proof (Hd i ltac:(lia)) as Hxi.
    rewrite u32_small by lia.
    split; [rewrite length_set; lia|]. split.
    + intros k Hk. rewrite get_set by lia.
      destruct ((i =? k) && (k <? Z.of_nat (length x1))); [lia|].
      apply Hdig. lia.
    + specialize (Hv 0). rewrite <- Hv.
      apply digits_value_frame. intros k Hk.
      rewrite (get_set_ne _ (0 + n)) by lia. reflexivity.
Qed.

Lemma spectra_cw_next_successor_witness :
  match Spectra.cw_next GF4 2 [3; 1] with
  | (true, x') =>
      length x' = Z.to_nat 2 /\
      (forall k, 0 <= k < 2 -> 0 <= x'.[k] <= gf_size_minus_1 GF4) /\
      digits_value (gf_size_minus_1 GF4 + 1) x' 0 (Z.to_nat 2)
      = digits_value (gf_size_minus_1 GF4 + 1) [3; 1] 0 (Z.to_nat 2) + 1
  | (false, x') =>
      digits_value (gf_size_minus_1 GF4 + 1) [3; 1] 0 (Z.to_nat 2)
      = (gf_size_minus_1 GF4 + 1) ^ 2 - 1 /\
      x' = Spectra.cw_begin 2 [3; 1]
  end.
Proof.
  apply (spectra_cw_next_successor GF4 2 [3; 1]).
  - simpl. lia.
  - lia.
  - reflexivity.
  - intros k Hk. assert (k = 0 \/ k = 1) as [-> | ->] by lia;
      (cbv; split; discriminate).
Defined.

(** ** The parities that the sieve reads *)

Lemma readparity_scan_spec (cnt : nat) :
  forall i input h,
    0 <= i -> i + Z.of_nat cnt <= Z.of_nat (length h) ->
    match readparity_scan cnt i input h with
    | None => (length input < cnt)%nat
    | Some (rest, h') =>
        (cnt <= length input)%nat /\ rest = drop cnt input /\
        length h' = length h /\
        (forall k, 0 <= k < i -> h'.[k] = h.[k]) /\
        (forall k : nat, (k < cnt)%nat ->
           input !! k = Some h'.[i + Z.of_nat k])
    end.
Proof.
  induction cnt as [|c IH]; intros i input h Hi Hl; cbn [readparity_scan].
  - split; [lia|]. split; [reflexivity|]. split; [reflexivity|].
    split; [reflexivity | intros; lia].
  - destruct input as [|v input]; [simpl; lia|].
    specialize (IH (i + 1) input (set h i v) ltac:(lia)
                  ltac:(rewrite length_set; lia)).
    destruct (readparity_scan c (i + 1) input (set h i v)) as [[rest h']|].
    + destruct IH as (Hc & Hr & L & Fr & Hv). rewrite length_set in L.
      split; [simpl; lia|]. split; [exact Hr|]. split; [exact L|]. split.
      * intros k Hk. rewrite Fr by lia. apply get_set_ne; lia.
      * intros [|k] Hk.
        -- simpl. rewrite Z.add_0_r, Fr by lia. rewrite get_set_eq by lia.
           reflexivity.
        -- simpl. rewrite Hv by lia. f_equal. f_equal. lia.
    + simpl. lia.
Qed.

Lemma get_in_range (h : list Z) (k : Z) :
  0 <= k < Z.of_nat (length h) -> h !! Z.to_nat k = Some h.[k].
Proof.
  intros Hk. unfold get.
  destruct (h !! Z.to_nat k) as [v|] eqn:E; [reflexivity|].
  apply lookup_ge_None in E. lia.
Qed.

Lemma readparity_exchange_perm (i j : Z) (h : list Z) :
  0 <= i < Z.of_nat (length h) -> 0 <= j < Z.of_nat (length h) ->
  readparity_exchange i j h ≡ₚ h.
Proof.
  intros Hi Hj. unfold readparity_exchange.
  destruct (h.[i] <? h.[j]); [|reflexivity].
  unfold set. apply Permutation_insert_swap; apply get_in_range; lia.
Qed.

Lemma readparity_exchange_length (i j : Z) (h : list Z) :
  length (readparity_exchange i j h) = length h.
Proof.
  unfold readparity_exchange. destruct (_ <? _); [|reflexivity].
  rewrite !length_set. reflexivity.
Qed.

Lemma readparity_exchange_get (i j k : Z) (h : list Z) :
  0 <= i < Z.of_nat (length h) -> 0 <= j < Z.of_nat (length h) -> i <> j ->
  0 <= k ->
  (readparity_exchange i j h).[k]
  = if h.[i] <? h.[j]
    then if k =? i then h.[j] else if k =? j then h.[i] else h.[k]
    else h.[k].
Proof.
  intros Hi Hj N Hk. unfold readparity_exchange.
  destruct (h.[i] <? h.[j]); [|reflexivity]. cbv zeta.
  rewrite get_set_in by (rewrite ?length_set; lia).
  destruct (Z.eqb_spec j k) as [->|Nj].
  - destruct (Z.eqb_spec k i); [lia|]. rewrite Z.eqb_refl. reflexivity.
  - rewrite get_set_in by lia.
    destruct (Z.eqb_spec i k) as [->|Ni].
    + rewrite Z.eqb_refl. reflexivity.
    + destruct (Z.eqb_spec k i); [lia|]. destruct (Z.eqb_spec k j); [lia|].
      reflexivity.
Qed.

Section SortParity.

Variables (n : Z) (h0 : list Z).
Hypothesis Hlen : length h0 = Z.to_nat n.

Lemma sort_inner (i : Z) (h : list Z) :
  0 <= i < n -> length h = Z.to_nat n -> sort_inv n h0 i h ->
  let h' := for_ (i + 1) n (readparity_exchange i) h in
  length h' = Z.to_nat n /\ sort_inv n h0 (i + 1) h'.
Proof.
  intros Hi L [P S]. cbv zeta.
  pose proof (for_ind
    (fun j h' => length h' = Z.to_nat n /\ h' ≡ₚ h0 /\
                 (forall a b, 0 <= a < i -> a <= b < n -> h'.[b] <= h'.[a]) /\
                 (forall b, i < b < j -> h'.[b] <= h'.[i]))
    (readparity_exchange i) (i + 1) n h ltac:(lia)) as H.
  destruct H as (L' & P' & S' & T').
  - split; [exact L|]. split; [exact P|]. split; [exact S | intros; lia].
  - intros j g Hj (Lg & Pg & Sg & Tg).
    split; [rewrite readparity_exchange_length; exact Lg|]. split.
    + rewrite readparity_exchange_perm by lia. exact Pg.
    + split.
      * intros a b Ha Hb.
        rewrite !(readparity_exchange_get i j) by lia.
        destruct (g.[i] <? g.[j]); [|apply Sg; lia].
        destruct (Z.eqb_spec a i); [lia|]. destruct (Z.eqb_spec a j); [lia|].
        destruct (Z.eqb_spec b i); [apply Sg; lia|].
        destruct (Z.eqb_spec b j); apply Sg; lia.
      * intros b Hb. rewrite !(readparity_exchange_get i j) by lia.
        rewrite Z.eqb_refl.
        destruct (Z.ltb_spec g.[i] g.[j]) as [Lt|Ge].
        -- destruct (Z.eqb_spec b i); [lia|].
           destruct (Z.eqb_spec b j); [lia|].
           specialize (Tg b ltac:(lia)). lia.
        -- destruct (Z.eq_dec b j) as [->|]; [lia | apply Tg; lia].
  - split; [exact L'|]. split; [exact P'|].
    intros a b Ha Hb. destruct (Z.eq_dec a i) as [->|].
    + destruct (Z.eq_dec b i) as [->|]; [lia | apply T'; lia].
    + apply S'; lia.
Qed.

Lemma sort_outer (h : list Z) :
  0 <= n -> length h = Z.to_nat n -> h ≡ₚ h0 ->
  let h' := for_ 0 n (fun i h => for_ (i + 1) n (readparity_exchange i) h) h in
  length h' = Z.to_nat n /\ sort_inv n h0 n h'.
Proof.
  intros Hn L P. cbv zeta.
  apply (for_ind (fun i h' => length h' = Z.to_nat n /\ sort_inv n h0 i h')).
  - exact Hn.
  - split; [exact L|]. split; [exact P | intros; lia].
  - intros i g Hi [Lg Ig]. apply sort_inner; assumption.
Qed.

End SortParity.

Lemma take_lookup_eq (l h : list Z) (n : nat) :
  length h = n -> (n <= length l)%nat ->
  (forall k : nat, (k < n)%nat -> l !! k = Some h.[Z.of_nat k]) ->
  h = take n l.
Proof.
  intros Lh Ll H. apply list_eq. intros k.
  destruct (decide (k < n)%nat) as [Hk|Hk].
  - rewrite lookup_take_lt by exact Hk. rewrite H by exact Hk.
    rewrite <- (Nat2Z.id k) at 1. apply get_in_range. lia.
  - rewrite lookup_take_ge by lia. apply lookup_ge_None. lia.
Qed.

(** X18: [readparity] fails exactly when fewer than [n] values are left to
    read; otherwise it consumes [n] values and leaves in [h] the canonical
    form of the specification: coefficients that never increase, the last
    being 0.  They are the values read, sorted, each less the least of
    them. *)
Theorem readparity_canonical (input : list Z) (n : Z) (h : list Z) :
  1 <= n -> length h = Z.to_nat n ->
  Forall (fun v => 0 <= v < 2 ^ 32) input ->
  match readparity input n h with
  | None => (length input < Z.to_nat n)%nat
  | Some (rest, h') =>
      (Z.to_nat n <= length input)%nat /\ rest = drop (Z.to_nat n) input /\
      canonical n h' /\
      exists m, map (Z.add m) h' ≡ₚ take (Z.to_nat n) input
  end.
Proof.
  intros Hn Lh Hin. unfold readparity.
  pose proof (readparity_scan_spec (Z.to_nat n) 0 input h ltac:(lia) ltac:(lia)) as Hs.
  destruct (readparity_scan (Z.to_nat n) 0 input h) as [[rest h1]|]; [|exact Hs].
  destruct Hs as (Hc & Hr & L1 & _ & Hv).
  assert (h1 = take (Z.to_nat n) input) as E1.
  { apply take_lookup_eq; [lia | exact Hc|]. intros k Hk. rewrite Hv by exact Hk.
    f_equal. }
  destruct (sort_outer n h1 ltac:(lia) h1 ltac:(lia) ltac:(lia) ltac:(reflexivity))
    as (L2 & P2 & S2).
  set (h2 := for_ 0 n (fun i h => for_ (i + 1) n (readparity_exchange i) h) h1) in *.
  assert (forall k, 0 <= k < n -> 0 <= h2.[k] < 2 ^ 32) as R2.
  { intros k Hk.
    assert (Forall (fun v => 0 <= v < 2 ^ 32) h2) as F2.
    { rewrite P2, E1. apply Forall_take, Hin. }
    rewrite Forall_lookup in F2. apply (F2 (Z.to_nat k)).
    apply get_in_range. lia. }
  set (m := h2.[n - 1]).
  pose proof (for_ind
    (fun i g => length g = Z.to_nat n /\
                (forall k, 0 <= k < i -> g.[k] = h2.[k] - m) /\
                (forall k, i <= k < n -> g.[k] = h2.[k]))
    (fun i h => set h i (u32 (h.[i] - h.[n - 1]))) 0 n h2 ltac:(lia)) as H3.
  destruct H3 as (L3 & V3 & _).
  { split; [exact L2|]. split; [intros; lia | reflexivity]. }
  { intros i g Hi (Lg & Lo & Hi'). split; [rewrite length_set; exact Lg|].
    rewrite (Hi' i) by lia. rewrite (Hi' (n - 1)) by lia. fold m.
    pose proof (S2 i (n - 1) ltac:(lia) ltac:(lia)) as Hle. fold m in Hle.
    pose proof (R2 i ltac:(lia)). pose proof (R2 (n - 1) ltac:(lia)) as Rm.
    fold m in Rm. rewrite u32_small by lia. split.
    - intros k Hk. rewrite get_set_in by lia.
      destruct (Z.eqb_spec i k) as [->|]; [reflexivity | apply Lo; lia].
    - intros k Hk. rewrite get_set_ne by lia. apply Hi'. lia. }
  set (h3 := for_ 0 n (fun i h => set h i (u32 (h.[i] - h.[n - 1]))) h2) in *.
  split; [exact Hc|]. split; [exact Hr|]. split.
  - split; [exact L3|]. split.
    + intros i j Hi Hj. rewrite !V3 by lia.
      pose proof (S2 i j ltac:(lia) ltac:(lia)). lia.
    + rewrite V3 by lia. unfold m. lia.
  - exists m. rewrite <- E1, <- P2.
    replace (map (Z.add m) h3) with h2; [reflexivity|].
    apply array_ext; [rewrite length_map; lia|].
    intros k Hk. unfold get at 2. rewrite list_lookup_fmap.
    rewrite (get_in_range h3) by lia. simpl. rewrite V3 by lia. lia.
Qed.

Lemma readparity_canonical_witness :
  match readparity [5; 9; 7; 4] 3 [0; 0; 0] with
  | None => (length [5; 9; 7; 4] < Z.to_nat 3)%nat
  | Some (rest, h') =>
      (Z.to_nat 3 <= length [5; 9; 7; 4])%nat /\
      rest = drop (Z.to_nat 3) [5; 9; 7; 4] /\
      canonical 3 h' /\
      exists m, map (Z.add m) h' ≡ₚ take (Z.to_nat 3) [5; 9; 7; 4]
  end.
Proof.
  apply (readparity_canonical [5; 9; 7; 4] 3 [0; 0; 0]).
  - lia.
  - reflexivity.
  - repeat constructor; lia.
Defined.

(** ** The next permutation *)

Lemma permnext_pivot_spec (p : list Z) (cnt : nat) :
  forall j, j + 1 = Z.of_nat cnt ->
    let r := permnext_pivot cnt j p in
    -1 <= r <= j /\ (0 <= r -> p.[r] < p.[r + 1]) /\
    forall t, r < t <= j -> p.[t + 1] <= p.[t].
Proof.
  induction cnt as [|c IH]; intros j Hj; cbv zeta; cbn [permnext_pivot].
  - split; [lia|]. split; intros; lia.
  - destruct (Z.ltb_spec p.[j] p.[j + 1]) as [L|G].
    + split; [lia|]. split; [intros; exact L | intros; lia].
    + destruct (IH (j - 1) ltac:(lia)) as (R & P & T). cbv zeta in R, P, T.
      split; [lia|]. split; [exact P|].
      intros t Ht. destruct (Z.eq_dec t j) as [->|]; [exact G | apply T; lia].
Qed.

Lemma permnext_above_spec (p : list Z) (j : Z) (cnt : nat) :
  forall k, k - j = Z.of_nat cnt ->
    (exists t, j < t <= k /\ p.[j] < p.[t]) ->
    let r := permnext_above cnt j k p in
    j < r <= k /\ p.[j] < p.[r] /\ forall t, r < t <= k -> p.[t] <= p.[j].
Proof.
  induction cnt as [|c IH]; intros k Hk (t & Ht & Lt); cbv zeta;
    cbn [permnext_above]; [lia|].
  destruct (Z.ltb_spec p.[j] p.[k]) as [L|G].
  - split; [lia|]. split; [exact L | intros; lia].
  - destruct (IH (k - 1) ltac:(lia)) as (R & P & T).
    { exists t. split; [|exact Lt]. destruct (Z.eq_dec t k) as [->|]; lia. }
    cbv zeta in R, P, T. split; [lia|]. split; [exact P|].
    intros u Hu. destruct (Z.eq_dec u k) as [->|]; [exact G | apply T; lia].
Qed.

Lemma permnext_swap_length (j k : Z) (p : list Z) :
  length (permnext_swap j k p) = length p.
Proof. unfold permnext_swap. rewrite !length_set. reflexivity. Qed.

Lemma permnext_swap_perm (j k : Z) (p : list Z) :
  0 <= j < Z.of_nat (length p) -> 0 <= k < Z.of_nat (length p) ->
  permnext_swap j k p ≡ₚ p.
Proof.
  intros Hj Hk. unfold permnext_swap, set.
  apply Permutation_insert_swap; apply get_in_range; lia.
Qed.

Lemma permnext_swap_get (j k t : Z) (p : list Z) :
  0 <= j < Z.of_nat (length p) -> 0 <= k < Z.of_nat (length p) -> 0 <= t ->
  (permnext_swap j k p).[t]
  = if t =? k then p.[j] else if t =? j then p.[k] else p.[t].
Proof.
  intros Hj Hk Ht. unfold permnext_swap. cbv zeta.
  rewrite get_set_in by (rewrite ?length_set; lia).
  destruct (Z.eqb_spec k t) as [->|Nk].
  - rewrite Z.eqb_refl. reflexivity.
  - destruct (Z.eqb_spec t k); [lia|]. rewrite get_set_in by lia.
    destruct (Z.eqb_spec j t) as [->|Nj].
    + rewrite Z.eqb_refl. reflexivity.
    + destruct (Z.eqb_spec t j); [lia | reflexivity].
Qed.

Lemma permnext_reverse_spec (cnt : nat) :
  forall a b p,
    0 <= a -> b < Z.of_nat (length p) -> b - a < Z.of_nat cnt ->
    let r := permnext_reverse cnt a b p in
    length r = length p /\ r ≡ₚ p /\
    (forall t, a <= t <= b -> r.[t] = p.[a + b - t]) /\
    (forall t, 0 <= t -> t < a \/ b < t -> r.[t] = p.[t]).
Proof.
  induction cnt as [|c IH]; intros a b p Ha Hb Hc; cbv zeta;
    cbn [permnext_reverse].
  - split; [reflexivity|]. split; [reflexivity|]. split; [intros; lia | reflexivity].
  - destruct (Z.ltb_spec a b) as [L|G].
    + destruct (IH (a + 1) (b - 1) (permnext_swap a b p) ltac:(lia)
                  ltac:(rewrite permnext_swap_length; lia) ltac:(lia))
        as (Lr & Pr & In & Out). cbv zeta in Lr, Pr, In, Out.
      rewrite permnext_swap_length in Lr.
      split; [exact Lr|]. split.
      * rewrite Pr. apply permnext_swap_perm; lia.
      * split.
        -- intros t Ht. destruct (Z.eq_dec t a) as [->|Na].
           ++ rewrite Out by lia. rewrite permnext_swap_get by lia.
              destruct (Z.eqb_spec a b); [lia|]. rewrite Z.eqb_refl.
              f_equal. lia.
           ++ destruct (Z.eq_dec t b) as [->|Nb].
              ** rewrite Out by lia. rewrite permnext_swap_get by lia.
                 rewrite Z.eqb_refl. f_equal. lia.
              ** rewrite In by lia. rewrite permnext_swap_get by lia.
                 destruct (Z.eqb_spec (a + 1 + (b - 1) - t) b); [lia|].
                 destruct (Z.eqb_spec (a + 1 + (b - 1) - t) a); [lia|].
                 f_equal. lia.
        -- intros t Ht Ho. rewrite Out by lia. rewrite permnext_swap_get by lia.
           destruct (Z.eqb_spec t b); [lia|]. destruct (Z.eqb_spec t a); [lia|].
           reflexivity.
    + split; [reflexivity|]. split; [reflexivity|]. split.
      * intros t Ht. f_equal. lia.
      * reflexivity.
Qed.

(** Arrays that agree before [i] and hold the same values hold the same
    values from [i] on. *)
Lemma agree_drop (r p : list Z) (i : Z) :
  r ≡ₚ p -> 0 <= i <= Z.of_nat (length p) ->
  (forall k, 0 <= k < i -> r.[k] = p.[k]) ->
  drop (Z.to_nat i) r ≡ₚ drop (Z.to_nat i) p.
Proof.
  intros P Hi A. pose proof (Permutation_length P) as L.
  assert (take (Z.to_nat i) r = take (Z.to_nat i) p) as Et.
  { apply list_eq. intros k. destruct (decide (k < Z.to_nat i)%nat) as [Hk|Hk].
    - rewrite !lookup_take_lt by exact Hk.
      rewrite <- (Nat2Z.id k).
      rewrite (get_in_range r), (get_in_range p) by lia.
      f_equal. apply A. lia.
    - rewrite !lookup_take_ge by lia. reflexivity. }
  apply (Permutation_app_inv_l (take (Z.to_nat i) p)).
  rewrite <- Et at 1. rewrite !take_drop. exact P.
Qed.

Lemma elem_of_drop (p : list Z) (i x : Z) :
  0 <= i -> x ∈ drop (Z.to_nat i) p ->
  exists t, i <= t < Z.of_nat (length p) /\ p.[t] = x.
Proof.
  intros Hi Hx. apply list_elem_of_lookup in Hx. destruct Hx as [k Hk].
  rewrite lookup_drop in Hk. pose proof (lookup_lt_Some _ _ _ Hk) as Hlt.
  exists (Z.of_nat (Z.to_nat i + k)). split; [lia|].
  unfold get. rewrite Nat2Z.id, Hk. reflexivity.
Qed.

Lemma drop_elem_of (p : list Z) (i t : Z) :
  0 <= i <= t -> t < Z.of_nat (length p) -> p.[t] ∈ drop (Z.to_nat i) p.
Proof.
  intros Hi Ht. apply (list_elem_of_lookup_2 _ (Z.to_nat t - Z.to_nat i)).
  rewrite lookup_drop. replace (Z.to_nat i + (Z.to_nat t - Z.to_nat i))%nat
    with (Z.to_nat t) by lia.
  apply get_in_range. lia.
Qed.

(** An ascending arrangement is the least of the arrangements of its
    values. *)
Lemma ascending_least (n : Z) (q r : list Z) (c : nat) :
  forall s, 0 <= s -> n - s = Z.of_nat c ->
    length q = Z.to_nat n -> length r = Z.to_nat n ->
    (forall a b, s <= a <= b -> b < n -> q.[a] <= q.[b]) ->
    drop (Z.to_nat s) r ≡ₚ drop (Z.to_nat s) q ->
    (forall k, s <= k < n -> q.[k] = r.[k]) \/
    (exists i, s <= i < n /\ (forall k, s <= k < i -> q.[k] = r.[k]) /\ q.[i] < r.[i]).
Proof.
  induction c as [|c IH]; intros s Hs Hc Lq Lr Asc P.
  - left. intros; lia.
  - assert (r.[s] ∈ drop (Z.to_nat s) q) as Hin.
    { rewrite <- P. apply drop_elem_of; lia. }
    apply elem_of_drop in Hin; [|lia]. destruct Hin as (t & Ht & Et).
    pose proof (Asc s t ltac:(lia) ltac:(lia)) as Hle.
    destruct (Z.eq_dec q.[s] r.[s]) as [E|N].
    + rewrite (drop_S q q.[s] (Z.to_nat s)) in P by (apply get_in_range; lia).
      rewrite (drop_S r r.[s] (Z.to_nat s)) in P by (apply get_in_range; lia).
      rewrite E in P. apply Permutation_cons_inv in P.
      replace (S (Z.to_nat s)) with (Z.to_nat (s + 1)) in P by lia.
      destruct (IH (s + 1) ltac:(lia) ltac:(lia) Lq Lr
                  ltac:(intros a b Ha Hb; apply Asc; lia) P)
        as [A|(i & Hi & A & L)].
      * left. intros k Hk. destruct (Z.eq_dec k s) as [->|]; [exact E | apply A; lia].
      * right. exists i. split; [lia|]. split; [|exact L].
        intros k Hk. destruct (Z.eq_dec k s) as [->|]; [exact E | apply A; lia].
    + right. exists s. split; [lia|]. split; [intros; lia | lia].
Qed.

(** X19: [permnext] returns 0 exactly on an arrangement that never
    increases, which it leaves as it is; otherwise it leaves in [p] the
    next arrangement of the same values in the lexicographic order: one
    that is greater than [p], with no arrangement strictly between. *)
Theorem permnext_successor (n : Z) (p : list Z) :
  length p = Z.to_nat n ->
  match permnext n p with
  | None => forall j, 0 <= j < n - 1 -> p.[j + 1] <= p.[j]
  | Some p' =>
      p' ≡ₚ p /\ lex_lt n p p' /\
      forall r, r ≡ₚ p -> lex_lt n p r -> r = p' \/ lex_lt n p' r
  end.
Proof.
  intros Lp. unfold permnext.
  destruct (Z.le_gt_cases n 1) as [Hn1|Hn].
  { replace (Z.to_nat (n - 1)) with O by lia. cbn [permnext_pivot].
    destruct (Z.ltb_spec (n - 2) 0); [|lia]. intros; lia. }
  destruct (permnext_pivot_spec p (Z.to_nat (n - 1)) (n - 2) ltac:(lia))
    as (Rj & Pj & Tj). cbv zeta in Rj, Pj, Tj.
  set (j := permnext_pivot (Z.to_nat (n - 1)) (n - 2) p) in *.
  destruct (Z.ltb_spec j 0) as [Neg|Pos].
  { intros t Ht. apply Tj. lia. }
  specialize (Pj Pos).
  assert (forall a b, j < a <= b -> b < n -> p.[b] <= p.[a]) as Tail.
  { intros a b Hab Hb.
    assert (forall d : nat, a + Z.of_nat d < n -> p.[a + Z.of_nat d] <= p.[a]) as H.
    { induction d as [|d IH]; intros Hd; [rewrite Z.add_0_r; lia|].
      specialize (IH ltac:(lia)).
      pose proof (Tj (a + Z.of_nat d) ltac:(lia)) as Hs.
      replace (a + Z.of_nat (S d)) with (a + Z.of_nat d + 1) by lia. lia. }
    specialize (H (Z.to_nat (b - a)) ltac:(lia)).
    replace (a + Z.of_nat (Z.to_nat (b - a))) with b in H by lia. exact H. }
  destruct (permnext_above_spec p j (Z.to_nat (n - 1 - j)) (n - 1) ltac:(lia))
    as (Rk & Pk & Tk).
  { exists (j + 1). split; [lia | exact Pj]. }
  cbv zeta in Rk, Pk, Tk.
  set (k := permnext_above (Z.to_nat (n - 1 - j)) j (n - 1) p) in *.
  set (q := permnext_swap j k p).
  assert (length q = Z.to_nat n) as Lq by (unfold q; rewrite permnext_swap_length; exact Lp).
  destruct (permnext_reverse_spec (Z.to_nat n) (j + 1) (n - 1) q
              ltac:(lia) ltac:(lia) ltac:(lia)) as (Lr & Pr & In & Out).
  cbv zeta in Lr, Pr, In, Out.
  set (p' := permnext_reverse (Z.to_nat n) (j + 1) (n - 1) q) in *.
  assert (forall t, 0 <= t -> q.[t] = if t =? k then p.[j] else if t =? j then p.[k] else p.[t])
    as Gq by (intros t Ht; unfold q; apply permnext_swap_get; lia).
  assert (p' ≡ₚ p) as Pp.
  { rewrite Pr. unfold q. apply permnext_swap_perm; lia. }
  assert (forall t, 0 <= t < j -> p'.[t] = p.[t]) as F1.
  { intros t Ht. rewrite Out, Gq by lia.
    destruct (Z.eqb_spec t k); [lia|]. destruct (Z.eqb_spec t j); [lia|]. reflexivity. }
  assert (p'.[j] = p.[k]) as F2.
  { rewrite Out, Gq by lia. destruct (Z.eqb_spec j k); [lia|].
    rewrite Z.eqb_refl. reflexivity. }
  assert (forall a b, j < a <= b -> b < n -> q.[b] <= q.[a]) as TailQ.
  { intros a b Hab Hb. rewrite !Gq by lia.
    destruct (Z.eqb_spec a j); [lia|]. destruct (Z.eqb_spec b j); [lia|].
    destruct (Z.eqb_spec b k) as [->|Nb]; destruct (Z.eqb_spec a k) as [->|Na].
    - lia.
    - pose proof (Tail a k ltac:(lia) ltac:(lia)). lia.
    - apply Tk. lia.
    - apply Tail; lia. }
  assert (forall a b, j + 1 <= a <= b -> b < n -> p'.[a] <= p'.[b]) as F3.
  { intros a b Hab Hb. rewrite !In by lia. apply TailQ; lia. }
  split; [exact Pp|]. split.
  { exists j. split; [lia|]. split; [intros t Ht; symmetry; apply F1, Ht | lia]. }
  intros r Hr (i & Hi & Ai & Li).
  pose proof (Permutation_length Hr) as LrP.
  destruct (Z.lt_trichotomy i j) as [Lt|[->|Gt]].
  - right. exists i. split; [lia|]. split.
    + intros t Ht. rewrite F1 by lia. apply Ai, Ht.
    + rewrite F1 by lia. exact Li.
  - assert (r.[j] ∈ drop (Z.to_nat j) p) as Hin.
    { rewrite <- (agree_drop r p j Hr ltac:(lia)
                    ltac:(intros t Ht; symmetry; apply Ai, Ht)).
      apply drop_elem_of; lia. }
    apply elem_of_drop in Hin; [|lia]. destruct Hin as (t & Ht & Et).
    assert (j < t) as Hjt by (destruct (Z.eq_dec t j) as [->|]; lia).
    assert (t <= k) as Htk.
    { destruct (Z.le_gt_cases t k); [assumption|].
      specialize (Tk t ltac:(lia)). lia. }
    pose proof (Tail t k ltac:(lia) ltac:(lia)) as Hkt.
    destruct (Z.eq_dec r.[j] p.[k]) as [E|N].
    + assert (drop (Z.to_nat (j + 1)) r ≡ₚ drop (Z.to_nat (j + 1)) p') as Pd.
      { apply agree_drop; [rewrite Hr, Pp; reflexivity | lia |].
        intros u Hu. destruct (Z.eq_dec u j) as [->|]; [congruence|].
        rewrite F1 by lia. symmetry. apply Ai. lia. }
      destruct (ascending_least n p' r (Z.to_nat (n - (j + 1))) (j + 1)
                  ltac:(lia) ltac:(lia) ltac:(lia) ltac:(lia) F3 Pd)
        as [A|(i & Hi' & A & L)].
      * left. apply array_ext; [lia|]. intros u Hu.
        destruct (Z.lt_ge_cases u j) as [Lu|Gu].
        -- rewrite F1 by lia. symmetry. apply Ai. lia.
        -- destruct (Z.eq_dec u j) as [->|]; [congruence|].
           symmetry. apply A. lia.
      * right. exists i. split; [lia|]. split; [|exact L].
        intros u Hu. destruct (Z.lt_ge_cases u j) as [Lu|Gu].
        -- rewrite F1 by lia. apply Ai. lia.
        -- destruct (Z.eq_dec u j) as [->|]; [congruence | apply A; lia].
    + right. exists j. split; [lia|]. split.
      * intros u Hu. rewrite F1 by lia. apply Ai, Hu.
      * lia.
  - exfalso.
    assert (r.[i] ∈ drop (Z.to_nat i) p) as Hin.
    { rewrite <- (agree_drop r p i Hr ltac:(lia)
                    ltac:(intros t Ht; symmetry; apply Ai, Ht)).
      apply drop_elem_of; lia. }
    apply elem_of_drop in Hin; [|lia]. destruct Hin as (t & Ht & Et).
    pose proof (Tail i t ltac:(lia) ltac:(lia)). lia.
Qed.

Lemma permnext_successor_witness :
  match permnext 4 [1; 4; 3; 2] with
  | None => forall j, 0 <= j < 4 - 1 -> [1; 4; 3; 2].[j + 1] <= [1; 4; 3; 2].[j]
  | Some p' =>
      p' ≡ₚ [1; 4; 3; 2] /\ lex_lt 4 [1; 4; 3; 2] p' /\
      forall r, r ≡ₚ [1; 4; 3; 2] -> lex_lt 4 [1; 4; 3; 2] r ->
                r = p' \/ lex_lt 4 p' r
  end.
Proof. apply (permnext_successor 4 [1; 4; 3; 2]). reflexivity. Defined.

(** ** The next partition *)

Lemma cells_sum_frame (p q : list Z) (cnt : nat) :
  forall i, (forall k, i <= k < i + Z.of_nat cnt -> p.[k] = q.[k]) ->
            cells_sum p i cnt = cells_sum q i cnt.
Proof.
  induction cnt as [|c IH]; intros i H; cbn [cells_sum]; [reflexivity|].
  rewrite (H i) by lia. rewrite (IH (i + 1)); [reflexivity|].
  intros k Hk. apply H. lia.
Qed.

Lemma cells_sum_app (p : list Z) (a b : nat) :
  forall i, cells_sum p i (a + b)
            = cells_sum p i a + cells_sum p (i + Z.of_nat a) b.
Proof.
  induction a as [|a IH]; intros i.
  - simpl. rewrite Z.add_0_r. reflexivity.
  - cbn [cells_sum Nat.add]. rewrite IH.
    replace (i + 1 + Z.of_nat a) with (i + Z.of_nat (S a)) by lia. lia.
Qed.

Lemma cells_sum_snoc (p : list Z) (c : nat) (i : Z) :
  cells_sum p i (S c) = cells_sum p i c + p.[i + Z.of_nat c].
Proof.
  replace (S c) with (c + 1)%nat by lia. rewrite cells_sum_app.
  cbn [cells_sum]. lia.
Qed.

Lemma cells_sum_const (p : list Z) (v : Z) (cnt : nat) :
  forall i, (forall k, i <= k < i + Z.of_nat cnt -> p.[k] = v) ->
            cells_sum p i cnt = v * Z.of_nat cnt.
Proof.
  induction cnt as [|c IH]; intros i H; cbn [cells_sum]; [lia|].
  rewrite (H i) by lia. rewrite IH by (intros k Hk; apply H; lia). lia.
Qed.

Lemma cells_sum_bound (p : list Z) (lo hi : Z) (cnt : nat) :
  forall i, (forall k, i <= k < i + Z.of_nat cnt -> lo <= p.[k] <= hi) ->
            lo * Z.of_nat cnt <= cells_sum p i cnt <= hi * Z.of_nat cnt.
Proof.
  induction cnt as [|c IH]; intros i H; cbn [cells_sum]; [lia|].
  specialize (IH (i + 1) ltac:(intros k Hk; apply H; lia)).
  specialize (H i ltac:(lia)). lia.
Qed.

Lemma partnext_scan_spec (p : list Z) (cnt : nat) :
  forall k rem,
    k + 1 = Z.of_nat cnt -> 0 <= rem -> rem + Z.of_nat cnt < 2 ^ 31 ->
    (forall t, 0 <= t <= k -> 0 <= p.[t]) ->
    let '(k1, rem1) := partnext_scan cnt k rem p in
    -1 <= k1 <= k /\ (0 <= k1 -> 1 < p.[k1]) /\
    (forall t, k1 < t <= k -> p.[t] <= 1) /\
    rem1 = rem + cells_sum p (k1 + 1) (Z.to_nat (k - k1)).
Proof.
  induction cnt as [|c IH]; intros k rem Hk Hr Hb Hp; cbn [partnext_scan].
  - split; [lia|]. split; [intros; lia|]. split; [intros; lia|].
    replace (Z.to_nat (k - k)) with O by lia. simpl. lia.
  - destruct (Z.leb_spec p.[k] 1) as [L|G].
    + specialize (Hp k ltac:(lia)) as Hpk.
      rewrite s32_small by lia.
      specialize (IH (k - 1) (rem + p.[k]) ltac:(lia) ltac:(lia) ltac:(lia)
                    ltac:(intros t Ht; apply Hp; lia)).
      destruct (partnext_scan c (k - 1) (rem + p.[k]) p) as [k1 rem1].
      destruct IH as (R & P & T & E).
      split; [lia|]. split; [exact P|]. split.
      * intros t Ht. destruct (Z.eq_dec t k) as [->|]; [exact L | apply T; lia].
      * rewrite E. replace (Z.to_nat (k - k1)) with (S (Z.to_nat (k - 1 - k1))) by lia.
        rewrite cells_sum_snoc. rewrite Z2Nat.id by lia.
        replace (k1 + 1 + (k - 1 - k1)) with k by lia. lia.
    + split; [lia|]. split; [intros; lia|]. split; [intros; lia|].
      replace (Z.to_nat (k - k)) with O by lia. simpl. lia.
Qed.

Lemma partnext_fill_spec (v : Z) (cnt : nat) :
  forall k rem p,
    0 <= k -> 1 <= v -> p.[k] = v -> 1 <= rem -> rem <= Z.of_nat cnt ->
    rem < 2 ^ 31 -> v < 2 ^ 31 ->
    k + rem <= Z.of_nat (length p) ->
    exists k2 rem2 p2,
      partnext_fill cnt k rem p = Done (k2, rem2, p2) /\
      length p2 = length p /\ k <= k2 /\ 1 <= rem2 <= v /\
      v * (k2 - k) + rem2 = rem /\
      (forall t, k <= t <= k2 -> p2.[t] = v) /\
      (forall t, 0 <= t -> t <= k \/ k2 < t -> p2.[t] = p.[t]).
Proof.
  induction cnt as [|c IH]; intros k rem p Hk Hv Ev Hr Hc Hr31 Hv31 Hl; [lia|].
  cbn [partnext_fill]. rewrite Ev.
  destruct (Z.ltb_spec v rem) as [L|G].
  - rewrite s32_small by lia.
    destruct (Z.leb_spec (Z.of_nat (length p)) (k + 1)) as [B|_]; [lia|].
    destruct (IH (k + 1) (rem - v) (set p (k + 1) v) ltac:(lia) Hv
                ltac:(apply get_set_eq; lia) ltac:(lia) ltac:(lia) ltac:(lia) Hv31
                ltac:(rewrite length_set; lia))
      as (k2 & rem2 & p2 & E & L2 & Hk2 & Hr2 & Hs & In & Out).
    rewrite length_set in L2.
    exists k2, rem2, p2. split; [exact E|]. split; [exact L2|]. split; [lia|].
    split; [exact Hr2|]. split; [lia|]. split.
    + intros t Ht. destruct (Z.eq_dec t k) as [->|].
      * rewrite Out by lia. rewrite get_set_ne by lia. exact Ev.
      * apply In. lia.
    + intros t Ht Ho. rewrite Out by lia. apply get_set_ne; lia.
  - exists k, rem, p. split; [reflexivity|]. split; [reflexivity|].
    split; [lia|]. split; [lia|]. split; [lia|]. split.
    + intros t Ht. replace t with k by lia. exact Ev.
    + reflexivity.
Qed.

(** X20: on an array of [n] cells whose last one holds 0, [partnext]
    returns, all its stores inside the array.  It returns 0, with [p] as it
    was, when no cell is above 1.  Otherwise it takes one from the last cell above 1,
    say [p[k]], and shares the sum of the cells from [k] on among the cells
    [k], ..., [k'], none above [p[k] - 1]: the cells 0 to [k'] then hold a
    partition, lower than [p] in the lexicographic order, of the sum of all
    the cells of [p].  It returns whether [k' + 1 < n], and the cells after
    [k'] are left as they were, so that the sum of the [n] cells is kept
    only when those cells held 0: from (4, 1, 1, 0), of sum 6, the call
    leaves (3, 3, 1, 0).  When the last cell does not hold 0 the last store
    can fall past the array: on the two cells (2, 1) it is [p[2]], while on
    (3, 1) the call leaves (2, 2) and returns 0. *)
Theorem partnext_sum :
  (forall (n : Z) (p : list Z),
     1 <= n < 2 ^ 30 -> length p = Z.to_nat n ->
     (forall i, 0 <= i < n -> 0 <= p.[i] < 2 ^ 30) -> p.[n - 1] = 0 ->
     exists more p',
       partnext n p = Done (more, p') /\
       ((forall i, 0 <= i < n -> p.[i] <= 1) -> more = false /\ p' = p) /\
       ((exists i, 0 <= i < n /\ 1 < p.[i]) ->
        exists k k', 0 <= k < k' /\ k' < n /\ 1 < p.[k] /\
          (forall i, k < i < n -> p.[i] <= 1) /\
          (more = true <-> k' + 1 < n) /\
          length p' = length p /\
          (forall i, 0 <= i < k -> p'.[i] = p.[i]) /\
          (forall i, k <= i < k' -> p'.[i] = p.[k] - 1) /\
          1 <= p'.[k'] <= p.[k] - 1 /\
          (forall i, k' < i -> p'.[i] = p.[i]) /\
          cells_sum p' 0 (Z.to_nat (k' + 1)) = cells_sum p 0 (Z.to_nat n) /\
          lex_lt n p' p)) /\
  partnext 4 [4; 1; 1; 0] = Done (true, [3; 3; 1; 0]) /\
  partnext 2 [2; 1] = OutOfBounds /\
  partnext 2 [3; 1] = Done (false, [2; 2]).
Proof.
  split; [|repeat split; vm_compute; reflexivity].
  intros n p Hn Lp Hp Hz. unfold partnext.
  assert (2 ^ 30 + 2 ^ 30 = 2 ^ 31) as E31 by reflexivity.
  pose proof (partnext_scan_spec p (Z.to_nat n) (n - 1) 0 ltac:(lia) ltac:(lia)
                ltac:(lia) ltac:(intros t Ht; apply Hp; lia)) as Hs.
  destruct (partnext_scan (Z.to_nat n) (n - 1) 0 p) as [k rem].
  destruct Hs as (Rk & Pk & Tk & Er).
  destruct (Z.ltb_spec k 0) as [Neg|Pos].
  - exists false, p. split; [reflexivity|]. split; [auto|].
    intros (i & Hi & Gi). specialize (Tk i ltac:(lia)). lia.
  - specialize (Pk Pos). pose proof (Hp k ltac:(lia)) as Hpk.
    assert (k < n - 1) as Hkn.
    { destruct (Z.eq_dec k (n - 1)) as [->|]; [lia | lia]. }
    assert (0 <= cells_sum p (k + 1) (Z.to_nat (n - 1 - k)) <= n - 2 - k) as Hsum.
    { replace (Z.to_nat (n - 1 - k)) with (Z.to_nat (n - 2 - k) + 1)%nat by lia.
      rewrite cells_sum_app. cbn [cells_sum].
      replace (k + 1 + Z.of_nat (Z.to_nat (n - 2 - k))) with (n - 1) by lia.
      rewrite Hz.
      pose proof (cells_sum_bound p 0 1 (Z.to_nat (n - 2 - k)) (k + 1)) as Hb.
      rewrite Z2Nat.id in Hb by lia.
      specialize (Hb ltac:(intros t Ht; split;
                           [apply Hp; lia | apply Tk; lia])). lia. }
    rewrite Z.add_0_l in Er. rewrite !s32_small by lia.
    set (q := set p k (p.[k] - 1)).
    destruct (partnext_fill_spec (p.[k] - 1) (Z.to_nat (rem + 1)) k (rem + 1) q
                ltac:(lia) ltac:(lia) ltac:(unfold q; apply get_set_eq; lia)
                ltac:(lia) ltac:(lia) ltac:(lia) ltac:(lia)
                ltac:(unfold q; rewrite length_set; lia))
      as (k2 & rem2 & p2 & E & L2 & Hk2 & Hr2 & Hsm & In & Out).
    rewrite E. unfold q in L2. rewrite length_set in L2.
    assert (k2 - k <= rem) as Hit by nia.
    rewrite (s32_small (k2 + 1)) by lia. rewrite (s32_small (k2 + 1 + 1)) by lia.
    destruct (Z.leb_spec (Z.of_nat (length p2)) (k2 + 1)) as [B|_]; [lia|].
    exists (k2 + 1 + 1 <? n), (set p2 (k2 + 1) rem2).
    split; [reflexivity|]. split.
    { intros H. specialize (H k ltac:(lia)). lia. }
    intros _. exists k, (k2 + 1).
    assert (forall i, 0 <= i < k -> (set p2 (k2 + 1) rem2).[i] = p.[i]) as Fr.
    { intros i Hi. rewrite get_set_ne by lia. rewrite Out by lia.
      unfold q. apply get_set_ne; lia. }
    assert (forall i, k <= i < k2 + 1 -> (set p2 (k2 + 1) rem2).[i] = p.[k] - 1) as Md.
    { intros i Hi. rewrite get_set_ne by lia. apply In. lia. }
    assert ((set p2 (k2 + 1) rem2).[k2 + 1] = rem2) as Lst
      by (apply get_set_eq; lia).
    assert (forall i, k2 + 1 < i -> (set p2 (k2 + 1) rem2).[i] = p.[i]) as Af.
    { intros i Hi. rewrite get_set_ne by lia. rewrite Out by lia.
      unfold q. apply get_set_ne; lia. }
    split; [lia|]. split; [lia|]. split; [exact Pk|]. split.
    { intros i Hi. apply Tk. lia. }
    split.
    { destruct (Z.ltb_spec (k2 + 1 + 1) n); split; intros; (lia || congruence). }
    split; [rewrite length_set; exact L2|].
    split; [exact Fr|]. split; [exact Md|]. split; [rewrite Lst; exact Hr2|].
    split; [exact Af|]. split.
    + (* the sum *)
      replace (Z.to_nat (k2 + 1 + 1))
        with (Z.to_nat k + (Z.to_nat (k2 + 1 - k) + 1))%nat by lia.
      replace (Z.to_nat n) with (Z.to_nat k + (1 + Z.to_nat (n - 1 - k)))%nat by lia.
      rewrite !cells_sum_app. rewrite !Z.add_0_l, !Z2Nat.id by lia.
      rewrite (cells_sum_frame _ p (Z.to_nat k) 0)
        by (intros i Hi; apply Fr; lia).
      rewrite (cells_sum_const _ (p.[k] - 1) (Z.to_nat (k2 + 1 - k)) k)
        by (intros i Hi; apply Md; lia).
      cbn [cells_sum]. replace (k + (k2 + 1 - k)) with (k2 + 1) by lia.
      rewrite Lst. rewrite Z2Nat.id by lia.
      change (Z.of_nat 1) with 1. rewrite <- Er. nia.
    + exists k. split; [lia|]. split; [exact Fr|]. rewrite Md by lia. lia.
Qed.

Lemma partnext_sum_witness :
  exists more p',
    partnext 4 [3; 1; 1; 0] = Done (more, p') /\
    ((forall i, 0 <= i < 4 -> [3; 1; 1; 0].[i] <= 1) -> more = false /\ p' = [3; 1; 1; 0]) /\
    ((exists i, 0 <= i < 4 /\ 1 < [3; 1; 1; 0].[i]) ->
     exists k k', 0 <= k < k' /\ k' < 4 /\ 1 < [3; 1; 1; 0].[k] /\
       (forall i, k < i < 4 -> [3; 1; 1; 0].[i] <= 1) /\
       (more = true <-> k' + 1 < 4) /\
       length p' = length [3; 1; 1; 0] /\
       (forall i, 0 <= i < k -> p'.[i] = [3; 1; 1; 0].[i]) /\
       (forall i, k <= i < k' -> p'.[i] = [3; 1; 1; 0].[k] - 1) /\
       1 <= p'.[k'] <= [3; 1; 1; 0].[k] - 1 /\
       (forall i, k' < i -> p'.[i] = [3; 1; 1; 0].[i]) /\
       cells_sum p' 0 (Z.to_nat (k' + 1)) = cells_sum [3; 1; 1; 0] 0 (Z.to_nat 4) /\
       lex_lt 4 p' [3; 1; 1; 0]).
Proof.
  destruct partnext_sum as [H _].
  apply (H 4 [3; 1; 1; 0]).
  - lia.
  - reflexivity.
  - intros i Hi. unfold get.
    destruct (Z.to_nat i) as [|[|[|[|?]]]]; simpl; lia.
  - reflexivity.
Defined.

(** ** Leaving the loop over the codewords early *)

Lemma traverse_det (E : env) (h x : list Z) (f f' : nat) (o : odometer)
    (Scur S1 S2 : list Z) :
  traverse f E h x o Scur = Done S1 -> traverse f' E h x o Scur = Done S2 ->
  S1 = S2.
Proof.
  intros H1 H2.
  pose proof (traverse_fuel E h x f (Nat.max f f') o Scur S1 H1 ltac:(lia)) as A.
  pose proof (traverse_fuel E h x f' (Nat.max f f') o Scur S2 H2 ltac:(lia)) as B.
  congruence.
Qed.

(** A spectrum that grows cell by cell stays worse. *)
Lemma sp_cmp_from_grows (a b c : list Z) (cnt : nat) :
  forall i, (forall k, b.[k] <= c.[k]) ->
            sp_cmp_from cnt i a b = 1 -> sp_cmp_from cnt i a c = 1.
Proof.
  induction cnt as [|n IH]; intros i G; cbn [sp_cmp_from]; [discriminate|].
  pose proof (G i) as Gi.
  destruct (Z.eqb_spec a.[i] b.[i]) as [E|N].
  - intros H. destruct (Z.eqb_spec a.[i] c.[i]) as [E'|N'].
    + apply IH; assumption.
    + destruct (Z.ltb_spec a.[i] c.[i]); [reflexivity | lia].
  - destruct (Z.ltb_spec a.[i] b.[i]) as [L|]; [|discriminate]. intros _.
    destruct (Z.eqb_spec a.[i] c.[i]); [lia|].
    destruct (Z.ltb_spec a.[i] c.[i]); [reflexivity | lia].
Qed.

Lemma sp_cmp_from_values (a b : list Z) (cnt : nat) :
  forall i, sp_cmp_from cnt i a b = 0 \/ sp_cmp_from cnt i a b = 1 \/
            sp_cmp_from cnt i a b = -1.
Proof.
  induction cnt as [|n IH]; intros i; cbn [sp_cmp_from]; [auto|].
  destruct (a.[i] =? b.[i]); [apply IH|]. destruct (a.[i] <? b.[i]); auto.
Qed.

Lemma sp_cmp_from_le_trans (a b c : list Z) (cnt : nat) :
  forall i, 0 <= sp_cmp_from cnt i a b -> 0 <= sp_cmp_from cnt i b c ->
            0 <= sp_cmp_from cnt i a c.
Proof.
  induction cnt as [|n IH]; intros i; cbn [sp_cmp_from]; [lia|].
  destruct (Z.eqb_spec a.[i] b.[i]) as [E1|E1];
    destruct (Z.eqb_spec b.[i] c.[i]) as [E2|E2];
    destruct (Z.eqb_spec a.[i] c.[i]) as [E3|E3]; try lia.
  - apply IH.
  - rewrite E1. tauto.
  - rewrite <- E2. tauto.
  - destruct (Z.ltb_spec a.[i] b.[i]), (Z.ltb_spec b.[i] c.[i]); lia.
  - destruct (Z.ltb_spec a.[i] b.[i]), (Z.ltb_spec b.[i] c.[i]),
      (Z.ltb_spec a.[i] c.[i]); lia.
Qed.

Lemma get_neg (a : list Z) (k : Z) : k < 0 -> a.[k] = a.[0].
Proof. intros Hk. unfold get. replace (Z.to_nat k) with (Z.to_nat 0) by lia. reflexivity. Qed.

Lemma record_grows (E : env) (Scur : list Z) (quad B : Z) :
  cells_below B Scur -> B + 1 < 2 ^ 64 -> 0 <= quad ->
  forall S', record E Scur quad = Done S' ->
    cells_below (B + 1) S' /\ forall k, Scur.[k] <= S'.[k].
Proof.
  intros Hc HB Hq S' H. unfold record, sp_incr in H.
  assert (cells_below (B + 1) Scur) as Hc'
    by (intros k; specialize (Hc k); lia).
  destruct (quad <? e_qmax E); [|injection H as <-; split; [exact Hc' | intros; lia]].
  destruct (Z.ltb_spec quad (Z.of_nat (length Scur))) as [L|]; [|discriminate].
  injection H as <-. pose proof (Hc quad) as Hq'.
  rewrite u64_small by lia.
  assert (forall k, 0 <= k ->
            0 <= (set Scur quad (Scur.[quad] + 1)).[k] <= B + 1 /\
            Scur.[k] <= (set Scur quad (Scur.[quad] + 1)).[k]) as Hk.
  { intros k Hk. rewrite get_set_in by lia. specialize (Hc k).
    destruct (Z.eqb_spec quad k) as [->|]; lia. }
  split.
  - intros k. destruct (Z.le_gt_cases 0 k) as [P|N]; [apply Hk, P|].
    rewrite get_neg by lia. apply Hk. lia.
  - intros k. destruct (Z.le_gt_cases 0 k) as [P|N]; [apply Hk, P|].
    rewrite !(get_neg _ k) by lia. apply Hk. lia.
Qed.

Lemma traverse_grows (E : env) (h x : list Z) :
  1 <= e_n E < 2 ^ 64 -> 2 <= e_q E < 2 ^ 64 ->
  forall fuel o Scur B S',
    odometer_inv (e_n E) (e_q E) o ->
    cells_below B Scur ->
    B + odometer_left (e_n E) (e_q E) o + 1 < 2 ^ 64 ->
    traverse fuel E h x o Scur = Done S' ->
    cells_below (B + odometer_left (e_n E) (e_q E) o + 1) S' /\
    forall k, Scur.[k] <= S'.[k].
Proof.
  intros Hn Hq. induction fuel as [|f IH]; intros o Scur B S' Hinv Hc HB H;
    [discriminate|].
  cbn [traverse] in H.
  pose proof (odometer_left_bound (e_n E) (e_q E) o ltac:(lia) ltac:(lia) Hinv) as Hl.
  destruct (record E Scur _) as [S1| |] eqn:Er; cbn [obind] in H; try discriminate.
  destruct (record_grows E Scur _ B Hc ltac:(lia)
              (neighbour_quad_nonneg E h x (da o)) S1 Er) as [C1 G1].
  pose proof (odometer_next_spec E x o Hn Hq Hinv) as Hs.
  destruct (odometer_next E x o) as [o'|].
  - destruct Hs as [Hinv' Hlt].
    pose proof (odometer_left_bound (e_n E) (e_q E) o' ltac:(lia) ltac:(lia) Hinv').
    destruct (IH o' S1 (B + 1) S' Hinv' C1 ltac:(lia) H) as [C2 G2].
    split.
    + intros k. specialize (C2 k). lia.
    + intros k. specialize (G1 k). specialize (G2 k). lia.
  - injection H as <-. split; [|exact G1].
    intros k. specialize (C1 k). lia.
Qed.

Section Sweep.

Variable E : env.
Hypothesis Hq1 : 1 <= gf_size_minus_1 (e_F E) < 2 ^ 32.
Hypothesis Hn : 1 <= e_n E < 2 ^ 64.
Hypothesis Hq : 2 <= e_q E < 2 ^ 64.

Let codes (x : list Z) : Z :=
  (gf_size_minus_1 (e_F E) + 1) ^ (e_n E - 1) - cw_rank (e_F E) (e_n E) x.
Let around : Z := e_q E ^ (e_n E - 1).

Lemma around_pos : 0 < around.
Proof. apply Z.pow_pos_nonneg; lia. Qed.

Lemma traverse_begin_grows (h x Scur : list Z) (B : Z) (fuel : nat) (S' : list Z) :
  cells_below B Scur -> B + around < 2 ^ 64 ->
  traverse fuel E h x (odometer_begin (e_n E)) Scur = Done S' ->
  cells_below (B + around) S' /\ forall k, Scur.[k] <= S'.[k].
Proof.
  intros Hc HB H.
  pose proof (odometer_begin_inv (e_n E) (e_q E) Hn ltac:(lia)) as Hinv.
  pose proof (odometer_left_bound (e_n E) (e_q E) _ ltac:(lia) ltac:(lia) Hinv) as Hl.
  fold around in Hl.
  destruct (traverse_grows E h x Hn Hq fuel _ Scur B S' Hinv Hc ltac:(lia) H)
    as [C G].
  split; [|exact G]. intros k. specialize (C k). lia.
Qed.

Lemma sweep_grows (h : list Z) :
  forall fuel x Scur B S',
    cw_digits (e_F E) (e_n E) x ->
    cells_below B Scur -> B + codes x * around < 2 ^ 64 ->
    sweep fuel E h x Scur = Done S' ->
    forall k, Scur.[k] <= S'.[k].
Proof.
  induction fuel as [|f IH]; intros x Scur B S' Hx Hc HB H; [discriminate|].
  cbn [sweep] in H.
  pose proof around_pos as Hp.
  pose proof (cw_rank_bound (e_F E) (e_n E) x ltac:(lia) ltac:(lia) Hx) as Hr.
  assert (1 <= codes x) as Hc1 by (unfold codes; lia).
  destruct (traverse (S f) E h x _ Scur) as [S1| |] eqn:Et; cbn [obind] in H;
    try discriminate.
  destruct (traverse_begin_grows h x Scur B (S f) S1 Hc ltac:(nia) Et) as [C1 G1].
  pose proof (cw_next_rank (e_F E) (e_n E) h x Hq1 Hn Hx) as Hnext.
  destruct (cw_next (e_F E) (e_n E) h x) as [[|] x'].
  - destruct Hnext as [Hx' Hr'].
    assert (codes x' = codes x - 1) as Ec by (unfold codes; lia).
    pose proof (IH x' S1 (B + around) S' Hx' C1 ltac:(rewrite Ec; nia) H) as G2.
    intros k. specialize (G1 k). specialize (G2 k). lia.
  - injection H as <-. exact G1.
Qed.

Lemma sweep_fuel (h : list Z) :
  forall f f' x Scur S',
    sweep f E h x Scur = Done S' -> (f <= f')%nat ->
    sweep f' E h x Scur = Done S'.
Proof.
  induction f as [|f IH]; intros f' x Scur S' H Hf; [discriminate|].
  destruct f' as [|f']; [lia|]. cbn [sweep] in *.
  destruct (traverse (S f) E h x _ Scur) as [S1| |] eqn:Et; cbn [obind] in H;
    try discriminate.
  rewrite (traverse_fuel E h x (S f) (S f') _ Scur S1 Et ltac:(lia)).
  cbn [obind]. destruct (cw_next (e_F E) (e_n E) h x) as [[|] x']; [|exact H].
  apply (IH f'); [exact H | lia].
Qed.

Lemma sweep_det (h : list Z) (f f' : nat) (x Scur S1 S2 : list Z) :
  sweep f E h x Scur = Done S1 -> sweep f' E h x Scur = Done S2 -> S1 = S2.
Proof.
  intros H1 H2.
  pose proof (sweep_fuel h f (Nat.max f f') x Scur S1 H1 (Nat.le_max_l _ _)) as A.
  pose proof (sweep_fuel h f' (Nat.max f f') x Scur S2 H2 (Nat.le_max_r _ _)) as B.
  congruence.
Qed.

(** A spectrum that passes the test after the loop over the codewords was
    computed over the whole coset. *)
Lemma codewords_kept (h Sbest : list Z) :
  forall fuel x Scur S',
    codewords fuel E h x Sbest Scur = Done S' ->
    sp_cmp Sbest S' (e_qmax E) <= 0 ->
    sweep fuel E h x Scur = Done S'.
Proof.
  induction fuel as [|f IH]; intros x Scur S' H Hk; [discriminate|].
  cbn [codewords sweep] in *.
  destruct (traverse (S f) E h x _ Scur) as [S1| |]; cbn [obind] in *;
    try discriminate.
  destruct (cw_next (e_F E) (e_n E) h x) as [[|] x']; cbn [andb] in H.
  - destruct (Z.leb_spec (sp_cmp Sbest S1 (e_qmax E)) 0) as [L|G].
    + apply IH; assumption.
    + injection H as <-. lia.
  - exact H.
Qed.

(** A parity that the loop over the codewords leaves early is worse than the
    best over its whole coset too. *)
Lemma codewords_left (h Sbest : list Z) :
  forall fuel x Scur B S',
    cw_digits (e_F E) (e_n E) x ->
    cells_below B Scur -> B + codes x * around < 2 ^ 64 ->
    codewords fuel E h x Sbest Scur = Done S' ->
    0 < sp_cmp Sbest S' (e_qmax E) ->
    forall fuel' Sf, sweep fuel' E h x Scur = Done Sf ->
                     sp_cmp Sbest Sf (e_qmax E) = 1.
Proof.
  induction fuel as [|f IH]; intros x Scur B S' Hx Hc HB H Hw fuel' Sf Hf;
    [discriminate|].
  destruct fuel' as [|f']; [discriminate|].
  cbn [codewords sweep] in *.
  pose proof around_pos as Hp.
  pose proof (cw_rank_bound (e_F E) (e_n E) x ltac:(lia) ltac:(lia) Hx) as Hr.
  assert (1 <= codes x) as Hc1 by (unfold codes; lia).
  destruct (traverse (S f) E h x _ Scur) as [S1| |] eqn:Et; cbn [obind] in H;
    try discriminate.
  destruct (traverse (S f') E h x _ Scur) as [S1'| |] eqn:Et'; cbn [obind] in Hf;
    try discriminate.
  assert (S1' = S1) as -> by (apply (traverse_det E h x _ _ _ _ _ _ Et' Et)).
  destruct (traverse_begin_grows h x Scur B (S f) S1 Hc ltac:(nia) Et) as [C1 G1].
  pose proof (cw_next_rank (e_F E) (e_n E) h x Hq1 Hn Hx) as Hnext.
  assert (forall a b, 0 < sp_cmp a b (e_qmax E) -> sp_cmp a b (e_qmax E) = 1) as One.
  { intros a b. unfold sp_cmp.
    destruct (sp_cmp_from_values a b (Z.to_nat (e_qmax E - 2)) 2) as [->|[->| ->]]; lia. }
  destruct (cw_next (e_F E) (e_n E) h x) as [[|] x']; cbn [andb] in H.
  - destruct Hnext as [Hx' Hr'].
    assert (codes x' = codes x - 1) as Ec by (unfold codes; lia).
    destruct (Z.leb_spec (sp_cmp Sbest S1 (e_qmax E)) 0) as [L|G].
    + apply (IH x' S1 (B + around) S' Hx' C1 ltac:(rewrite Ec; nia) H Hw f' Sf Hf).
    + injection H as <-.
      pose proof (sweep_grows h f' x' S1 (B + around) Sf Hx' C1
                    ltac:(rewrite Ec; nia) Hf) as G2.
      unfold sp_cmp. apply (sp_cmp_from_grows Sbest S1 Sf); [exact G2|].
      apply One, G.
  - injection H as <-. injection Hf as <-. apply One, Hw.
Qed.

End Sweep.

Lemma sweep_terminates (E : env) (h : list Z) :
  1 <= gf_size_minus_1 (e_F E) < 2 ^ 32 ->
  1 <= e_n E < 2 ^ 64 -> 2 <= e_q E < 2 ^ 64 ->
  forall fuel x Scur,
    cw_digits (e_F E) (e_n E) x ->
    length Scur = Z.to_nat (e_qmax E) ->
    (gf_size_minus_1 (e_F E) + 1) ^ (e_n E - 1) - cw_rank (e_F E) (e_n E) x
      + e_q E ^ (e_n E - 1) <= Z.of_nat fuel ->
    exists S', sweep fuel E h x Scur = Done S' /\ length S' = length Scur.
Proof.
  intros Hq1 Hn Hq. induction fuel as [|f IH]; intros x Scur Hx Hl Hf.
  - pose proof (cw_rank_bound (e_F E) (e_n E) x ltac:(lia) ltac:(lia) Hx).
    assert (0 < e_q E ^ (e_n E - 1)) by (apply Z.pow_pos_nonneg; lia). lia.
  - pose proof (cw_rank_bound (e_F E) (e_n E) x ltac:(lia) ltac:(lia) Hx) as Hb.
    assert (0 < e_q E ^ (e_n E - 1)) as Hp by (apply Z.pow_pos_nonneg; lia).
    cbn [sweep].
    pose proof (odometer_begin_inv (e_n E) (e_q E) Hn ltac:(lia)) as Hinv.
    pose proof (odometer_left_bound (e_n E) (e_q E) _ ltac:(lia) ltac:(lia) Hinv) as Hlb.
    destruct (traverse_terminates E h x Hn Hq (S f) _ Scur Hinv ltac:(lia) Hl)
      as (S1 & -> & L1).
    cbn [obind].
    pose proof (cw_next_rank (e_F E) (e_n E) h x Hq1 Hn Hx) as Hnext.
    destruct (cw_next (e_F E) (e_n E) h x) as [[|] x'].
    + destruct Hnext as [Hx' Hr].
      destruct (IH x' S1 Hx' ltac:(lia) ltac:(lia)) as (S' & -> & L').
      exists S'. split; [reflexivity | lia].
    + exists S1. split; [reflexivity | exact L1].
Qed.

Lemma cells_below_alloc (n : Z) : cells_below 0 (alloc n).
Proof. intros k. rewrite get_alloc. lia. Qed.

(** The spectrum that the loop over the codewords leaves, against the one over the whole coset. *)
Lemma codewords_sweep (E : env) (fuel : nat) (h Sbest : list Z) :
  1 <= gf_size_minus_1 (e_F E) < 2 ^ 32 ->
  1 <= e_n E < 2 ^ 64 -> 2 <= e_q E < 2 ^ 64 ->
  (gf_size_minus_1 (e_F E) + 1) ^ (e_n E - 1) * e_q E ^ (e_n E - 1) < 2 ^ 64 ->
  match codewords fuel E h (cw_begin (e_n E) h (alloc (e_n E))) Sbest
                  (alloc (e_qmax E)) with
  | Done S' =>
      exists f Sf,
        sweep f E h (cw_begin (e_n E) h (alloc (e_n E))) (alloc (e_qmax E)) = Done Sf /\
        (sp_cmp Sbest S' (e_qmax E) <= 0 -> S' = Sf) /\
        (0 < sp_cmp Sbest S' (e_qmax E) -> sp_cmp Sbest Sf (e_qmax E) = 1)
  | _ => True
  end.
Proof.
  intros Hq1 Hn Hq Hb.
  destruct (codewords fuel E h _ Sbest (alloc (e_qmax E))) as [S'| |] eqn:Ec;
    [|exact I|exact I].
  destruct (cw_begin_digits (e_F E) (e_n E) h ltac:(lia) ltac:(lia)) as [Hd Hr].
  assert (0 < (gf_size_minus_1 (e_F E) + 1) ^ (e_n E - 1)) as Hp1
    by (apply Z.pow_pos_nonneg; lia).
  assert (0 < e_q E ^ (e_n E - 1)) as Hp2 by (apply Z.pow_pos_nonneg; lia).
  destruct (sweep_terminates E h Hq1 Hn Hq
              (Z.to_nat ((gf_size_minus_1 (e_F E) + 1) ^ (e_n E - 1)
                         + e_q E ^ (e_n E - 1)))
              _ (alloc (e_qmax E)) Hd (length_alloc _) ltac:(lia))
    as (Sf & Es & _).
  eexists _, Sf. split; [exact Es|]. split.
  - intros Hk.
    pose proof (codewords_kept E h Sbest fuel _ _ S' Ec Hk) as Hs.
    apply (sweep_det E h _ _ _ _ _ _ Hs Es).
  - intros Hw.
    assert (0 + ((gf_size_minus_1 (e_F E) + 1) ^ (e_n E - 1)
                 - cw_rank (e_F E) (e_n E) (cw_begin (e_n E) h (alloc (e_n E))))
                * e_q E ^ (e_n E - 1) < 2 ^ 64) as HB by (rewrite Hr; lia).
    apply (codewords_left E Hq1 Hn Hq h Sbest fuel _ _ 0 S' Hd
             (cells_below_alloc _) HB Ec Hw _ Sf Es).
Qed.

(** X21: the loop over the codewords of a parity ends, and it may leave
    early, once the spectrum is worse than the best one.  When the spectrum
    it leaves passes the test that follows, every codeword of the coset has
    been gone through; when it does not, the spectrum over the whole coset
    is worse than the best one as well: leaving early never drops a parity
    that would have been kept. *)
Theorem codewords_exit (E : env) (h Sbest : list Z) :
  1 <= gf_size_minus_1 (e_F E) < 2 ^ 32 ->
  1 <= e_n E < 2 ^ 64 -> 2 <= e_q E < 2 ^ 64 ->
  (gf_size_minus_1 (e_F E) + 1) ^ (e_n E - 1) * e_q E ^ (e_n E - 1) < 2 ^ 64 ->
  exists Sf,
    (exists f, sweep f E h (cw_begin (e_n E) h (alloc (e_n E)))
                     (alloc (e_qmax E)) = Done Sf) /\
    forall fuel,
      (gf_size_minus_1 (e_F E) + 1) ^ (e_n E - 1) + e_q E ^ (e_n E - 1)
        <= Z.of_nat fuel ->
      exists S',
        codewords fuel E h (cw_begin (e_n E) h (alloc (e_n E))) Sbest
                  (alloc (e_qmax E)) = Done S' /\
        (sp_cmp Sbest S' (e_qmax E) <= 0 -> S' = Sf) /\
        (0 < sp_cmp Sbest S' (e_qmax E) -> sp_cmp Sbest Sf (e_qmax E) = 1).
Proof.
  intros Hq1 Hn Hq Hb.
  destruct (cw_begin_digits (e_F E) (e_n E) h ltac:(lia) ltac:(lia)) as [Hd Hr].
  assert (0 < (gf_size_minus_1 (e_F E) + 1) ^ (e_n E - 1)) as Hp1
    by (apply Z.pow_pos_nonneg; lia).
  assert (0 < e_q E ^ (e_n E - 1)) as Hp2 by (apply Z.pow_pos_nonneg; lia).
  destruct (sweep_terminates E h Hq1 Hn Hq
              (Z.to_nat ((gf_size_minus_1 (e_F E) + 1) ^ (e_n E - 1)
                         + e_q E ^ (e_n E - 1)))
              _ (alloc (e_qmax E)) Hd (length_alloc _) ltac:(lia))
    as (Sf & Es & _).
  exists Sf. split; [eexists; exact Es|]. intros fuel Hf.
  destruct (codewords_terminates E h Sbest Hq1 Hn Hq fuel _ (alloc (e_qmax E))
              Hd (length_alloc _) ltac:(lia)) as (S' & Ec & _).
  exists S'. split; [exact Ec|].
  pose proof (codewords_sweep E fuel h Sbest Hq1 Hn Hq Hb) as Hc.
  rewrite Ec in Hc. destruct Hc as (f' & Sf' & Es' & K & W).
  assert (Sf' = Sf) as -> by exact (sweep_det E h _ _ _ _ _ _ Es' Es).
  split; [exact K | exact W].
Qed.

Lemma codewords_exit_witness :
  let E := make_env GF4 3 8 square [0; 1; 2; 3] in
  exists Sf,
    (exists f, sweep f E [2; 1; 0] (cw_begin 3 [2; 1; 0] (alloc 3)) (alloc 8)
               = Done Sf) /\
    forall fuel, 32 <= Z.of_nat fuel ->
      exists S',
        codewords fuel E [2; 1; 0] (cw_begin 3 [2; 1; 0] (alloc 3)) (alloc 8)
                  (alloc 8) = Done S' /\
        (sp_cmp (alloc 8) S' 8 <= 0 -> S' = Sf) /\
        (0 < sp_cmp (alloc 8) S' 8 -> sp_cmp (alloc 8) Sf 8 = 1).
Proof.
  apply (codewords_exit (make_env GF4 3 8 square [0; 1; 2; 3]) [2; 1; 0] (alloc 8)).
  - simpl. lia.
  - simpl. lia.
  - simpl. lia.
  - simpl. lia.
Defined.

Lemma best_of_app (Sbest : list Z) (l1 l2 : list report) :
  best_of Sbest (l1 ++ l2) = best_of (best_of Sbest l1) l2.
Proof. unfold best_of. apply foldl_app. Qed.

Lemma sp_cmp_le_trans (a b c : list Z) (qmax : Z) :
  0 <= sp_cmp a b qmax -> 0 <= sp_cmp b c qmax -> 0 <= sp_cmp a c qmax.
Proof. unfold sp_cmp. apply sp_cmp_from_le_trans. Qed.

Section Best.

Variable E : env.
Hypothesis Hq1 : 1 <= gf_size_minus_1 (e_F E) < 2 ^ 32.
Hypothesis Hn : 1 <= e_n E < 2 ^ 64.
Hypothesis Hq : 2 <= e_q E < 2 ^ 64.
Hypothesis Hb :
  (gf_size_minus_1 (e_F E) + 1) ^ (e_n E - 1) * e_q E ^ (e_n E - 1) < 2 ^ 64.

(** The spectrum [Sf] is that of the parity [h] over its whole coset. *)
Let whole (h Sf : list Z) : Prop :=
  exists f, sweep f E h (cw_begin (e_n E) h (alloc (e_n E)))
                  (alloc (e_qmax E)) = Done Sf.

Lemma parities_best :
  forall fuel h Sbest log0 log,
    parities fuel E h Sbest log0 = Done log ->
    exists log1, log = log0 ++ log1 /\
      0 <= sp_cmp (best_of Sbest log1) Sbest (e_qmax E) /\
      forall r, r ∈ log1 ->
        exists Sf, whole (r_h r) Sf /\
          (r_kept r = true -> r_S r = Sf) /\
          0 <= sp_cmp (best_of Sbest log1) Sf (e_qmax E).
Proof.
  induction fuel as [|f IH]; intros h Sbest log0 log H; [discriminate|].
  cbn [parities] in H.
  pose proof (codewords_sweep E (S f) h Sbest Hq1 Hn Hq Hb) as Hc.
  destruct (codewords (S f) E h _ Sbest (alloc (e_qmax E))) as [S1| |];
    cbn [obind] in H; try discriminate.
  destruct Hc as (f1 & Sf & Es & Hk & Hw).
  set (kept := sp_cmp Sbest S1 (e_qmax E) <=? 0) in *.
  set (Sbest' := if kept then S1 else Sbest) in *.
  assert (0 <= sp_cmp Sbest' Sbest (e_qmax E)) as B1.
  { unfold Sbest', kept. destruct (Z.leb_spec (sp_cmp Sbest S1 (e_qmax E)) 0) as [L|G].
    - unfold sp_cmp in *. rewrite sp_cmp_from_opp. lia.
    - unfold sp_cmp. rewrite sp_cmp_from_refl. lia. }
  assert (0 <= sp_cmp Sbest' Sf (e_qmax E)) as A1.
  { unfold Sbest', kept. destruct (Z.leb_spec (sp_cmp Sbest S1 (e_qmax E)) 0) as [L|G].
    - rewrite (Hk L). unfold sp_cmp. rewrite sp_cmp_from_refl. lia.
    - rewrite (Hw G). lia. }
  assert (kept = true -> S1 = Sf) as K1.
  { unfold kept. intros Hkept. apply Z.leb_le in Hkept. apply Hk, Hkept. }
  destruct (chk_next (e_F E) (e_n E) h) as [h'|].
  - destruct (IH h' Sbest' _ log H) as (log1 & El & B2 & R2).
    exists (Report h S1 kept :: log1). split.
    { rewrite El, <- app_assoc. reflexivity. }
    assert (best_of Sbest (Report h S1 kept :: log1) = best_of Sbest' log1) as Eb
      by reflexivity.
    rewrite Eb. split; [apply (sp_cmp_le_trans _ Sbest'); assumption|].
    intros r Hr. apply elem_of_cons in Hr. destruct Hr as [->|Hr].
    + exists Sf. split; [exists f1; exact Es|]. split; [exact K1|].
      apply (sp_cmp_le_trans _ Sbest'); assumption.
    + apply R2, Hr.
  - injection H as <-. exists [Report h S1 kept]. split; [reflexivity|].
    assert (best_of Sbest [Report h S1 kept] = Sbest') as Eb by reflexivity.
    rewrite Eb. split; [exact B1|].
    intros r Hr. apply list_elem_of_singleton in Hr. subst r.
    exists Sf. split; [exists f1; exact Es|]. split; [exact K1 | exact A1].
Qed.

End Best.

(** X22: the loop over the parities ends, and when it has gone through
    them the spectrum that the search holds as the best (the last one kept,
    or the one it started with) is at most, in the order of [sp_cmp], the
    spectrum of every parity over its whole coset; and the spectrum of a
    parity that was kept is the one over its whole coset. *)
Theorem parities_keep_best (E : env) (fuel : nat) (h Sbest : list Z) :
  1 <= e_n E <= gf_size_minus_1 (e_F E) -> gf_size_minus_1 (e_F E) < 2 ^ 32 ->
  2 <= e_q E < 2 ^ 64 ->
  (gf_size_minus_1 (e_F E) + 1) ^ (e_n E - 1) * e_q E ^ (e_n E - 1) < 2 ^ 64 ->
  chk_state (e_F E) (e_n E) h ->
  chk_left (e_F E) (e_n E) h + 1
    + (gf_size_minus_1 (e_F E) + 1) ^ (e_n E - 1) + e_q E ^ (e_n E - 1)
    <= Z.of_nat fuel ->
  exists log,
    parities fuel E h Sbest [] = Done log /\
    0 <= sp_cmp (best_of Sbest log) Sbest (e_qmax E) /\
    forall r, r ∈ log ->
      exists f Sf,
        sweep f E (r_h r) (cw_begin (e_n E) (r_h r) (alloc (e_n E)))
              (alloc (e_qmax E)) = Done Sf /\
        (r_kept r = true -> r_S r = Sf) /\
        0 <= sp_cmp (best_of Sbest log) Sf (e_qmax E).
Proof.
  intros Hn Hq1 Hq Hb Hst Hf.
  destruct (parities_terminates E Hn Hq1 Hq fuel h Sbest [] Hst Hf) as [log Ep].
  exists log. split; [exact Ep|].
  destruct (parities_best E ltac:(lia) ltac:(lia) Hq Hb fuel h Sbest [] log Ep)
    as (log1 & El & B & R).
  simpl in El. subst log1. split; [exact B|].
  intros r Hr. destruct (R r Hr) as (Sf & (f & Es) & K & A).
  exists f, Sf. split; [exact Es|]. split; [exact K | exact A].
Qed.

Lemma parities_keep_best_witness :
  let E := make_env GF4 3 8 square [0; 1; 2; 3] in
  exists log,
    parities 48 E (chk_begin 3 (alloc 3)) (alloc 8) [] = Done log /\
    0 <= sp_cmp (best_of (alloc 8) log) (alloc 8) 8 /\
    forall r, r ∈ log ->
      exists f Sf,
        sweep f E (r_h r) (cw_begin 3 (r_h r) (alloc 3)) (alloc 8) = Done Sf /\
        (r_kept r = true -> r_S r = Sf) /\
        0 <= sp_cmp (best_of (alloc 8) log) Sf 8.
Proof.
  apply (parities_keep_best (make_env GF4 3 8 square [0; 1; 2; 3]) 48
           (chk_begin 3 (alloc 3)) (alloc 8)).
  - simpl. lia.
  - simpl. lia.
  - simpl. lia.
  - simpl. lia.
  - apply (chk_begin_state GF4 3); simpl; lia.
  - vm_compute. discriminate.
Defined.

(** ** The neighbours *)

Lemma quadrance_sum_frame (E : env) (x y y' : list Z) (m : Z) :
  (forall k, 0 <= k < m -> y.[k] = y'.[k]) ->
  quadrance_sum E x y m = quadrance_sum E x y' m.
Proof.
  intros H. unfold quadrance_sum, for_. apply for_loop_ext.
  intros i s Hi. rewrite H by lia. reflexivity.
Qed.

Lemma quadrance_sum_succ (E : env) (x y : list Z) (i : Z) :
  0 <= i ->
  quadrance_sum E x y (i + 1)
  = quadrance_sum E x y i + (e_Q E).[u64 (x.[i] * e_q E + y.[i])].
Proof. intros Hi. unfold quadrance_sum. rewrite for_snoc by exact Hi. reflexivity. Qed.

Lemma u32_add_l (a b : Z) : u32 (u32 a + b) = u32 (a + b).
Proof. unfold u32. apply Zplus_mod_idemp_l. Qed.

(** What the head of the body of [for (;;)] computes. *)
Lemma neighbour_spec (E : env) (h x a : list Z) :
  1 <= e_n E < 2 ^ 64 ->
  let y := (neighbour E h x a).1 in
  length y = Z.to_nat (e_n E) /\
  (forall i, 0 <= i < e_n E - 1 ->
     y.[i] = (e_V E).[u64 (x.[i] * e_q E + a.[i])]) /\
  y.[e_n E - 1] = gf_accmul_all (e_F E) (e_n E - 1) h y /\
  (neighbour E h x a).2 = u32 (quadrance_sum E x y (e_n E)).
Proof.
  intros Hn. unfold neighbour. rewrite !(u64_small (e_n E - 1)) by lia.
  set (n1 := e_n E - 1) in *.
  pose proof (for_ind
    (fun i (st : list Z * Z) =>
       length st.1 = Z.to_nat (e_n E) /\
       (forall k, 0 <= k < i -> st.1.[k] = (e_V E).[u64 (x.[k] * e_q E + a.[k])]) /\
       st.1.[n1] = gf_accmul_all (e_F E) i h st.1 /\
       st.2 = u32 (quadrance_sum E x st.1 i))
    (fun i '(y, quad) =>
       let y := set y i (e_V E).[u64 (x.[i] * e_q E + a.[i])] in
       let quad := u32 (quad + (e_Q E).[u64 (x.[i] * e_q E + y.[i])]) in
       let y := set y n1 (gf_accmul (e_F E) y.[n1] h.[i] y.[i]) in
       (y, quad))
    0 n1 (set (alloc (e_n E)) n1 gf_zero, 0) ltac:(lia)) as H.
  destruct (for_ 0 n1 _ _) as [y quad]. cbn [fst snd] in H.
  destruct H as (Ly & Hy & Hlast & Hquad).
  - cbn [fst snd]. split; [rewrite length_set; apply length_alloc|].
    split; [intros; lia|]. split.
    + rewrite get_set_eq by (rewrite length_alloc; lia).
      unfold gf_accmul_all. rewrite for_empty by lia. reflexivity.
    + unfold quadrance_sum. rewrite for_empty by lia. reflexivity.
  - intros i [y' q'] Hi (Ly & Hy & Hlast & Hq'). cbn [fst snd] in *.
    set (v := (e_V E).[u64 (x.[i] * e_q E + a.[i])]).
    rewrite (get_set_eq y' i) by lia.
    rewrite (get_set_ne y' i n1) by lia.
    set (y2 := set (set y' i v) n1 (gf_accmul (e_F E) y'.[n1] h.[i] v)).
    assert (forall k, 0 <= k < i -> y2.[k] = y'.[k]) as Hfr.
    { intros k Hk. unfold y2. rewrite !get_set_ne by lia. reflexivity. }
    assert (y2.[i] = v) as Hi2.
    { unfold y2. rewrite get_set_ne by lia. apply get_set_eq. lia. }
    split; [unfold y2; rewrite !length_set; exact Ly|]. split; [|split].
    + intros k Hk. destruct (Z.eq_dec k i) as [->|N]; [exact Hi2|].
      rewrite Hfr by lia. apply Hy. lia.
    + unfold y2 at 1. rewrite get_set_eq by (rewrite length_set; lia).
      rewrite gf_accmul_all_succ by lia. rewrite Hi2.
      rewrite (gf_accmul_all_frame _ i h y2 y') by exact Hfr.
      rewrite Hlast. reflexivity.
    + rewrite quadrance_sum_succ by lia. rewrite Hi2.
      rewrite (quadrance_sum_frame E x y2 y') by exact Hfr.
      rewrite Hq'. apply u32_add_l.
  - cbn [fst snd] in *. split; [exact Ly|]. split; [exact Hy|].
    split; [exact Hlast|].
    replace (e_n E) with (n1 + 1) by lia.
    rewrite quadrance_sum_succ by lia. rewrite Hquad. apply u32_add_l.
Qed.

(** The neighbour is a codeword, for both checks. *)
Lemma neighbour_checks (E : env) (h x a : list Z) :
  1 <= e_n E < 2 ^ 64 ->
  let y := (neighbour E h x a).1 in
  length y = Z.to_nat (e_n E) /\
  (forall i, 0 <= i < e_n E - 1 ->
     y.[i] = (e_V E).[u64 (x.[i] * e_q E + a.[i])]) /\
  chk_valid (e_F E) (e_n E) h y = true /\
  (neighbour E h x a).2 = u32 (quadrance_sum E x y (e_n E)) /\
  (forall m, gf_tables (e_F E) m -> 1 <= m <= 32 -> h.[e_n E - 1] = 0 ->
     QminVariant.chk_valid (e_F E) (e_n E) h y = true).
Proof.
  intros Hn y. destruct (neighbour_spec E h x a Hn) as (L & Hy & Hlast & Hq).
  fold y in L, Hy, Hlast, Hq.
  split; [exact L|]. split; [exact Hy|]. split; [|split; [exact Hq|]].
  - unfold chk_valid. rewrite u64_small by lia. apply Z.eqb_eq.
    symmetry. exact Hlast.
  - intros m Ht Hm Hh. unfold QminVariant.chk_valid. apply Z.eqb_eq.
    replace (e_n E) with (e_n E - 1 + 1) at 1 by lia.
    rewrite gf_accmul_all_succ by lia. rewrite <- Hlast, Hh.
    apply (gf_accmul_self _ m); [exact Ht | exact Hm|].
    rewrite Hlast. apply (gf_accmul_all_range _ m); [exact Ht | lia | lia].
Qed.

(** X23: the neighbour [y] that the traversal builds for the increments [a]
    takes, at every coordinate but the last, the element of rank [a[i]] in
    the row of [x[i]]; its last coordinate is the one that makes it a
    codeword of [h], and the quadrance that is recorded is the sum of the
    quadrances of its [n] coordinates to those of [x], on 32 bits.  Over a
    field and with the exponent 0 last in [h], the check of the variant with
    [qmin] holds of it as well. *)
Theorem neighbour_codeword (E : env) (h x a : list Z) :
  1 <= e_n E < 2 ^ 64 ->
  let y := (neighbour E h x a).1 in
  length y = Z.to_nat (e_n E) /\
  (forall i, 0 <= i < e_n E - 1 ->
     y.[i] = (e_V E).[u64 (x.[i] * e_q E + a.[i])]) /\
  chk_valid (e_F E) (e_n E) h y = true /\
  (neighbour E h x a).2 = u32 (quadrance_sum E x y (e_n E)) /\
  (forall m, gf_tables (e_F E) m -> 1 <= m <= 32 -> h.[e_n E - 1] = 0 ->
     QminVariant.chk_valid (e_F E) (e_n E) h y = true).
Proof. exact (neighbour_checks E h x a). Qed.

Lemma neighbour_codeword_witness :
  let E := checkerboard_env in
  let y := (neighbour E [3; 2; 1; 0] [0; 0; 0; 0] [4; 0; 1; 0]).1 in
  length y = Z.to_nat (e_n E) /\
  (forall i, 0 <= i < e_n E - 1 ->
     y.[i] = (e_V E).[u64 ([0; 0; 0; 0].[i] * e_q E + [4; 0; 1; 0].[i])]) /\
  chk_valid (e_F E) (e_n E) [3; 2; 1; 0] y = true /\
  (neighbour E [3; 2; 1; 0] [0; 0; 0; 0] [4; 0; 1; 0]).2
  = u32 (quadrance_sum E [0; 0; 0; 0] y (e_n E)) /\
  (forall m, gf_tables (e_F E) m -> 1 <= m <= 32 -> [3; 2; 1; 0].[e_n E - 1] = 0 ->
     QminVariant.chk_valid (e_F E) (e_n E) [3; 2; 1; 0] y = true).
Proof.
  apply (neighbour_codeword checkerboard_env [3; 2; 1; 0] [0; 0; 0; 0] [4; 0; 1; 0]).
  simpl. lia.
Defined.

(** ** The generator of combinations *)

Lemma binom_0_r (n : nat) : binom n 0 = 1.
Proof. destruct n; reflexivity. Qed.

Lemma binom_small (n : nat) : forall k, (n < k)%nat -> binom n k = 0.
Proof.
  induction n as [|n IH]; intros [|k] H; try lia; [reflexivity|].
  cbn [binom]. rewrite !IH by lia. reflexivity.
Qed.

Lemma binom_nonneg (n : nat) : forall k, 0 <= binom n k.
Proof.
  induction n as [|n IH]; intros [|k]; cbn [binom]; try lia.
  pose proof (IH k). pose proof (IH (S k)). lia.
Qed.

Lemma binom_succ (n : nat) : forall k, binom n k <= binom (S n) k.
Proof.
  intros [|k]; [rewrite !binom_0_r; lia|].
  cbn [binom]. pose proof (binom_nonneg n k). lia.
Qed.

Lemma binom_mono (n n' k : nat) : (n <= n')%nat -> binom n k <= binom n' k.
Proof.
  induction 1 as [|m _ IH]; [lia|]. pose proof (binom_succ m k). lia.
Qed.

Lemma colex_frame (a b : list Z) (cnt : nat) :
  forall i, (forall t, i <= t < i + Z.of_nat cnt -> a.[t] = b.[t]) ->
            colex a i cnt = colex b i cnt.
Proof.
  induction cnt as [|c IH]; intros i H; cbn [colex]; [reflexivity|].
  rewrite (H i) by lia. rewrite (IH (i + 1)); [reflexivity|].
  intros t Ht. apply H. lia.
Qed.

Lemma colex_app (a : list Z) (c1 c2 : nat) :
  forall i, colex a i (c1 + c2) = colex a i c1 + colex a (i + Z.of_nat c1) c2.
Proof.
  induction c1 as [|c IH]; intros i.
  - cbn [colex Nat.add]. rewrite Z.add_0_r. lia.
  - cbn [colex Nat.add]. rewrite IH.
    replace (i + 1 + Z.of_nat c) with (i + Z.of_nat (S c)) by lia. lia.
Qed.

Lemma colex_iota (a : list Z) (cnt : nat) :
  forall i, 0 <= i -> (forall t, i <= t < i + Z.of_nat cnt -> a.[t] = t) ->
            colex a i cnt = 0.
Proof.
  induction cnt as [|c IH]; intros i Hi H; cbn [colex]; [reflexivity|].
  rewrite (H i) by lia. rewrite binom_small by lia.
  rewrite IH; [reflexivity | lia |]. intros t Ht. apply H. lia.
Qed.

(** Over a run of consecutive values the sum folds into one binomial. *)
Lemma colex_run (a : list Z) (a0 : Z) (cnt : nat) :
  0 <= a0 -> (forall t, 0 <= t < Z.of_nat cnt -> a.[t] = a0 + t) ->
  colex a 0 cnt = binom (Z.to_nat (a0 + Z.of_nat cnt)) cnt - 1.
Proof.
  intros H0. induction cnt as [|c IH]; intros H.
  - cbn [colex]. rewrite binom_0_r. lia.
  - replace (S c) with (c + 1)%nat at 1 by lia. rewrite colex_app.
    rewrite IH by (intros t Ht; apply H; lia).
    cbn [colex]. rewrite H by lia. rewrite Z.add_0_l.
    replace (Z.to_nat (a0 + Z.of_nat (S c))) with (S (Z.to_nat (a0 + Z.of_nat c)))
      by lia.
    replace (Z.to_nat (Z.of_nat c + 1)) with (S c) by lia.
    cbn [binom]. lia.
Qed.

Lemma increasing_ge (a : list Z) (m : Z) :
  (forall t, 0 <= t < m -> a.[t] < a.[t + 1]) ->
  forall i, 0 <= i <= m -> a.[0] + i <= a.[i].
Proof.
  intros H i Hi. rewrite <- (Z2Nat.id i) in * by lia.
  induction (Z.to_nat i) as [|c IH]; [change (Z.of_nat 0) with 0; lia|].
  pose proof (H (Z.of_nat c) ltac:(lia)) as Hs.
  replace (Z.of_nat c + 1) with (Z.of_nat (S c)) in Hs by lia.
  specialize (IH ltac:(lia)). lia.
Qed.

(** The place of an increasing array is below the binomial of its last value
    plus one. *)
Lemma colex_bound (a : list Z) (cnt : nat) :
  0 <= a.[0] -> (forall t, 0 <= t < Z.of_nat cnt - 1 -> a.[t] < a.[t + 1]) ->
  (1 <= cnt)%nat ->
  0 <= colex a 0 cnt <= binom (Z.to_nat (a.[Z.of_nat cnt - 1] + 1)) cnt - 1.
Proof.
  intros H0. induction cnt as [|c IH]; intros H Hc; [lia|].
  replace (S c) with (c + 1)%nat at 1 2 by lia. rewrite colex_app.
  cbn [colex]. rewrite Z.add_0_l.
  replace (Z.of_nat (S c) - 1) with (Z.of_nat c) by lia.
  replace (Z.to_nat (Z.of_nat c + 1)) with (S c) by lia.
  pose proof (binom_nonneg (Z.to_nat a.[Z.of_nat c]) (S c)) as Hb.
  destruct c as [|c].
  - change (Z.of_nat 0) with 0 in *. cbn [colex].
    replace (Z.to_nat (a.[0] + 1)) with (S (Z.to_nat a.[0])) by lia.
    cbn [binom]. rewrite binom_0_r. lia.
  - specialize (IH ltac:(intros t Ht; apply H; lia) ltac:(lia)).
    replace (Z.of_nat (S c) - 1) with (Z.of_nat c) in IH by lia.
    pose proof (H (Z.of_nat c) ltac:(lia)) as Hlt.
    replace (Z.of_nat c + 1) with (Z.of_nat (S c)) in Hlt by lia.
    pose proof (increasing_ge a (Z.of_nat (S (S c)) - 1)
                  ltac:(intros t Ht; apply H; lia) (Z.of_nat c) ltac:(lia)) as Hnn.
    pose proof (binom_mono (Z.to_nat (a.[Z.of_nat c] + 1))
                  (Z.to_nat a.[Z.of_nat (S c)]) (S c) ltac:(lia)) as Hm.
    replace (Z.to_nat (a.[Z.of_nat (S c)] + 1))
      with (S (Z.to_nat a.[Z.of_nat (S c)])) by lia.
    cbn [binom] in *. lia.
Qed.

Lemma comb_scan_spec (k : Z) (a : list Z) :
  (forall t, 0 <= t < k -> 0 <= a.[t] < 2 ^ 32 - 1) ->
  forall cnt i, 0 <= i -> i + Z.of_nat cnt = k - 1 ->
    (forall t, 0 <= t < i -> a.[t] + 1 = a.[t + 1]) ->
    let r := comb_scan cnt k a i in
    i <= r <= k - 1 /\
    (forall t, 0 <= t < r -> a.[t] + 1 = a.[t + 1]) /\
    (r < k - 1 -> a.[r] + 1 <> a.[r + 1]).
Proof.
  intros Ha. induction cnt as [|c IH]; intros i Hi Hc Hrun; cbn [comb_scan].
  - cbv zeta. split; [lia|]. split; [exact Hrun | lia].
  - destruct (Z.ltb_spec i (k - 1)) as [Lt|Ge]; [|lia].
    rewrite u32_small by (pose proof (Ha i ltac:(lia)); lia).
    destruct (Z.eqb_spec (a.[i] + 1) a.[i + 1]) as [Eq|Ne].
    + destruct (IH (i + 1) ltac:(lia) ltac:(lia)) as (A & B & C).
      { intros t Ht. destruct (Z.eq_dec t i) as [->|]; [exact Eq | apply Hrun; lia]. }
      cbv zeta. split; [lia|]. split; [exact B | exact C].
    + cbv zeta. split; [lia|]. split; [exact Hrun|]. intros _. exact Ne.
Qed.

Lemma comb_reset_spec (cnt : nat) :
  forall i a, i + 1 = Z.of_nat cnt -> i < Z.of_nat (length a) -> i < 2 ^ 32 ->
    let a' := comb_reset cnt i a in
    length a' = length a /\
    (forall t, 0 <= t <= i -> a'.[t] = t) /\
    (forall t, i < t -> a'.[t] = a.[t]).
Proof.
  induction cnt as [|c IH]; intros i a Hi Hl Hb; cbn [comb_reset]; cbv zeta.
  - split; [reflexivity|]. split; [intros; lia | reflexivity].
  - destruct (Z.leb_spec 0 i) as [H0|]; [|lia].
    rewrite u32_small by lia.
    destruct (IH (i - 1) (set a i i) ltac:(lia)
                ltac:(rewrite length_set; lia) ltac:(lia)) as (L & A & B).
    split; [rewrite L; apply length_set|]. split.
    + intros t Ht. destruct (Z.eq_dec t i) as [->|].
      * rewrite B by lia. apply get_set_eq. lia.
      * apply A. lia.
    + intros t Ht. rewrite B by lia. apply get_set_ne; lia.
Qed.

Lemma comb_begin_spec (k : Z) :
  0 <= k < 2 ^ 32 ->
  length (comb_begin k) = Z.to_nat k /\
  forall t, 0 <= t < k -> (comb_begin k).[t] = t.
Proof.
  intros Hk. unfold comb_begin.
  pose proof (for_ind
    (fun i a => length a = Z.to_nat k /\ forall t, 0 <= t < i -> a.[t] = t)
    (fun i a => set a i (u32 i)) 0 k (alloc k) ltac:(lia)) as H.
  destruct H as (L & A).
  - split; [apply length_alloc | intros; lia].
  - intros i a Hi [L A]. split; [rewrite length_set; exact L|].
    intros t Ht. rewrite u32_small by lia.
    destruct (Z.eq_dec t i) as [->|]; [apply get_set_eq; lia|].
    rewrite get_set_ne by lia. apply A. lia.
  - split; [exact L | exact A].
Qed.

(** What the body of [for(;;)] does to an increasing array: it stops at the
    last one, and otherwise goes to the array one place further. *)
Lemma comb_next_spec (k n : Z) (a : list Z) :
  1 <= k <= n -> n < 2 ^ 32 -> comb_valid k n a ->
  match comb_next k n a with
  | None =>
      (forall t, 0 <= t < k -> a.[t] = n - k + t) /\
      colex a 0 (Z.to_nat k) = binom (Z.to_nat n) (Z.to_nat k) - 1
  | Some a' =>
      comb_valid k n a' /\
      colex a' 0 (Z.to_nat k) = colex a 0 (Z.to_nat k) + 1
  end.
Proof.
  intros Hk Hn (L & H0 & Hlast & Hinc).
  pose proof (increasing_ge a (k - 1) Hinc) as Hge.
  assert (forall t, 0 <= t <= k - 1 -> a.[t] + (k - 1 - t) <= a.[k - 1]) as Hle.
  { intros t Ht. replace t with (k - 1 - (k - 1 - t)) at 1 by lia.
    assert (0 <= k - 1 - t <= k - 1) as Hd by lia. revert Hd.
    generalize (k - 1 - t) as d. intros d Hd.
    rewrite <- (Z2Nat.id d) in * by lia.
    induction (Z.to_nat d) as [|c IH]; [change (Z.of_nat 0) with 0; rewrite Z.sub_0_r; lia|].
    specialize (IH ltac:(lia)).
    pose proof (Hinc (k - 1 - Z.of_nat (S c)) ltac:(lia)) as Hs.
    replace (k - 1 - Z.of_nat (S c) + 1) with (k - 1 - Z.of_nat c) in Hs by lia.
    lia. }
  assert (forall t, 0 <= t < k -> 0 <= a.[t] < 2 ^ 32 - 1) as Hrange.
  { intros t Ht. pose proof (Hge t ltac:(lia)). pose proof (Hle t ltac:(lia)). lia. }
  unfold comb_next.
  destruct (comb_scan_spec k a Hrange (Z.to_nat (k - 1)) 0 ltac:(lia) ltac:(lia)
              ltac:(intros; lia)) as (Hi & Hrun & Hstop).
  set (i := comb_scan (Z.to_nat (k - 1)) k a 0) in *. cbv zeta.
  assert (forall t, 0 <= t <= i -> a.[t] = a.[0] + t) as Hrun'.
  { intros t Ht. rewrite <- (Z2Nat.id t) in * by lia.
    induction (Z.to_nat t) as [|c IH]; [change (Z.of_nat 0) with 0; lia|].
    specialize (IH ltac:(lia)). pose proof (Hrun (Z.of_nat c) ltac:(lia)) as Hs.
    replace (Z.of_nat c + 1) with (Z.of_nat (S c)) in Hs by lia. lia. }
  rewrite (u32_small (n - 1)) by lia.
  assert (Z.to_nat k = (Z.to_nat (i + 1) + Z.to_nat (k - 1 - i))%nat) as Hsplit by lia.
  assert (colex a 0 (Z.to_nat (i + 1))
          = binom (Z.to_nat (a.[0] + (i + 1))) (Z.to_nat (i + 1)) - 1) as Hhead.
  { rewrite (colex_run a a.[0]) by (try lia; intros t Ht; apply Hrun'; lia).
    rewrite Z2Nat.id by lia. reflexivity. }
  destruct (Z.eqb_spec i (k - 1)) as [Ei|Ni];
    [destruct (Z.eqb_spec a.[i] (n - 1)) as [Ea|Na]|]; cbn [andb].
  - (* the last combination *)
    assert (a.[0] = n - k) as E0.
    { pose proof (Hrun' i ltac:(lia)). lia. }
    split; [intros t Ht; rewrite Hrun' by lia; lia|].
    rewrite Ei in Hhead. replace (k - 1 + 1) with k in Hhead by lia.
    rewrite Hhead. do 2 f_equal. lia.
  - (* the last cell grows *)
    rewrite (u32_small (a.[i] + 1)) by (pose proof (Hrange i ltac:(lia)); lia).
    destruct (comb_reset_spec (Z.to_nat i) (i - 1) (set a i (a.[i] + 1))
                ltac:(lia) ltac:(rewrite length_set; lia) ltac:(lia))
      as (L' & A & B).
    set (a' := comb_reset (Z.to_nat i) (i - 1) (set a i (a.[i] + 1))) in *.
    assert (a'.[i] = a.[i] + 1) as Ai
      by (rewrite B by lia; apply get_set_eq; lia).
    split.
    + split; [rewrite L', length_set; exact L|]. split; [|split].
      * destruct (Z.eq_dec i 0) as [E0|N0];
          [rewrite E0 in Ai; rewrite Ai; lia|].
        rewrite A by lia. lia.
      * rewrite <- Ei in Hlast |- *. rewrite Ai. lia.
      * intros t Ht. destruct (Z.eq_dec (t + 1) i) as [E1|N1].
        -- rewrite E1, Ai, A by lia. pose proof (Hge i ltac:(lia)). lia.
        -- rewrite !A by lia. lia.
    + rewrite Hsplit, !colex_app. rewrite !Z.add_0_l, !Z2Nat.id by lia.
      replace (Z.to_nat (k - 1 - i)) with O by lia. cbn [colex].
      rewrite Hhead.
      replace (Z.to_nat (i + 1)) with (Z.to_nat i + 1)%nat by lia.
      rewrite colex_app. rewrite (colex_iota a') by (try lia; intros t Ht; apply A; lia).
      cbn [colex]. rewrite !Z.add_0_l, Z2Nat.id, Ai by lia.
      rewrite (Hrun' i) by lia.
      replace (Z.to_nat i + 1)%nat with (Z.to_nat (i + 1)) by lia.
      replace (a.[0] + i + 1) with (a.[0] + (i + 1)) by lia. lia.
  - (* a cell before the last grows *)
    pose proof (Hstop ltac:(lia)) as Hne.
    pose proof (Hinc i ltac:(lia)) as Hlt.
    rewrite (u32_small (a.[i] + 1)) by (pose proof (Hrange i ltac:(lia)); lia).
    destruct (comb_reset_spec (Z.to_nat i) (i - 1) (set a i (a.[i] + 1))
                ltac:(lia) ltac:(rewrite length_set; lia) ltac:(lia))
      as (L' & A & B).
    set (a' := comb_reset (Z.to_nat i) (i - 1) (set a i (a.[i] + 1))) in *.
    assert (a'.[i] = a.[i] + 1) as Ai
      by (rewrite B by lia; apply get_set_eq; lia).
    assert (forall t, i < t -> a'.[t] = a.[t]) as Aup.
    { intros t Ht. rewrite B by lia. apply get_set_ne; lia. }
    split.
    + split; [rewrite L', length_set; exact L|]. split; [|split].
      * destruct (Z.eq_dec i 0) as [E0|N0];
          [rewrite E0 in Ai; rewrite Ai; lia|].
        rewrite A by lia. lia.
      * rewrite Aup by lia. exact Hlast.
      * intros t Ht. destruct (Z.lt_trichotomy t i) as [Lt | [-> | Gt]].
        -- destruct (Z.eq_dec (t + 1) i) as [E1|N1].
           ++ rewrite E1, Ai, A by lia. pose proof (Hge i ltac:(lia)). lia.
           ++ rewrite !A by lia. lia.
        -- rewrite Ai, Aup by lia. lia.
        -- rewrite !Aup by lia. apply Hinc. lia.
    + rewrite Hsplit, !colex_app. rewrite !Z.add_0_l, !Z2Nat.id by lia.
      rewrite (colex_frame a' a (Z.to_nat (k - 1 - i)) (i + 1))
        by (intros t Ht; apply Aup; lia).
      rewrite Hhead.
      replace (Z.to_nat (i + 1)) with (Z.to_nat i + 1)%nat by lia.
      rewrite colex_app. rewrite (colex_iota a') by (try lia; intros t Ht; apply A; lia).
      cbn [colex]. rewrite !Z.add_0_l, Z2Nat.id, Ai by lia.
      rewrite (Hrun' i) by lia.
      replace (Z.to_nat i + 1)%nat with (Z.to_nat (i + 1)) by lia.
      replace (a.[0] + i + 1) with (a.[0] + (i + 1)) by lia. lia.
Qed.

Lemma comb_valid_place (k n : Z) (a : list Z) :
  1 <= k <= n -> comb_valid k n a ->
  0 <= colex a 0 (Z.to_nat k) <= binom (Z.to_nat n) (Z.to_nat k) - 1.
Proof.
  intros Hk (L & H0 & Hlast & Hinc).
  pose proof (colex_bound a (Z.to_nat k) H0) as H.
  rewrite Z2Nat.id in H by lia. specialize (H Hinc ltac:(lia)).
  pose proof (increasing_ge a (k - 1) Hinc (k - 1) ltac:(lia)) as Hge.
  pose proof (binom_mono (Z.to_nat (a.[k - 1] + 1)) (Z.to_nat n) (Z.to_nat k)
                ltac:(lia)).
  lia.
Qed.

Lemma comb_lines_fuel (k n : Z) :
  forall f f' a L, comb_lines f k n a = Done L -> (f <= f')%nat ->
                   comb_lines f' k n a = Done L.
Proof.
  induction f as [|f IH]; intros f' a L H Hf; [discriminate|].
  destruct f' as [|f']; [lia|]. cbn [comb_lines] in *.
  destruct (comb_next k n a) as [a'|]; [|exact H].
  destruct (comb_lines f k n a') as [l| |] eqn:El; cbn [obind] in *;
    try discriminate.
  rewrite (IH f' a' l El ltac:(lia)). exact H.
Qed.

Lemma comb_lines_spec (k n : Z) :
  1 <= k <= n -> n < 2 ^ 32 ->
  forall fuel a,
    comb_valid k n a ->
    binom (Z.to_nat n) (Z.to_nat k) - colex a 0 (Z.to_nat k) <= Z.of_nat fuel ->
    exists L,
      comb_lines fuel k n a = Done L /\
      Z.of_nat (length L)
      = binom (Z.to_nat n) (Z.to_nat k) - colex a 0 (Z.to_nat k) /\
      forall j b, L !! j = Some b ->
        comb_valid k n b /\
        colex b 0 (Z.to_nat k) = colex a 0 (Z.to_nat k) + Z.of_nat j.
Proof.
  intros Hk Hn. induction fuel as [|f IH]; intros a Va Hf;
    pose proof (comb_valid_place k n a Hk Va) as Hp; [lia|].
  cbn [comb_lines]. pose proof (comb_next_spec k n a Hk Hn Va) as Hs.
  destruct (comb_next k n a) as [a'|].
  - destruct Hs as [Va' Hr].
    destruct (IH a' Va' ltac:(lia)) as (l & El & Ll & Hl).
    exists (a :: l). rewrite El. cbn [obind]. split; [reflexivity|].
    split; [cbn [length]; lia|].
    intros [|j] b Hj; cbn in Hj.
    + injection Hj as <-. split; [exact Va | lia].
    + destruct (Hl j b Hj) as [Vb Hb]. split; [exact Vb | lia].
  - destruct Hs as [_ Hr]. exists [a]. split; [reflexivity|].
    split; [cbn [length]; lia|].
    intros [|j] b Hj; cbn in Hj; [|discriminate].
    injection Hj as <-. split; [exact Va | lia].
Qed.

(** X24: for [1 <= k <= n], the third program prints as many lines as the
    binomial of [n] over [k], and then stops: each line is an increasing
    array of [k] elements of [0, n), the line of number [j] has the place
    [j] in the order of the sums of binomials, so that no line comes twice,
    and the last line is [n - k], ..., [n - 1]. *)
Theorem comb_lines_enumeration (k n : Z) :
  1 <= k <= n -> n < 2 ^ 31 ->
  exists L,
    (forall fuel, binom (Z.to_nat n) (Z.to_nat k) <= Z.of_nat fuel ->
       comb_lines fuel k n (comb_begin k) = Done L) /\
    Z.of_nat (length L) = binom (Z.to_nat n) (Z.to_nat k) /\
    (forall j b, L !! j = Some b ->
       comb_valid k n b /\ colex b 0 (Z.to_nat k) = Z.of_nat j) /\
    NoDup L /\
    (forall b, last L = Some b -> forall t, 0 <= t < k -> b.[t] = n - k + t).
Proof.
  intros Hk Hn.
  destruct (comb_begin_spec k ltac:(lia)) as [L0 A0].
  assert (comb_valid k n (comb_begin k)) as V0.
  { split; [exact L0|]. rewrite !A0 by lia. split; [lia|]. split; [lia|].
    intros i Hi. rewrite !A0 by lia. lia. }
  assert (colex (comb_begin k) 0 (Z.to_nat k) = 0) as R0.
  { apply colex_iota; [lia|]. intros t Ht. apply A0. lia. }
  pose proof (comb_valid_place k n _ Hk V0) as Hp.
  destruct (comb_lines_spec k n Hk ltac:(lia)
              (Z.to_nat (binom (Z.to_nat n) (Z.to_nat k))) _ V0 ltac:(lia))
    as (L & EL & LL & HL).
  rewrite R0 in *. exists L. split; [|split; [lia|split; [|split]]].
  - intros fuel Hf. apply (comb_lines_fuel k n _ fuel _ _ EL). lia.
  - intros j b Hj. destruct (HL j b Hj) as [Vb Hb]. split; [exact Vb | lia].
  - apply NoDup_alt. intros i j b Hi Hj.
    destruct (HL i b Hi) as [_ Ri]. destruct (HL j b Hj) as [_ Rj]. lia.
  - intros b Hb. rewrite last_lookup in Hb.
    destruct (HL _ b Hb) as [Vb Rb].
    pose proof (comb_next_spec k n b Hk ltac:(lia) Vb) as Hs.
    destruct (comb_next k n b) as [b'|]; [|apply Hs].
    destruct Hs as [Vb' Rb'].
    pose proof (comb_valid_place k n b' Hk Vb') as Hp'.
    assert (Z.of_nat (Nat.pred (length L)) = Z.of_nat (length L) - 1) by lia.
    lia.
Qed.

Lemma comb_lines_enumeration_witness :
  exists L,
    (forall fuel, binom (Z.to_nat 4) (Z.to_nat 2) <= Z.of_nat fuel ->
       comb_lines fuel 2 4 (comb_begin 2) = Done L) /\
    Z.of_nat (length L) = binom (Z.to_nat 4) (Z.to_nat 2) /\
    (forall j b, L !! j = Some b ->
       comb_valid 2 4 b /\ colex b 0 (Z.to_nat 2) = Z.of_nat j) /\
    NoDup L /\
    (forall b, last L = Some b -> forall t, 0 <= t < 2 -> b.[t] = 4 - 2 + t).
Proof. apply (comb_lines_enumeration 2 4); lia. Defined.

(** ** The distance between two codewords *)

Lemma lxor_cancel_l (a b c : Z) : Z.lxor a b = Z.lxor a c -> b = c.
Proof.
  intros H. apply (f_equal (Z.lxor a)) in H.
  rewrite <- !Z.lxor_assoc, Z.lxor_nilpotent, !Z.lxor_0_l in H. exact H.
Qed.

Lemma lxor_cancel_r (a b c : Z) : Z.lxor a c = Z.lxor b c -> a = b.
Proof.
  intros H. rewrite (Z.lxor_comm a), (Z.lxor_comm b) in H.
  exact (lxor_cancel_l _ _ _ H).
Qed.

(** The product by a power of [alpha] is one to one, as long as the sum of
    the exponent and of a logarithm fits in an [int]. *)
Lemma gf_accmul_inj (F : field) (m acc hlog a b : Z) :
  gf_tables F m -> 1 <= m <= 31 -> 0 <= hlog <= 2 ^ 31 - 2 ^ m + 1 ->
  0 <= a < 2 ^ m -> 0 <= b < 2 ^ m ->
  gf_accmul F acc hlog a = gf_accmul F acc hlog b -> a = b.
Proof.
  intros (Hs & Hs1 & Hexp & Hlog) Hm Hh Ha Hb.
  assert (2 ^ m <= 2 ^ 31) as Hp by (apply Z.pow_le_mono_r; lia).
  assert (2 <= 2 ^ m) as Hp2
    by (change 2 with (2 ^ 1) at 1; apply Z.pow_le_mono_r; lia).
  assert (forall c, 1 <= c < 2 ^ m ->
            gf_accmul F acc hlog c
            = Z.lxor acc (gf_exp F).[(hlog + (gf_log F).[c]) mod (2 ^ m - 1)])
    as Hc.
  { intros c Hc. unfold gf_accmul, gf_zero.
    destruct (Z.eqb_spec c 0) as [E|_]; [lia|].
    destruct (Hlog c Hc) as [Rc _].
    rewrite Hs1, (s32_small hlog), s32_small, u64_small by lia. reflexivity. }
  assert (forall c, 1 <= c < 2 ^ m ->
            let k := (hlog + (gf_log F).[c]) mod (2 ^ m - 1) in
            0 <= k < 2 ^ m - 1 /\ 1 <= (gf_exp F).[k] < 2 ^ m /\
            (gf_log F).[(gf_exp F).[k]] = k) as Hk.
  { intros c Hcr. cbv zeta.
    pose proof (Z.mod_pos_bound (hlog + (gf_log F).[c]) (2 ^ m - 1)
                  ltac:(lia)) as Hr.
    split; [exact Hr|]. apply Hexp. exact Hr. }
  assert (forall acc', gf_accmul F acc' hlog 0 = acc') as H0
    by (intros acc'; reflexivity).
  destruct (Z.eq_dec a 0) as [Ea|Na]; destruct (Z.eq_dec b 0) as [Eb|Nb].
  - lia.
  - subst a. rewrite H0, (Hc b) by lia.
    intros H. rewrite <- (Z.lxor_0_r acc) in H at 1.
    apply lxor_cancel_l in H. destruct (Hk b ltac:(lia)) as (_ & Hr & _). lia.
  - subst b. rewrite H0, (Hc a) by lia.
    intros H. rewrite <- (Z.lxor_0_r acc) in H at 2.
    apply lxor_cancel_l in H. destruct (Hk a ltac:(lia)) as (_ & Hr & _). lia.
  - rewrite (Hc a), (Hc b) by lia.
    intros H. apply lxor_cancel_l in H.
    destruct (Hk a ltac:(lia)) as (_ & _ & La).
    destruct (Hk b ltac:(lia)) as (_ & _ & Lb).
    cbv zeta in La, Lb. rewrite H, Lb in La. clear H Lb.
    destruct (Hlog a ltac:(lia)) as [Ra Ea]. destruct (Hlog b ltac:(lia)) as [Rb Eb].
    assert ((gf_log F).[a] = (gf_log F).[b]) as E.
    { pose proof (Z.div_mod (hlog + (gf_log F).[a]) (2 ^ m - 1) ltac:(lia)) as D1.
      pose proof (Z.div_mod (hlog + (gf_log F).[b]) (2 ^ m - 1) ltac:(lia)) as D2.
      rewrite <- La in D1.
      set (d1 := (hlog + (gf_log F).[a]) / (2 ^ m - 1)) in *.
      set (d2 := (hlog + (gf_log F).[b]) / (2 ^ m - 1)) in *.
      assert (d1 = d2) by nia. subst d1. lia. }
    rewrite <- Ea, <- Eb, E. reflexivity.
Qed.

Lemma gf_accmul_inj_acc (F : field) (acc acc' hlog a : Z) :
  gf_accmul F acc hlog a = gf_accmul F acc' hlog a -> acc = acc'.
Proof.
  unfold gf_accmul. destruct (a =? gf_zero); [auto|]. apply lxor_cancel_r.
Qed.

Lemma differ_or_agree (x y : list Z) (j : Z) (cnt : nat) :
  (forall i, 0 <= i < Z.of_nat cnt -> i <> j -> x.[i] = y.[i]) \/
  (exists i, 0 <= i < Z.of_nat cnt /\ i <> j /\ x.[i] <> y.[i]).
Proof.
  induction cnt as [|c [IH|(i & Hi & Hne & Hd)]].
  - left. intros i Hi. lia.
  - destruct (Z.eq_dec (Z.of_nat c) j) as [E|N].
    + left. intros i Hi Hne. apply IH; lia.
    + destruct (Z.eq_dec x.[Z.of_nat c] y.[Z.of_nat c]) as [E|D].
      * left. intros i Hi Hne.
        destruct (Z.eq_dec i (Z.of_nat c)) as [->|]; [exact E | apply IH; lia].
      * right. exists (Z.of_nat c). split; [lia|]. split; [exact N | exact D].
  - right. exists i. split; [lia|]. split; [exact Hne | exact Hd].
Qed.

Lemma chk_valid_agree (F : field) (m n : Z) (h x y : list Z) (j : Z) :
  gf_tables F m -> 1 <= m <= 31 -> 1 <= n < 2 ^ 64 ->
  (forall i, 0 <= i < n - 1 -> 0 <= h.[i] <= 2 ^ 31 - 2 ^ m + 1) ->
  (forall i, 0 <= i < n - 1 -> 0 <= x.[i] < 2 ^ m /\ 0 <= y.[i] < 2 ^ m) ->
  chk_valid F n h x = true -> chk_valid F n h y = true ->
  0 <= j < n -> (forall i, 0 <= i < n -> i <> j -> x.[i] = y.[i]) ->
  x.[j] = y.[j].
Proof.
  intros Ht Hm Hn Hh Hxy Vx Vy Hj Hagree.
  unfold chk_valid in Vx, Vy. rewrite u64_small in Vx, Vy by lia.
  apply Z.eqb_eq in Vx, Vy.
  destruct (Z.eq_dec j (n - 1)) as [->|Nj].
  - rewrite <- Vx, <- Vy. apply gf_accmul_all_frame.
    intros k Hk. apply Hagree; lia.
  - assert (forall d : nat, j + 1 + Z.of_nat d <= n - 1 ->
              gf_accmul_all F (j + 1 + Z.of_nat d) h x
              = gf_accmul_all F (j + 1 + Z.of_nat d) h y -> x.[j] = y.[j]) as H.
    { induction d as [|d IH]; intros Hd.
      - change (Z.of_nat 0) with 0. rewrite Z.add_0_r.
        rewrite !gf_accmul_all_succ by lia.
        rewrite (gf_accmul_all_frame F j h x y)
          by (intros k Hk; apply Hagree; lia).
        destruct (Hxy j ltac:(lia)) as [Hx Hy].
        apply (gf_accmul_inj F m); try assumption. apply Hh. lia.
      - replace (j + 1 + Z.of_nat (S d)) with (j + 1 + Z.of_nat d + 1) by lia.
        rewrite !gf_accmul_all_succ by lia.
        rewrite <- (Hagree (j + 1 + Z.of_nat d)) by lia.
        intros E. apply gf_accmul_inj_acc in E. apply IH; [lia | exact E]. }
    apply (H (Z.to_nat (n - 1 - (j + 1)))); [lia|].
    replace (j + 1 + Z.of_nat (Z.to_nat (n - 1 - (j + 1)))) with (n - 1) by lia.
    rewrite Vx, Vy. apply Hagree; lia.
Qed.

(** Two codewords that differ in a coordinate differ in another one. *)
Lemma chk_valid_differ (F : field) (m n : Z) (h x y : list Z) (j : Z) :
  gf_tables F m -> 1 <= m <= 31 -> 1 <= n < 2 ^ 64 ->
  (forall i, 0 <= i < n - 1 -> 0 <= h.[i] <= 2 ^ 31 - 2 ^ m + 1) ->
  (forall i, 0 <= i < n - 1 -> 0 <= x.[i] < 2 ^ m /\ 0 <= y.[i] < 2 ^ m) ->
  chk_valid F n h x = true -> chk_valid F n h y = true ->
  0 <= j < n -> x.[j] <> y.[j] ->
  exists i, 0 <= i < n /\ i <> j /\ x.[i] <> y.[i].
Proof.
  intros Ht Hm Hn Hh Hxy Vx Vy Hj Hd.
  destruct (differ_or_agree x y j (Z.to_nat n)) as [A|(i & Hi & Hne & Hdi)].
  - exfalso. apply Hd.
    apply (chk_valid_agree F m n h x y j); try assumption.
    intros i Hi. apply A. lia.
  - exists i. split; [lia|]. split; [exact Hne | exact Hdi].
Qed.

(** X25: over the tables of a field of [2 ^ m] elements, for a parity whose
    exponents are small enough for the [int] sum [hlog + gf_log[x]] of
    [gf_accmul] not to pass [INT_MAX] (at most [2 ^ 31 - 2 ^ m + 1], which
    holds for the exponents below [q] that the program enumerates when
    [m <= 30]), two codewords that differ in a coordinate differ in another
    one as well: there are two coordinates at least between two different
    codewords. *)
Theorem chk_valid_distance_two (F : field) (m n : Z) (h x y : list Z) (j : Z) :
  gf_tables F m -> 1 <= m <= 31 -> 1 <= n < 2 ^ 64 ->
  (forall i, 0 <= i < n - 1 -> 0 <= h.[i] <= 2 ^ 31 - 2 ^ m + 1) ->
  (forall i, 0 <= i < n - 1 -> 0 <= x.[i] < 2 ^ m /\ 0 <= y.[i] < 2 ^ m) ->
  chk_valid F n h x = true -> chk_valid F n h y = true ->
  0 <= j < n -> x.[j] <> y.[j] ->
  exists i, 0 <= i < n /\ i <> j /\ x.[i] <> y.[i].
Proof. exact (chk_valid_differ F m n h x y j). Qed.

Lemma chk_valid_distance_two_witness :
  exists i, 0 <= i < 3 /\ i <> 1 /\ [1; 0; 3].[i] <> [1; 2; 0].[i].
Proof.
  apply (chk_valid_distance_two GF4 2 3 [2; 1; 0] [1; 0; 3] [1; 2; 0] 1).
  - apply gf_tablesb_sound. reflexivity.
  - lia.
  - lia.
  - intros i Hi. assert (i = 0 \/ i = 1) as [-> | ->] by lia; cbv; split; congruence.
  - intros i Hi. assert (i = 0 \/ i = 1) as [-> | ->] by lia; cbv; repeat split; congruence.
  - reflexivity.
  - reflexivity.
  - lia.
  - cbv. congruence.
Defined.

(** ** The order of the traversal *)

Lemma gray_value_frame (m g g' : Z -> Z) (cnt : nat) :
  forall i, (forall k, i <= k < i + Z.of_nat cnt -> g k = g' k) ->
            gray_value m g i cnt = gray_value m g' i cnt.
Proof.
  induction cnt as [|c IH]; intros i H; cbn [gray_value]; [reflexivity|].
  rewrite (H i) by lia. rewrite (IH (i + 1)); [reflexivity|].
  intros k Hk. apply H. lia.
Qed.

Lemma radix_size_pos (m : Z -> Z) (cnt : nat) :
  forall i, (forall k, i <= k < i + Z.of_nat cnt -> 1 <= m k) ->
            1 <= radix_size m i cnt.
Proof.
  induction cnt as [|c IH]; intros i H; cbn [radix_size]; [lia|].
  specialize (IH (i + 1) ltac:(intros k Hk; apply H; lia)).
  pose proof (H i ltac:(lia)). nia.
Qed.

Lemma radix_size_const (q : Z) (cnt : nat) :
  forall i, radix_size (fun _ => q) i cnt = q ^ Z.of_nat cnt.
Proof.
  induction cnt as [|c IH]; intros i; cbn [radix_size]; [reflexivity|].
  rewrite IH, Nat2Z.inj_succ, Z.pow_succ_r by lia. reflexivity.
Qed.

Lemma gray_value_bound (m g : Z -> Z) (cnt : nat) :
  forall i, (forall k, i <= k < i + Z.of_nat cnt -> 0 <= g k <= m k - 1) ->
            0 <= gray_value m g i cnt <= radix_size m i cnt - 1.
Proof.
  induction cnt as [|c IH]; intros i H; cbn [gray_value radix_size]; [lia|].
  specialize (IH (i + 1) ltac:(intros k Hk; apply H; lia)).
  pose proof (H i ltac:(lia)) as Hi. nia.
Qed.

Lemma gray_value_full (m g : Z -> Z) (cnt : nat) :
  forall i, (forall k, i <= k < i + Z.of_nat cnt -> g k = m k - 1) ->
            gray_value m g i cnt = radix_size m i cnt - 1.
Proof.
  induction cnt as [|c IH]; intros i H; cbn [gray_value radix_size]; [lia|].
  rewrite (IH (i + 1)) by (intros k Hk; apply H; lia).
  rewrite (H i) by lia. ring.
Qed.

Lemma gray_value_null (m g : Z -> Z) (cnt : nat) :
  forall i, (forall k, i <= k < i + Z.of_nat cnt -> g k = 0) ->
            gray_value m g i cnt = 0.
Proof.
  induction cnt as [|c IH]; intros i H; cbn [gray_value]; [reflexivity|].
  rewrite (IH (i + 1)) by (intros k Hk; apply H; lia).
  rewrite (H i) by lia. lia.
Qed.

(** A carry: the digits below [j] go from the last of their ranks to 0 and
    the digit [j] grows by one. *)
Lemma gray_value_carry (m g g' : Z -> Z) (j : Z) (cnt : nat) :
  forall i, i <= j < i + Z.of_nat cnt ->
    (forall k, i <= k < j -> g k = m k - 1 /\ g' k = 0) ->
    g' j = g j + 1 ->
    (forall k, j < k < i + Z.of_nat cnt -> g' k = g k) ->
    gray_value m g' i cnt = gray_value m g i cnt + 1.
Proof.
  induction cnt as [|c IH]; intros i Hi Hlow Hj Hup; [lia|].
  cbn [gray_value]. destruct (Z.eq_dec i j) as [->|N].
  - rewrite Hj. rewrite (gray_value_frame m g' g c (j + 1)); [lia|].
    intros k Hk. apply Hup. lia.
  - destruct (Hlow i ltac:(lia)) as [-> ->].
    rewrite (IH (i + 1)); [ring | lia | | exact Hj |].
    + intros k Hk. apply Hlow. lia.
    + intros k Hk. apply Hup. lia.
Qed.

Lemma gray_rank_frame (m : Z -> Z) (a b : list Z) (cnt : nat) :
  forall i, (forall k, i <= k < i + Z.of_nat cnt -> a.[k] = b.[k]) ->
            gray_rank m a i cnt = gray_rank m b i cnt.
Proof.
  induction cnt as [|c IH]; intros i H; cbn [gray_rank]; [reflexivity|].
  rewrite (H i) by lia. rewrite (IH (i + 1)); [reflexivity|].
  intros k Hk. apply H. lia.
Qed.

Lemma gray_rank_bound (m : Z -> Z) (a : list Z) (cnt : nat) :
  forall i, (forall k, i <= k < i + Z.of_nat cnt -> 0 <= a.[k] <= m k - 1) ->
            0 <= gray_rank m a i cnt <= radix_size m i cnt - 1.
Proof.
  induction cnt as [|c IH]; intros i H; cbn [gray_rank radix_size]; [lia|].
  specialize (IH (i + 1) ltac:(intros k Hk; apply H; lia)).
  pose proof (H i ltac:(lia)) as Hi.
  destruct (Z.even _); nia.
Qed.

(** The place tells the increments. *)
Lemma gray_rank_inj (m : Z -> Z) (a b : list Z) (cnt : nat) :
  forall i,
    (forall k, i <= k < i + Z.of_nat cnt ->
       0 <= a.[k] <= m k - 1 /\ 0 <= b.[k] <= m k - 1) ->
    gray_rank m a i cnt = gray_rank m b i cnt ->
    forall k, i <= k < i + Z.of_nat cnt -> a.[k] = b.[k].
Proof.
  induction cnt as [|c IH]; intros i H E k Hk; [lia|].
  cbn [gray_rank] in E. cbv zeta in E.
  pose proof (H i ltac:(lia)) as [Ha Hb].
  assert (gray_rank m a (i + 1) c = gray_rank m b (i + 1) c) as Ehi.
  { destruct (Z.even (gray_rank m a (i + 1) c));
      destruct (Z.even (gray_rank m b (i + 1) c)); nia. }
  rewrite Ehi in E.
  destruct (Z.eq_dec k i) as [->|N].
  - destruct (Z.even (gray_rank m b (i + 1) c)); lia.
  - apply (IH (i + 1)); [intros t Ht; apply H; lia | exact Ehi | lia].
Qed.

Lemma passive_below (n : Z) (f : list Z) (j k : Z) :
  1 <= n -> length f = Z.to_nat n ->
  (forall i, 0 <= i <= n - 1 ->
     i <= f.[i] <= n - 1 /\ forall t, i < t <= f.[i] -> f.[t] = t) ->
  j = f.[0] -> j < n - 1 -> 0 <= k < j ->
  passive f k = true /\ passive (set f 0 0) k = false /\
  passive (turned f j) k = false.
Proof.
  intros Hn Hl Hf Hj Hjn Hk.
  assert (0 <= j /\ forall t, 0 < t <= j -> f.[t] = t) as [H0 Ht]
    by (apply (focus_below n f j); assumption).
  split; [|split].
  - apply passive_spec. exists 0. lia.
  - destruct (passive (set f 0 0) k) eqn:P; [|reflexivity].
    apply passive_spec in P. destruct P as (s & Hs & Hlt).
    revert Hlt. get_set_tac. rewrite Ht by lia. lia.
  - destruct (passive (turned f j) k) eqn:P; [|reflexivity].
    apply passive_spec in P. destruct P as (s & Hs & Hlt).
    rewrite (turned_get n f j) in Hlt by (try assumption; lia).
    revert Hlt. get_set_tac. rewrite Ht by lia. lia.
Qed.

Lemma get_take (a : list Z) (m : nat) (k : Z) :
  0 <= k < Z.of_nat m -> (take m a).[k] = a.[k].
Proof.
  intros Hk. unfold get. rewrite lookup_take_lt by lia. reflexivity.
Qed.

Lemma get_cons_0 (r : Z) (t : list Z) : (r :: t).[0] = r.
Proof. reflexivity. Qed.

Lemma get_cons_succ (r : Z) (t : list Z) (i : Z) :
  0 <= i -> (r :: t).[i + 1] = t.[i].
Proof.
  intros Hi. unfold get. replace (Z.to_nat (i + 1)) with (S (Z.to_nat i)) by lia.
  reflexivity.
Qed.

Lemma forallb_below (P : Z -> bool) (n : Z) :
  forallb P (seqZ 0 n) = true -> forall k, 0 <= k < n -> P k = true.
Proof.
  intros H k Hk. rewrite forallb_forall in H. apply H.
  apply list_elem_of_In, elem_of_seqZ. lia.
Qed.

(** ** The rank vectors of the reference *)

Lemma elem_of_all_ranks (q : Z) (k : nat) :
  forall a, length a = k -> (forall i, 0 <= i < Z.of_nat k -> 0 <= a.[i] < q) ->
            a ∈ all_ranks k q.
Proof.
  induction k as [|k IH]; intros a L H.
  - destruct a; [|discriminate]. cbn. apply list_elem_of_singleton. reflexivity.
  - destruct a as [|r t]; [discriminate|]. cbn [all_ranks].
    apply list_elem_of_bind. exists t. split.
    + apply list_elem_of_bind. exists r. split.
      * apply list_elem_of_singleton. reflexivity.
      * apply elem_of_seqZ. pose proof (H 0 ltac:(lia)) as H0.
        rewrite get_cons_0 in H0. lia.
    + apply IH; [cbn in L; lia|]. intros i Hi.
      rewrite <- (get_cons_succ r) by lia. apply H. lia.
Qed.

Lemma length_all_ranks (q : Z) (k : nat) :
  0 <= q -> Z.of_nat (length (all_ranks k q)) = q ^ Z.of_nat k.
Proof.
  intros Hq. induction k as [|k IH]; [reflexivity|].
  cbn [all_ranks]. rewrite Nat2Z.inj_succ, Z.pow_succ_r by lia.
  rewrite <- IH. clear IH. induction (all_ranks k q) as [|t l IHl]; [cbn; lia|].
  cbn [mbind list_bind]. rewrite length_app, Nat2Z.inj_add, IHl.
  assert (forall s : list Z,
            Z.of_nat (length (s ≫= (fun r => [r :: t]))) = Z.of_nat (length s))
    as Hs.
  { induction s as [|r s IHs]; [reflexivity|]. cbn in *. lia. }
  rewrite Hs, length_seqZ. cbn [length]. lia.
Qed.

(** ** The spectrum does not depend on the order of the neighbours *)

Lemma neighbour_ext (E : env) (h x a b : list Z) :
  1 <= e_n E < 2 ^ 64 ->
  (forall k, 0 <= k < e_n E - 1 -> a.[k] = b.[k]) ->
  neighbour E h x a = neighbour E h x b.
Proof.
  intros Hn H. unfold neighbour. rewrite !(u64_small (e_n E - 1)) by lia.
  cbv zeta.
  match goal with
  | |- (let '(_, _) := for_ 0 ?m ?f ?s in _) = (let '(_, _) := for_ 0 ?m ?g ?s in _) =>
      assert (for_ 0 m f s = for_ 0 m g s) as ->; [|reflexivity]
  end.
  unfold for_. apply for_loop_ext. intros i [y quad] Hi.
  rewrite H by lia. reflexivity.
Qed.

Lemma record_comm (E : env) (Scur : list Z) (qa qb : Z) :
  0 <= qa -> 0 <= qb ->
  (do S1 <- record E Scur qa; record E S1 qb)
  = (do S1 <- record E Scur qb; record E S1 qa).
Proof.
  intros Ha Hb. unfold record, sp_incr.
  destruct (Z.ltb_spec qa (e_qmax E)), (Z.ltb_spec qb (e_qmax E));
    destruct (Z.ltb_spec qa (Z.of_nat (length Scur)));
    destruct (Z.ltb_spec qb (Z.of_nat (length Scur)));
    cbn [obind]; rewrite ?length_set;
    repeat match goal with
           | |- context [Z.ltb ?u ?v] => destruct (Z.ltb_spec u v); try lia
           end; try reflexivity.
  destruct (Z.eq_dec qa qb) as [->|N]; [reflexivity|].
  rewrite !get_set_ne by lia. f_equal. unfold set.
  apply list_insert_insert_ne. lia.
Qed.

Lemma count_neighbour_comm (E : env) (h x : list Z) (acc : outcome (list Z))
    (a b : list Z) :
  count_neighbour E h x (count_neighbour E h x acc a) b
  = count_neighbour E h x (count_neighbour E h x acc b) a.
Proof.
  unfold count_neighbour. destruct acc as [Scur| |]; try reflexivity.
  cbn [obind]. apply record_comm; apply neighbour_quad_nonneg.
Qed.

Lemma count_neighbour_perm (E : env) (h x : list Z) (l l' : list (list Z)) :
  l ≡ₚ l' ->
  forall acc, foldl (count_neighbour E h x) acc l
              = foldl (count_neighbour E h x) acc l'.
Proof.
  induction 1 as [|a l l' _ IH|a b l|l l' l'' _ IH1 _ IH2]; intros acc.
  - reflexivity.
  - cbn [foldl]. apply IH.
  - cbn [foldl]. rewrite count_neighbour_comm. reflexivity.
  - rewrite IH1. apply IH2.
Qed.

Lemma count_neighbour_stuck (E : env) (h x : list Z) (l : list (list Z)) :
  forall acc, (forall Scur, acc <> Done Scur) ->
              foldl (count_neighbour E h x) acc l = acc.
Proof.
  induction l as [|a l IH]; intros acc H; [reflexivity|].
  cbn [foldl]. assert (count_neighbour E h x acc a = acc) as ->.
  { destruct acc; [exfalso; eapply H; reflexivity | reflexivity | reflexivity]. }
  apply IH. exact H.
Qed.

Lemma elem_of_all_ranks_inv (q : Z) (k : nat) :
  forall a, a ∈ all_ranks k q ->
            length a = k /\ forall i, 0 <= i < Z.of_nat k -> 0 <= a.[i] < q.
Proof.
  induction k as [|k IH]; intros a Ha.
  - cbn in Ha. apply list_elem_of_singleton in Ha. subst a.
    split; [reflexivity | intros; lia].
  - cbn [all_ranks] in Ha. apply list_elem_of_bind in Ha.
    destruct Ha as (t & Ha & Ht). apply list_elem_of_bind in Ha.
    destruct Ha as (r & Ha & Hr). apply list_elem_of_singleton in Ha. subst a.
    apply elem_of_seqZ in Hr. destruct (IH t Ht) as [L H].
    split; [cbn [length]; lia|]. intros i Hi.
    destruct (Z.eq_dec i 0) as [->|N]; [rewrite get_cons_0; lia|].
    replace i with (i - 1 + 1) by lia. rewrite get_cons_succ by lia.
    apply H. lia.
Qed.

Lemma NoDup_all_ranks (q : Z) (k : nat) : NoDup (all_ranks k q).
Proof.
  induction k as [|k IH]; [apply NoDup_singleton|].
  cbn [all_ranks]. apply NoDup_bind; [| |exact IH].
  - intros t1 t2 a _ _ H1 H2.
    apply list_elem_of_bind in H1. destruct H1 as (r1 & H1 & _).
    apply list_elem_of_bind in H2. destruct H2 as (r2 & H2 & _).
    apply list_elem_of_singleton in H1, H2. congruence.
  - intros t _. apply NoDup_bind; [| |apply NoDup_seqZ].
    + intros r1 r2 a _ _ H1 H2.
      apply list_elem_of_singleton in H1, H2. congruence.
    + intros r _. apply NoDup_singleton.
Qed.

Lemma radix_size_le (m : Z -> Z) (q : Z) (cnt : nat) :
  forall i, (forall k, i <= k < i + Z.of_nat cnt -> 1 <= m k <= q) ->
            radix_size m i cnt <= q ^ Z.of_nat cnt.
Proof.
  induction cnt as [|c IH]; intros i H; cbn [radix_size]; [reflexivity|].
  rewrite Nat2Z.inj_succ, Z.pow_succ_r by lia.
  specialize (IH (i + 1) ltac:(intros k Hk; apply H; lia)).
  pose proof (radix_size_pos m c (i + 1) ltac:(intros k Hk; apply H; lia)).
  pose proof (H i ltac:(lia)). nia.
Qed.

(** An increment at or above its number of ranks, if there is one. *)
Lemma outside_or_inside (m : Z -> Z) (a : list Z) (cnt : nat) :
  (forall i, 0 <= i < Z.of_nat cnt -> a.[i] <= m i - 1) \/
  (exists j, 0 <= j < Z.of_nat cnt /\ m j <= a.[j]).
Proof.
  induction cnt as [|c [IH|(j & Hj & Ho)]].
  - left. intros i Hi. lia.
  - destruct (Z_le_gt_dec (m (Z.of_nat c)) a.[Z.of_nat c]) as [Ho|Hin].
    + right. exists (Z.of_nat c). split; [lia | exact Ho].
    + left. intros i Hi.
      destruct (Z.eq_dec i (Z.of_nat c)) as [->|]; [lia | apply IH; lia].
  - right. exists j. split; [lia | exact Ho].
Qed.

Lemma count_neighbour_skip (E : env) (h x : list Z) (l : list (list Z)) :
  (forall a, a ∈ l -> e_qmax E <= (neighbour E h x a).2) ->
  forall acc, foldl (count_neighbour E h x) acc l = acc.
Proof.
  induction l as [|a l IH]; intros H acc; [reflexivity|].
  cbn [foldl]. assert (count_neighbour E h x acc a = acc) as ->.
  { unfold count_neighbour, record. destruct acc as [Scur| |]; try reflexivity.
    cbn [obind]. pose proof (H a ltac:(left)).
    destruct (Z.ltb_spec (neighbour E h x a).2 (e_qmax E)); [lia | reflexivity]. }
  apply IH. intros b Hb. apply H. right. exact Hb.
Qed.

Section Radix.

Variables (E : env) (x : list Z) (m : Z -> Z).
Hypothesis Hn : 1 <= e_n E < 2 ^ 63.
Hypothesis Hq : 2 <= e_q E < 2 ^ 64.
Hypothesis Hnq : e_n E * e_q E < 2 ^ 64.
Hypothesis Hx : forall j, 0 <= j < e_n E - 1 -> 0 <= x.[j] < e_q E.
Hypothesis Hm :
  forall w j, 0 <= w < e_n E -> 0 <= j < e_n E - 1 ->
    m j = Z.max 2 (Z.min (e_q E) (e_dcap E).[w * e_q E + x.[j]]).

Lemma radix_range (j : Z) : 0 <= j < e_n E - 1 -> 2 <= m j <= e_q E.
Proof. intros Hj. rewrite (Hm 0 j) by lia. lia. Qed.

(** A step: the coordinate turns back at the ends of its sweep only. *)
Lemma radix_step (o o' : odometer) :
  visited E x o -> gray_inv (e_n E) m o -> odometer_next E x o = Some o' ->
  let j := (df o).[0] in
  let v := (da o).[j] + (dd o).[j] in
  0 <= j < e_n E - 1 /\ 0 <= v <= m j - 1 /\
  ((dd o).[j] = 1 \/ (dd o).[j] = -1) /\
  da o' = set (da o) j v /\
  (((v = 0 \/ v = m j - 1) /\ df o' = turned (df o) j /\
    dd o' = set (dd o) j (- (dd o).[j])) \/
   (v <> 0 /\ v <> m j - 1 /\ df o' = set (df o) 0 0 /\ dd o' = dd o)).
Proof.
  intros V (HR & _ & _) Hs.
  pose proof (visited_inv E x o ltac:(lia) Hq V) as Hinv.
  pose proof (visited_weight E x o' Hn Hq (visited_next E x o o' V Hs))
    as (_ & Hw & _).
  pose proof Hinv as ((La & Lf & Ld) & Hd & Hf).
  revert Hs. unfold odometer_next.
  rewrite !(u64_small (e_n E - 1)) by lia. rewrite (u64_small (e_q E - 1)) by lia.
  set (n := e_n E) in *. set (q := e_q E) in *.
  set (j := (df o).[0]). cbv zeta.
  destruct (Z.eqb_spec j (n - 1)) as [Ej|Nj]; [discriminate|].
  destruct (Hf 0 ltac:(lia)) as [Hj0 _]. fold j in Hj0.
  assert (0 <= j < n - 1) as Hj by lia.
  destruct (Hd j Hj) as (Ha & Hdir & Hlo & Hhi).
  destruct (HR j Hj) as (Ham & Hhim).
  pose proof (Hx j Hj) as Hxj.
  assert (0 <= (da o).[j] + (dd o).[j] <= q - 1) as Hv by lia.
  assert (0 <= (da o).[j] + (dd o).[j] <= m j - 1) as Hvm by lia.
  rewrite (u64_small ((da o).[j] + (dd o).[j])) by lia.
  rewrite !(get_set_eq (da o) j) by lia.
  set (v := (da o).[j] + (dd o).[j]) in *.
  match goal with
  | |- context [if ?b then Some _ else Some _] => destruct b eqn:Erev
  end; intros Hs; injection Hs as <-; cbn [da df dd dw] in *;
    (split; [exact Hj|]; split; [exact Hvm|]; split; [exact Hdir|];
     split; [reflexivity|]);
    match type of Erev with
    | context [(e_dcap E).[u64 ?i]] =>
        assert (0 <= i < n * q) as Hi by nia;
        rewrite (u64_small i) in Erev by lia;
        match i with
        | ?w * q + _ => pose proof (Hm w j ltac:(lia) Hj) as Hmj
        end
    end.
  - left. rewrite (s32_opp _ Hdir). split; [|split; reflexivity].
    destruct (Z.eqb_spec v 0) as [|N0]; [left; assumption|].
    destruct (Z.eqb_spec v (q - 1)) as [|N1]; [right; lia|].
    cbn [orb] in Erev. apply Z.leb_le in Erev.
    rewrite (u64_small (v + (dd o).[j])) in Erev by lia.
    right. unfold v in *. lia.
  - right. apply orb_false_elim in Erev. destruct Erev as [Erev Ecut].
    apply orb_false_elim in Erev. destruct Erev as [E0 E1].
    apply Z.eqb_neq in E0, E1. apply Z.leb_gt in Ecut.
    rewrite (u64_small (v + (dd o).[j])) in Ecut by lia.
    split; [exact E0|]. split; [unfold v in *; lia|]. split; reflexivity.
Qed.

(** What a step does to the sweeps. *)
Lemma radix_sweeps (o o' : odometer) :
  visited E x o -> gray_inv (e_n E) m o -> odometer_next E x o = Some o' ->
  let j := (df o).[0] in
  0 <= j < e_n E - 1 /\
  (forall k, 0 <= k < e_n E - 1 ->
     0 <= (da o').[k] <= m k - 1 /\
     ((da o').[k] = m k - 1 -> (dd o').[k] = -1)) /\
  (forall k, 0 <= k < e_n E - 1 -> passive (df o') k = true ->
     (da o').[k] = 0 \/ (da o').[k] = m k - 1) /\
  (forall k, 0 <= k < j ->
     sweep_pos m o k = m k - 1 /\ sweep_pos m o' k = 0 /\
     upward o' k = negb (upward o k)) /\
  sweep_pos m o' j = sweep_pos m o j + 1 /\
  upward o' j = upward o j /\
  (forall k, j < k < e_n E - 1 ->
     sweep_pos m o' k = sweep_pos m o k /\ upward o' k = upward o k).
Proof.
  intros V G Hs. pose proof G as (HR & HJ & HK).
  pose proof (visited_inv E x o ltac:(lia) Hq V) as Hinv.
  pose proof Hinv as ((La & Lf & Ld) & Hd & Hf).
  destruct (radix_step o o' V G Hs) as (Hj & Hv & Hdj & Ea & Hcase).
  set (n := e_n E) in *. set (q := e_q E) in *.
  set (j := (df o).[0]) in *. cbv zeta.
  set (v := (da o).[j] + (dd o).[j]) in *.
  destruct (Hd j Hj) as (Haj & _ & Hloj & _).
  destruct (HR j Hj) as (Hamj & Hhij).
  pose proof (radix_range j Hj) as Hmj.
  assert (passive (df o) j = false) as Pj
    by (apply (passive_here n (df o) j); try assumption; try lia; reflexivity).
  assert (forall k, 0 <= k < j ->
            passive (df o) k = true /\ passive (set (df o) 0 0) k = false /\
            passive (turned (df o) j) k = false) as Plow.
  { intros k Hk. apply (passive_below n); try assumption; try lia; reflexivity. }
  assert (forall k, 0 <= k < j ->
            ((da o).[k] = 0 /\ (dd o).[k] = 1) \/
            ((da o).[k] = m k - 1 /\ (dd o).[k] = -1)) as Hlow.
  { intros k Hk. destruct (Plow k Hk) as (P & _).
    destruct (Hd k ltac:(lia)) as (_ & _ & Hlo & _).
    destruct (HR k ltac:(lia)) as (_ & Hhi).
    destruct (HJ k ltac:(lia) P) as [Z0|Z1]; [left | right]; auto. }
  split; [exact Hj|].
  destruct Hcase as [(Hends & Ef & Ed) | (N0 & N1 & Ef & Ed)].
  - (* the coordinate is turned back *)
    assert (passive (turned (df o) j) j = true) as Pj'
      by (apply (passive_turned_here n (df o) j); try assumption; try lia;
          reflexivity).
    assert (forall k, j < k -> passive (turned (df o) j) k = passive (df o) k)
      as Pup.
    { intros k Hk. apply (passive_turned_above n (df o) j);
        try assumption; try lia; reflexivity. }
    split; [|split; [|split; [|split; [|split]]]].
    + intros k Hk. rewrite Ea, Ed.
      destruct (Z.eq_dec k j) as [->|N].
      * rewrite !get_set_eq by lia. unfold v in *. lia.
      * rewrite !get_set_ne by lia. apply HR. exact Hk.
    + intros k Hk P. rewrite Ea. rewrite Ef in P.
      destruct (Z.lt_trichotomy k j) as [Lt | [-> | Gt]].
      * destruct (Plow k ltac:(lia)) as (_ & _ & P'). congruence.
      * rewrite get_set_eq by lia. exact Hends.
      * rewrite get_set_ne by lia. apply HJ; [lia|]. rewrite <- Pup by lia.
        exact P.
    + intros k Hk. destruct (Plow k Hk) as (P & _ & P').
      unfold sweep_pos, upward. rewrite Ea, Ef, Ed, P, P'.
      rewrite !get_set_ne by lia.
      destruct (Hlow k Hk) as [[-> ->] | [-> ->]]; cbn [Z.eqb Pos.eqb negb];
        (split; [lia | split; [lia | reflexivity]]).
    + unfold sweep_pos. rewrite Ef, Pj, Pj'.
      unfold v in *. destruct Hdj as [D | D]; rewrite D in *;
        cbn [Z.eqb Pos.eqb]; lia.
    + unfold upward. rewrite Ef, Ed, Pj, Pj'. rewrite get_set_eq by lia.
      destruct Hdj as [-> | ->]; reflexivity.
    + intros k Hk. unfold sweep_pos, upward.
      rewrite Ea, Ef, Ed, Pup by lia. rewrite !get_set_ne by lia.
      split; reflexivity.
  - (* the coordinate goes on *)
    assert (forall k, j <= k -> passive (set (df o) 0 0) k = passive (df o) k)
      as Pup.
    { intros k Hk. apply (passive_clear n (df o) j);
        try assumption; try lia; reflexivity. }
    split; [|split; [|split; [|split; [|split]]]].
    + intros k Hk. rewrite Ea, Ed.
      destruct (Z.eq_dec k j) as [->|N].
      * rewrite !get_set_eq by lia. unfold v in *. lia.
      * rewrite !get_set_ne by lia. apply HR. exact Hk.
    + intros k Hk P. rewrite Ea. rewrite Ef in P.
      destruct (Z.lt_trichotomy k j) as [Lt | [-> | Gt]].
      * destruct (Plow k ltac:(lia)) as (_ & P' & _). congruence.
      * rewrite Pup in P by lia. congruence.
      * rewrite get_set_ne by lia. apply HJ; [lia|]. rewrite <- Pup by lia.
        exact P.
    + intros k Hk. destruct (Plow k Hk) as (P & P' & _).
      unfold sweep_pos, upward. rewrite Ea, Ef, Ed, P, P'.
      rewrite !get_set_ne by lia.
      destruct (Hlow k Hk) as [[-> ->] | [-> ->]]; cbn [Z.eqb Pos.eqb negb];
        (split; [lia | split; [lia | reflexivity]]).
    + unfold sweep_pos. rewrite Ea, Ef, Ed, Pup, Pj by lia.
      rewrite get_set_eq by lia.
      unfold v in *. destruct Hdj as [D | D]; rewrite D in *;
        cbn [Z.eqb Pos.eqb]; lia.
    + unfold upward. rewrite Ef, Ed, Pup, Pj by lia. reflexivity.
    + intros k Hk. unfold sweep_pos, upward.
      rewrite Ea, Ef, Ed, Pup by lia. rewrite !get_set_ne by lia.
      split; reflexivity.
Qed.

(** A step keeps [gray_inv], and the number of the neighbours gone through
    grows by one. *)
Lemma radix_next (o o' : odometer) :
  visited E x o -> gray_inv (e_n E) m o -> odometer_next E x o = Some o' ->
  gray_inv (e_n E) m o' /\
  visit_rank (e_n E) m o' = visit_rank (e_n E) m o + 1.
Proof.
  intros V G Hs.
  destruct (radix_sweeps o o' V G Hs)
    as (Hj & HR' & HJ' & Hlow & Hat & Uat & Hup).
  destruct G as (HR & HJ & HK).
  set (n := e_n E) in *. set (j := (df o).[0]) in *.
  split; [split; [|split]|].
  - exact HR'.
  - exact HJ'.
  - intros i Hi. destruct (Z.lt_ge_cases i j) as [Lt|Ge].
    + destruct (Hlow i ltac:(lia)) as (_ & _ & ->). rewrite (HK i Hi).
      rewrite (gray_value_carry m (sweep_pos m o) (sweep_pos m o') j).
      * rewrite Z.even_add. change (Z.even 1) with false.
        destruct (Z.even _); reflexivity.
      * lia.
      * intros k Hk. destruct (Hlow k ltac:(lia)) as (A & B & _). auto.
      * exact Hat.
      * intros k Hk. apply Hup. lia.
    + assert (upward o' i = upward o i) as ->.
      { destruct (Z.eq_dec i j) as [->|N]; [exact Uat | apply Hup; lia]. }
      rewrite (HK i Hi). f_equal. apply gray_value_frame.
      intros k Hk. symmetry. apply Hup. lia.
  - unfold visit_rank.
    apply (gray_value_carry m (sweep_pos m o) (sweep_pos m o') j).
    + lia.
    + intros k Hk. destruct (Hlow k ltac:(lia)) as (A & B & _). auto.
    + exact Hat.
    + intros k Hk. apply Hup. lia.
Qed.

Lemma radix_begin :
  gray_inv (e_n E) m (odometer_begin (e_n E)) /\
  visit_rank (e_n E) m (odometer_begin (e_n E)) = 0.
Proof.
  destruct (odometer_begin_spec (e_n E) ltac:(lia)) as (L & Ha & Hf).
  cbv zeta in *.
  set (o := odometer_begin (e_n E)) in *.
  assert (forall i, 0 <= i < e_n E - 1 -> passive (df o) i = false) as P.
  { intros i Hi. destruct (passive (df o) i) eqn:P; [|reflexivity].
    apply passive_spec in P. destruct P as (s & Hs & Hlt).
    rewrite Hf in Hlt by lia. lia. }
  assert (forall i, 0 <= i < e_n E - 1 -> sweep_pos m o i = 0) as Z0.
  { intros i Hi. unfold sweep_pos. rewrite P by lia.
    destruct (Ha i Hi) as [-> ->]. reflexivity. }
  split; [split; [|split]|].
  - intros i Hi. destruct (Ha i Hi) as [-> _].
    pose proof (radix_range i Hi). lia.
  - intros i Hi Pi. rewrite P in Pi by lia. discriminate.
  - intros i Hi. unfold upward. rewrite P by lia.
    destruct (Ha i Hi) as [_ ->]. rewrite gray_value_null; [reflexivity|].
    intros k Hk. apply Z0. lia.
  - unfold visit_rank. apply gray_value_null. intros k Hk. apply Z0. lia.
Qed.

(** The traversal stops when every coordinate has ended its sweep. *)
Lemma radix_end (o : odometer) :
  visited E x o -> odometer_next E x o = None ->
  visit_rank (e_n E) m o = radix_size m 0 (Z.to_nat (e_n E - 1)) - 1.
Proof.
  intros V Hs.
  assert ((df o).[0] = e_n E - 1) as Hj.
  { revert Hs. unfold odometer_next. rewrite !(u64_small (e_n E - 1)) by lia.
    cbv zeta. destruct (Z.eqb_spec (df o).[0] (e_n E - 1)) as [Ej|Nj]; [auto|].
    destruct (_ || _); discriminate. }
  unfold visit_rank. apply gray_value_full.
  intros k Hk. unfold sweep_pos.
  assert (passive (df o) k = true) as ->
    by (apply passive_spec; exists 0; lia).
  reflexivity.
Qed.

Lemma sweep_pos_range (o : odometer) (k : Z) :
  visited E x o -> gray_inv (e_n E) m o -> 0 <= k < e_n E - 1 ->
  0 <= sweep_pos m o k <= m k - 1.
Proof.
  intros V (HR & _ & _) Hk. unfold sweep_pos.
  destruct (HR k Hk) as (Ha & _). pose proof (radix_range k Hk).
  destruct (passive (df o) k); [lia|]. destruct (_ =? 1); lia.
Qed.

Lemma visit_rank_bound (o : odometer) :
  visited E x o -> gray_inv (e_n E) m o ->
  0 <= visit_rank (e_n E) m o <= radix_size m 0 (Z.to_nat (e_n E - 1)) - 1.
Proof.
  intros V G. unfold visit_rank. apply gray_value_bound.
  intros k Hk. apply sweep_pos_range; [exact V | exact G | lia].
Qed.

(** The place of a state is read off its increments alone. *)
Lemma gray_rank_state (o : odometer) :
  visited E x o -> gray_inv (e_n E) m o ->
  forall cnt i, 0 <= i -> i + Z.of_nat cnt = e_n E - 1 ->
    gray_rank m (da o) i cnt = gray_value m (sweep_pos m o) i cnt.
Proof.
  intros V (HR & HJ & HK).
  pose proof (visited_inv E x o ltac:(lia) Hq V) as (_ & Hd & _).
  induction cnt as [|c IH]; intros i Hi Hc; [reflexivity|].
  cbn [gray_rank gray_value]. rewrite (IH (i + 1)) by lia.
  f_equal. pose proof (HK i ltac:(lia)) as K.
  replace (Z.to_nat (e_n E - 1 - (i + 1))) with c in K by lia.
  rewrite <- K. unfold upward, sweep_pos.
  destruct (Hd i ltac:(lia)) as (_ & Hdir & Hlo & _).
  destruct (HR i ltac:(lia)) as (_ & Hhi).
  pose proof (radix_range i ltac:(lia)) as Hmi.
  destruct (passive (df o) i) eqn:P.
  - destruct (HJ i ltac:(lia) P) as [Z0|Z1].
    + rewrite (Hlo Z0), Z0. cbn [Z.eqb]. lia.
    + rewrite (Hhi Z1), Z1. cbn [Z.eqb Pos.eqb]. lia.
  - destruct Hdir as [-> | ->]; cbn [Z.eqb Pos.eqb]; lia.
Qed.

Lemma visits_head (o : odometer) :
  visited E x o -> gray_inv (e_n E) m o ->
  let a := take (Z.to_nat (e_n E - 1)) (da o) in
  length a = Z.to_nat (e_n E - 1) /\
  (forall i, 0 <= i < e_n E - 1 -> 0 <= a.[i] <= m i - 1) /\
  gray_rank m a 0 (Z.to_nat (e_n E - 1)) = visit_rank (e_n E) m o.
Proof.
  intros V G. pose proof (visited_inv E x o ltac:(lia) Hq V) as Hinv.
  pose proof Hinv as ((La & _ & _) & _ & _). pose proof G as (HR & _ & _).
  cbv zeta.
  split; [rewrite length_take; lia|]. split.
  - intros i Hi. rewrite get_take by lia. apply HR. exact Hi.
  - unfold visit_rank. rewrite <- (gray_rank_state o V G) by lia.
    apply gray_rank_frame. intros k Hk. apply get_take. lia.
Qed.

(** The neighbours gone through from a state are as many as are left, their
    increments are below the numbers of ranks, and their places in the
    reflected order follow one another. *)
Lemma visits_spec :
  forall fuel o,
    visited E x o -> gray_inv (e_n E) m o ->
    radix_size m 0 (Z.to_nat (e_n E - 1)) - visit_rank (e_n E) m o
      <= Z.of_nat fuel ->
    Z.of_nat (length (visits fuel E x o))
    = radix_size m 0 (Z.to_nat (e_n E - 1)) - visit_rank (e_n E) m o /\
    forall k a, visits fuel E x o !! k = Some a ->
      length a = Z.to_nat (e_n E - 1) /\
      (forall i, 0 <= i < e_n E - 1 -> 0 <= a.[i] <= m i - 1) /\
      gray_rank m a 0 (Z.to_nat (e_n E - 1))
      = visit_rank (e_n E) m o + Z.of_nat k.
Proof.
  induction fuel as [|f IH]; intros o V G Hf;
    pose proof (visit_rank_bound o V G) as Hb; [lia|].
  pose proof (visits_head o V G) as Hhead. cbv zeta in Hhead.
  cbn [visits]. destruct (odometer_next E x o) as [o'|] eqn:Hs.
  - destruct (radix_next o o' V G Hs) as [G' Hr].
    destruct (IH o' (visited_next E x o o' V Hs) G' ltac:(lia)) as [HL Hel].
    split; [cbn [length]; lia|].
    intros [|k] a Hk; cbn in Hk.
    + injection Hk as <-. rewrite Z.add_0_r. exact Hhead.
    + destruct (Hel k a Hk) as (A & B & C). split; [exact A|].
      split; [exact B|]. lia.
  - pose proof (radix_end o V Hs) as Hr.
    split; [cbn [length]; lia|].
    intros [|k] a Hk; cbn in Hk; [|discriminate].
    injection Hk as <-. rewrite Z.add_0_r. exact Hhead.
Qed.

Lemma traverse_fold (h : list Z) :
  forall fuel o Scur,
    visited E x o -> gray_inv (e_n E) m o ->
    radix_size m 0 (Z.to_nat (e_n E - 1)) - visit_rank (e_n E) m o
      <= Z.of_nat fuel ->
    traverse fuel E h x o Scur
    = foldl (count_neighbour E h x) (Done Scur) (visits fuel E x o).
Proof.
  induction fuel as [|f IH]; intros o Scur V G Hf;
    pose proof (visit_rank_bound o V G) as Hb; [lia|].
  pose proof (visited_inv E x o ltac:(lia) Hq V) as ((La & _ & _) & _ & _).
  cbn [traverse visits foldl]. unfold count_neighbour at 2. cbn [obind].
  rewrite (neighbour_ext E h x (take (Z.to_nat (e_n E - 1)) (da o)) (da o))
    by (try lia; intros k Hk; apply get_take; lia).
  destruct (record E Scur (neighbour E h x (da o)).2) as [S1| |] eqn:R;
    cbn [obind]; [|symmetry; apply count_neighbour_stuck; discriminate..].
  destruct (odometer_next E x o) as [o'|] eqn:Hs; [|reflexivity].
  destruct (radix_next o o' V G Hs) as [G' Hr].
  apply IH; [exact (visited_next E x o o' V Hs) | exact G' | lia].
Qed.

Lemma radix_fuel :
  radix_size m 0 (Z.to_nat (e_n E - 1)) <= e_q E ^ (e_n E - 1).
Proof.
  pose proof (radix_size_le m (e_q E) (Z.to_nat (e_n E - 1)) 0) as H.
  rewrite Z2Nat.id in H by lia. apply H.
  intros k Hk. pose proof (radix_range k ltac:(lia)). lia.
Qed.

(** The whole traversal: no neighbour comes twice, and every vector of
    increments below the numbers of ranks comes. *)
Lemma visits_whole :
  let l := visits (Z.to_nat (e_q E ^ (e_n E - 1))) E x (odometer_begin (e_n E)) in
  NoDup l /\
  forall a, a ∈ l <->
            length a = Z.to_nat (e_n E - 1) /\
            forall i, 0 <= i < e_n E - 1 -> 0 <= a.[i] <= m i - 1.
Proof.
  destruct radix_begin as [G0 R0]. pose proof (visited_begin E x) as V0.
  pose proof radix_fuel as Hfuel.
  pose proof (radix_size_pos m (Z.to_nat (e_n E - 1)) 0) as Hpos.
  specialize (Hpos ltac:(intros k Hk; pose proof (radix_range k ltac:(lia)); lia)).
  destruct (visits_spec (Z.to_nat (e_q E ^ (e_n E - 1))) _ V0 G0 ltac:(lia))
    as [HL Hel].
  cbv zeta. set (l := visits _ E x _) in *. rewrite R0 in *.
  split.
  - apply NoDup_alt. intros i j a Hi Hj.
    destruct (Hel i a Hi) as (_ & _ & Ri).
    destruct (Hel j a Hj) as (_ & _ & Rj). lia.
  - intros a. split.
    + intros Ha. apply list_elem_of_lookup in Ha. destruct Ha as [k Hk].
      destruct (Hel k a Hk) as (A & B & _). split; [exact A | exact B].
    + intros [La Ha].
      pose proof (gray_rank_bound m a (Z.to_nat (e_n E - 1)) 0
                    ltac:(intros k Hk; apply Ha; lia)) as Hr.
      destruct (lookup_lt_is_Some_2 l
                  (Z.to_nat (gray_rank m a 0 (Z.to_nat (e_n E - 1))))
                  ltac:(lia)) as [b Hb].
      destruct (Hel _ b Hb) as (Lb & Hbr & Rb).
      rewrite Z2Nat.id in Rb by lia.
      assert (a = b) as ->; [|apply list_elem_of_lookup; eexists; exact Hb].
      apply array_ext; [lia|]. intros k Hk.
      apply (gray_rank_inj m a b (Z.to_nat (e_n E - 1)) 0);
        [|lia|lia].
      intros t Ht. split; [apply Ha | apply Hbr]; lia.
Qed.

Lemma pruned_fold (h Scur : list Z) :
  pruned E h x Scur
  = foldl (count_neighbour E h x) (Done Scur)
      (visits (Z.to_nat (e_q E ^ (e_n E - 1))) E x (odometer_begin (e_n E))).
Proof.
  destruct radix_begin as [G0 R0]. pose proof radix_fuel as Hfuel.
  pose proof (radix_size_pos m (Z.to_nat (e_n E - 1)) 0) as Hpos.
  specialize (Hpos ltac:(intros k Hk; pose proof (radix_range k ltac:(lia)); lia)).
  unfold pruned. apply traverse_fold; [apply visited_begin | exact G0 | lia].
Qed.

(** The traversal builds the spectrum of the reference as soon as no
    neighbour that has an increment at or above its number of ranks is
    below [qmax]. *)
Lemma radix_exact (h Scur : list Z) :
  (forall a, a ∈ all_ranks (Z.to_nat (e_n E - 1)) (e_q E) ->
     (exists j, 0 <= j < e_n E - 1 /\ m j <= a.[j]) ->
     e_qmax E <= (neighbour E h x a).2) ->
  pruned E h x Scur = brute_force E h x Scur.
Proof.
  intros Hout. rewrite pruned_fold. unfold brute_force.
  change (fun acc a => do Scur <- acc; record E Scur (neighbour E h x a).2)
    with (count_neighbour E h x).
  destruct visits_whole as [ND Hin]. cbv zeta in ND, Hin.
  set (l := visits _ E x _) in *.
  set (A := all_ranks (Z.to_nat (e_n E - 1)) (e_q E)) in *.
  rewrite <- (count_neighbour_perm E h x _ _
                (filter_app_complement (fun a => a ∈ l) A)).
  rewrite foldl_app.
  rewrite (count_neighbour_skip E h x (filter (fun a => ¬ a ∈ l) A)).
  - apply count_neighbour_perm. apply NoDup_Permutation.
    + exact ND.
    + apply NoDup_filter, NoDup_all_ranks.
    + intros a. rewrite list_elem_of_filter. split; [|tauto].
      intros Ha. split; [exact Ha|]. apply Hin in Ha. destruct Ha as [La Ha].
      apply elem_of_all_ranks; [exact La|]. intros i Hi.
      pose proof (Ha i ltac:(lia)). pose proof (radix_range i ltac:(lia)). lia.
  - intros a Ha. apply list_elem_of_filter in Ha. destruct Ha as [Hn' HA].
    apply Hout; [exact HA|].
    destruct (elem_of_all_ranks_inv _ _ a HA) as [La Hd].
    destruct (outside_or_inside m a (Z.to_nat (e_n E - 1))) as [I|(j & Hj & Ho)].
    + exfalso. apply Hn'. apply Hin. split; [exact La|].
      intros i Hi. split; [apply Hd; lia | apply I; lia].
    + exists j. split; [lia | exact Ho].
Qed.

End Radix.

(** X26: when no cell of the cutoff table is below [q], so that the cutoff
    sets no rank aside, the loop over the neighbours of a codeword goes
    exactly once through each of the [q ^ (n - 1)] rank vectors, and the
    spectrum it builds is the one of the reference, which loops every rank
    of every coordinate from 0 to [q - 1]. *)
Theorem traverse_exhaustive (E : env) (h x Scur : list Z) :
  1 <= e_n E < 2 ^ 63 -> 2 <= e_q E < 2 ^ 64 -> e_n E * e_q E < 2 ^ 64 ->
  (forall j, 0 <= j < e_n E - 1 -> 0 <= x.[j] < e_q E) ->
  (forall k, 0 <= k < e_n E * e_q E -> e_q E <= (e_dcap E).[k]) ->
  visits (Z.to_nat (e_q E ^ (e_n E - 1))) E x (odometer_begin (e_n E))
    ≡ₚ all_ranks (Z.to_nat (e_n E - 1)) (e_q E) /\
  pruned E h x Scur = brute_force E h x Scur.
Proof.
  intros Hn Hq Hnq Hx Hcap.
  assert (forall w j, 0 <= w < e_n E -> 0 <= j < e_n E - 1 ->
            (fun _ : Z => e_q E) j
            = Z.max 2 (Z.min (e_q E) (e_dcap E).[w * e_q E + x.[j]])) as Hm.
  { intros w j Hw Hj. pose proof (Hx j Hj) as Hxj.
    pose proof (Hcap (w * e_q E + x.[j]) ltac:(nia)). lia. }
  split.
  - destruct (visits_whole E x _ Hn Hq Hnq Hx Hm) as [ND Hin].
    cbv zeta in ND, Hin. apply NoDup_Permutation.
    + exact ND.
    + apply NoDup_all_ranks.
    + intros a. rewrite Hin. split.
      * intros [La Ha]. apply elem_of_all_ranks; [exact La|].
        intros i Hi. pose proof (Ha i ltac:(lia)). lia.
      * intros Ha. destruct (elem_of_all_ranks_inv _ _ a Ha) as [La Hd].
        split; [exact La|]. intros i Hi. pose proof (Hd i ltac:(lia)). lia.
  - apply (radix_exact E x _ Hn Hq Hnq Hx Hm).
    intros a Ha (j & Hj & Ho).
    destruct (elem_of_all_ranks_inv _ _ a Ha) as [_ Hd].
    pose proof (Hd j ltac:(lia)). lia.
Qed.

Lemma traverse_exhaustive_witness :
  let E := make_env GF4 3 20 square [0; 1; 2; 3] in
  visits (Z.to_nat (e_q E ^ (e_n E - 1))) E [1; 0; 3] (odometer_begin (e_n E))
    ≡ₚ all_ranks (Z.to_nat (e_n E - 1)) (e_q E) /\
  pruned E [2; 1; 0] [1; 0; 3] (alloc 20)
  = brute_force E [2; 1; 0] [1; 0; 3] (alloc 20).
Proof.
  apply (traverse_exhaustive (make_env GF4 3 20 square [0; 1; 2; 3])
           [2; 1; 0] [1; 0; 3] (alloc 20)).
  - simpl. lia.
  - simpl. lia.
  - simpl. lia.
  - intros j Hj. simpl in Hj.
    assert (j = 0 \/ j = 1) as [-> | ->] by lia; cbv; split; congruence.
  - intros k Hk. apply Z.leb_le.
    apply (forallb_below
             (fun k => e_q (make_env GF4 3 20 square [0; 1; 2; 3])
                       <=? (e_dcap (make_env GF4 3 20 square [0; 1; 2; 3])).[k])
             12); [vm_compute; reflexivity | exact Hk].
Defined.

(** ** The cutoff loses nothing on the codes of length 3 at most *)

Lemma quadrance_sum_mono (E : env) (x y : list Z) (i : Z) (d : nat) :
  (forall k, 0 <= (e_Q E).[k]) -> 0 <= i ->
  quadrance_sum E x y i <= quadrance_sum E x y (i + Z.of_nat d).
Proof.
  intros HQ Hi. induction d as [|d IH]; [rewrite Z.add_0_r; lia|].
  replace (i + Z.of_nat (S d)) with (i + Z.of_nat d + 1) by lia.
  rewrite quadrance_sum_succ by lia.
  pose proof (HQ (u64 (x.[i + Z.of_nat d] * e_q E + y.[i + Z.of_nat d]))). lia.
Qed.

Lemma quadrance_sum_upper (E : env) (x y : list Z) (M : Z) (d : nat) :
  (forall k, 0 <= (e_Q E).[k] <= M) ->
  0 <= quadrance_sum E x y (Z.of_nat d) <= Z.of_nat d * M.
Proof.
  intros HQ. induction d as [|d IH].
  - unfold quadrance_sum. rewrite for_empty by lia. lia.
  - replace (Z.of_nat (S d)) with (Z.of_nat d + 1) by lia.
    rewrite quadrance_sum_succ by lia.
    pose proof (HQ (u64 (x.[Z.of_nat d] * e_q E + y.[Z.of_nat d]))). lia.
Qed.

Lemma quadrance_sum_two (E : env) (x y : list Z) (n i j : Z) :
  (forall k, 0 <= (e_Q E).[k]) -> 0 <= i < j -> j < n ->
  (e_Q E).[u64 (x.[i] * e_q E + y.[i])] + (e_Q E).[u64 (x.[j] * e_q E + y.[j])]
  <= quadrance_sum E x y n.
Proof.
  intros HQ Hi Hj.
  pose proof (quadrance_sum_mono E x y (j + 1) (Z.to_nat (n - (j + 1))) HQ
                ltac:(lia)) as H1.
  replace (j + 1 + Z.of_nat (Z.to_nat (n - (j + 1)))) with n in H1 by lia.
  rewrite quadrance_sum_succ in H1 by lia.
  pose proof (quadrance_sum_mono E x y (i + 1) (Z.to_nat (j - (i + 1))) HQ
                ltac:(lia)) as H2.
  replace (i + 1 + Z.of_nat (Z.to_nat (j - (i + 1)))) with j in H2 by lia.
  rewrite quadrance_sum_succ in H2 by lia.
  pose proof (quadrance_sum_mono E x y 0 (Z.to_nat i) HQ ltac:(lia)) as H3.
  replace (0 + Z.of_nat (Z.to_nat i)) with i in H3 by lia.
  assert (quadrance_sum E x y 0 = 0) as H0
    by (unfold quadrance_sum; rewrite for_empty by lia; reflexivity).
  lia.
Qed.

(** The rows of the cutoff table are the same at the weights 0, 1 and 2. *)
Lemma short_rows (F : field) (n qmax : Z) (C : list point) (pi : list Z)
    (w v : Z) :
  let E := make_env F n qmax C pi in
  0 <= w < n -> n <= 3 -> 0 <= v < e_q E ->
  (e_dcap E).[w * e_q E + v] = (e_dcap E).[v].
Proof.
  intros E Hw Hn Hv. unfold E in *. cbn [make_env e_dcap e_q] in *.
  set (q := Z.of_nat (length C)) in *.
  set (Q := fill_Q C pi q). set (V := fill_V Q q).
  set (c := find_cqmin Q V q). unfold fill_dcap.
  replace v with (0 * q + v) at 2 by lia.
  rewrite !(fill_table_get
              (fun w j => dcap_scan (Z.to_nat q) Q V q j 0 (dcap_bound qmax w c)))
    by lia.
  unfold dcap_bound.
  destruct (Z.ltb_spec 2 w); [lia|]. reflexivity.
Qed.

(** A neighbour with an increment at or after the cutoff of its coordinate
    is at a quadrance of [qmax] at least. *)
Lemma short_outside (F : field) (m n qmax M : Z) (C : list point)
    (pi h x a : list Z) (j : Z) :
  let E := make_env F n qmax C pi in
  gf_tables F m -> 1 <= m <= 31 -> Z.of_nat (length C) = 2 ^ m ->
  1 <= n <= 3 -> 0 <= qmax < 2 ^ 32 ->
  (forall k, (fill_Q C pi (2 ^ m)).[k] <= M) -> n * M < 2 ^ 32 ->
  (forall i, 0 <= i < n - 1 -> 0 <= h.[i] <= 2 ^ 31 - 2 ^ m + 1) ->
  (forall i, 0 <= i < n -> 0 <= x.[i] < 2 ^ m) ->
  chk_valid F n h x = true ->
  a ∈ all_ranks (Z.to_nat (n - 1)) (2 ^ m) ->
  0 <= j < n - 1 -> radix E x j <= a.[j] ->
  qmax <= (neighbour E h x a).2.
Proof.
  intros E Ht Hm HC Hn Hqmax HM HnM Hh Hx Vx Ha Hj Hout.
  assert (2 <= 2 ^ m) as Hq2
    by (change 2 with (2 ^ 1) at 1; apply Z.pow_le_mono_r; lia).
  assert (2 ^ m <= 2 ^ 31) as Hq31 by (apply Z.pow_le_mono_r; lia).
  subst E. unfold make_env, radix in *. rewrite HC in *. cbv zeta in *.
  cbn [e_q e_dcap] in Hout.
  set (q := 2 ^ m) in *. set (Q := fill_Q C pi q) in *.
  set (V := fill_V Q q) in *. set (c := find_cqmin Q V q) in *.
  set (D := fill_dcap Q V n q qmax c) in *.
  set (E' := Env F n q qmax Q V D) in *.
  destruct (elem_of_all_ranks_inv _ _ a Ha) as [La Hd].
  assert (forall i, 0 <= i < n - 1 -> 0 <= a.[i] < q) as Hda
    by (intros i Hi; apply Hd; lia).
  assert (forall k, 0 <= Q.[k] < 2 ^ 32) as HQ by (intros k; apply fill_Q_range).
  (* the cutoff of the coordinate [j] *)
  destruct (fill_dcap_cell Q n q qmax c 0 x.[j] ltac:(lia) (Hx j ltac:(lia)))
    as [_ Hcell]. cbv zeta in Hcell. fold V D in Hcell.
  replace (0 * q + x.[j]) with x.[j] in Hcell by lia.
  pose proof (Hda j Hj) as Haj.
  assert (dcap_bound qmax 0 c < Q.[x.[j] * q + V.[x.[j] * q + a.[j]]]) as Hbig.
  { destruct (Z.lt_ge_cases (dcap_bound qmax 0 c)
                Q.[x.[j] * q + V.[x.[j] * q + a.[j]]]) as [|G]; [assumption|].
    apply (Hcell a.[j] Haj) in G. lia. }
  (* the neighbour *)
  destruct (neighbour_spec E' h x a ltac:(cbn; lia)) as (Ly & Hy & Hlast & Hquad).
  cbv zeta in Ly, Hy, Hlast, Hquad. rewrite Hquad.
  set (y := (neighbour E' h x a).1) in *.
  change (e_n E') with n in *. change (e_q E') with q in *.
  change (e_V E') with V in *. change (e_F E') with F in *.
  assert (forall i, 0 <= i < n - 1 -> y.[i] = V.[x.[i] * q + a.[i]]) as Hy'.
  { intros i Hi. rewrite Hy by lia. f_equal. apply u64_small.
    pose proof (Hx i ltac:(lia)). pose proof (Hda i Hi). nia. }
  assert (forall i, 0 <= i < n -> 0 <= y.[i] < q) as Hyr.
  { intros i Hi. destruct (Z.eq_dec i (n - 1)) as [->|N].
    - rewrite Hlast. apply (gf_accmul_all_range F m); [exact Ht | lia | lia].
    - rewrite Hy' by lia.
      destruct (fill_V_distinct Q q x.[i] (Hx i ltac:(lia))) as [Rg _].
      apply Rg. apply Hda. lia. }
  assert (forall i, 0 <= i < n ->
            (e_Q E').[u64 (x.[i] * q + y.[i])] = Q.[x.[i] * q + y.[i]]) as Hterm.
  { intros i Hi. change (e_Q E') with Q. f_equal. apply u64_small.
    pose proof (Hx i Hi). pose proof (Hyr i Hi). nia. }
  assert (chk_valid F n h y = true) as Vy.
  { unfold chk_valid. rewrite u64_small by lia. apply Z.eqb_eq.
    symmetry. exact Hlast. }
  assert (x.[j] <> y.[j]) as Hdj.
  { intros Eq. rewrite <- (Hy' j Hj), <- Eq in Hbig.
    destruct (fill_Q_table C pi q x.[j] x.[j] (Hx j ltac:(lia)) (Hx j ltac:(lia)))
      as (_ & Z0 & _). fold Q in Z0. rewrite Z0 in Hbig.
    unfold dcap_bound, u64 in Hbig.
    match type of Hbig with
    | ?A mod ?B < 0 => pose proof (Z.mod_pos_bound A B ltac:(lia))
    end. lia. }
  destruct (chk_valid_differ F m n h x y j Ht ltac:(lia) ltac:(lia) Hh
              ltac:(intros i Hi; split; [apply Hx | apply Hyr]; lia)
              Vx Vy ltac:(lia) Hdj) as (i & Hi & Nij & Hdi).
  (* the two coordinates weigh more than [qmax] together *)
  destruct (find_cqmin_min C pi q Hq2) as [Hmin (i0 & j0 & _ & _ & _ & Ec)].
  cbv zeta in Hmin, Ec. fold Q V c in Hmin, Ec.
  pose proof (Hmin x.[i] y.[i] (Hx i Hi) (Hyr i Hi) Hdi) as Hci.
  pose proof (HQ (i0 * q + j0)) as Hc. rewrite <- Ec in Hc.
  rewrite <- (Hy' j Hj) in Hbig.
  assert (Q.[x.[i] * q + y.[i]] + Q.[x.[j] * q + y.[j]]
          <= quadrance_sum E' x y n) as Hsum.
  { rewrite <- (Hterm i Hi), <- (Hterm j ltac:(lia)).
    destruct (Z.lt_trichotomy i j) as [Lt | [Eq | Gt]]; [|lia|].
    - apply (quadrance_sum_two E' x y n i j); [intros k; apply HQ | lia | lia].
    - rewrite Z.add_comm.
      apply (quadrance_sum_two E' x y n j i); [intros k; apply HQ | lia | lia]. }
  pose proof (quadrance_sum_upper E' x y M (Z.to_nat n)
                ltac:(intros k; split; [apply HQ | apply HM])) as Hup.
  rewrite Z2Nat.id in Hup by lia.
  rewrite u32_small by lia.
  assert (dcap_bound qmax 0 c
          = if c <=? qmax then qmax - c else qmax - c + 2 ^ 64) as Eb.
  { unfold dcap_bound. change (2 <? 0) with false. cbv iota.
    rewrite (u64_small (1 * c)) by lia. rewrite Z.mul_1_l.
    destruct (Z.leb_spec c qmax); [apply u64_small; lia|].
    unfold u64. symmetry. apply (Z.mod_unique _ _ (-1)); lia. }
  rewrite Eb in Hbig. pose proof (HQ (x.[j] * q + y.[j])).
  destruct (Z.leb_spec c qmax); lia.
Qed.

Lemma get_bounded (a : list Z) (M : Z) :
  0 <= M ->
  (forall k, 0 <= k < Z.of_nat (length a) -> a.[k] <= M) ->
  forall k, a.[k] <= M.
Proof.
  intros HM H k. destruct (Z.lt_ge_cases k (Z.of_nat (length a))) as [Lt|Ge].
  - destruct (Z.lt_ge_cases k 0) as [Neg|Pos]; [|apply H; lia].
    rewrite get_neg by exact Neg.
    destruct a as [|v a]; [exact HM|]. apply H. cbn [length]. lia.
  - unfold get. rewrite lookup_ge_None_2 by lia. exact HM.
Qed.

(** X27: on a code of length 3 at most the cutoff loses nothing.  Over the
    tables of a field of [2 ^ m] elements, when the sum of [n] quadrances
    fits in 32 bits and the exponents of the parity are small enough for
    the [int] sum of [gf_accmul] not to pass [INT_MAX] (at most
    [2 ^ 31 - 2 ^ m + 1]), the loop over the neighbours of a codeword builds the spectrum of the
    reference, which loops every rank of every coordinate from 0 to
    [q - 1]: the rows of the cutoff table that the traversal reads are
    those of the weights 0, 1 and 2, which are the same, and a neighbour
    beyond the cutoff of a coordinate differs from the codeword in another
    coordinate as well, which puts it at [qmax] or further. *)
Theorem pruned_exact_short (F : field) (m n qmax M : Z) (C : list point)
    (pi h x Scur : list Z) :
  gf_tables F m -> 1 <= m <= 31 -> Z.of_nat (length C) = 2 ^ m ->
  1 <= n <= 3 -> 0 <= qmax < 2 ^ 32 ->
  (forall k, (fill_Q C pi (2 ^ m)).[k] <= M) -> n * M < 2 ^ 32 ->
  (forall i, 0 <= i < n - 1 -> 0 <= h.[i] <= 2 ^ 31 - 2 ^ m + 1) ->
  (forall i, 0 <= i < n -> 0 <= x.[i] < 2 ^ m) ->
  chk_valid F n h x = true ->
  pruned (make_env F n qmax C pi) h x Scur
  = brute_force (make_env F n qmax C pi) h x Scur.
Proof.
  intros Ht Hm HC Hn Hqmax HM HnM Hh Hx Vx.
  assert (2 <= 2 ^ m) as Hq2
    by (change 2 with (2 ^ 1) at 1; apply Z.pow_le_mono_r; lia).
  assert (2 ^ m <= 2 ^ 31) as Hq31 by (apply Z.pow_le_mono_r; lia).
  set (E := make_env F n qmax C pi).
  assert (e_n E = n) as En by reflexivity.
  assert (e_q E = 2 ^ m) as Eq by (cbn; exact HC).
  assert (e_qmax E = qmax) as Eqmax by reflexivity.
  apply (radix_exact E x (radix E x)).
  - rewrite En. lia.
  - rewrite Eq. lia.
  - rewrite En, Eq. nia.
  - intros j Hj. rewrite En in Hj. rewrite Eq. apply Hx. lia.
  - intros w j Hw Hj. unfold radix. rewrite En in Hw, Hj.
    pose proof (short_rows F n qmax C pi w x.[j]) as Hr. cbv zeta in Hr.
    fold E in Hr. rewrite Hr; [reflexivity | lia | lia |].
    rewrite Eq. apply Hx. lia.
  - intros a Ha (j & Hj & Ho). rewrite En, Eq in *. rewrite Eqmax.
    apply (short_outside F m n qmax M C pi h x a j); assumption.
Qed.

Lemma pruned_exact_short_witness :
  pruned (make_env GF8 3 6 checkerboard [0; 1; 2; 3; 4; 5; 6; 7])
         [2; 1; 0] [2; 3; 5] (alloc 6)
  = brute_force (make_env GF8 3 6 checkerboard [0; 1; 2; 3; 4; 5; 6; 7])
                [2; 1; 0] [2; 3; 5] (alloc 6).
Proof.
  apply (pruned_exact_short GF8 3 3 6 18 checkerboard [0; 1; 2; 3; 4; 5; 6; 7]
           [2; 1; 0] [2; 3; 5] (alloc 6)).
  - apply gf_tablesb_sound. reflexivity.
  - lia.
  - reflexivity.
  - lia.
  - lia.
  - apply get_bounded; [lia|]. intros k Hk. apply Z.leb_le.
    apply (forallb_below
             (fun k => (fill_Q checkerboard [0; 1; 2; 3; 4; 5; 6; 7] (2 ^ 3)).[k]
                       <=? 18) 64); [vm_compute; reflexivity | exact Hk].
  - lia.
  - intros i Hi. assert (i = 0 \/ i = 1) as [-> | ->] by lia; cbv; split; congruence.
  - intros i Hi.
    assert (i = 0 \/ i = 1 \/ i = 2) as [-> | [-> | ->]] by lia;
      cbv; split; congruence.
  - reflexivity.
Defined.

(** ** What the search records *)








(** ** The parities and their cosets *)

(** [chk_begin] writes the [n] cells of the block it is given, whatever they
    hold. *)
Lemma chk_begin_clears (n : Z) (h0 : list Z) :
  1 <= n < 2 ^ 32 -> length h0 = Z.to_nat n ->
  chk_begin n h0 = chk_begin n (alloc n).
Proof.
  intros Hn H0.
  assert (forall b, length b = Z.to_nat n ->
            length (chk_begin n b) = Z.to_nat n /\
            (forall k, 0 <= k < n - 1 -> (chk_begin n b).[k] = n - 1 - k) /\
            (chk_begin n b).[n - 1] = 0) as Hb.
  { intros b Lb. unfold chk_begin. rewrite u64_small by lia.
    pose proof (for_ind
      (fun i h => length h = Z.to_nat n /\
                  forall k, 0 <= k < i -> h.[k] = n - 1 - k)
      (fun i h => set h i (u32 (n - i - 1))) 0 (n - 1) b ltac:(lia)) as H.
    destruct H as [L Hk].
    - split; [exact Lb | intros; lia].
    - intros i h Hi [L Hk]. split; [rewrite length_set; exact L|].
      intros k Hk'. rewrite u32_small by lia.
      destruct (Z.eq_dec k i) as [->|Ne].
      + rewrite get_set_eq by lia. lia.
      + rewrite get_set_ne by lia. apply Hk. lia.
    - split; [rewrite length_set; exact L|]. split.
      + intros k Hk'. rewrite get_set_ne by lia. apply Hk. lia.
      + apply get_set_eq. lia. }
  destruct (Hb h0 H0) as (L1 & K1 & Z1).
  destruct (Hb (alloc n) (length_alloc n)) as (L2 & K2 & Z2).
  apply array_ext; [congruence|]. intros k Hk.
  destruct (Z.eq_dec k (n - 1)) as [->|N]; [congruence|].
  rewrite K1, K2 by lia. reflexivity.
Qed.

(** C5, amended: for every field of [q] elements and every length [n] with
    [2 <= n < q], whatever the arrays hold before, the enumeration of the
    parities ends and gives no parity twice; every parity it gives is in
    canonical form, with exponents between 0 and [q - 2] that never
    increase and the last one 0; and the coset of each has exactly
    [q ^ (n - 1)] codewords, 16 over GF(4) at the length 3, all different,
    each a solution of the parity. *)
Theorem parities_canonical_cosets (F : field) (n : Z) (h0 : list Z) :
  gf_size_minus_1 F = gf_size F - 1 -> 2 <= gf_size F <= 2 ^ 32 ->
  2 <= n < gf_size F -> length h0 = Z.to_nat n ->
  exists l,
    (forall fuel, gf_size F ^ (n - 1) <= Z.of_nat fuel ->
       parity_list fuel F n (chk_begin n h0) = Done l) /\
    NoDup l /\
    forall h, h ∈ l ->
      canonical n h /\
      (forall i, 0 <= i < n -> 0 <= h.[i] <= gf_size F - 2) /\
      forall x0, length x0 = Z.to_nat n ->
        exists c,
          (forall fuel, gf_size F ^ (n - 1) <= Z.of_nat fuel ->
             coset fuel F n h (cw_begin n h x0) = Done c) /\
          Z.of_nat (length c) = gf_size F ^ (n - 1) /\
          NoDup c /\
          Forall (fun x => chk_valid F n h x = true) c.
Proof.
  intros Hq1 Hq Hn H0.
  rewrite (chk_begin_clears n h0) by (lia || exact H0).
  destruct (parity_list_canonical F n Hq1 ltac:(lia) Hn) as (l & El & Fc & Fd & Nd).
  exists l. split; [exact El|]. split; [exact Nd|].
  intros h Hh. rewrite Forall_forall in Fc, Fd.
  pose proof (Fc h Hh) as Ch. pose proof (Fd h Hh) as Dh.
  split; [exact Ch|]. split.
  - intros i Hi.
    pose proof (descending_nonneg F n h Dh i ltac:(lia)).
    destruct Ch as (_ & Hle & _). specialize (Hle 0 i ltac:(lia) ltac:(lia)).
    destruct Dh as (_ & _ & _ & Hd0). lia.
  - intros x0 L0.
    destruct (coset_enumeration F n h Hq1 Hq ltac:(lia)) as (c & Ec & Lc & Nc).
    rewrite (cw_begin_clears n h (alloc n)) in Ec by (lia || apply length_alloc).
    exists c. rewrite cw_begin_clears by (lia || exact L0).
    split; [exact Ec|]. split; [exact Lc|]. split; [exact Nc|].
    apply Forall_forall. intros x Hx.
    apply (cw_produced_chk_valid F n h (alloc n) x ltac:(lia) (length_alloc n)).
    apply (coset_produced F n h (alloc n) (Z.to_nat (gf_size F ^ (n - 1)))
             (cw_begin n h (alloc n)) c).
    + apply cw_produced_begin.
    + rewrite cw_begin_clears by (lia || apply length_alloc). apply Ec.
      assert (0 < gf_size F ^ (n - 1)) by (apply Z.pow_pos_nonneg; lia). lia.
    + exact Hx.
Qed.

Lemma parities_canonical_cosets_witness :
  exists l,
    (forall fuel, gf_size GF4 ^ (3 - 1) <= Z.of_nat fuel ->
       parity_list fuel GF4 3 (chk_begin 3 [7; 7; 7]) = Done l) /\
    NoDup l /\
    forall h, h ∈ l ->
      canonical 3 h /\
      (forall i, 0 <= i < 3 -> 0 <= h.[i] <= gf_size GF4 - 2) /\
      forall x0, length x0 = Z.to_nat 3 ->
        exists c,
          (forall fuel, gf_size GF4 ^ (3 - 1) <= Z.of_nat fuel ->
             coset fuel GF4 3 h (cw_begin 3 h x0) = Done c) /\
          Z.of_nat (length c) = gf_size GF4 ^ (3 - 1) /\
          NoDup c /\
          Forall (fun x => chk_valid GF4 3 h x = true) c.
Proof.
  apply (parities_canonical_cosets GF4 3 [7; 7; 7]).
  - reflexivity.
  - simpl. lia.
  - simpl. lia.
  - reflexivity.
Defined.

(** ** The quadrances 0 and 1 in the choice of the best parity *)












